(** * Verification of the elliptic-curve core of libtorsion (ecc.c)

    A shallow embedding of [src/torsion/src/ecc.c]: the scalar field
    ([sc_*]), the prime field wrapper ([fe_*]), short-Weierstrass affine
    and Jacobian points ([wge_*], [jge_*]), Montgomery x-only points
    ([pge_*], [mont_mul]), the Edwards point decoder ([xge_import]) and the
    ECDSA / ECDH entry points, followed by the theorems about them.

    Conventions.
    - A limb array [mp_limb_t a[n]] is the integer it denotes, little-endian
      base [2^GMP_NUMB_BITS]; every [mpn_*] call carries its limb count as
      in the C code and only looks at that many limbs.
    - C [int] results that are 0/1 are [bool].
    - [size_t] / [mp_size_t] counters are [Z]; they never come near the
      word size.
    - [cleanse] calls erase dead storage and have no model. *)

From Stdlib Require Import ZArith Lia List Bool Znumtheory.
From Stdlib.Strings Require Import Byte.
From Stdlib Require Import Field Zmod.
Import ListNotations.
Local Open Scope Z_scope.

(* ================================================================= *)
(** * Bytes *)

Definition b2z (b : byte) : Z := Z.of_N (Byte.to_N b).

Definition z2b (z : Z) : byte :=
  match Byte.of_N (Z.to_N (z mod 256)) with
  | Some b => b
  | None => x00
  end.

(** Value of a byte string read least significant byte first. *)
Fixpoint le_value (l : list byte) : Z :=
  match l with
  | [] => 0
  | b :: t => b2z b + 256 * le_value t
  end.

Definition be_value (l : list byte) : Z := le_value (rev l).

Definition le_bytes (size : nat) (v : Z) : list byte :=
  map (fun i => z2b (Z.shiftr v (8 * Z.of_nat i))) (seq 0 size).

Definition be_bytes (size : nat) (v : Z) : list byte := rev (le_bytes size v).

(** [uint32_t] arithmetic used by the constant-time byte comparisons. *)
Definition u32 (z : Z) : Z := z mod 2 ^ 32.

(** One round of the loop shared by [bytes_lt] and [bytes_lte]. *)
Definition bytes_cmp_step (st : Z * Z) (xy : byte * byte) : Z * Z :=
  let '(eq, lt) := st in
  let x := b2z (fst xy) in
  let y := b2z (snd xy) in
  let lt' := Z.lor (Z.land (Z.lxor eq 1) lt)
                   (Z.land eq (Z.shiftr (u32 (x - y)) 31)) in
  let eq' := Z.land eq (Z.shiftr (u32 (Z.lxor x y - 1)) 31) in
  (eq', lt').

(** The loop visits the bytes from the most significant one: in array
    order for big endian ([endian = 1]), in reverse for little endian. *)
Definition bytes_cmp (a b : list byte) (size : nat) (endian : Z) : Z * Z :=
  let ab := combine (firstn size a) (firstn size b) in
  fold_left bytes_cmp_step (if endian =? -1 then rev ab else ab) (1, 0).

Definition bytes_lt (a b : list byte) (size : nat) (endian : Z) : bool :=
  let '(eq, lt) := bytes_cmp a b size endian in
  negb (Z.land lt (Z.lxor eq 1) =? 0).

Definition bytes_lte (a b : list byte) (size : nat) (endian : Z) : bool :=
  let '(eq, lt) := bytes_cmp a b size endian in
  negb (Z.lor lt eq =? 0).

Definition bytes_zero (a : list byte) (size : nat) : bool :=
  let z := fold_left (fun z b => Z.lor z (b2z b)) (firstn size a) 0 in
  negb (Z.shiftr (u32 (z - 1)) 31 =? 0).

(* ================================================================= *)
(** * The mpn layer

    Modelled from the spec: [mpn.h] is not part of the sources at hand;
    its functions follow the GMP [mpn] contracts, stated on the integers
    the limb arrays denote. *)

Section Torsion.

(** Width of [mp_limb_t]. *)
Variable GMP_NUMB_BITS : Z.

Definition limb_base (n : Z) : Z := 2 ^ (GMP_NUMB_BITS * n).

(** The integer held by the first [n] limbs of [a]. *)
Definition mpn_get (a n : Z) : Z := a mod limb_base n.

(** The limb [a[i]]. *)
Definition mpn_limb (a i : Z) : Z :=
  Z.land (Z.shiftr a (GMP_NUMB_BITS * i)) (Z.ones GMP_NUMB_BITS).

(** The array [a + k] (pointer arithmetic on limb pointers). *)
Definition mpn_offset (a k : Z) : Z := Z.shiftr a (GMP_NUMB_BITS * k).

(** Overwriting the first [n] limbs of [buf] with [v]. *)
Definition mpn_store (buf n v : Z) : Z :=
  v mod limb_base n + limb_base n * (buf / limb_base n).

Definition mpn_copyi (a n : Z) : Z := mpn_get a n.

Definition mpn_add_n (a b n : Z) : Z * Z :=
  let s := mpn_get a n + mpn_get b n in
  (s mod limb_base n, s / limb_base n).

Definition mpn_sub_n (a b n : Z) : Z * Z :=
  let d := mpn_get a n - mpn_get b n in
  (d mod limb_base n, if d <? 0 then 1 else 0).

Definition mpn_add_1 (a n b : Z) : Z * Z :=
  let s := mpn_get a n + b in
  (s mod limb_base n, s / limb_base n).

Definition mpn_sub_1 (a n b : Z) : Z * Z :=
  let d := mpn_get a n - b in
  (d mod limb_base n, if d <? 0 then 1 else 0).

(** [2n] limbs of product. *)
Definition mpn_mul_n (a b n : Z) : Z := mpn_get a n * mpn_get b n.

Definition mpn_sqr (a n : Z) : Z := mpn_get a n * mpn_get a n.

Definition mpn_rshift (a n cnt : Z) : Z := Z.shiftr (mpn_get a n) cnt.

Definition mpn_lshift (a n cnt : Z) : Z * Z :=
  let s := Z.shiftl (mpn_get a n) cnt in
  (s mod limb_base n, s / limb_base n).

(** [cnd != 0] selects [b]. *)
Definition mpn_cnd_select (cnd : bool) (a b n : Z) : Z :=
  if cnd then mpn_get b n else mpn_get a n.

Definition mpn_cmp (a b n : Z) : Z :=
  match mpn_get a n ?= mpn_get b n with
  | Lt => -1
  | Eq => 0
  | Gt => 1
  end.

Definition mpn_bitlen (a n : Z) : Z :=
  let v := mpn_get a n in
  if v =? 0 then 0 else Z.log2 v + 1.

(** Quotient and remainder of an [nn]-limb numerator by a [dn]-limb
    denominator. *)
Definition mpn_tdiv_qr (np nn dp dn : Z) : Z * Z :=
  (mpn_get np nn / mpn_get dp dn, mpn_get np nn mod mpn_get dp dn).

Definition mpn_import (rn : Z) (raw : list byte) (size : nat) (endian : Z) : Z :=
  (if endian =? 1 then be_value (firstn size raw)
   else le_value (firstn size raw)) mod limb_base rn.

Definition mpn_export (size : nat) (a an : Z) (endian : Z) : list byte :=
  if endian =? 1 then be_bytes size (mpn_get a an)
  else le_bytes size (mpn_get a an).

(* ================================================================= *)
(** * Scalar field *)

Definition MAX_SCALAR_BITS : Z := 521.
Definition MAX_SCALAR_LIMBS : Z :=
  (MAX_SCALAR_BITS + GMP_NUMB_BITS - 1) / GMP_NUMB_BITS.
Definition MAX_REDUCE_LIMBS : Z := (MAX_SCALAR_LIMBS + 1) * 4.

Record scalar_field_t : Type := mk_scalar_field {
  sc_endian : Z;
  sc_size : nat;
  sc_bits : Z;
  sc_shift : Z;
  sc_n : Z;
  sc_nh : Z;
  sc_m : Z;
  sc_limbs : Z;
  sc_raw : list byte
}.

(** [scalar_field_set]: [modulus] is the big-endian order, [bits] its
    declared bit length. *)
Definition scalar_field_set (modulus : list byte) (bits : Z) (endian : Z)
  : scalar_field_t :=
  let limbs := (bits + GMP_NUMB_BITS - 1) / GMP_NUMB_BITS in
  let size := Z.to_nat ((bits + 7) / 8) in
  let shift := (limbs + 1) * 2 in
  let n := mpn_import MAX_REDUCE_LIMBS modulus size 1 in
  let nh := mpn_rshift n MAX_REDUCE_LIMBS 1 in
  (* x[shift] = 1; m = x / n *)
  let x := limb_base shift in
  let m := fst (mpn_tdiv_qr x (shift + 1) n limbs) in
  let raw := mpn_export size n MAX_REDUCE_LIMBS endian in
  mk_scalar_field endian size bits shift n nh m limbs raw.

Section Scalar.

Variable sc : scalar_field_t.

Definition sc_zero : Z := 0.

Definition sc_import (raw : list byte) : Z * bool :=
  (mpn_import (sc_limbs sc) raw (sc_size sc) (sc_endian sc),
   bytes_lt raw (sc_raw sc) (sc_size sc) (sc_endian sc)).

Definition sc_import_weak (raw : list byte) : Z * bool :=
  let nn := sc_limbs sc in
  let r := mpn_import (sc_limbs sc) raw (sc_size sc) (sc_endian sc) in
  let '(sp, cy) := mpn_sub_n r (sc_n sc) nn in
  (mpn_cnd_select (cy =? 0) r sp nn, negb (cy =? 0)).

(** Barrett reduction of the [2 * shift] limbs of [ap]. *)
Definition sc_reduce_u (ap : Z) : Z * Z :=
  let sh := sc_shift sc in
  (* q = a * m *)
  let qp := mpn_mul_n ap (sc_m sc) sh in
  (* h = q >> k *)
  let hp := mpn_offset qp sh in
  (* u = a - h * n *)
  let up := mpn_mul_n hp (sc_n sc) sh in
  mpn_sub_n ap up (sh * 2).

(** The borrow checked by [assert(cy == 0)] in [sc_reduce]. *)
Definition sc_reduce_cy (ap : Z) : Z := snd (sc_reduce_u ap).

Definition sc_reduce (ap : Z) : Z :=
  let sh := sc_shift sc in
  let up := fst (sc_reduce_u ap) in
  (* u = u - n if u >= n *)
  let '(qp, cy) := mpn_sub_n up (sc_n sc) sh in
  mpn_cnd_select (cy =? 0) up qp (sc_limbs sc).

Definition sc_import_strong (raw : list byte) : Z * bool :=
  let rp := mpn_import (sc_shift sc * 2) raw (sc_size sc) (sc_endian sc) in
  (sc_reduce rp, bytes_lt raw (sc_raw sc) (sc_size sc) (sc_endian sc)).

Definition sc_import_reduce (raw : list byte) : Z * bool :=
  if Z.land (sc_bits sc) 7 =? 0 then sc_import_weak raw
  else sc_import_strong raw.

Definition sc_export (a : Z) : list byte :=
  mpn_export (sc_size sc) a (sc_limbs sc) (sc_endian sc).

Definition sc_set (a : Z) : Z := mpn_copyi a (sc_limbs sc).

Definition sc_select (a b : Z) (flag : bool) : Z :=
  mpn_cnd_select flag a b (sc_limbs sc).

Definition sc_set_word (word : Z) : Z := word.

Definition limb_indices (n : Z) : list Z :=
  map Z.of_nat (seq 0 (Z.to_nat n)).

Definition sc_equal (a b : Z) : bool :=
  fold_left (fun z i => Z.lor z (Z.lxor (mpn_limb a i) (mpn_limb b i)))
            (limb_indices (sc_limbs sc)) 0 =? 0.

Definition sc_cmp_var (a b : Z) : Z := mpn_cmp a b (sc_limbs sc).

Definition sc_is_zero (a : Z) : bool :=
  fold_left (fun z i => Z.lor z (mpn_limb a i))
            (limb_indices (sc_limbs sc)) 0 =? 0.

Definition sc_is_high (a : Z) : bool :=
  let cy := snd (mpn_sub_n a (sc_nh sc) (sc_limbs sc)) in
  (cy =? 0) && negb (sc_equal a (sc_nh sc)).

Definition sc_is_high_var (a : Z) : bool :=
  0 <? sc_cmp_var a (sc_nh sc).

Definition sc_neg (a : Z) : Z :=
  let nn := sc_limbs sc in
  let zero := sc_is_zero a in
  let r := fst (mpn_sub_n (sc_n sc) a nn) in
  (* r[i] &= -(zero ^ 1) *)
  if zero then 0 else r.

Definition sc_neg_cond (a : Z) (flag : bool) : Z :=
  let m := sc_neg a in
  sc_select a m flag.

Definition sc_add (ap bp : Z) : Z :=
  let nn := sc_limbs sc + 1 in
  let up := mpn_copyi ap (sc_limbs sc) in
  let vp := mpn_copyi bp (sc_limbs sc) in
  (* r = a + b *)
  let up := fst (mpn_add_n up vp nn) in
  (* r = r - n if u >= n *)
  let '(vp, cy) := mpn_sub_n up (sc_n sc) nn in
  mpn_cnd_select (cy =? 0) up vp (sc_limbs sc).

Definition sc_sub (a b : Z) : Z :=
  let mb := sc_neg b in
  sc_add a mb.

Definition sc_mul (a b : Z) : Z :=
  (* the limbs above [an] are zeroed before the product is stored *)
  let ap := mpn_mul_n a b (sc_limbs sc) in
  sc_reduce ap.

Definition sc_sqr (a : Z) : Z :=
  let ap := mpn_sqr a (sc_limbs sc) in
  sc_reduce ap.

(** [assert] failures are [None]. *)
Definition sc_mulshift (a b : Z) (shift : Z) : option Z :=
  let rn := sc_limbs sc * 2 in
  let nn := sc_limbs sc in
  let i := shift - 1 in
  let limbs := shift / GMP_NUMB_BITS in
  let left := shift mod GMP_NUMB_BITS in
  if negb (sc_bits sc <? shift) then None else
  (* rp[0 .. rn) = a * b, rp[rn] = 0 *)
  let rp := mpn_mul_n a b nn in
  let bit := Z.shiftr (mpn_limb rp (i / GMP_NUMB_BITS)) (i mod GMP_NUMB_BITS) in
  let rp := mpn_offset rp limbs in
  let rn := rn - limbs in
  if negb (0 <? rn) then None else
  let '(rp, rn) :=
    if negb (left =? 0) then
      let rp := mpn_store rp rn (mpn_rshift rp rn left) in
      (rp, rn - (if mpn_limb rp (rn - 1) =? 0 then 1 else 0))
    else (rp, rn) in
  let rn := rn + 1 in
  let rp := mpn_store rp rn (fst (mpn_add_1 rp rn (Z.land bit 1))) in
  let rn := rn - (if mpn_limb rp (rn - 1) =? 0 then 1 else 0) in
  if negb (rn <=? nn) then None else
  (* mpn_zero(r + rn, nn - rn); mpn_copyi(r, rp, rn) *)
  Some (mpn_copyi rp rn).

(** The bit indices [bits - 1, ..., 0] walked by the exponentiation and
    ladder loops. *)
Definition bits_down (bits : Z) : list Z :=
  rev (map Z.of_nat (seq 0 (Z.to_nat bits))).

Definition sc_pow (a e : Z) : Z :=
  let b := sc_set_word 1 in
  let b :=
    fold_left
      (fun b i =>
         let bit := Z.shiftr (mpn_limb e (i / GMP_NUMB_BITS))
                             (i mod GMP_NUMB_BITS) in
         let b := sc_sqr b in
         if Z.land bit 1 =? 0 then b else sc_mul b a)
      (bits_down (sc_bits sc)) b in
  sc_set b.

Definition sc_invert (a : Z) : Z * bool :=
  let ret := negb (sc_is_zero a) in
  (* e = n - 2 *)
  let e := mpn_copyi (sc_n sc) (sc_limbs sc) in
  let e := fst (mpn_sub_1 e (sc_limbs sc) 2) in
  (sc_pow a e, ret).

Definition sc_bitlen_var (a : Z) : Z := mpn_bitlen a (sc_limbs sc).

Definition sc_get_bits (a i w : Z) : Z :=
  let mask := Z.shiftl 1 w - 1 in
  Z.land (Z.shiftr (mpn_limb a (i / GMP_NUMB_BITS)) (i mod GMP_NUMB_BITS)) mask.

Definition sc_get_bit (k i : Z) : Z :=
  Z.land (Z.shiftr (mpn_limb k (i / GMP_NUMB_BITS)) (i mod GMP_NUMB_BITS)) 1.

Definition sc_minimize (a : Z) : Z * bool :=
  let high := sc_is_high a in
  (sc_neg_cond a high, high).

End Scalar.


(** Well-formedness of a scalar field context: what [scalar_field_set]
    establishes for an order [n] of exactly [bits] bits. *)
Definition sc_wf (sc : scalar_field_t) : bool :=
  (1 <? sc_bits sc) &&
  (sc_limbs sc =? (sc_bits sc + GMP_NUMB_BITS - 1) / GMP_NUMB_BITS) &&
  (Z.of_nat (sc_size sc) =? (sc_bits sc + 7) / 8) &&
  (sc_shift sc =? (sc_limbs sc + 1) * 2) &&
  (2 ^ (sc_bits sc - 1) <=? sc_n sc) && (sc_n sc <? 2 ^ sc_bits sc) &&
  (sc_nh sc =? sc_n sc / 2) &&
  (sc_m sc =? limb_base (sc_shift sc) / sc_n sc) &&
  ((sc_endian sc =? 1) || (sc_endian sc =? -1)).


(* ================================================================= *)
(** * Signed-digit recodings of scalars *)

(** Modelled from the spec: [mpn_cmp_limb(a, n, b)] of [mpn.h] compares
    the [n]-limb number [a] with the signed word [b]. *)
Definition mpn_cmp_limb (a n b : Z) : Z :=
  match mpn_get a n ?= b with
  | Lt => -1
  | Eq => 0
  | Gt => 1
  end.

Section Recoding.

Variable sc : scalar_field_t.

Definition sc_maxlen_var (k1 k2 k3 k4 : Z) : Z :=
  let len1 := sc_bitlen_var sc k1 in
  let len2 := sc_bitlen_var sc k2 in
  let len3 := sc_bitlen_var sc k3 in
  let len4 := sc_bitlen_var sc k4 in
  let max := 0 in
  let max := if max <? len1 then len1 else max in
  let max := if max <? len2 then len2 else max in
  let max := if max <? len3 then len3 else max in
  let max := if max <? len4 then len4 else max in
  max.

(** The main loop of [sc_naf_var] on the number [k] held in the limb
    buffer; the C code keeps the count [kn] of its significant limbs, so
    that [kn > 0] reads [k <> 0] and the carry asserted away cannot
    occur.  Each round emits one digit; [fuel] bounds the number of
    rounds. *)
Fixpoint sc_naf_loop (fuel : nat) (pow sign k : Z) : option (list Z) :=
  if negb (0 <? k) then Some [] else
  match fuel with
  | O => None
  | S fuel =>
      let '(z, k) :=
        if negb (Z.land (mpn_limb k 0) 1 =? 0) then
          let z := Z.land (mpn_limb k 0) (pow - 1) in
          let z := if negb (Z.land z (Z.shiftr pow 1) =? 0)
                   then z - pow else z in
          let k := if z <? 0 then k + (- z) else k - z in
          (z, k)
        else (0, k) in
      let k := if 0 <? k then Z.shiftr k 1 else k in
      match sc_naf_loop fuel pow sign k with
      | Some naf => Some (z * sign :: naf)
      | None => None
      end
  end.

(** Width-[w] NAF, least significant digit first, padded to [max]
    digits.  [None] is the failed [assert(i <= max)]. *)
Definition sc_naf_var (x sign width max : Z) : option (list Z) :=
  let nn := sc_limbs sc in
  let pow := Z.shiftl 1 (width + 1) in
  let k := mpn_copyi x nn in
  match sc_naf_loop (Z.to_nat max) pow sign k with
  | Some naf => Some (naf ++ repeat 0 (Z.to_nat max - length naf))
  | None => None
  end.

(** JSF->NAF conversion table. *)
Definition jsf_table : list Z :=
  [ -3;  (* -1 -1 *)
    -1;  (* -1 0 *)
    -5;  (* -1 1 *)
    -7;  (* 0 -1 *)
     0;  (* 0 0 *)
     7;  (* 0 1 *)
     5;  (* 1 -1 *)
     1;  (* 1 0 *)
     3 ] (* 1 1 *).

(** One column of the joint sparse form: the digit of [k1] given the
    low bits of both numbers. *)
Definition jsf_digit (k1 d1 k2 d2 : Z) : Z :=
  let m14 := Z.land (Z.land (mpn_limb k1 0) 3 + d1) 3 in
  let m24 := Z.land (Z.land (mpn_limb k2 0) 3 + d2) 3 in
  let m14 := if m14 =? 3 then -1 else m14 in
  let m24 := if m24 =? 3 then -1 else m24 in
  if negb (Z.land m14 1 =? 0) then
    let m8 := Z.land (Z.land (mpn_limb k1 0) 7 + d1) 7 in
    if ((m8 =? 3) || (m8 =? 5)) && (m24 =? 2) then - m14 else m14
  else 0.

Fixpoint sc_jsf_loop (fuel : nat) (s1 s2 k1 k2 d1 d2 : Z)
  : option (list Z) :=
  let nn := sc_limbs sc in
  if negb ((0 <? mpn_cmp_limb k1 nn (- d1)) || (0 <? mpn_cmp_limb k2 nn (- d2)))
  then Some [] else
  match fuel with
  | O => None
  | S fuel =>
      (* First phase. *)
      let u1 := jsf_digit k1 d1 k2 d2 in
      let u2 := jsf_digit k2 d2 k1 d1 in
      (* JSF -> NAF conversion. *)
      let z := nth (Z.to_nat ((u1 * s1 + 1) * 3 + (u2 * s2 + 1))) jsf_table 0 in
      (* Second phase. *)
      let d1 := if 2 * d1 =? u1 + 1 then 1 - d1 else d1 in
      let d2 := if 2 * d2 =? u2 + 1 then 1 - d2 else d2 in
      let k1 := if 0 <? k1 then Z.shiftr k1 1 else k1 in
      let k2 := if 0 <? k2 then Z.shiftr k2 1 else k2 in
      match sc_jsf_loop fuel s1 s2 k1 k2 d1 d2 with
      | Some naf => Some (z :: naf)
      | None => None
      end
  end.

Definition sc_jsf_var (x1 s1 x2 s2 max : Z) : option (list Z) :=
  let nn := sc_limbs sc in
  let k1 := mpn_copyi x1 nn in
  let k2 := mpn_copyi x2 nn in
  match sc_jsf_loop (Z.to_nat max) s1 s2 k1 k2 0 0 with
  | Some naf => Some (naf ++ repeat 0 (Z.to_nat max - length naf))
  | None => None
  end.

End Recoding.

(** Modular inverse by extended GCD; the result is zero and the return
    value false when [a] is not invertible modulo [m]. *)
Definition mpn_invert_n (a m n : Z) : Z * bool :=
  let x := mpn_get a n in
  let y := mpn_get m n in
  if Z.gcd x y =? 1 then (Z.invmod x y, true) else (0, false).

Definition sc_invert_var (sc : scalar_field_t) (a : Z) : Z * bool :=
  mpn_invert_n a (sc_n sc) (sc_limbs sc).

(* ================================================================= *)
(** * Prime field

    Modelled from the spec: the per-curve backends ([fields/*.h]: add,
    sub, opp, mul, square, to_bytes, from_bytes, selectznz, carry,
    nonzero, from_montgomery) are external collaborators with a fixed
    interface.  A field element is modelled by the residue it denotes, an
    element of [Zmod fe_p]; the limb representation (Montgomery form,
    unsaturated limbs, pending carries) is not observable through that
    interface.  The optional backends [invert], [sqrt] and [isqrt] stay
    function pointers that may be absent. *)

(** The field modulus [p] of the backend. *)
Variable fe_p : Z.

(** [fe_t]: a field element. *)
Local Abbreviation fe_t := (Zmod fe_p).

Record prime_field_t : Type := mk_prime_field {
  fe_endian : Z;
  fe_size : nat;
  fe_bits : Z;
  fe_plimbs : Z;                       (* fe->p *)
  fe_limbs : Z;
  fe_mask : Z;
  fe_raw : list byte;
  fe_sc : scalar_field_t;
  fe_invert_fn : option (fe_t -> fe_t);
  fe_sqrt_fn : option (fe_t -> fe_t * bool);
  fe_isqrt_fn : option (fe_t -> fe_t -> fe_t * bool);
  fe_has_scmul_121666 : bool
}.

Record prime_def_t : Type := mk_prime_def {
  def_bits : Z;
  def_p : list byte;
  def_invert : option (fe_t -> fe_t);
  def_sqrt : option (fe_t -> fe_t * bool);
  def_isqrt : option (fe_t -> fe_t -> fe_t * bool);
  def_scmul_121666 : bool
}.

Definition prime_field_init (def : prime_def_t) (endian : Z) : prime_field_t :=
  let bits := def_bits def in
  let limbs := (bits + GMP_NUMB_BITS - 1) / GMP_NUMB_BITS in
  let size := Z.to_nat ((bits + 7) / 8) in
  let mask :=
    if negb (Z.land bits 7 =? 0) then
      let ignore := Z.of_nat size * 8 - bits in
      Z.shiftl 1 (8 - ignore) - 1
    else 255 in
  let p := mpn_import MAX_REDUCE_LIMBS (def_p def) size 1 in
  let raw := mpn_export size p MAX_REDUCE_LIMBS endian in
  mk_prime_field endian size bits p limbs mask raw
    (scalar_field_set (def_p def) bits endian)
    (def_invert def) (def_sqrt def) (def_isqrt def) (def_scmul_121666 def).

Definition fe_set_word (word : Z) : fe_t := Zmod.of_Z fe_p word.

(** The cached constants of [prime_field_init]. *)
Definition fe_zero : fe_t := fe_set_word 0.
Definition fe_one : fe_t := fe_set_word 1.
Definition fe_two : fe_t := fe_set_word 2.
Definition fe_three : fe_t := fe_set_word 3.
Definition fe_four : fe_t := fe_set_word 4.

Definition fe_add (a b : fe_t) : fe_t := Zmod.add a b.
Definition fe_sub (a b : fe_t) : fe_t := Zmod.sub a b.
Definition fe_neg (a : fe_t) : fe_t := Zmod.opp a.
Definition fe_mul (a b : fe_t) : fe_t := Zmod.mul a b.
Definition fe_sqr (a : fe_t) : fe_t := Zmod.mul a a.
Definition fe_mul121666 (a : fe_t) : fe_t := Zmod.mul a (Zmod.of_Z fe_p 121666).

Definition fe_mone : fe_t := fe_neg fe_one.

Definition fe_is_zero (a : fe_t) : bool := Zmod.to_Z a =? 0.

Definition fe_equal (a b : fe_t) : bool :=
  let c := fe_sub a b in
  fe_is_zero c.

(** [flag != 0] selects [b]. *)
Definition fe_select (a b : fe_t) (flag : bool) : fe_t :=
  if flag then b else a.

Definition fe_swap (a b : fe_t) (flag : bool) : fe_t * fe_t :=
  if flag then (b, a) else (a, b).

Definition fe_is_odd (a : fe_t) : bool := Z.odd (Zmod.to_Z a).

Definition fe_neg_cond (a : fe_t) (flag : bool) : fe_t :=
  let b := fe_neg a in
  fe_select a b flag.

Definition fe_set_odd (a : fe_t) (odd : bool) : fe_t :=
  fe_neg_cond a (xorb (fe_is_odd a) odd).

Section Field.

Variable fe : prime_field_t.

Definition fe_import (raw : list byte) : fe_t * bool :=
  let v := if fe_endian fe =? 1 then be_value (firstn (fe_size fe) raw)
           else le_value (firstn (fe_size fe) raw) in
  (Zmod.of_Z fe_p v, bytes_lt raw (fe_raw fe) (fe_size fe) (fe_endian fe)).

Definition fe_import_be (raw : list byte) : fe_t * bool :=
  if fe_endian fe =? -1 then fe_import (rev (firstn (fe_size fe) raw))
  else fe_import raw.

(** [tmp[i] &= mask] on the most significant byte. *)
Definition mask_top_byte (raw : list byte) (mask : Z) : list byte :=
  let tmp := firstn (fe_size fe) raw in
  let i := if fe_endian fe =? -1 then (fe_size fe - 1)%nat else 0%nat in
  match nth_error tmp i with
  | Some b => firstn i tmp ++ z2b (Z.land (b2z b) mask) :: skipn (S i) tmp
  | None => tmp
  end.

Definition fe_import_uniform (raw : list byte) : fe_t * bool :=
  if negb (fe_mask fe =? 255) then fe_import (mask_top_byte raw (fe_mask fe))
  else fe_import raw.

Definition fe_export (a : fe_t) : list byte :=
  if fe_endian fe =? 1 then be_bytes (fe_size fe) (Zmod.to_Z a)
  else le_bytes (fe_size fe) (Zmod.to_Z a).

(** The caller keeps [n <= fe->limbs] (asserted in the C code). *)
Definition fe_set_limbs (p n : Z) : fe_t * bool :=
  fe_import (mpn_export (fe_size fe) p n (fe_endian fe)).

Definition fe_get_limbs (a : fe_t) : Z :=
  mpn_import (fe_limbs fe) (fe_export a) (fe_size fe) (fe_endian fe).

Definition fe_set_sc (sc : scalar_field_t) (a : Z) : fe_t * bool :=
  fe_import (sc_export sc a).

Definition sc_set_fe (sc : scalar_field_t) (a : fe_t) : Z * bool :=
  sc_import_reduce sc (fe_export a).

Definition fe_pow (a : fe_t) (e : Z) : fe_t :=
  fold_left
    (fun b i =>
       let bit := Z.shiftr (mpn_limb e (i / GMP_NUMB_BITS))
                           (i mod GMP_NUMB_BITS) in
       let b := fe_sqr b in
       if Z.land bit 1 =? 0 then b else fe_mul b a)
    (bits_down (fe_bits fe)) fe_one.

(** [fe_invert_var] re-imports the inverse under
    [assert(fe_set_limbs(...))]; [fe_invert_var_assert] is the asserted
    value. *)
Definition fe_invert_var (a : fe_t) : fe_t * bool :=
  let rp := fe_get_limbs a in
  let '(rp, ret) := mpn_invert_n rp (fe_plimbs fe) (fe_limbs fe) in
  (fst (fe_set_limbs rp (fe_limbs fe)), ret).

Definition fe_invert_var_assert (a : fe_t) : bool :=
  let rp := fe_get_limbs a in
  let '(rp, ret) := mpn_invert_n rp (fe_plimbs fe) (fe_limbs fe) in
  snd (fe_set_limbs rp (fe_limbs fe)).

Definition fe_invert (a : fe_t) : fe_t * bool :=
  let ret := negb (fe_is_zero a) in
  match fe_invert_fn fe with
  | Some invert => (invert a, ret)
  | None =>
      (* e = p - 2 *)
      let e := mpn_copyi (fe_plimbs fe) (fe_limbs fe) in
      let e := fst (mpn_sub_1 e (fe_limbs fe) 2) in
      (fe_pow a e, ret)
  end.

(** [None] is [assert(0 && "no sqrt implementation")]. *)
Definition fe_sqrt (a : fe_t) : option (fe_t * bool) :=
  match fe_sqrt_fn fe with
  | Some sqrt => Some (sqrt a)
  | None =>
      let p0 := mpn_limb (fe_plimbs fe) 0 in
      if Z.land p0 3 =? 3 then
        (* b = a^((p + 1) / 4) mod p *)
        let e := mpn_copyi (fe_plimbs fe) (fe_limbs fe + 1) in
        let e := fst (mpn_add_1 e (fe_limbs fe + 1) 1) in
        let e := mpn_rshift e (fe_limbs fe + 1) 2 in
        let b := fe_pow a e in
        let b2 := fe_sqr b in
        Some (b, fe_equal b2 a)
      else if Z.land p0 7 =? 5 then
        (* a2 = a * 2 mod p *)
        let a2 := fe_add a a in
        (* c = a2^((p - 5) / 8) mod p *)
        let e := mpn_copyi (fe_plimbs fe) (fe_limbs fe) in
        let e := fst (mpn_sub_1 e (fe_limbs fe) 5) in
        let e := mpn_rshift e (fe_limbs fe) 3 in
        let c := fe_pow a2 e in
        (* b = (c^2 * a2 - 1) * a * c mod p *)
        let b := fe_sqr c in
        let b := fe_mul b a2 in
        let b := fe_sub b fe_one in
        let b := fe_mul b a in
        let b := fe_mul b c in
        let b2 := fe_sqr b in
        Some (b, fe_equal b2 a)
      else None
  end.

Definition fe_isqrt (u v : fe_t) : option (fe_t * bool) :=
  match fe_isqrt_fn fe with
  | Some isqrt => Some (isqrt u v)
  | None =>
      let '(z, r1) := fe_invert v in
      let z := fe_mul z u in
      match fe_sqrt z with
      | Some (r, r2) => Some (r, r1 && r2)
      | None => None
      end
  end.

End Field.

(* ================================================================= *)
(** * Outcomes of code that can stop at an [assert] or loop *)

Inductive outcome (A : Type) : Type :=
| Return (a : A)
| Abort          (* an [assert] failed *)
| OutOfFuel.     (* the loop did not finish within the given fuel *)

Arguments Return {A} a.
Arguments Abort {A}.
Arguments OutOfFuel {A}.

Definition of_option {A} (o : option A) : outcome A :=
  match o with
  | Some a => Return a
  | None => Abort
  end.

(* ================================================================= *)
(** * Short Weierstrass curves *)

(** wge = weierstrass group element (affine) *)
Record wge_t : Type := mk_wge {
  wge_x : fe_t;
  wge_y : fe_t;
  wge_inf : bool
}.

(** jge = jacobian group element *)
Record jge_t : Type := mk_jge {
  jge_x : fe_t;
  jge_y : fe_t;
  jge_z : fe_t
}.

(** The part of [wei_t] the point arithmetic and ECDSA use; the
    hash-to-curve constants ([c], [z], [ai], [zi], [i2], [i3]) are left
    out. *)
Record wei_t : Type := mk_wei {
  ec_hash : Z;
  ec_fe : prime_field_t;
  ec_sc : scalar_field_t;
  ec_h : Z;
  ec_pmodn : Z;
  ec_red_n : fe_t;
  ec_a : fe_t;
  ec_b : fe_t;
  ec_zero_a : bool;
  ec_three_a : bool;
  ec_g : wge_t;
  ec_blind : Z;
  ec_unblind : wge_t;
  ec_windows : list wge_t;
  ec_points : list wge_t;
  ec_endo : bool;
  ec_beta : fe_t;
  ec_lambda : Z;
  ec_b1 : Z;
  ec_b2 : Z;
  ec_g1 : Z;
  ec_g2 : Z;
  ec_endo_points : list wge_t
}.

Section Weierstrass.

Variable ec : wei_t.

(** ** Affine points *)

Definition wge_zero : wge_t := mk_wge fe_zero fe_zero true.

Definition wge_validate (p : wge_t) : bool :=
  (* y^2 = x^3 + a * x + b *)
  let lhs := fe_sqr (wge_y p) in
  let rhs := fe_sqr (wge_x p) in
  let rhs := fe_mul rhs (wge_x p) in
  let ax := fe_mul (ec_a ec) (wge_x p) in
  let rhs := fe_add rhs ax in
  let rhs := fe_add rhs (ec_b ec) in
  fe_equal lhs rhs || wge_inf p.

(** [sign = None] is the C call with [sign = -1]. *)
Definition wge_set_x (x : fe_t) (sign : option bool) : option (wge_t * bool) :=
  (* y^2 = x^3 + a * x + b *)
  let y := fe_sqr x in
  let y := fe_mul y x in
  let ax := fe_mul (ec_a ec) x in
  let y := fe_add y ax in
  let y := fe_add y (ec_b ec) in
  match fe_sqrt (ec_fe ec) y with
  | None => None
  | Some (y, ret) =>
      let y := match sign with
               | Some s => fe_set_odd y s
               | None => y
               end in
      Some (mk_wge x y false, ret)
  end.

Definition wge_set_xy (x y : fe_t) : wge_t := mk_wge x y false.

Definition wge_import (raw : list byte) (len : nat) : option (option wge_t) :=
  let fe := ec_fe ec in
  match raw, len with
  | _, O => Some None
  | [], _ => Some None
  | form :: rest, _ =>
      let form := b2z form in
      if (form =? 2) || (form =? 3) then
        if negb (len =? 1 + fe_size fe)%nat then Some None else
        let '(x, ok) := fe_import fe rest in
        if negb ok then Some None else
        match wge_set_x x (Some (Z.odd form)) with
        | None => None
        | Some (r, ok) => if negb ok then Some None else Some (Some r)
        end
      else if (form =? 4) || (form =? 6) || (form =? 7) then
        if negb (len =? 1 + fe_size fe * 2)%nat then Some None else
        let '(x, ok) := fe_import fe rest in
        if negb ok then Some None else
        let '(y, ok) := fe_import fe (skipn (fe_size fe) rest) in
        if negb ok then Some None else
        let r := mk_wge x y false in
        if negb (form =? 4) && negb (form =? Z.lor 6 (Z.b2z (fe_is_odd y)))
        then Some None else
        if negb (wge_validate r) then Some None else
        Some (Some r)
      else Some None
  end.

Definition wge_export (p : wge_t) (compact : bool) : option (list byte) :=
  let fe := ec_fe ec in
  if wge_inf p then None else
  if compact then
    Some (z2b (Z.lor 2 (Z.b2z (fe_is_odd (wge_y p)))) :: fe_export fe (wge_x p))
  else
    Some (x04 :: fe_export fe (wge_x p) ++ fe_export fe (wge_y p)).

Definition wge_select (a b : wge_t) (flag : bool) : wge_t :=
  mk_wge (fe_select (wge_x a) (wge_x b) flag)
         (fe_select (wge_y a) (wge_y b) flag)
         (if flag then wge_inf b else wge_inf a).

Definition wge_set (a : wge_t) : wge_t := a.

Definition wge_equal (a b : wge_t) : bool :=
  let both := wge_inf a && wge_inf b in
  (* P = O, Q = O *)
  let ret := negb (xorb (wge_inf a) (wge_inf b)) in
  (* X1 = X2 *)
  let ret := ret && (fe_equal (wge_x a) (wge_x b) || both) in
  (* Y1 = Y2 *)
  ret && (fe_equal (wge_y a) (wge_y b) || both).

Definition wge_is_zero (a : wge_t) : bool := wge_inf a.

Definition wge_neg (a : wge_t) : wge_t :=
  mk_wge (wge_x a) (fe_neg (wge_y a)) (wge_inf a).

Definition wge_neg_cond (a : wge_t) (flag : bool) : wge_t :=
  mk_wge (wge_x a) (fe_neg_cond (wge_y a) flag) (wge_inf a).

Definition wge_dbl_var (p : wge_t) : wge_t :=
  let fe := ec_fe ec in
  (* P = O *)
  if wge_inf p then wge_zero else
  (* Y1 = 0 *)
  if (1 <? ec_h ec) && fe_is_zero (wge_y p) then wge_zero else
  (* L = (3 * X1^2 + a) / (2 * Y1) *)
  let l := fe_sqr (wge_x p) in
  let t := fe_add l l in
  let l := fe_add t l in
  let l := fe_add l (ec_a ec) in
  let t := fe_add (wge_y p) (wge_y p) in
  let t := fst (fe_invert_var fe t) in
  let l := fe_mul l t in
  (* X3 = L^2 - 2 * X1 *)
  let x3 := fe_sqr l in
  let x3 := fe_sub x3 (wge_x p) in
  let x3 := fe_sub x3 (wge_x p) in
  (* Y3 = L * (X1 - X3) - Y1 *)
  let t := fe_sub (wge_x p) x3 in
  let y3 := fe_mul l t in
  let y3 := fe_sub y3 (wge_y p) in
  mk_wge x3 y3 false.

Definition wge_add_var (a b : wge_t) : wge_t :=
  let fe := ec_fe ec in
  (* O + P = P *)
  if wge_inf a then wge_set b else
  (* P + O = P *)
  if wge_inf b then wge_set a else
  (* P + P, P + -P *)
  if fe_equal (wge_x a) (wge_x b) then
    (* P + -P = O *)
    if negb (fe_equal (wge_y a) (wge_y b)) then wge_zero
    (* P + P = 2P *)
    else wge_dbl_var a
  else
  (* X1 != X2, Y1 = Y2 *)
  if fe_equal (wge_y a) (wge_y b) then
    (* X3 = -X1 - X2 *)
    let x3 := fe_neg (wge_x a) in
    let x3 := fe_sub x3 (wge_x b) in
    (* Y3 = -Y1 *)
    let y3 := fe_neg (wge_y a) in
    mk_wge x3 y3 false
  else
  (* L = (Y1 - Y2) / (X1 - X2) *)
  let l := fe_sub (wge_y a) (wge_y b) in
  let t := fe_sub (wge_x a) (wge_x b) in
  let t := fst (fe_invert_var fe t) in
  let l := fe_mul l t in
  (* X3 = L^2 - X1 - X2 *)
  let x3 := fe_sqr l in
  let x3 := fe_sub x3 (wge_x a) in
  let x3 := fe_sub x3 (wge_x b) in
  (* Y3 = L * (X1 - X3) - Y1 *)
  let t := fe_sub (wge_x a) x3 in
  let y3 := fe_mul l t in
  let y3 := fe_sub y3 (wge_y a) in
  mk_wge x3 y3 false.

Definition wge_sub_var (a b : wge_t) : wge_t :=
  let c := wge_neg b in
  wge_add_var a c.

Definition wge_to_jge (a : wge_t) : jge_t :=
  mk_jge (fe_select (wge_x a) fe_one (wge_inf a))
         (fe_select (wge_y a) fe_one (wge_inf a))
         (fe_select fe_one fe_zero (wge_inf a)).

(** ** Jacobian points *)

Definition jge_zero : jge_t := mk_jge fe_one fe_one fe_zero.

Definition jge_select (a b : jge_t) (flag : bool) : jge_t :=
  mk_jge (fe_select (jge_x a) (jge_x b) flag)
         (fe_select (jge_y a) (jge_y b) flag)
         (fe_select (jge_z a) (jge_z b) flag).

Definition jge_set (a : jge_t) : jge_t := a.

Definition jge_is_zero (a : jge_t) : bool := fe_is_zero (jge_z a).

Definition jge_equal (a b : jge_t) : bool :=
  let inf1 := jge_is_zero a in
  let inf2 := jge_is_zero b in
  let both := inf1 && inf2 in
  (* P = O, Q = O *)
  let ret := negb (xorb inf1 inf2) in
  (* X1 * Z2^2 == X2 * Z1^2 *)
  let z1 := fe_sqr (jge_z a) in
  let z2 := fe_sqr (jge_z b) in
  let e1 := fe_mul (jge_x a) z2 in
  let e2 := fe_mul (jge_x b) z1 in
  let ret := ret && (fe_equal e1 e2 || both) in
  (* Y1 * Z2^3 == Y2 * Z1^3 *)
  let z1 := fe_mul z1 (jge_z a) in
  let z2 := fe_mul z2 (jge_z b) in
  let e1 := fe_mul (jge_y a) z2 in
  let e2 := fe_mul (jge_y b) z1 in
  ret && (fe_equal e1 e2 || both).

Definition jge_equal_x (p : jge_t) (x : fe_t) : bool :=
  let xz := fe_sqr (jge_z p) in
  let xz := fe_mul xz x in
  fe_equal (jge_x p) xz && negb (jge_is_zero p).

(** The loop of [jge_equal_r]: [cp] is the lifted candidate, [rx] the
    candidate scaled by [z^2]. *)
Fixpoint jge_equal_r_loop (fuel : nat) (px rn : fe_t) (cn cp : Z) (rx : fe_t)
  : outcome bool :=
  match fuel with
  | O => OutOfFuel
  | S fuel =>
      let cp := fst (mpn_add_n cp (sc_n (ec_sc ec)) cn) in
      if 0 <=? mpn_cmp cp (fe_plimbs (ec_fe ec)) cn then Return false else
      let rx := fe_add rx rn in
      if fe_equal px rx then Return true
      else jge_equal_r_loop fuel px rn cn cp rx
  end.

(** Only compiled with [ECC_WITH_TRICK]. *)
Definition jge_equal_r (fuel : nat) (p : jge_t) (x : Z) : outcome bool :=
  let fe := ec_fe ec in
  let sc := ec_sc ec in
  let cn := fe_limbs fe + 1 in
  if negb (sc_limbs sc <=? fe_limbs fe) then Abort else
  if jge_is_zero p then Return false else
  let zz := fe_sqr (jge_z p) in
  let '(rx, ok) := fe_set_sc fe sc x in
  if negb ok then Abort else
  let rx := fe_mul rx zz in
  if fe_equal (jge_x p) rx then Return true else
  let cp := mpn_copyi x (sc_limbs sc) in
  let rn := fe_mul (ec_red_n ec) zz in
  if negb (mpn_limb (sc_n sc) (cn - 1) =? 0) then Abort else
  if negb (mpn_limb (fe_plimbs fe) (cn - 1) =? 0) then Abort else
  jge_equal_r_loop fuel (jge_x p) rn cn cp rx.

Definition jge_neg (a : jge_t) : jge_t :=
  mk_jge (jge_x a) (fe_neg (jge_y a)) (jge_z a).

Definition jge_neg_cond (a : jge_t) (flag : bool) : jge_t :=
  mk_jge (jge_x a) (fe_neg_cond (jge_y a) flag) (jge_z a).

Definition jge_dblj (p : jge_t) : jge_t :=
  (* XX = X1^2 *)
  let xx := fe_sqr (jge_x p) in
  (* YY = Y1^2 *)
  let yy := fe_sqr (jge_y p) in
  (* ZZ = Z1^2 *)
  let zz := fe_sqr (jge_z p) in
  (* S = 4 * X1 * YY *)
  let s := fe_mul (jge_x p) yy in
  let s := fe_add s s in
  let s := fe_add s s in
  (* M = 3 * XX + a * ZZ^2 *)
  let m := fe_add xx xx in
  let m := fe_add m xx in
  let t := fe_sqr zz in
  let t := fe_mul t (ec_a ec) in
  let m := fe_add m t in
  (* T = M^2 - 2 * S *)
  let t := fe_sqr m in
  let t := fe_sub t s in
  let t := fe_sub t s in
  (* Z3 = 2 * Y1 * Z1 *)
  let rz := fe_mul (jge_z p) (jge_y p) in
  let rz := fe_add rz rz in
  (* X3 = T *)
  let rx := t in
  (* Y3 = M * (S - T) - 8 * YY^2 *)
  let xx := fe_sub s t in
  let zz := fe_sqr yy in
  let zz := fe_add zz zz in
  let zz := fe_add zz zz in
  let zz := fe_add zz zz in
  let ry := fe_mul m xx in
  let ry := fe_sub ry zz in
  mk_jge rx ry rz.

Definition jge_dbl0 (p : jge_t) : jge_t :=
  (* A = X1^2 *)
  let a := fe_sqr (jge_x p) in
  (* B = Y1^2 *)
  let b := fe_sqr (jge_y p) in
  (* C = B^2 *)
  let c := fe_sqr b in
  (* D = 2 * ((X1 + B)^2 - A - C) *)
  let d := fe_add (jge_x p) b in
  let d := fe_sqr d in
  let d := fe_sub d a in
  let d := fe_sub d c in
  let d := fe_add d d in
  (* E = 3 * A *)
  let e := fe_add a a in
  let e := fe_add e a in
  (* F = E^2 *)
  let f := fe_sqr e in
  (* Z3 = 2 * Y1 * Z1 *)
  let rz := fe_mul (jge_z p) (jge_y p) in
  let rz := fe_add rz rz in
  (* X3 = F - 2 * D *)
  let rx := fe_add d d in
  let rx := fe_sub f rx in
  (* Y3 = E * (D - X3) - 8 * C *)
  let c := fe_add c c in
  let c := fe_add c c in
  let c := fe_add c c in
  let d := fe_sub d rx in
  let ry := fe_mul e d in
  let ry := fe_sub ry c in
  mk_jge rx ry rz.

Definition jge_dbl3 (p : jge_t) : jge_t :=
  (* delta = Z1^2 *)
  let delta := fe_sqr (jge_z p) in
  (* gamma = Y1^2 *)
  let gamma := fe_sqr (jge_y p) in
  (* beta = X1 * gamma *)
  let beta := fe_mul (jge_x p) gamma in
  (* alpha = 3 * (X1 - delta) * (X1 + delta) *)
  let t1 := fe_sub (jge_x p) delta in
  let t2 := fe_add (jge_x p) delta in
  let alpha := fe_add t1 t1 in
  let alpha := fe_add alpha t1 in
  let alpha := fe_mul alpha t2 in
  (* Z3 = (Y1 + Z1)^2 - gamma - delta *)
  let rz := fe_add (jge_y p) (jge_z p) in
  let rz := fe_sqr rz in
  let rz := fe_sub rz gamma in
  let rz := fe_sub rz delta in
  (* X3 = alpha^2 - 8 * beta *)
  let t1 := fe_add beta beta in
  let t1 := fe_add t1 t1 in
  let t2 := fe_add t1 t1 in
  let rx := fe_sqr alpha in
  let rx := fe_sub rx t2 in
  (* Y3 = alpha * (4 * beta - X3) - 8 * gamma^2 *)
  let ry := fe_sub t1 rx in
  let ry := fe_mul ry alpha in
  let gamma := fe_sqr gamma in
  let gamma := fe_add gamma gamma in
  let gamma := fe_add gamma gamma in
  let gamma := fe_add gamma gamma in
  let ry := fe_sub ry gamma in
  mk_jge rx ry rz.

Definition jge_dbl_formula (p : jge_t) : jge_t :=
  if ec_zero_a ec then jge_dbl0 p
  else if ec_three_a ec then jge_dbl3 p
  else jge_dblj p.

Definition jge_dbl_var (p : jge_t) : jge_t :=
  (* P = O *)
  if jge_is_zero p then jge_zero else
  (* Y1 = 0 *)
  if (1 <? ec_h ec) && fe_is_zero (jge_y p) then jge_zero else
  jge_dbl_formula p.

Definition jge_add_var (a b : jge_t) : jge_t :=
  (* O + P = P *)
  if jge_is_zero a then jge_set b else
  (* P + O = P *)
  if jge_is_zero b then jge_set a else
  (* Z1Z1 = Z1^2 *)
  let z1z1 := fe_sqr (jge_z a) in
  (* Z2Z2 = Z2^2 *)
  let z2z2 := fe_sqr (jge_z b) in
  (* U1 = X1 * Z2Z2 *)
  let u1 := fe_mul (jge_x a) z2z2 in
  (* U2 = X2 * Z1Z1 *)
  let u2 := fe_mul (jge_x b) z1z1 in
  (* S1 = Y1 * Z2 * Z2Z2 *)
  let s1 := fe_mul (jge_y a) (jge_z b) in
  let s1 := fe_mul s1 z2z2 in
  (* S2 = Y2 * Z1 * Z1Z1 *)
  let s2 := fe_mul (jge_y b) (jge_z a) in
  let s2 := fe_mul s2 z1z1 in
  (* H = U2 - U1 *)
  let h := fe_sub u2 u1 in
  (* r = S2 - S1 *)
  let r0 := fe_sub s2 s1 in
  (* H = 0 *)
  if fe_is_zero h then
    if negb (fe_is_zero r0) then jge_zero
    else jge_dbl_var a
  else
  (* HH = H^2 *)
  let hh := fe_sqr h in
  (* HHH = H * HH *)
  let hhh := fe_mul h hh in
  (* V = U1 * HH *)
  let v := fe_mul u1 hh in
  (* Z3 = Z1 * Z2 * H *)
  let rz := fe_mul (jge_z a) (jge_z b) in
  let rz := fe_mul rz h in
  (* X3 = r^2 - HHH - 2 * V *)
  let rx := fe_sqr r0 in
  let rx := fe_sub rx hhh in
  let rx := fe_sub rx v in
  let rx := fe_sub rx v in
  (* Y3 = r * (V - X3) - S1 * HHH *)
  let u1 := fe_sub v rx in
  let u2 := fe_mul s1 hhh in
  let ry := fe_mul r0 u1 in
  let ry := fe_sub ry u2 in
  mk_jge rx ry rz.

Definition jge_sub_var (a b : jge_t) : jge_t :=
  let c := jge_neg b in
  jge_add_var a c.

Definition jge_mixed_add_var (a : jge_t) (b : wge_t) : jge_t :=
  (* O + P = P *)
  if jge_is_zero a then wge_to_jge b else
  (* P + O = P *)
  if wge_is_zero b then jge_set a else
  (* Z1Z1 = Z1^2 *)
  let z1z1 := fe_sqr (jge_z a) in
  (* U2 = X2 * Z1Z1 *)
  let u2 := fe_mul (wge_x b) z1z1 in
  (* S2 = Y2 * Z1 * Z1Z1 *)
  let s2 := fe_mul (wge_y b) (jge_z a) in
  let s2 := fe_mul s2 z1z1 in
  (* H = U2 - X1 *)
  let h := fe_sub u2 (jge_x a) in
  (* r = 2 * (S2 - Y1) *)
  let r0 := fe_sub s2 (jge_y a) in
  let r0 := fe_add r0 r0 in
  (* H = 0 *)
  if fe_is_zero h then
    if negb (fe_is_zero r0) then jge_zero
    else jge_dbl_var a
  else
  (* I = (2 * H)^2 *)
  let i := fe_add h h in
  let i := fe_sqr i in
  (* J = H * I *)
  let j := fe_mul h i in
  (* V = X1 * I *)
  let v := fe_mul (jge_x a) i in
  (* X3 = r^2 - J - 2 * V *)
  let rx := fe_sqr r0 in
  let rx := fe_sub rx j in
  let rx := fe_sub rx v in
  let rx := fe_sub rx v in
  (* Y3 = r * (V - X3) - 2 * Y1 * J *)
  let u2 := fe_sub v rx in
  let s2 := fe_mul (jge_y a) j in
  let s2 := fe_add s2 s2 in
  let ry := fe_mul r0 u2 in
  let ry := fe_sub ry s2 in
  (* Z3 = 2 * Z1 * H *)
  let rz := fe_mul (jge_z a) h in
  let rz := fe_add rz rz in
  mk_jge rx ry rz.

Definition jge_mixed_sub_var (a : jge_t) (b : wge_t) : jge_t :=
  let c := wge_neg b in
  jge_mixed_add_var a c.

Definition jge_dbl (p : jge_t) : jge_t :=
  (* P = O *)
  let inf := jge_is_zero p in
  (* Y1 = 0 *)
  let inf := if 1 <? ec_h ec then inf || fe_is_zero (jge_y p) else inf in
  let r := jge_dbl_formula p in
  mk_jge (fe_select (jge_x r) fe_one inf)
         (fe_select (jge_y r) fe_one inf)
         (fe_select (jge_z r) fe_zero inf).

(** Strongly unified Jacobian addition (Brier and Joye).  The stack
    slots shared through [#define] in the C code are named apart. *)
Definition jge_add (a b : jge_t) : jge_t :=
  (* Z1Z1 = Z1^2 *)
  let z1z1 := fe_sqr (jge_z a) in
  (* Z2Z2 = Z2^2 *)
  let z2z2 := fe_sqr (jge_z b) in
  (* U1 = X1 * Z2Z2 *)
  let u1 := fe_mul (jge_x a) z2z2 in
  (* U2 = X2 * Z1Z1 *)
  let u2 := fe_mul (jge_x b) z1z1 in
  (* S1 = Y1 * Z2Z2 * Z2 *)
  let s1 := fe_mul (jge_y a) z2z2 in
  let s1 := fe_mul s1 (jge_z b) in
  (* S2 = Y2 * Z1Z1 * Z1 *)
  let s2 := fe_mul (jge_y b) z1z1 in
  let s2 := fe_mul s2 (jge_z a) in
  (* Z = Z1 * Z2 *)
  let z := fe_mul (jge_z a) (jge_z b) in
  (* T = U1 + U2 *)
  let t := fe_add u1 u2 in
  (* M = S1 + S2 *)
  let m := fe_add s1 s2 in
  (* R = T^2 - U1 * U2 *)
  let r0 := fe_sqr t in
  let l := fe_mul u1 u2 in
  let r0 := fe_sub r0 l in
  (* R = R + a * Z^4 (if a != 0) *)
  let r0 :=
    if negb (ec_zero_a ec) then
      let l := fe_sqr z in
      let l := fe_sqr l in
      let l := fe_mul l (ec_a ec) in
      fe_add r0 l
    else r0 in
  (* Check for degenerate case (X1 != X2, Y1 = -Y2). *)
  let degenerate := fe_is_zero m && fe_is_zero r0 in
  (* M = U1 - U2 (if degenerate) *)
  let l := fe_sub u1 u2 in
  let m := fe_select m l degenerate in
  (* R = S1 - S2 (if degenerate) *)
  let l := fe_sub s1 s2 in
  let r0 := fe_select r0 l degenerate in
  (* L = M^2 *)
  let l := fe_sqr m in
  (* G = T * L *)
  let g := fe_mul t l in
  (* LL = L^2 *)
  let ll := fe_sqr l in
  (* LL = 0 (if degenerate) *)
  let ll := fe_select ll fe_zero degenerate in
  (* W = R^2 *)
  let w := fe_sqr r0 in
  (* F = Z * M *)
  let f := fe_mul m z in
  (* H = 3 * G - 2 * W *)
  let h := fe_add g g in
  let h := fe_add h g in
  let h := fe_sub h w in
  let h := fe_sub h w in
  (* X3 = 4 * (W - G) *)
  let x3 := fe_sub w g in
  let x3 := fe_add x3 x3 in
  let x3 := fe_add x3 x3 in
  (* Y3 = 4 * (R * H - LL) *)
  let y3 := fe_mul r0 h in
  let y3 := fe_sub y3 ll in
  let y3 := fe_add y3 y3 in
  let y3 := fe_add y3 y3 in
  (* Z3 = 2 * F *)
  let z3 := fe_add f f in
  (* Check for infinity. *)
  let inf1 := fe_is_zero (jge_z a) in
  let inf2 := fe_is_zero (jge_z b) in
  let inf3 := fe_is_zero z3 && negb (inf1 || inf2) in
  (* Case 1: O + P = P *)
  let x3 := fe_select x3 (jge_x b) inf1 in
  let y3 := fe_select y3 (jge_y b) inf1 in
  let z3 := fe_select z3 (jge_z b) inf1 in
  (* Case 2: P + O = P *)
  let x3 := fe_select x3 (jge_x a) inf2 in
  let y3 := fe_select y3 (jge_y a) inf2 in
  let z3 := fe_select z3 (jge_z a) inf2 in
  (* Case 3: P + -P = O *)
  let x3 := fe_select x3 fe_one inf3 in
  let y3 := fe_select y3 fe_one inf3 in
  let z3 := fe_select z3 fe_zero inf3 in
  mk_jge x3 y3 z3.

Definition jge_sub (a b : jge_t) : jge_t :=
  let c := jge_neg b in
  jge_add a c.

(** Strongly unified mixed addition ([U1 = X1], [S1 = Y1]). *)
Definition jge_mixed_add (a : jge_t) (b : wge_t) : jge_t :=
  let u1 := jge_x a in
  let s1 := jge_y a in
  (* Z1Z1 = Z1^2 *)
  let z1z1 := fe_sqr (jge_z a) in
  (* U2 = X2 * Z1Z1 *)
  let u2 := fe_mul (wge_x b) z1z1 in
  (* S2 = Y2 * Z1Z1 * Z1 *)
  let s2 := fe_mul (wge_y b) z1z1 in
  let s2 := fe_mul s2 (jge_z a) in
  (* T = U1 + U2 *)
  let t := fe_add u1 u2 in
  (* M = S1 + S2 *)
  let m := fe_add s1 s2 in
  (* R = T^2 - U1 * U2 *)
  let r0 := fe_sqr t in
  let l := fe_mul u1 u2 in
  let r0 := fe_sub r0 l in
  (* R = R + a * Z1^4 (if a != 0) *)
  let r0 :=
    if negb (ec_zero_a ec) then
      let l := fe_sqr (jge_z a) in
      let l := fe_sqr l in
      let l := fe_mul l (ec_a ec) in
      fe_add r0 l
    else r0 in
  (* Check for degenerate case (X1 != X2, Y1 = -Y2). *)
  let degenerate := fe_is_zero m && fe_is_zero r0 in
  (* M = U1 - U2 (if degenerate) *)
  let l := fe_sub u1 u2 in
  let m := fe_select m l degenerate in
  (* R = S1 - S2 (if degenerate) *)
  let l := fe_sub s1 s2 in
  let r0 := fe_select r0 l degenerate in
  (* L = M^2 *)
  let l := fe_sqr m in
  (* G = T * L *)
  let g := fe_mul t l in
  (* LL = L^2 *)
  let ll := fe_sqr l in
  (* LL = 0 (if degenerate) *)
  let ll := fe_select ll fe_zero degenerate in
  (* W = R^2 *)
  let w := fe_sqr r0 in
  (* F = Z1 * M *)
  let f := fe_mul m (jge_z a) in
  (* H = 3 * G - 2 * W *)
  let h := fe_add g g in
  let h := fe_add h g in
  let h := fe_sub h w in
  let h := fe_sub h w in
  (* X3 = 4 * (W - G) *)
  let x3 := fe_sub w g in
  let x3 := fe_add x3 x3 in
  let x3 := fe_add x3 x3 in
  (* Y3 = 4 * (R * H - LL) *)
  let y3 := fe_mul r0 h in
  let y3 := fe_sub y3 ll in
  let y3 := fe_add y3 y3 in
  let y3 := fe_add y3 y3 in
  (* Z3 = 2 * F *)
  let z3 := fe_add f f in
  (* Check for infinity. *)
  let inf1 := fe_is_zero (jge_z a) in
  let inf2 := wge_inf b in
  let inf3 := fe_is_zero z3 && negb (inf1 || inf2) in
  (* Case 1: O + P = P *)
  let x3 := fe_select x3 (wge_x b) inf1 in
  let y3 := fe_select y3 (wge_y b) inf1 in
  let z3 := fe_select z3 fe_one inf1 in
  (* Case 2: P + O = P *)
  let x3 := fe_select x3 (jge_x a) inf2 in
  let y3 := fe_select y3 (jge_y a) inf2 in
  let z3 := fe_select z3 (jge_z a) inf2 in
  (* Case 3: P + -P = O *)
  let x3 := fe_select x3 fe_one inf3 in
  let y3 := fe_select y3 fe_one inf3 in
  let z3 := fe_select z3 fe_zero inf3 in
  mk_jge x3 y3 z3.

Definition jge_mixed_sub (a : jge_t) (b : wge_t) : jge_t :=
  let c := wge_neg b in
  jge_mixed_add a c.

Definition jge_to_wge (p : jge_t) : wge_t :=
  (* A = 1 / Z1 *)
  let '(a, ok) := fe_invert (ec_fe ec) (jge_z p) in
  (* AA = A^2 *)
  let aa := fe_sqr a in
  (* X3 = X1 * AA *)
  let rx := fe_mul (jge_x p) aa in
  (* Y3 = Y1 * AA * A *)
  let ry := fe_mul (jge_y p) aa in
  let ry := fe_mul ry a in
  mk_wge rx ry (negb ok).

Definition jge_to_wge_var (p : jge_t) : wge_t :=
  (* P = O *)
  if jge_is_zero p then wge_zero else
  (* Z = 1 *)
  if fe_equal (jge_z p) fe_one then mk_wge (jge_x p) (jge_y p) false else
  (* A = 1 / Z1 *)
  let a := fst (fe_invert_var (ec_fe ec) (jge_z p)) in
  (* AA = A^2 *)
  let aa := fe_sqr a in
  (* X3 = X1 * AA *)
  let rx := fe_mul (jge_x p) aa in
  (* Y3 = Y1 * AA * A *)
  let ry := fe_mul (jge_y p) aa in
  let ry := fe_mul ry a in
  mk_wge rx ry false.

Definition jge_validate (p : jge_t) : bool :=
  (* y^2 = x^3 + a * x * z^4 + b * z^6 *)
  let lhs := fe_sqr (jge_y p) in
  let x3 := fe_sqr (jge_x p) in
  let x3 := fe_mul x3 (jge_x p) in
  let z2 := fe_sqr (jge_z p) in
  let z4 := fe_sqr z2 in
  let z6 := fe_mul z4 z2 in
  let rhs := fe_mul (ec_b ec) z6 in
  let rhs := fe_add rhs x3 in
  let x3 := fe_mul (ec_a ec) z4 in
  let x3 := fe_mul x3 (jge_x p) in
  let rhs := fe_add rhs x3 in
  fe_equal lhs rhs || jge_is_zero p.

End Weierstrass.

(* ================================================================= *)
(** * Precomputed tables and curve initialisation *)

Definition WND_WIDTH : Z := 4.
Definition WND_SIZE : Z := Z.shiftl 1 WND_WIDTH.
Definition WND_STEPS (bits : Z) : Z := (bits + WND_WIDTH - 1) / WND_WIDTH.
Definition NAF_WIDTH : Z := 4.
Definition NAF_SIZE : Z := Z.shiftl 1 (NAF_WIDTH - 1).
Definition NAF_WIDTH_PRE : Z := 8.
Definition NAF_SIZE_PRE : Z := Z.shiftl 1 (NAF_WIDTH_PRE - 1).

(** [points[i]], with the arrays of the C code as lists. *)
Definition wge_at (points : list wge_t) (i : Z) : wge_t :=
  nth (Z.to_nat i) points wge_zero.

Definition jge_at (points : list jge_t) (i : Z) : jge_t :=
  nth (Z.to_nat i) points jge_zero.

Section WeierstrassTables.

Variable ec : wei_t.

(** [out[j] = out[j - 1] + g] for the next [n] entries after [prev]. *)
Fixpoint wge_chain_var (g prev : wge_t) (n : nat) : list wge_t :=
  match n with
  | O => []
  | S n => let next := wge_add_var ec prev g in
           next :: wge_chain_var g next n
  end.

Fixpoint wge_wnd_steps_var (g : wge_t) (steps : nat) : list wge_t :=
  match steps with
  | O => []
  | S steps =>
      let row := wge_zero :: wge_chain_var g wge_zero (Z.to_nat WND_SIZE - 1) in
      let g := wge_dbl_var ec (wge_dbl_var ec (wge_dbl_var ec (wge_dbl_var ec g))) in
      row ++ wge_wnd_steps_var g steps
  end.

Definition wge_wnd_points_var (p : wge_t) : list wge_t :=
  let g := wge_set p in
  wge_wnd_steps_var g (Z.to_nat (WND_STEPS (sc_bits (ec_sc ec)))).

Definition wge_naf_points_var (p : wge_t) (width : Z) : list wge_t :=
  let size := Z.shiftl 1 (width - 1) in
  let dbl := wge_dbl_var ec p in
  wge_set p :: wge_chain_var dbl (wge_set p) (Z.to_nat size - 1).

Definition wge_jsf_points_var (p1 p2 : wge_t) : list jge_t :=
  let p0 := wge_to_jge p1 in
  [ p0;                           (* 1 *)
    jge_mixed_add_var ec p0 p2;   (* 3 *)
    jge_mixed_sub_var ec p0 p2;   (* 5 *)
    wge_to_jge p2 ].              (* 7 *)

Definition wge_endo_beta (p : wge_t) : wge_t :=
  mk_wge (fe_mul (wge_x p) (ec_beta ec)) (wge_y p) (wge_inf p).

Definition wge_jsf_points_endo (p1 : wge_t) : list wge_t :=
  (* Split point. *)
  let p2 := wge_endo_beta p1 in
  [ wge_set p1;                   (* 1 *)
    wge_add_var ec p1 p2;         (* 3 *)
    wge_sub_var ec p1 p2;         (* 5 *)
    wge_set p2 ].                 (* 7 *)

Fixpoint jge_chain_var (g prev : jge_t) (n : nat) : list jge_t :=
  match n with
  | O => []
  | S n => let next := jge_add_var ec prev g in
           next :: jge_chain_var g next n
  end.

Definition jge_naf_points_var (p : wge_t) (width : Z) : list jge_t :=
  let size := Z.shiftl 1 (width - 1) in
  let p0 := wge_to_jge p in
  let dbl := jge_dbl_var ec p0 in
  p0 :: jge_chain_var dbl p0 (Z.to_nat size - 1).

End WeierstrassTables.

Record scalar_def_t : Type := mk_scalar_def {
  def_sc_bits : Z;
  def_n : list byte
}.

Definition scalar_field_init (def : scalar_def_t) (endian : Z)
  : scalar_field_t :=
  scalar_field_set (def_n def) (def_sc_bits def) endian.

(** The part of [wei_def_t] read into the fields kept in [wei_t]. *)
Record wei_def_t : Type := mk_wei_def {
  def_hash : Z;
  def_fe : prime_def_t;
  def_sc : scalar_def_t;
  def_a : list byte;
  def_b : list byte;
  def_h : Z;
  def_x : list byte;
  def_y : list byte;
  def_endo : bool;
  def_beta : list byte;
  def_lambda : list byte;
  def_b1 : list byte;
  def_b2 : list byte;
  def_g1 : list byte;
  def_g2 : list byte
}.

(** [wei_init] fills a fresh [wei_t]; the members it leaves unwritten
    when [def->endo] is off are zero here.  [None] is the failed
    [assert(n <= fe->limbs)] of [fe_set_limbs]. *)
Definition wei_init (def : wei_def_t) : option wei_t :=
  let fe := prime_field_init (def_fe def) 1 in
  let sc := scalar_field_init (def_sc def) 1 in
  let pmodn := sc_reduce sc (fe_plimbs fe) in
  if negb (sc_limbs sc <=? fe_limbs fe) then None else
  let red_n := fst (fe_set_limbs fe (sc_n sc) (sc_limbs sc)) in
  let a := fst (fe_import fe (def_a def)) in
  let b := fst (fe_import fe (def_b def)) in
  let m3 := fe_neg fe_three in
  let zero_a := fe_is_zero a in
  let three_a := fe_equal a m3 in
  let g := mk_wge (fst (fe_import fe (def_x def)))
                  (fst (fe_import fe (def_y def))) false in
  let blind := sc_zero in
  let unblind := wge_zero in
  let ec := mk_wei (def_hash def) fe sc (def_h def) pmodn red_n a b
                   zero_a three_a g blind unblind [] [] false
                   fe_zero 0 0 0 0 0 [] in
  let windows := wge_wnd_points_var ec g in
  let points := wge_naf_points_var ec g NAF_WIDTH_PRE in
  if def_endo def then
    let beta := fst (fe_import fe (def_beta def)) in
    let lambda := fst (sc_import sc (def_lambda def)) in
    let b1 := fst (sc_import sc (def_b1 def)) in
    let b2 := fst (sc_import sc (def_b2 def)) in
    let g1 := fst (sc_import sc (def_g1 def)) in
    let g2 := fst (sc_import sc (def_g2 def)) in
    let ec := mk_wei (def_hash def) fe sc (def_h def) pmodn red_n a b
                     zero_a three_a g blind unblind windows points true
                     beta lambda b1 b2 g1 g2 [] in
    Some (mk_wei (def_hash def) fe sc (def_h def) pmodn red_n a b
                 zero_a three_a g blind unblind windows points true
                 beta lambda b1 b2 g1 g2 (map (wge_endo_beta ec) points))
  else
    Some (mk_wei (def_hash def) fe sc (def_h def) pmodn red_n a b
                 zero_a three_a g blind unblind windows points false
                 fe_zero 0 0 0 0 0 []).

(* ================================================================= *)
(** * Scalar multiplication on short Weierstrass curves *)

(** The loop counter values [0, ..., n - 1]. *)
Definition upto (n : Z) : list Z := map Z.of_nat (seq 0 (Z.to_nat n)).

Section WeierstrassMul.

Variable ec : wei_t.

(** Returns [(k1, s1, k2, s2)]; [None] is a failed [assert] of
    [sc_mulshift]. *)
Definition wei_endo_split (k : Z) : option (Z * Z * Z * Z) :=
  let sc := ec_sc ec in
  match sc_mulshift sc k (ec_g1 ec) (sc_bits sc + 16) with
  | None => None
  | Some c1 =>
  match sc_mulshift sc k (ec_g2 ec) (sc_bits sc + 16) with (* -g2 *)
  | None => None
  | Some c2 =>
      let c1 := sc_mul sc c1 (ec_b1 ec) in (* -b1 *)
      let c2 := sc_mul sc c2 (ec_b2 ec) in (* -b2 *)
      let k2 := sc_add sc c1 c2 in
      let k1 := sc_mul sc k2 (ec_lambda ec) in (* -lambda *)
      let k1 := sc_add sc k1 k in
      let '(k1, h1) := sc_minimize sc k1 in
      let '(k2, h2) := sc_minimize sc k2 in
      Some (k1, Z.lor (- Z.b2z h1) 1, k2, Z.lor (- Z.b2z h2) 1)
  end end.

(** The constant-time table lookup of [wei_jmul_g]. *)
Definition wge_lookup (points : list wge_t) (base b : Z) (p : wge_t) : wge_t :=
  fold_left (fun p j => wge_select p (wge_at points (base + j)) (j =? b))
            (upto WND_SIZE) p.

Definition wei_jmul_g (k : Z) : jge_t :=
  let sc := ec_sc ec in
  (* Blind if available. *)
  let k0 := sc_add sc k (ec_blind ec) in
  (* Multiply in constant time. *)
  let p := wge_zero in
  let r := wge_to_jge (ec_unblind ec) in
  fst (fold_left
         (fun (st : jge_t * wge_t) i =>
            let '(r, p) := st in
            let b := sc_get_bits k0 (i * WND_WIDTH) WND_WIDTH in
            let p := wge_lookup (ec_windows ec) (i * WND_SIZE) b p in
            (jge_mixed_add ec r p, p))
         (upto (WND_STEPS (sc_bits sc))) (r, p)).

Definition wei_mul_g (k : Z) : wge_t :=
  let j := wei_jmul_g k in
  jge_to_wge ec j.

(** [acc += z * table] for a NAF digit [z] on a table of odd affine
    multiples. *)
Definition jge_naf_step_mixed (acc : jge_t) (wnd : list wge_t) (z : Z) : jge_t :=
  if 0 <? z then jge_mixed_add_var ec acc (wge_at wnd (Z.shiftr (z - 1) 1))
  else if z <? 0 then
    jge_mixed_sub_var ec acc (wge_at wnd (Z.shiftr (- z - 1) 1))
  else acc.

Definition jge_naf_step (acc : jge_t) (wnd : list jge_t) (z : Z) : jge_t :=
  if 0 <? z then jge_add_var ec acc (jge_at wnd (Z.shiftr (z - 1) 1))
  else if z <? 0 then jge_sub_var ec acc (jge_at wnd (Z.shiftr (- z - 1) 1))
  else acc.

(** "Shamir's trick" with interleaved NAFs.  [None] is a failed
    [assert] of [sc_naf_var]. *)
Definition wei_jmul_double_normal_var (k1 : Z) (p2 : wge_t) (k2 : Z)
  : option jge_t :=
  let sc := ec_sc ec in
  let wnd1 := ec_points ec in
  let max1 := sc_bitlen_var sc k1 + 1 in
  let max2 := sc_bitlen_var sc k2 + 1 in
  let max := if max2 <? max1 then max1 else max2 in
  match sc_naf_var sc k1 1 NAF_WIDTH_PRE max with
  | None => None
  | Some naf1 =>
  match sc_naf_var sc k2 1 NAF_WIDTH max with
  | None => None
  | Some naf2 =>
      let wnd2 := jge_naf_points_var ec p2 NAF_WIDTH in
      (* Multiply and add. *)
      let acc := jge_zero in
      Some (jge_set
        (fold_left
           (fun acc i =>
              let z1 := nth (Z.to_nat i) naf1 0 in
              let z2 := nth (Z.to_nat i) naf2 0 in
              let acc := if negb (i =? max - 1) then jge_dbl_var ec acc
                         else acc in
              let acc := jge_naf_step_mixed acc wnd1 z1 in
              jge_naf_step acc wnd2 z2)
           (bits_down max) acc))
  end end.

(** Double multiplication with the endomorphism.  [None] is a failed
    [assert]. *)
Definition wei_jmul_double_endo_var (k1 : Z) (p2 : wge_t) (k2 : Z)
  : option jge_t :=
  let sc := ec_sc ec in
  let wnd1 := ec_points ec in
  let wnd2 := ec_endo_points ec in
  if negb (ec_endo ec) then None else
  (* Split scalars. *)
  match wei_endo_split k1 with
  | None => None
  | Some (c1, s1, c2, s2) =>
  match wei_endo_split k2 with
  | None => None
  | Some (c3, s3, c4, s4) =>
  (* Compute max length. *)
  let max := sc_maxlen_var sc c1 c2 c3 c4 + 1 in
  (* Compute NAFs. *)
  match sc_naf_var sc c1 s1 NAF_WIDTH_PRE max with
  | None => None
  | Some naf1 =>
  match sc_naf_var sc c2 s2 NAF_WIDTH_PRE max with
  | None => None
  | Some naf2 =>
  match sc_jsf_var sc c3 s3 c4 s4 max with
  | None => None
  | Some naf3 =>
      (* Create comb for JSF. *)
      let wnd3 := wge_jsf_points_endo ec p2 in
      (* Multiply and add. *)
      let acc := jge_zero in
      Some (jge_set
        (fold_left
           (fun acc i =>
              let z1 := nth (Z.to_nat i) naf1 0 in
              let z2 := nth (Z.to_nat i) naf2 0 in
              let z3 := nth (Z.to_nat i) naf3 0 in
              let acc := if negb (i =? max - 1) then jge_dbl_var ec acc
                         else acc in
              let acc := jge_naf_step_mixed acc wnd1 z1 in
              let acc := jge_naf_step_mixed acc wnd2 z2 in
              jge_naf_step_mixed acc wnd3 z3)
           (bits_down max) acc))
  end end end end end.

Definition wei_jmul_double_var (k1 : Z) (p2 : wge_t) (k2 : Z) : option jge_t :=
  if ec_endo ec then wei_jmul_double_endo_var k1 p2 k2
  else wei_jmul_double_normal_var k1 p2 k2.

Definition wei_mul_double_var (k1 : Z) (p2 : wge_t) (k2 : Z) : option wge_t :=
  match wei_jmul_double_var k1 p2 k2 with
  | None => None
  | Some j => Some (jge_to_wge_var ec j)
  end.

End WeierstrassMul.

(* ================================================================= *)
(** * ECDSA *)

Section Ecdsa.

Variable ec : wei_t.

(** Modelled from the spec: the deterministic bit generator
    ([torsion/drbg.h]) is an external collaborator; it is a state
    machine seeded with a hash identifier and a byte string, and each
    call to [drbg_generate] yields the requested number of bytes and
    the next state. *)
Variable drbg_t : Type.
Variable drbg_init : Z -> list byte -> drbg_t.
Variable drbg_generate : drbg_t -> nat -> drbg_t * list byte.

(** The shift loop of [ecdsa_reduce], on the state [(out, cy)]. *)
Definition ecdsa_reduce_shift (shift mask : Z) (st : list byte * Z) (ch : byte)
  : list byte * Z :=
  let '(out, cy) := st in
  let ch := b2z ch in
  (out ++ [z2b (Z.lor (Z.shiftl cy (8 - shift)) (Z.shiftr ch shift))],
   Z.land ch mask).

(** Byte array to integer conversion; [None] is a failed [assert]. *)
Definition ecdsa_reduce (msg : list byte) : option (Z * bool) :=
  let sc := ec_sc ec in
  (* Truncate. *)
  let msg_len := Nat.min (length msg) (sc_size sc) in
  (* Copy and pad. *)
  let tmp := repeat x00 (sc_size sc - msg_len) ++ firstn msg_len msg in
  if negb (sc_endian sc =? 1) then None else
  (* Shift by the remaining bits. *)
  if sc_bits sc <? Z.of_nat msg_len * 8 then
    let shift := Z.of_nat msg_len * 8 - sc_bits sc in
    let mask := Z.shiftl 1 shift - 1 in
    if negb (0 <? shift) then None else
    if negb (shift <? 8) then None else
    let tmp := fst (fold_left (ecdsa_reduce_shift shift mask) tmp ([], 0)) in
    Some (sc_import_weak sc tmp)
  else
    Some (sc_import_weak sc tmp).

(** [None] is [return 0]. *)
Definition ecdsa_pubkey_create (priv : list byte) (compact : bool)
  : option (list byte) :=
  let sc := ec_sc ec in
  let '(a, ok) := sc_import sc priv in
  if negb ok then None else
  if sc_is_zero sc a then None else
  let A := wei_mul_g ec a in
  wge_export ec A compact.

(** The signing loop: [Return (sig, param)] once a nonce is accepted. *)
Fixpoint ecdsa_sign_loop (fuel : nat) (rng : drbg_t) (a m : Z)
  : outcome (list byte * Z) :=
  let fe := ec_fe ec in
  let sc := ec_sc ec in
  match fuel with
  | O => OutOfFuel
  | S fuel =>
      let '(rng, bytes) := drbg_generate rng (sc_size sc) in
      match ecdsa_reduce (firstn (sc_size sc) bytes) with
      | None => Abort
      | Some (k, ok) =>
          if negb ok then ecdsa_sign_loop fuel rng a m else
          if sc_is_zero sc k then ecdsa_sign_loop fuel rng a m else
          let R := wei_mul_g ec k in
          if wge_is_zero R then ecdsa_sign_loop fuel rng a m else
          let sign := fe_is_odd (wge_y R) in
          let '(r, ok) := sc_set_fe fe sc (wge_x R) in
          let high := negb ok in
          if sc_is_zero sc r then ecdsa_sign_loop fuel rng a m else
          let k := fst (sc_invert sc k) in
          let s := sc_mul sc r a in
          let s := sc_add sc s m in
          let s := sc_mul sc s k in
          let '(s, hi) := sc_minimize sc s in
          let sign := xorb sign hi in
          Return (sc_export sc r ++ sc_export sc s,
                  Z.lor (Z.shiftl (Z.b2z high) 1) (Z.b2z sign))
      end
  end.

(** [Return None] is [return 0]. *)
Definition ecdsa_sign (fuel : nat) (msg priv : list byte)
  : outcome (option (list byte * Z)) :=
  let sc := ec_sc ec in
  let '(a, ok) := sc_import sc priv in
  if negb ok then Return None else
  if sc_is_zero sc a then Return None else
  match ecdsa_reduce msg with
  | None => Abort
  | Some (m, _) =>
      let bytes := sc_export sc a ++ sc_export sc m in
      let rng := drbg_init (ec_hash ec) bytes in
      match ecdsa_sign_loop fuel rng a m with
      | Return r => Return (Some r)
      | Abort => Abort
      | OutOfFuel => OutOfFuel
      end
  end.

(** The part of [ecdsa_verify] shared by both builds: the checks, and
    the point [R = u1 * G + u2 * A] with the scalar [r].
    [Return None] is [return 0]. *)
Definition ecdsa_verify_point (msg sig pub : list byte)
  : outcome (option (jge_t * Z)) :=
  let sc := ec_sc ec in
  match ecdsa_reduce msg with
  | None => Abort
  | Some (m, _) =>
  match wge_import ec pub (length pub) with
  | None => Abort
  | Some None => Return None
  | Some (Some A) =>
      let '(r, ok) := sc_import sc sig in
      if negb ok then Return None else
      let '(s, ok) := sc_import sc (skipn (sc_size sc) sig) in
      if negb ok then Return None else
      if sc_is_zero sc r || sc_is_zero sc s then Return None else
      if sc_is_high sc s then Return None else
      let s := fst (sc_invert_var sc s) in
      let u1 := sc_mul sc m s in
      let u2 := sc_mul sc r s in
      match wei_jmul_double_var ec u1 A u2 with
      | None => Abort
      | Some Rj => Return (Some (Rj, r))
      end
  end end.

(** [ecdsa_verify] as built without [ECC_WITH_TRICK]. *)
Definition ecdsa_verify (msg sig pub : list byte) : outcome bool :=
  let fe := ec_fe ec in
  let sc := ec_sc ec in
  match ecdsa_verify_point msg sig pub with
  | Return None => Return false
  | Return (Some (Rj, r)) =>
      if jge_is_zero Rj then Return false else
      let Ra := jge_to_wge_var ec Rj in
      let re := fst (sc_set_fe fe sc (wge_x Ra)) in
      Return (sc_equal sc r re)
  | Abort => Abort
  | OutOfFuel => OutOfFuel
  end.

(** [ecdsa_verify] as built with [ECC_WITH_TRICK]. *)
Definition ecdsa_verify_trick (fuel : nat) (msg sig pub : list byte)
  : outcome bool :=
  match ecdsa_verify_point msg sig pub with
  | Return None => Return false
  | Return (Some (Rj, r)) => jge_equal_r ec fuel Rj r
  | Abort => Abort
  | OutOfFuel => OutOfFuel
  end.

(** [Return None] is [return 0]. *)
Definition ecdsa_recover (msg sig : list byte) (param : Z) (compact : bool)
  : outcome (option (list byte)) :=
  let fe := ec_fe ec in
  let sc := ec_sc ec in
  let sign := Z.land param 1 in
  let high := Z.shiftr param 1 in
  match ecdsa_reduce msg with
  | None => Abort
  | Some (m, _) =>
      let '(r, ok) := sc_import sc sig in
      if negb ok then Return None else
      let '(s, ok) := sc_import sc (skipn (sc_size sc) sig) in
      if negb ok then Return None else
      if sc_is_zero sc r || sc_is_zero sc s then Return None else
      if sc_is_high sc s then Return None else
      (* Assumes n < p. *)
      let '(x, ok) := fe_set_sc fe sc r in
      if negb ok then Abort else
      let xo :=
        if negb (high =? 0) then
          if 0 <=? sc_cmp_var sc r (ec_pmodn ec) then None
          else Some (fe_add x (ec_red_n ec))
        else Some x in
      match xo with
      | None => Return None
      | Some x =>
      match wge_set_x ec x (Some (negb (sign =? 0))) with
      | None => Abort
      | Some (R, ok) =>
          if negb ok then Return None else
          let r := fst (sc_invert_var sc r) in
          let s1 := sc_mul sc m r in
          let s2 := sc_mul sc s r in
          let s1 := sc_neg sc s1 in
          match wei_mul_double_var ec s1 R s2 with
          | None => Abort
          | Some A =>
              match wge_export ec A compact with
              | None => Return None
              | Some pub => Return (Some pub)
              end
          end
      end end
  end.

End Ecdsa.

(* ================================================================= *)
(** * Constant-time affine arithmetic *)

Section WeierstrassAffine.

Variable ec : wei_t.

Definition wge_dbl (p : wge_t) : wge_t :=
  let j := wge_to_jge p in
  let j := jge_dbl ec j in
  jge_to_wge ec j.

Definition wge_add (a b : wge_t) : wge_t :=
  let j := wge_to_jge a in
  let j := jge_mixed_add ec j b in
  jge_to_wge ec j.

Definition wge_sub (a b : wge_t) : wge_t :=
  let c := wge_neg b in
  wge_add a c.

End WeierstrassAffine.

(* ================================================================= *)
(** * ECDSA keys and signature encodings *)

Section EcdsaKeys.

Variable ec : wei_t.

Definition ecdsa_privkey_verify (priv : list byte) : bool :=
  let sc := ec_sc ec in
  negb (bytes_zero priv (sc_size sc))
  && bytes_lt priv (sc_raw sc) (sc_size sc) (sc_endian sc).

(** [None] is [return 0] in the functions below. *)
Definition ecdsa_privkey_tweak_add (priv tweak : list byte)
  : option (list byte) :=
  let sc := ec_sc ec in
  let '(a, ok) := sc_import sc priv in
  if negb ok then None else
  if sc_is_zero sc a then None else
  let '(t, ok) := sc_import sc tweak in
  if negb ok then None else
  let a := sc_add sc a t in
  if sc_is_zero sc a then None else
  Some (sc_export sc a).

Definition ecdsa_privkey_tweak_mul (priv tweak : list byte)
  : option (list byte) :=
  let sc := ec_sc ec in
  let '(a, ok) := sc_import sc priv in
  if negb ok then None else
  if sc_is_zero sc a then None else
  let '(t, ok) := sc_import sc tweak in
  if negb ok then None else
  let a := sc_mul sc a t in
  if sc_is_zero sc a then None else
  Some (sc_export sc a).

Definition ecdsa_privkey_negate (priv : list byte) : option (list byte) :=
  let sc := ec_sc ec in
  let '(a, ok) := sc_import sc priv in
  if negb ok then None else
  if sc_is_zero sc a then None else
  let a := sc_neg sc a in
  Some (sc_export sc a).

Definition ecdsa_privkey_invert (priv : list byte) : option (list byte) :=
  let sc := ec_sc ec in
  let '(a, ok) := sc_import sc priv in
  if negb ok then None else
  if sc_is_zero sc a then None else
  let a := fst (sc_invert sc a) in
  Some (sc_export sc a).

(** For the functions that decode a point, the outer [None] is the
    failed [assert] of a field without square root, [Some None] is
    [return 0]. *)
Definition ecdsa_pubkey_convert (pub : list byte) (compact : bool)
  : option (option (list byte)) :=
  match wge_import ec pub (length pub) with
  | None => None
  | Some None => Some None
  | Some (Some A) => Some (wge_export ec A compact)
  end.

Definition ecdsa_pubkey_verify (pub : list byte) : option bool :=
  match wge_import ec pub (length pub) with
  | None => None
  | Some None => Some false
  | Some (Some _) => Some true
  end.

Definition ecdsa_pubkey_tweak_add (pub tweak : list byte) (compact : bool)
  : option (option (list byte)) :=
  let sc := ec_sc ec in
  match wge_import ec pub (length pub) with
  | None => None
  | Some None => Some None
  | Some (Some A) =>
      let '(t, ok) := sc_import sc tweak in
      if negb ok then Some None else
      let T := wei_mul_g ec t in
      let A := wge_add ec A T in
      Some (wge_export ec A compact)
  end.

(** The loop of [ecdsa_pubkey_combine] over the keys still to add. *)
Fixpoint ecdsa_pubkey_combine_loop (pubs : list (list byte)) (P : jge_t)
  : option (option jge_t) :=
  match pubs with
  | [] => Some (Some P)
  | pub :: pubs =>
      match wge_import ec pub (length pub) with
      | None => None
      | Some None => Some None
      | Some (Some A) =>
          ecdsa_pubkey_combine_loop pubs (jge_mixed_add ec P A)
      end
  end.

Definition ecdsa_pubkey_combine (pubs : list (list byte)) (compact : bool)
  : option (option (list byte)) :=
  match ecdsa_pubkey_combine_loop pubs jge_zero with
  | None => None
  | Some None => Some None
  | Some (Some P) =>
      let A := jge_to_wge ec P in
      Some (wge_export ec A compact)
  end.

Definition ecdsa_pubkey_negate (pub : list byte) (compact : bool)
  : option (option (list byte)) :=
  match wge_import ec pub (length pub) with
  | None => None
  | Some None => Some None
  | Some (Some A) =>
      let A := wge_neg A in
      Some (wge_export ec A compact)
  end.

Definition ecdsa_sig_normalize (sig : list byte) : option (list byte) :=
  let sc := ec_sc ec in
  let '(r, ok) := sc_import sc sig in
  if negb ok then None else
  let '(s, ok) := sc_import sc (skipn (sc_size sc) sig) in
  if negb ok then None else
  let s := if sc_is_high_var sc s then sc_neg sc s else s in
  Some (sc_export sc r ++ sc_export sc s).

Definition ecdsa_is_low_s (sig : list byte) : bool :=
  let sc := ec_sc ec in
  let '(r, ok) := sc_import sc sig in
  if negb ok then false else
  let '(s, ok) := sc_import sc (skipn (sc_size sc) sig) in
  if negb ok then false else
  negb (sc_is_high_var sc s).

End EcdsaKeys.

(* ================================================================= *)
(** * Montgomery curves *)

(** mge = montgomery group element (affine) *)
Record mge_t : Type := mk_mge {
  mge_x : fe_t;
  mge_y : fe_t;
  mge_inf : bool
}.

(** pge = projective group element (x/z) *)
Record pge_t : Type := mk_pge {
  pge_x : fe_t;
  pge_z : fe_t
}.

(** The part of [mont_t] the ladder and ECDH use ([prefix] and the
    Elligator constant [z] are left out).  [clamp] is the function
    pointer of the curve definition. *)
Record mont_t : Type := mk_mont {
  mont_fe : prime_field_t;
  mont_sc : scalar_field_t;
  mont_h : Z;
  mont_a : fe_t;
  mont_b : fe_t;
  mont_invert : bool;
  mont_c : fe_t;
  mont_bi : fe_t;
  mont_i4 : fe_t;
  mont_a24 : fe_t;
  mont_a0 : fe_t;
  mont_b0 : fe_t;
  mont_g : mge_t;
  mont_clamp_fn : list byte -> list byte
}.

Record mont_def_t : Type := mk_mont_def {
  mdef_fe : prime_def_t;
  mdef_sc : scalar_def_t;
  mdef_a : list byte;
  mdef_b : list byte;
  mdef_h : Z;
  mdef_invert : bool;
  mdef_c : list byte;
  mdef_x : list byte;
  mdef_y : list byte;
  mdef_clamp : list byte -> list byte
}.

Definition mge_to_pge (a : mge_t) : pge_t :=
  mk_pge (fe_select (mge_x a) fe_one (mge_inf a))
         (fe_select fe_one fe_zero (mge_inf a)).

Section Montgomery.

Variable ec : mont_t.

Definition pge_zero : pge_t := mk_pge fe_one fe_zero.

Definition pge_import (raw : list byte) : pge_t :=
  mk_pge (fst (fe_import_uniform (mont_fe ec) raw)) fe_one.

Definition pge_export (p : pge_t) : list byte * bool :=
  let fe := mont_fe ec in
  let '(x, ret) := fe_invert fe (pge_z p) in
  let x := fe_mul x (pge_x p) in
  (fe_export fe x, ret).

(** [flag != 0] swaps. *)
Definition pge_swap (a b : pge_t) (flag : Z) : pge_t * pge_t :=
  let cond := negb (flag =? 0) in
  let '(ax, bx) := fe_swap (pge_x a) (pge_x b) cond in
  let '(az, bz) := fe_swap (pge_z a) (pge_z b) cond in
  (mk_pge ax az, mk_pge bx bz).

Definition pge_set (a : pge_t) : pge_t := a.

Definition pge_is_zero (a : pge_t) : bool := fe_is_zero (pge_z a).

Definition pge_equal (a b : pge_t) : bool :=
  (* X1 * Z2 == X2 * Z1 *)
  let e1 := fe_mul (pge_x a) (pge_z b) in
  let e2 := fe_mul (pge_x b) (pge_z a) in
  fe_equal e1 e2.

Definition mont_mul_a24 (a : fe_t) : fe_t :=
  if fe_has_scmul_121666 (mont_fe ec) then fe_mul121666 a
  else fe_mul a (mont_a24 ec).

Definition pge_dbl (p : pge_t) : pge_t :=
  (* A = X1 + Z1 *)
  let a := fe_add (pge_x p) (pge_z p) in
  (* AA = A^2 *)
  let aa := fe_sqr a in
  (* B = X1 - Z1 *)
  let b := fe_sub (pge_x p) (pge_z p) in
  (* BB = B^2 *)
  let bb := fe_sqr b in
  (* C = AA - BB *)
  let c := fe_sub aa bb in
  (* X3 = AA * BB *)
  let x3 := fe_mul aa bb in
  (* Z3 = C * (BB + a24 * C) *)
  let z3 := mont_mul_a24 c in
  let z3 := fe_add z3 bb in
  let z3 := fe_mul z3 c in
  mk_pge x3 z3.

(** [pge_ladder(ec, p4, p5, p1, p2, p3)]: returns [(p4, p5)]. *)
Definition pge_ladder (p1 p2 p3 : pge_t) : pge_t * pge_t :=
  (* A = X2 + Z2 *)
  let a := fe_add (pge_x p2) (pge_z p2) in
  (* AA = A^2 *)
  let aa := fe_sqr a in
  (* B = X2 - Z2 *)
  let b := fe_sub (pge_x p2) (pge_z p2) in
  (* BB = B^2 *)
  let bb := fe_sqr b in
  (* E = AA - BB *)
  let e := fe_sub aa bb in
  (* C = X3 + Z3 *)
  let c := fe_add (pge_x p3) (pge_z p3) in
  (* D = X3 - Z3 *)
  let d := fe_sub (pge_x p3) (pge_z p3) in
  (* DA = D * A *)
  let da := fe_mul d a in
  (* CB = C * B *)
  let cb := fe_mul c b in
  (* X5 = Z1 * (DA + CB)^2 *)
  let x5 := fe_add da cb in
  let x5 := fe_sqr x5 in
  let x5 := fe_mul x5 (pge_z p1) in
  (* Z5 = X1 * (DA - CB)^2 *)
  let z5 := fe_sub da cb in
  let z5 := fe_sqr z5 in
  let z5 := fe_mul z5 (pge_x p1) in
  (* X4 = AA * BB *)
  let x4 := fe_mul aa bb in
  (* Z4 = E * (BB + a24 * E) *)
  let z4 := mont_mul_a24 e in
  let z4 := fe_add z4 bb in
  let z4 := fe_mul z4 e in
  (mk_pge x4 z4, mk_pge x5 z5).

Definition mont_clamp (raw : list byte) : list byte :=
  mont_clamp_fn ec (firstn (sc_size (mont_sc ec)) raw).

(** One round of the ladder loop on the state [(a, b, swap)]. *)
Definition mont_mul_round (p : pge_t) (k : Z) (st : pge_t * pge_t * Z) (i : Z)
  : pge_t * pge_t * Z :=
  let '(a, b, swap) := st in
  let bit := sc_get_bit k i in
  (* Maybe swap. *)
  let '(a, b) := pge_swap a b (Z.lxor swap bit) in
  (* Single coordinate add+double. *)
  let '(a, b) := pge_ladder p a b in
  (a, b, bit).

(** [None] is the failed [assert] on the limb count. *)
Definition mont_mul (p : pge_t) (k : Z) : option pge_t :=
  let fe := mont_fe ec in
  let sc := mont_sc ec in
  if negb (fe_bits fe <=? sc_limbs sc * GMP_NUMB_BITS) then None else
  let a := pge_zero in
  let b := pge_set p in
  (* Climb the ladder. *)
  let '(a, b, swap) :=
    fold_left (mont_mul_round p k) (bits_down (fe_bits fe)) (a, b, 0) in
  (* Finalize loop. *)
  let '(a, b) := pge_swap a b swap in
  Some (pge_set a).

Definition mont_mul_g (k : Z) : option pge_t :=
  let g := mge_to_pge (mont_g ec) in
  mont_mul g k.

(** Returns the secret and the status. *)
Definition ecdh_derive (pub priv : list byte) : option (list byte * bool) :=
  let sc := mont_sc ec in
  let clamped := mont_clamp priv in
  let a := fst (sc_import sc clamped) in
  let A := pge_import pub in
  match mont_mul A a with
  | None => None
  | Some P => Some (pge_export P)
  end.

End Montgomery.

Definition mont_init (def : mont_def_t) : mont_t :=
  let fe := prime_field_init (mdef_fe def) (-1) in
  let sc := scalar_field_init (mdef_sc def) (-1) in
  let a := fst (fe_import_be fe (mdef_a def)) in
  let b := fst (fe_import_be fe (mdef_b def)) in
  let c := fst (fe_import_be fe (mdef_c def)) in
  let bi := fst (fe_invert_var fe b) in
  let i4 := fst (fe_invert_var fe fe_four) in
  (* a24 = (a + 2) / 4 *)
  let a24 := fe_add a fe_two in
  let a24 := fe_mul a24 i4 in
  (* a0 = a / b *)
  let a0 := fe_mul a bi in
  (* b0 = 1 / b^2 *)
  let b0 := fe_sqr bi in
  let g := mk_mge (fst (fe_import_be fe (mdef_x def)))
                  (fst (fe_import_be fe (mdef_y def))) false in
  mk_mont fe sc (mdef_h def) a b (mdef_invert def) c bi i4 a24 a0 b0 g
          (mdef_clamp def).

(* ================================================================= *)
(** * Edwards curves *)

(** xge = extended group element *)
Record xge_t : Type := mk_xge {
  xge_x : fe_t;
  xge_y : fe_t;
  xge_z : fe_t;
  xge_t_ : fe_t                      (* the member [t] *)
}.

(** The part of [edwards_t] the point decoder uses; the isomorphism
    constants and the precomputed tables are left out. *)
Record edwards_t : Type := mk_edwards {
  ed_hash : Z;
  ed_context : Z;
  ed_fe : prime_field_t;
  ed_sc : scalar_field_t;
  ed_h : Z;
  ed_a : fe_t;
  ed_d : fe_t;
  ed_k : fe_t;
  ed_mone_a : bool;
  ed_one_a : bool;
  ed_g : xge_t;
  ed_clamp_fn : list byte -> list byte
}.

Section Edwards.

Variable ec : edwards_t.

Definition edwards_mul_a (x : fe_t) : fe_t :=
  if ed_mone_a ec then fe_neg x        (* a = -1 *)
  else if ed_one_a ec then x           (* a = 1 *)
  else fe_mul x (ed_a ec).

Definition xge_zero : xge_t := mk_xge fe_zero fe_one fe_one fe_zero.

Definition xge_validate (p : xge_t) : bool :=
  (* (a * x^2 + y^2) * z^2 = z^4 + d * x^2 * y^2 *)
  let x2 := fe_sqr (xge_x p) in
  let y2 := fe_sqr (xge_y p) in
  let z2 := fe_sqr (xge_z p) in
  let z4 := fe_sqr z2 in
  let ax2 := edwards_mul_a x2 in
  let lhs := fe_add ax2 y2 in
  let lhs := fe_mul lhs z2 in
  let rhs := fe_mul x2 y2 in
  let rhs := fe_mul rhs (ed_d ec) in
  let rhs := fe_add rhs z4 in
  let x2 := fe_mul (xge_t_ p) (xge_z p) in
  let y2 := fe_mul (xge_x p) (xge_y p) in
  fe_equal lhs rhs && fe_equal x2 y2 && negb (fe_is_zero (xge_z p)).

Definition xge_set_xy (x y : fe_t) : xge_t :=
  mk_xge x y fe_one (fe_mul x y).

(** [sign = None] is the C call with [sign = -1]; the outer [None] is
    [assert(0 && "no sqrt implementation")]. *)
Definition xge_set_y (y : fe_t) (sign : option bool) : option (xge_t * bool) :=
  (* x^2 = (y^2 - 1) / (d * y^2 - a) *)
  let fe := ed_fe ec in
  let y2 := fe_sqr y in
  let lhs := fe_sub y2 fe_one in
  let rhs := fe_mul (ed_d ec) y2 in
  let rhs := fe_sub rhs (ed_a ec) in
  match fe_isqrt fe lhs rhs with
  | None => None
  | Some (x, ret) =>
      let x := match sign with
               | Some s => fe_set_odd x s
               | None => x
               end in
      let r := xge_set_xy x y in
      let ret := match sign with
                 | Some s => ret && negb (fe_is_zero x && s)
                 | None => ret
                 end in
      Some (r, ret)
  end.

(** [raw[i]]; reading past the end is not modelled. *)
Definition byte_at (raw : list byte) (i : nat) : Z := b2z (nth i raw x00).

(** [tmp[fe->size - 1] &= 0x7f] on a copy of the first [fe->size]
    bytes. *)
Definition xge_clear_sign (raw : list byte) : list byte :=
  let size := fe_size (ed_fe ec) in
  firstn (size - 1) raw
    ++ z2b (Z.land (byte_at raw (size - 1)) 127) :: nil.

(** [Some (Some r)]: success; [Some None]: [return 0]. *)
Definition xge_import (raw : list byte) : option (option xge_t) :=
  let fe := ed_fe ec in
  (* Quirk: we need an extra byte (p448). *)
  if Z.land (fe_bits fe) 7 =? 0 then
    if negb (Z.land (byte_at raw (fe_size fe)) 127 =? 0) then Some None else
    let '(y, ok) := fe_import fe raw in
    if negb ok then Some None else
    let sign := negb (Z.shiftr (byte_at raw (fe_size fe)) 7 =? 0) in
    match xge_set_y y (Some sign) with
    | None => None
    | Some (r, ret) => if ret then Some (Some r) else Some None
    end
  else
    let tmp := xge_clear_sign raw in
    let '(y, ok) := fe_import fe tmp in
    if negb ok then Some None else
    let sign := negb (Z.shiftr (byte_at raw (fe_size fe - 1)) 7 =? 0) in
    match xge_set_y y (Some sign) with
    | None => None
    | Some (r, ret) => if ret then Some (Some r) else Some None
    end.

End Edwards.

Record edwards_def_t : Type := mk_edwards_def {
  edef_hash : Z;
  edef_context : Z;
  edef_fe : prime_def_t;
  edef_sc : scalar_def_t;
  edef_a : list byte;
  edef_d : list byte;
  edef_h : Z;
  edef_x : list byte;
  edef_y : list byte;
  edef_clamp : list byte -> list byte
}.

(** [edwards_init], without the members left out of [edwards_t]. *)
Definition edwards_init (def : edwards_def_t) : edwards_t :=
  let fe := prime_field_init (edef_fe def) (-1) in
  let sc := scalar_field_init (edef_sc def) (-1) in
  let a := fst (fe_import_be fe (edef_a def)) in
  let d := fst (fe_import_be fe (edef_d def)) in
  let k := fe_add d d in
  let mone_a := fe_equal a fe_mone in
  let one_a := fe_equal a fe_one in
  let gx := fst (fe_import_be fe (edef_x def)) in
  let gy := fst (fe_import_be fe (edef_y def)) in
  let g := mk_xge gx gy fe_one (fe_mul gx gy) in
  mk_edwards (edef_hash def) (edef_context def) fe sc (edef_h def)
             a d k mone_a one_a g (edef_clamp def).

(** Round-to-nearest quotient of [x] by [2^s] (ties up), the value
    [sc_mulshift] is documented to return. *)
Definition round_shift (x s : Z) : Z := (x + 2 ^ (s - 1)) / 2 ^ s.

(** The range invariant of scalars. *)
Definition sc_reduced (sc : scalar_field_t) (r : Z) : Prop :=
  0 <= r < sc_n sc.

(** The integer a byte string denotes under an endianness. *)
Definition bytes_value (endian : Z) (l : list byte) : Z :=
  if endian =? 1 then be_value l else le_value l.

(** The three states of the constant-time comparison loop. *)
Definition cmp_state (va vb : Z) : Z * Z :=
  if va =? vb then (1, 0) else if va <? vb then (0, 1) else (0, 0).

(** The doubling selectors cached by [wei_init]:
    [zero_a = fe_is_zero a] and [three_a = fe_equal a (-3)]. *)
Definition wei_flags_wf (ec : wei_t) : bool :=
  Bool.eqb (ec_zero_a ec) (fe_is_zero (ec_a ec)) &&
  Bool.eqb (ec_three_a ec) (fe_equal (ec_a ec) (fe_neg fe_three)).

(** Well-formedness of a prime field context: what [prime_field_init]
    establishes for a modulus [fe_p] of exactly [bits] bits. *)
Definition fe_wf (fe : prime_field_t) : bool :=
  (1 <? fe_bits fe) &&
  (fe_limbs fe =? (fe_bits fe + GMP_NUMB_BITS - 1) / GMP_NUMB_BITS) &&
  (Z.of_nat (fe_size fe) =? (fe_bits fe + 7) / 8) &&
  (fe_plimbs fe =? fe_p) &&
  (2 ^ (fe_bits fe - 1) <=? fe_p) && (fe_p <? 2 ^ fe_bits fe) &&
  ((fe_endian fe =? 1) || (fe_endian fe =? -1)) &&
  (length (fe_raw fe) =? fe_size fe)%nat &&
  (bytes_value (fe_endian fe) (fe_raw fe) =? fe_p) &&
  (fe_mask fe =? 2 ^ (fe_bits fe - 8 * (Z.of_nat (fe_size fe) - 1)) - 1).

(** The two fields of a curve fit together as [wei_init] leaves them:
    encodings of the same size and byte order, a scalar no longer than
    a field element, and [red_n] the order reduced into the field. *)
Definition wei_fields_wf (ec : wei_t) : bool :=
  fe_wf (ec_fe ec) && sc_wf (ec_sc ec) &&
  (sc_size (ec_sc ec) =? fe_size (ec_fe ec))%nat &&
  (sc_endian (ec_sc ec) =? fe_endian (ec_fe ec)) &&
  (sc_limbs (ec_sc ec) <=? fe_limbs (ec_fe ec)) &&
  (Zmod.to_Z (ec_red_n ec) =? sc_n (ec_sc ec) mod fe_p).

(** The affine x-coordinate of a finite Jacobian point, as an integer. *)
Definition jge_affine_x (p : jge_t) : Z :=
  Zmod.to_Z (Zmod.mdiv (jge_x p) (Zmod.mul (jge_z p) (jge_z p))).

(** The Montgomery ladder as the specification words it: one round per
    bit, from the most significant one; a round on bit 1 exchanges the
    two working points around the joint add-and-double step. *)
Definition mont_ladder_round (ec : mont_t) (p : pge_t)
  (st : pge_t * pge_t) (bit : bool) : pge_t * pge_t :=
  let '(a, b) := pge_swap (fst st) (snd st) (Z.b2z bit) in
  let '(a, b) := pge_ladder ec p a b in
  pge_swap a b (Z.b2z bit).

Definition mont_ladder (ec : mont_t) (p : pge_t) (bits : list bool) : pge_t :=
  fst (fold_left (mont_ladder_round ec p) bits (pge_zero, p)).

(** The bits of [k] the ladder of a [bits]-bit field looks at. *)
Definition ladder_bits (bits k : Z) : list bool :=
  map (Z.testbit k) (bits_down bits).

(** The state [(a, b, swap)] of the C loop that stands for the working
    points [st] of the plain ladder when the previous bit was [s]. *)
Definition mont_mul_state (ec : mont_t) (st : pge_t * pge_t) (s : bool)
  : pge_t * pge_t * Z :=
  let '(a, b) := pge_swap (fst st) (snd st) (Z.b2z s) in
  (a, b, Z.b2z s).

(** What [mont_init] establishes: a little-endian field, and scalars
    with at least as many limb bits as the field has bits. *)
Definition mont_wf (ec : mont_t) : bool :=
  fe_wf (mont_fe ec) && (fe_endian (mont_fe ec) =? -1) &&
  (fe_bits (mont_fe ec) <=? sc_limbs (mont_sc ec) * GMP_NUMB_BITS).

(** Length of an encoded Edwards point: one more byte than a field
    element when the field fills its bytes (p448). *)
Definition xge_encoded_size (fe : prime_field_t) : nat :=
  if Z.land (fe_bits fe) 7 =? 0 then S (fe_size fe) else fe_size fe.

(** The y-coordinate an encoding carries: the little-endian value of
    its first [size] bytes, without the top bit when that bit is the
    sign. *)
Definition xge_encoded_y (fe : prime_field_t) (raw : list byte) : Z :=
  if Z.land (fe_bits fe) 7 =? 0 then le_value (firstn (fe_size fe) raw)
  else le_value (firstn (fe_size fe) raw) mod 2 ^ (8 * Z.of_nat (fe_size fe) - 1).

(** The sign an encoding carries: the top bit of its last byte. *)
Definition xge_encoded_sign (fe : prime_field_t) (raw : list byte) : bool :=
  Z.testbit (byte_at raw (xge_encoded_size fe - 1)) 7.

(** What [edwards_init] establishes for the field: little-endian. *)
Definition edwards_wf (ec : edwards_t) : bool :=
  fe_wf (ed_fe ec) && (fe_endian (ed_fe ec) =? -1).

(* ================================================================= *)
(** * The group of points (specification side) *)

(** A point of the curve in the textbook sense: the point at infinity
    or an affine pair. *)
Definition point : Type := option (fe_t * fe_t).

Section PointGroup.

Variable ec : wei_t.

(** [y^2 = x^3 + a x + b] *)
Definition on_curve (P : point) : bool :=
  match P with
  | None => true
  | Some (x, y) =>
      fe_equal (Zmod.mul y y)
        (Zmod.add (Zmod.add (Zmod.mul (Zmod.mul x x) x)
                            (Zmod.mul (ec_a ec) x)) (ec_b ec))
  end.

Definition pneg (P : point) : point :=
  match P with
  | None => None
  | Some (x, y) => Some (x, Zmod.opp y)
  end.

(** The chord-and-tangent law. *)
Definition padd (P Q : point) : point :=
  match P, Q with
  | None, _ => Q
  | _, None => P
  | Some (x1, y1), Some (x2, y2) =>
      if fe_equal x1 x2 then
        if fe_equal y1 y2 && negb (fe_is_zero y1) then
          let l := Zmod.mdiv
                     (Zmod.add (Zmod.mul (Zmod.of_Z fe_p 3) (Zmod.mul x1 x1))
                               (ec_a ec))
                     (Zmod.add y1 y1) in
          let x3 := Zmod.sub (Zmod.sub (Zmod.mul l l) x1) x1 in
          Some (x3, Zmod.sub (Zmod.mul l (Zmod.sub x1 x3)) y1)
        else None
      else
        let l := Zmod.mdiv (Zmod.sub y1 y2) (Zmod.sub x1 x2) in
        let x3 := Zmod.sub (Zmod.sub (Zmod.mul l l) x1) x2 in
        Some (x3, Zmod.sub (Zmod.mul l (Zmod.sub x1 x3)) y1)
  end.

(** [k * P] for a natural number [k]. *)
Fixpoint nmul (k : nat) (P : point) : point :=
  match k with
  | O => None
  | S k => padd P (nmul k P)
  end.

(** [k * P] for an integer [k]. *)
Definition pmul (k : Z) (P : point) : point :=
  if k <? 0 then pneg (nmul (Z.to_nat (- k)) P) else nmul (Z.to_nat k) P.

(** The points of the code, read as points of the curve. *)
Definition waff (p : wge_t) : point :=
  if wge_inf p then None else Some (wge_x p, wge_y p).

Definition jaff (p : jge_t) : point :=
  if fe_is_zero (jge_z p) then None
  else
    let zz := Zmod.mul (jge_z p) (jge_z p) in
    Some (Zmod.mdiv (jge_x p) zz,
          Zmod.mdiv (jge_y p) (Zmod.mul zz (jge_z p))).

(** All affine pairs over the field, for enumeration on small fields. *)
Definition all_points : list point :=
  None ::
  flat_map (fun x => map (fun y => Some (Zmod.of_Z fe_p x, Zmod.of_Z fe_p y))
                         (upto fe_p))
           (upto fe_p).

Definition point_eqb (P Q : point) : bool :=
  match P, Q with
  | None, None => true
  | Some (x1, y1), Some (x2, y2) => fe_equal x1 x2 && fe_equal y1 y2
  | _, _ => false
  end.

End PointGroup.

(** The one fact about the chord-and-tangent law that is assumed:
    it is associative on the points of the curve. *)
Definition padd_associative (ec : wei_t) : Prop :=
  forall P Q R : point,
    on_curve ec P = true -> on_curve ec Q = true -> on_curve ec R = true ->
    padd ec (padd ec P Q) R = padd ec P (padd ec Q R).

(** A curve without cofactor has no point of order two. *)
Definition cofactor_ok (ec : wei_t) : Prop :=
  ec_h ec <= 1 -> forall x : fe_t, on_curve ec (Some (x, Zmod.zero)) = false.

(** Decision procedures for the two facts on fields small enough to
    enumerate. *)
Definition curve_points (ec : wei_t) : list point :=
  filter (on_curve ec) all_points.

Definition padd_associative_check (ec : wei_t) : bool :=
  let pts := curve_points ec in
  forallb (fun P =>
    forallb (fun Q =>
      forallb (fun R =>
        point_eqb (padd ec (padd ec P Q) R) (padd ec P (padd ec Q R)))
        pts) pts) pts.

Definition cofactor_check (ec : wei_t) : bool :=
  (1 <? ec_h ec) ||
  forallb (fun x => negb (on_curve ec (Some (Zmod.of_Z fe_p x, Zmod.zero))))
          (upto fe_p).

(* ================================================================= *)
(** * Statement vocabulary for recodings and tables *)

(** The integer a digit string denotes, least significant digit first. *)
Fixpoint naf_eval (naf : list Z) : Z :=
  match naf with
  | [] => 0
  | d :: t => d + 2 * naf_eval t
  end.

(** A digit of a width-[w] NAF: zero, or odd and below [2^w] in absolute
    value. *)
Definition naf_digit (width d : Z) : bool :=
  (d =? 0) || (Z.odd d && (Z.abs d <? 2 ^ width)).

(** The two digits a column of the joint sparse form stands for: the
    comb of [wge_jsf_points_endo] holds [P1], [P1 + P2], [P1 - P2] and
    [P2] under the odd indices 1, 3, 5 and 7. *)
Definition jsf_first (z : Z) : Z :=
  if (z =? 1) || (z =? 3) || (z =? 5) then 1
  else if (z =? -1) || (z =? -3) || (z =? -5) then -1
  else 0.

Definition jsf_second (z : Z) : Z :=
  if (z =? 3) || (z =? 7) || (z =? -5) then 1
  else if (z =? -3) || (z =? -7) || (z =? 5) then -1
  else 0.

(** The tables [wei_init] precomputes from the generator. *)
Definition wei_tables_wf (ec : wei_t) : Prop :=
  ec_windows ec = wge_wnd_points_var ec (ec_g ec) /\
  ec_points ec = wge_naf_points_var ec (ec_g ec) NAF_WIDTH_PRE.

(** The order [n] kept as bytes for the range check of [sc_import]. *)
Definition sc_raw_wf (sc : scalar_field_t) : bool :=
  (length (sc_raw sc) =? sc_size sc)%nat &&
  (bytes_value (sc_endian sc) (sc_raw sc) =? sc_n sc).

(** [a / b] in the integers modulo [n]. *)
Definition zn_div (n a b : Z) : Z :=
  Zmod.to_Z (Zmod.mdiv (Zmod.of_Z n a) (Zmod.of_Z n b)).

(* ================================================================= *)
(** * Statement vocabulary for ECDSA *)

(** The contract of the optional per-curve backends: [invert] is the
    field inverse (zero at zero), and [sqrt] reports a square root
    exactly when there is one. *)
Definition fe_backend_wf (fe : prime_field_t) : Prop :=
  (forall f, fe_invert_fn fe = Some f -> forall a, f a = Zmod.inv a) /\
  (forall f, fe_sqrt_fn fe = Some f ->
     forall a : fe_t,
       (snd (f a) = true -> Zmod.mul (fst (f a)) (fst (f a)) = a) /\
       ((exists z : fe_t, Zmod.mul z z = a) -> snd (f a) = true)).

(** What [wei_init] establishes and the ECDSA functions rely on:
    consistent fields, big-endian scalars, the cached flags and tables,
    and a generator on the curve. *)
Definition wei_wf (ec : wei_t) : Prop :=
  wei_fields_wf ec = true /\
  wei_flags_wf ec = true /\
  sc_raw_wf (ec_sc ec) = true /\
  sc_endian (ec_sc ec) = 1 /\
  wei_tables_wf ec /\
  wge_inf (ec_g ec) = false /\
  on_curve ec (waff (ec_g ec)) = true.

(** [R = u1 * G + u2 * A] with [u1 = m / s] and [u2 = r / s]. *)
Definition ecdsa_point (ec : wei_t) (m r s : Z) (A : point) : point :=
  let n := sc_n (ec_sc ec) in
  padd ec (pmul ec (zn_div n m s) (waff (ec_g ec)))
          (pmul ec (zn_div n r s) A).

(** [x(P) = r (mod n)], false at infinity. *)
Definition point_x_is (n : Z) (P : point) (r : Z) : bool :=
  match P with
  | None => false
  | Some (x, _) => Zmod.to_Z x mod n =? r
  end.

(** The acceptance condition of ECDSA verification. *)
Definition ecdsa_accepts (ec : wei_t) (m r s : Z) (A : point) : bool :=
  point_x_is (sc_n (ec_sc ec)) (ecdsa_point ec m r s A) r.

(** The verdict on scalars [r], [s] read from a signature. *)
Definition ecdsa_verdict (ec : wei_t) (m r s : Z) (A : point) : bool :=
  let n := sc_n (ec_sc ec) in
  if (r =? 0) || (s =? 0) || (n <=? r) || (n <=? s) || (n / 2 <? s)
  then false
  else ecdsa_accepts ec m r s A.

(** The blinding pair of [wei_randomize] (zero and infinity after
    [wei_init]): [unblind = -(blind * G)]. *)
Definition wei_blind_wf (ec : wei_t) : Prop :=
  0 <= ec_blind ec < sc_n (ec_sc ec) /\
  waff (ec_unblind ec) = pneg (pmul ec (ec_blind ec) (waff (ec_g ec))).

(** The generator has order [n]. *)
Definition wei_order_wf (ec : wei_t) : Prop :=
  pmul ec (sc_n (ec_sc ec)) (waff (ec_g ec)) = None.

(** The map [(x, y) -> (beta x, y)] of [wge_endo_beta] on points. *)
Definition pendo (ec : wei_t) (P : point) : point :=
  match P with
  | None => None
  | Some (x, y) => Some (fe_mul x (ec_beta ec), y)
  end.

(** The combination [a G1 + b G2 + c A1 + d A2] that the interleaved
    multiplication loops accumulate. *)
Definition plin (ec : wei_t) (G1 G2 A1 A2 : point) (a b c d : Z) : point :=
  padd ec (padd ec (pmul ec a G1) (pmul ec b G2))
          (padd ec (pmul ec c A1) (pmul ec d A2)).

(** The contract of the endomorphism constants of a curve definition
    that sets [endo] (it says nothing of the other curves): the
    constants are reduced scalars, [sc_mulshift] has room for its shift
    by [bits + 16], the cached table holds the images of the odd
    multiples of the generator, every point of the curve has an order
    dividing [n], and [beta] acts as the multiplication by [-lambda]
    (the definition stores the negated eigenvalue, see
    [wei_endo_split]). *)
Definition wei_endo_wf (ec : wei_t) : Prop :=
  ec_endo ec = true ->
  let sc := ec_sc ec in
  sc_bits sc + 16 < 2 * sc_limbs sc * GMP_NUMB_BITS /\
  sc_reduced sc (ec_lambda ec) /\
  sc_reduced sc (ec_b1 ec) /\ sc_reduced sc (ec_b2 ec) /\
  sc_reduced sc (ec_g1 ec) /\ sc_reduced sc (ec_g2 ec) /\
  ec_endo_points ec = map (wge_endo_beta ec) (ec_points ec) /\
  forall P : point,
    on_curve ec P = true ->
    pmul ec (sc_n sc) P = None /\
    pendo ec P = pmul ec (sc_n sc - ec_lambda ec) P.

(** A decision procedure for the last part of the contract on fields
    small enough to enumerate. *)
Definition endo_action_check (ec : wei_t) : bool :=
  let n := sc_n (ec_sc ec) in
  forallb (fun P => point_eqb (pmul ec n P) None &&
                    point_eqb (pendo ec P) (pmul ec (n - ec_lambda ec) P))
          (curve_points ec).

(** [fe_sqrt] finds a root of every square. *)
Definition fe_sqrt_complete (fe : prime_field_t) : Prop :=
  forall a : fe_t,
    (exists z : fe_t, Zmod.mul z z = a) ->
    exists r : fe_t, fe_sqrt fe a = Some (r, true).

(** [(sig, param)] is the ECDSA signature of the message scalar [m]
    under the key [a] with the nonce [k]: [r = x(k G) mod n],
    [s = (r a + m) / k] brought to the lower half, and the recovery
    parameter telling whether [x(k G) >= n] and the parity of [y(k G)]
    (flipped when [s] was negated). *)
Definition ecdsa_signed (ec : wei_t) (a m k : Z) (sig : list byte)
           (param : Z) : Prop :=
  let n := sc_n (ec_sc ec) in
  exists x y : fe_t,
    pmul ec k (waff (ec_g ec)) = Some (x, y) /\
    let r := Zmod.to_Z x mod n in
    let s0 := (r * a + m) * Z.invmod k n mod n in
    let hi := n / 2 <? s0 in
    r <> 0 /\
    sig = sc_export (ec_sc ec) r
          ++ sc_export (ec_sc ec) (if hi then (- s0) mod n else s0) /\
    param = Z.lor (Z.shiftl (Z.b2z (negb (Zmod.to_Z x <? n))) 1)
                  (Z.b2z (xorb (fe_is_odd y) hi)).

(** What [ecdsa_recover] relies on: the cached [p mod n], and
    [n <= p < 2 n] (the code "assumes n < p"; a curve without cofactor
    has [p < 2 n]). *)
Definition wei_recover_wf (ec : wei_t) : Prop :=
  ec_pmodn ec = fe_p mod sc_n (ec_sc ec) /\
  sc_n (ec_sc ec) <= fe_p < 2 * sc_n (ec_sc ec).
(* ================================================================= *)
(** * Theorems *)

(** A limb holds at least a byte. *)
Hypothesis limb_bits_ge_8 : 8 <= GMP_NUMB_BITS.

(** ** Limb arithmetic *)

Lemma limb_base_pos n : 0 <= n -> 0 < limb_base n.
Proof. intros. unfold limb_base. apply Z.pow_pos_nonneg; nia. Qed.

Lemma limb_base_add a b :
  0 <= a -> 0 <= b -> limb_base (a + b) = limb_base a * limb_base b.
Proof.
  intros. unfold limb_base.
  rewrite Z.mul_add_distr_l, Z.pow_add_r; nia.
Qed.

Lemma limb_base_le a b : 0 <= a <= b -> limb_base a <= limb_base b.
Proof. intros. unfold limb_base. apply Z.pow_le_mono_r; nia. Qed.

Lemma limb_base_ge_256 n : 1 <= n -> 256 <= limb_base n.
Proof.
  intros. unfold limb_base. change 256 with (2 ^ 8).
  apply Z.pow_le_mono_r; nia.
Qed.

Lemma mpn_get_small a n : 0 <= a < limb_base n -> mpn_get a n = a.
Proof. intros. unfold mpn_get. apply Z.mod_small; lia. Qed.

Lemma mpn_get_range a n : 0 <= n -> 0 <= mpn_get a n < limb_base n.
Proof. intros. apply Z.mod_pos_bound, limb_base_pos; lia. Qed.

Lemma mpn_limb_testbit a i j :
  0 <= i -> 0 <= j ->
  Z.testbit (mpn_limb a i) j =
  if j <? GMP_NUMB_BITS then Z.testbit a (GMP_NUMB_BITS * i + j) else false.
Proof.
  intros Hi Hj. unfold mpn_limb.
  rewrite Z.land_spec, Z.shiftr_spec by lia.
  rewrite Z.testbit_ones_nonneg by lia.
  rewrite (Z.add_comm j).
  destruct (j <? GMP_NUMB_BITS); [apply andb_true_r | apply andb_false_r].
Qed.

Lemma limb_bit a i :
  0 <= i ->
  Z.land (Z.shiftr (mpn_limb a (i / GMP_NUMB_BITS)) (i mod GMP_NUMB_BITS)) 1
  = Z.b2z (Z.testbit a i).
Proof.
  intros Hi.
  assert (Hq : 0 <= i / GMP_NUMB_BITS) by (apply Z.div_pos; lia).
  assert (Hr : 0 <= i mod GMP_NUMB_BITS < GMP_NUMB_BITS)
    by (apply Z.mod_pos_bound; lia).
  change 1 with (Z.ones 1). rewrite Z.land_ones by lia.
  change (2 ^ 1) with 2. rewrite <- Z.bit0_mod, Z.shiftr_spec by lia.
  rewrite Z.add_0_l, mpn_limb_testbit by lia.
  destruct (Z.ltb_spec (i mod GMP_NUMB_BITS) GMP_NUMB_BITS); [|lia].
  rewrite <- Z.div_mod by lia. reflexivity.
Qed.

(** A fold of [Z.lor] is zero exactly when every operand is. *)
Lemma fold_lor_zero (f : Z -> Z) l z0 :
  fold_left (fun z i => Z.lor z (f i)) l z0 = 0 <->
  z0 = 0 /\ Forall (fun i => f i = 0) l.
Proof.
  revert z0. induction l as [|x l IH]; intros z0; simpl.
  - split; [intros; split; [assumption | constructor] | tauto].
  - rewrite IH, Z.lor_eq_0_iff. split.
    + intros [[H1 H2] H3]. split; [assumption | constructor; assumption].
    + intros [H1 H2]. inversion H2; subst. tauto.
Qed.

Lemma limb_indices_In n i : In i (limb_indices n) <-> 0 <= i < n.
Proof.
  unfold limb_indices. rewrite in_map_iff. split.
  - intros [k [<- Hk]]. apply in_seq in Hk. lia.
  - intros H. exists (Z.to_nat i). split; [lia | apply in_seq; lia].
Qed.

Lemma limbs_zero_iff a n :
  0 <= n ->
  Forall (fun i => mpn_limb a i = 0) (limb_indices n) <-> mpn_get a n = 0.
Proof.
  intros Hn. rewrite Forall_forall. unfold mpn_get, limb_base.
  rewrite <- Z.land_ones by nia. split.
  - intros H. apply Z.bits_inj'. intros k Hk.
    rewrite Z.land_spec, Z.bits_0.
    destruct (Z.ltb_spec k (GMP_NUMB_BITS * n)).
    + assert (Hq : 0 <= k / GMP_NUMB_BITS < n).
      { split; [apply Z.div_pos; lia|]. apply Z.div_lt_upper_bound; lia. }
      pose proof (Z.mod_pos_bound k GMP_NUMB_BITS ltac:(lia)) as Hr.
      specialize (H (k / GMP_NUMB_BITS) (proj2 (limb_indices_In _ _) Hq)).
      apply (f_equal (fun z => Z.testbit z (k mod GMP_NUMB_BITS))) in H.
      rewrite mpn_limb_testbit, Z.bits_0 in H by lia.
      destruct (Z.ltb_spec (k mod GMP_NUMB_BITS) GMP_NUMB_BITS); [|lia].
      rewrite <- Z.div_mod in H by lia. rewrite H. reflexivity.
    + rewrite Z.ones_spec_high by nia. apply andb_false_r.
  - intros H i Hi. apply limb_indices_In in Hi.
    apply Z.bits_inj'. intros j Hj.
    rewrite mpn_limb_testbit, Z.bits_0 by lia.
    destruct (Z.ltb_spec j GMP_NUMB_BITS); [|reflexivity].
    apply (f_equal (fun z => Z.testbit z (GMP_NUMB_BITS * i + j))) in H.
    rewrite Z.land_spec, Z.bits_0, Z.ones_spec_low in H by nia.
    rewrite andb_true_r in H. exact H.
Qed.

Lemma mpn_limb_lxor a b i :
  Z.lxor (mpn_limb a i) (mpn_limb b i) = mpn_limb (Z.lxor a b) i.
Proof.
  unfold mpn_limb. rewrite Z.shiftr_lxor.
  apply Z.bits_inj'. intros k Hk.
  rewrite Z.lxor_spec, !Z.land_spec, Z.lxor_spec.
  destruct (Z.testbit (Z.ones GMP_NUMB_BITS) k);
    rewrite ?andb_true_r, ?andb_false_r; reflexivity.
Qed.

Lemma mpn_get_lxor a b n :
  0 <= n -> mpn_get (Z.lxor a b) n = Z.lxor (mpn_get a n) (mpn_get b n).
Proof.
  intros. unfold mpn_get, limb_base. rewrite <- !Z.land_ones by nia.
  apply Z.bits_inj'. intros k Hk.
  rewrite Z.lxor_spec, !Z.land_spec, Z.lxor_spec.
  destruct (Z.testbit (Z.ones (GMP_NUMB_BITS * n)) k);
    rewrite ?andb_true_r, ?andb_false_r; reflexivity.
Qed.

(** Barrett's quotient estimate is off by at most one. *)
Lemma barrett_bound a n B :
  0 < n -> 0 < B -> 0 <= a < B ->
  0 <= a - (a * (B / n) / B) * n < 2 * n.
Proof.
  intros Hn HB Ha.
  pose proof (Z.div_mod B n ltac:(lia)) as Hm.
  pose proof (Z.mod_pos_bound B n Hn) as Hmr.
  set (m := B / n) in *.
  assert (Hm0 : 0 <= m) by (apply Z.div_pos; lia).
  pose proof (Z.div_mod (a * m) B ltac:(lia)) as Hh.
  pose proof (Z.mod_pos_bound (a * m) B HB) as Hhr.
  set (h := a * m / B) in *.
  assert (Hh0 : 0 <= h) by (apply Z.div_pos; nia).
  split.
  - assert ((h * n) * B <= a * B) by nia. nia.
  - assert ((a - h * n - 2 * n) * B < 0); [|nia].
    assert (a * B = a * m * n + a * (B mod n)) by nia.
    assert (a * (B mod n) < B * n) by nia.
    nia.
Qed.

(** ** Byte strings *)

Lemma b2z_range b : 0 <= b2z b < 256.
Proof.
  unfold b2z. pose proof (Byte.to_N_bounded b). lia.
Qed.

Lemma le_value_range l : 0 <= le_value l < 256 ^ Z.of_nat (length l).
Proof.
  induction l as [|b t IH].
  - simpl. lia.
  - cbn [le_value length]. rewrite Nat2Z.inj_succ, Z.pow_succ_r by lia.
    pose proof (b2z_range b). lia.
Qed.

Lemma be_value_range l : 0 <= be_value l < 256 ^ Z.of_nat (length l).
Proof.
  unfold be_value. rewrite <- length_rev. apply le_value_range.
Qed.

Lemma import_value_range raw size endian :
  0 <= (if endian =? 1 then be_value (firstn size raw)
        else le_value (firstn size raw)) < 2 ^ (8 * Z.of_nat size).
Proof.
  assert (Hl : (length (firstn size raw) <= size)%nat) by apply firstn_le_length.
  assert (Hp : 256 ^ Z.of_nat (length (firstn size raw)) <= 2 ^ (8 * Z.of_nat size)).
  { rewrite Z.pow_mul_r by lia. change (2 ^ 8) with 256.
    apply Z.pow_le_mono_r; lia. }
  destruct (endian =? 1).
  - pose proof (be_value_range (firstn size raw)). lia.
  - pose proof (le_value_range (firstn size raw)). lia.
Qed.

(** ** Scalar field arithmetic *)

Section ScalarFacts.

Variable sc : scalar_field_t.
Hypothesis Hwf : sc_wf sc = true.

Lemma sc_wf_bits : 1 < sc_bits sc.
Proof.
  unfold sc_wf in Hwf. rewrite !andb_true_iff in Hwf.
  destruct Hwf as [[[[[[[[H _] _] _] _] _] _] _] _]. lia.
Qed.

Lemma sc_wf_limbs :
  sc_limbs sc = (sc_bits sc + GMP_NUMB_BITS - 1) / GMP_NUMB_BITS.
Proof.
  unfold sc_wf in Hwf. rewrite !andb_true_iff in Hwf.
  destruct Hwf as [[[[[[[[_ H] _] _] _] _] _] _] _]. lia.
Qed.

Lemma sc_wf_size : Z.of_nat (sc_size sc) = (sc_bits sc + 7) / 8.
Proof.
  unfold sc_wf in Hwf. rewrite !andb_true_iff in Hwf.
  destruct Hwf as [[[[[[[_ H] _] _] _] _] _] _]. lia.
Qed.

Lemma sc_wf_shift : sc_shift sc = (sc_limbs sc + 1) * 2.
Proof.
  unfold sc_wf in Hwf. rewrite !andb_true_iff in Hwf.
  destruct Hwf as [[[[[[_ H] _] _] _] _] _]. lia.
Qed.

Lemma sc_wf_n : 2 ^ (sc_bits sc - 1) <= sc_n sc < 2 ^ sc_bits sc.
Proof.
  unfold sc_wf in Hwf. rewrite !andb_true_iff in Hwf.
  destruct Hwf as [[[[[_ H1] H2] _] _] _]. lia.
Qed.

Lemma sc_wf_nh : sc_nh sc = sc_n sc / 2.
Proof.
  unfold sc_wf in Hwf. rewrite !andb_true_iff in Hwf.
  destruct Hwf as [[[_ H] _] _]. lia.
Qed.

Lemma sc_wf_m : sc_m sc = limb_base (sc_shift sc) / sc_n sc.
Proof.
  unfold sc_wf in Hwf. rewrite !andb_true_iff in Hwf.
  destruct Hwf as [[_ H] _]. lia.
Qed.

Lemma sc_wf_endian : sc_endian sc = 1 \/ sc_endian sc = -1.
Proof.
  unfold sc_wf in Hwf. rewrite !andb_true_iff, orb_true_iff in Hwf.
  destruct Hwf as [_ [H|H]]; lia.
Qed.

Lemma sc_n_gt_1 : 1 < sc_n sc.
Proof.
  pose proof sc_wf_bits. pose proof sc_wf_n.
  assert (2 ^ 1 <= 2 ^ (sc_bits sc - 1)) by (apply Z.pow_le_mono_r; lia).
  change (2 ^ 1) with 2 in *. lia.
Qed.

Lemma sc_limbs_pos : 1 <= sc_limbs sc.
Proof.
  rewrite sc_wf_limbs. pose proof sc_wf_bits.
  apply Z.div_le_lower_bound; lia.
Qed.

Lemma sc_bits_le_limbs : sc_bits sc <= GMP_NUMB_BITS * sc_limbs sc.
Proof.
  rewrite sc_wf_limbs.
  pose proof (Z.div_mod (sc_bits sc + GMP_NUMB_BITS - 1) GMP_NUMB_BITS ltac:(lia)).
  pose proof (Z.mod_pos_bound (sc_bits sc + GMP_NUMB_BITS - 1) GMP_NUMB_BITS ltac:(lia)).
  lia.
Qed.

Lemma sc_n_lt_base : sc_n sc < limb_base (sc_limbs sc).
Proof.
  pose proof sc_wf_n. pose proof sc_bits_le_limbs. pose proof sc_wf_bits.
  assert (2 ^ sc_bits sc <= limb_base (sc_limbs sc))
    by (apply Z.pow_le_mono_r; lia).
  lia.
Qed.

Lemma sc_base_lt_shift : limb_base (sc_limbs sc) * limb_base (sc_limbs sc)
                         <= limb_base (sc_shift sc).
Proof.
  pose proof sc_limbs_pos.
  rewrite <- limb_base_add by lia. apply limb_base_le.
  rewrite sc_wf_shift. lia.
Qed.

Lemma sc_m_range : 0 <= sc_m sc < limb_base (sc_shift sc).
Proof.
  rewrite sc_wf_m. pose proof sc_n_gt_1. pose proof sc_limbs_pos.
  pose proof (limb_base_pos (sc_shift sc) ltac:(rewrite sc_wf_shift; lia)).
  split; [apply Z.div_pos; lia|].
  apply Z.div_lt; lia.
Qed.

Lemma sc_is_zero_spec a : sc_is_zero sc a = (mpn_get a (sc_limbs sc) =? 0).
Proof.
  pose proof sc_limbs_pos. unfold sc_is_zero.
  apply eq_true_iff_eq. rewrite !Z.eqb_eq, fold_lor_zero.
  rewrite limbs_zero_iff by lia. tauto.
Qed.

Lemma sc_equal_spec a b :
  sc_equal sc a b = (mpn_get a (sc_limbs sc) =? mpn_get b (sc_limbs sc)).
Proof.
  pose proof sc_limbs_pos. unfold sc_equal.
  apply eq_true_iff_eq. rewrite !Z.eqb_eq, fold_lor_zero.
  rewrite <- (Z.lxor_eq_0_iff (mpn_get a _)), <- mpn_get_lxor,
    <- limbs_zero_iff by lia.
  rewrite !Forall_forall. split.
  - intros [_ Hx] i Hi. rewrite <- mpn_limb_lxor. auto.
  - intros Hx. split; [reflexivity|]. intros i Hi.
    rewrite mpn_limb_lxor. auto.
Qed.

Section Operands.

Variables a b : Z.
Hypothesis Ha : 0 <= a < sc_n sc.
Hypothesis Hb : 0 <= b < sc_n sc.

Lemma sc_get_a : mpn_get a (sc_limbs sc) = a.
Proof. apply mpn_get_small. pose proof sc_n_lt_base. lia. Qed.

Lemma sc_add_spec : sc_add sc a b = (a + b) mod sc_n sc.
Proof.
  pose proof sc_n_lt_base as Hn. pose proof sc_limbs_pos as HL.
  pose proof (limb_base_pos (sc_limbs sc) ltac:(lia)) as HB.
  assert (HB1 : 2 * limb_base (sc_limbs sc) <= limb_base (sc_limbs sc + 1)).
  { rewrite limb_base_add by lia. pose proof (limb_base_ge_256 1 ltac:(lia)). nia. }
  unfold sc_add, mpn_copyi, mpn_add_n, mpn_sub_n, mpn_cnd_select.
  rewrite !(mpn_get_small a), !(mpn_get_small b) by lia.
  cbn [fst].
  rewrite (Z.mod_small (a + b) (limb_base (sc_limbs sc + 1))) by lia.
  rewrite !(mpn_get_small (a + b) (sc_limbs sc + 1)) by lia.
  rewrite (mpn_get_small (sc_n sc) (sc_limbs sc + 1)) by lia.
  destruct (Z.ltb_spec (a + b - sc_n sc) 0) as [Hlt|Hge]; cbn [Z.eqb].
  - rewrite mpn_get_small by lia. symmetry. apply Z.mod_small. lia.
  - rewrite (Z.mod_small (a + b - sc_n sc)) by lia.
    rewrite mpn_get_small by lia.
    apply Z.mod_unique with (q := 1); lia.
Qed.

Lemma sc_neg_spec : sc_neg sc a = (- a) mod sc_n sc.
Proof.
  pose proof sc_n_lt_base as Hn. pose proof sc_limbs_pos as HL.
  unfold sc_neg, mpn_sub_n. rewrite sc_is_zero_spec.
  rewrite !(mpn_get_small a), (mpn_get_small (sc_n sc)) by lia.
  cbn [fst]. destruct (Z.eqb_spec a 0) as [->|Hz].
  - rewrite Z.mod_0_l by lia. reflexivity.
  - rewrite (Z.mod_small (sc_n sc - a)) by lia.
    apply Z.mod_unique with (q := -1); lia.
Qed.

End Operands.

Lemma sc_sub_spec a b :
  0 <= a < sc_n sc -> 0 <= b < sc_n sc ->
  sc_sub sc a b = (a - b) mod sc_n sc.
Proof.
  intros Ha Hb. pose proof sc_n_gt_1. unfold sc_sub.
  assert (Hnb : 0 <= sc_neg sc b < sc_n sc)
    by (rewrite sc_neg_spec by assumption; apply Z.mod_pos_bound; lia).
  rewrite sc_add_spec by assumption. rewrite sc_neg_spec by assumption.
  rewrite Z.add_mod_idemp_r by lia. f_equal.
Qed.

Lemma sc_reduce_u_spec ap :
  0 <= ap < limb_base (sc_shift sc) ->
  let h := ap * sc_m sc / limb_base (sc_shift sc) in
  sc_reduce_u sc ap = (ap - h * sc_n sc, 0) /\
  0 <= ap - h * sc_n sc < 2 * sc_n sc.
Proof.
  intros Hap h.
  pose proof sc_limbs_pos as HL. pose proof sc_n_gt_1 as Hn1.
  pose proof sc_m_range as Hm. pose proof sc_wf_shift as Hsh.
  pose proof sc_n_lt_base as Hn. pose proof sc_base_lt_shift as HLs.
  pose proof (limb_base_pos (sc_limbs sc) ltac:(lia)) as HBL.
  assert (Hs0 : 0 <= sc_shift sc) by lia.
  pose proof (limb_base_pos (sc_shift sc) Hs0) as HB.
  assert (HB2 : limb_base (sc_shift sc * 2)
                = limb_base (sc_shift sc) * limb_base (sc_shift sc)).
  { rewrite <- limb_base_add by lia. f_equal. lia. }
  pose proof (barrett_bound ap (sc_n sc) (limb_base (sc_shift sc))
                ltac:(lia) HB Hap) as Hbar.
  rewrite <- sc_wf_m in Hbar. fold h in Hbar.
  assert (Hh : 0 <= h < limb_base (sc_shift sc)).
  { unfold h. split; [apply Z.div_pos; nia|].
    apply Z.div_lt_upper_bound; nia. }
  split; [|exact Hbar].
  unfold sc_reduce_u, mpn_mul_n, mpn_offset, mpn_sub_n.
  rewrite (mpn_get_small ap (sc_shift sc)), (mpn_get_small (sc_m sc)) by lia.
  rewrite Z.shiftr_div_pow2 by nia. fold (limb_base (sc_shift sc)). fold h.
  rewrite (mpn_get_small h), (mpn_get_small (sc_n sc) (sc_shift sc)) by nia.
  rewrite (mpn_get_small ap), (mpn_get_small (h * sc_n sc)) by nia.
  rewrite Z.mod_small by nia.
  destruct (Z.ltb_spec (ap - h * sc_n sc) 0); [lia | reflexivity].
Qed.

Lemma sc_reduce_spec ap :
  0 <= ap < limb_base (sc_shift sc) ->
  sc_reduce sc ap = ap mod sc_n sc.
Proof.
  intros Hap.
  destruct (sc_reduce_u_spec ap Hap) as [Hu Hr].
  set (h := ap * sc_m sc / limb_base (sc_shift sc)) in *.
  pose proof sc_limbs_pos as HL. pose proof sc_n_gt_1 as Hn1.
  pose proof sc_wf_shift as Hsh.
  pose proof sc_n_lt_base as Hn. pose proof sc_base_lt_shift as HLs.
  pose proof (limb_base_pos (sc_limbs sc) ltac:(lia)) as HBL.
  unfold sc_reduce. rewrite Hu. cbn [fst]. unfold mpn_sub_n, mpn_cnd_select.
  assert (Hh : 0 <= h).
  { unfold h. pose proof sc_m_range.
    apply Z.div_pos; [nia | apply limb_base_pos; lia]. }
  rewrite (mpn_get_small (ap - h * sc_n sc) (sc_shift sc)) by nia.
  rewrite (mpn_get_small (sc_n sc) (sc_shift sc)) by nia.
  destruct (Z.ltb_spec (ap - h * sc_n sc - sc_n sc) 0); cbn [Z.eqb].
  - rewrite mpn_get_small by lia.
    apply Z.mod_unique with (q := h); lia.
  - rewrite (Z.mod_small (ap - h * sc_n sc - sc_n sc)) by nia.
    rewrite mpn_get_small by lia.
    apply Z.mod_unique with (q := h + 1); lia.
Qed.

(** The assertion [cy == 0] inside [sc_reduce] never fires. *)
Lemma sc_reduce_assert ap :
  0 <= ap < limb_base (sc_shift sc) -> sc_reduce_cy sc ap = 0.
Proof.
  intros Hap. unfold sc_reduce_cy.
  destruct (sc_reduce_u_spec ap Hap) as [-> _]. reflexivity.
Qed.

Lemma sc_mul_spec a b :
  0 <= a < sc_n sc -> 0 <= b < sc_n sc ->
  sc_mul sc a b = (a * b) mod sc_n sc.
Proof.
  intros Ha Hb. pose proof sc_n_lt_base. pose proof sc_base_lt_shift.
  unfold sc_mul, mpn_mul_n. rewrite !mpn_get_small by lia.
  apply sc_reduce_spec. nia.
Qed.

Lemma sc_sqr_spec a :
  0 <= a < sc_n sc -> sc_sqr sc a = (a * a) mod sc_n sc.
Proof.
  intros Ha. pose proof sc_n_lt_base. pose proof sc_base_lt_shift.
  unfold sc_sqr, mpn_sqr. rewrite !mpn_get_small by lia.
  apply sc_reduce_spec. nia.
Qed.

Lemma bits_down_succ k :
  bits_down (Z.of_nat (S k)) = Z.of_nat k :: bits_down (Z.of_nat k).
Proof.
  unfold bits_down. rewrite !Nat2Z.id, seq_S, map_app, rev_app_distr.
  reflexivity.
Qed.

Lemma mod_pow2_succ e k :
  0 <= k -> e mod 2 ^ (k + 1) = Z.b2z (Z.testbit e k) * 2 ^ k + e mod 2 ^ k.
Proof.
  intros Hk. rewrite Z.testbit_spec' by lia.
  assert (H2k : 0 < 2 ^ k) by (apply Z.pow_pos_nonneg; lia).
  pose proof (Z.div_mod e (2 ^ k) ltac:(lia)) as H1.
  pose proof (Z.mod_pos_bound e (2 ^ k) H2k) as H2.
  pose proof (Z.div_mod (e / 2 ^ k) 2 ltac:(lia)) as H3.
  pose proof (Z.mod_pos_bound (e / 2 ^ k) 2 ltac:(lia)) as H4.
  rewrite Z.pow_add_r, Z.pow_1_r by lia.
  symmetry. apply Z.mod_unique with (q := e / 2 ^ k / 2); nia.
Qed.

Lemma sc_pow_loop a e k b :
  0 <= a < sc_n sc -> 0 <= b < sc_n sc ->
  let r := fold_left
      (fun b i =>
         let bit := Z.shiftr (mpn_limb e (i / GMP_NUMB_BITS))
                             (i mod GMP_NUMB_BITS) in
         let b := sc_sqr sc b in
         if Z.land bit 1 =? 0 then b else sc_mul sc b a)
      (bits_down (Z.of_nat k)) b in
  r = (b ^ (2 ^ Z.of_nat k) * a ^ (e mod 2 ^ Z.of_nat k)) mod sc_n sc.
Proof.
  intros Ha. pose proof sc_n_gt_1 as Hn.
  revert b. induction k as [|k IH]; intros b Hb r; subst r.
  - cbn [bits_down Z.of_nat Z.to_nat seq map rev fold_left].
    rewrite Z.pow_0_r, Z.mod_1_r, Z.pow_0_r, Z.pow_1_r, Z.mul_1_r.
    symmetry. apply Z.mod_small. assumption.
  - rewrite bits_down_succ. cbn [fold_left].
    rewrite limb_bit by lia.
    assert (Hsq : 0 <= sc_sqr sc b < sc_n sc)
      by (rewrite sc_sqr_spec by assumption; apply Z.mod_pos_bound; lia).
    rewrite Nat2Z.inj_succ, <- Z.add_1_r, mod_pow2_succ by lia.
    assert (H2k : 0 <= 2 ^ Z.of_nat k) by (apply Z.pow_nonneg; lia).
    assert (Hek : 0 <= e mod 2 ^ Z.of_nat k)
      by (apply Z.mod_pos_bound, Z.pow_pos_nonneg; lia).
    destruct (Z.testbit e (Z.of_nat k)); cbn [Z.b2z Z.eqb].
    + assert (Hm : 0 <= sc_mul sc (sc_sqr sc b) a < sc_n sc)
        by (rewrite sc_mul_spec by assumption; apply Z.mod_pos_bound; lia).
      rewrite IH by assumption.
      rewrite sc_mul_spec, sc_sqr_spec by assumption.
      rewrite Z.mul_mod_idemp_l by lia.
      rewrite <- Z.mul_mod_idemp_l, Z.mod_pow_l by lia.
      rewrite Z.mul_mod_idemp_l by lia. f_equal.
      set (K := 2 ^ Z.of_nat k) in *.
      rewrite Z.mul_1_l, (Z.pow_add_r 2), Z.pow_1_r by lia. fold K.
      rewrite (Z.pow_add_r a K) by lia. rewrite !Z.pow_mul_l.
      rewrite (Z.pow_mul_r b K 2) by lia. rewrite Z.pow_2_r. ring.
    + rewrite IH by assumption. rewrite sc_sqr_spec by assumption.
      rewrite <- Z.mul_mod_idemp_l, Z.mod_pow_l by lia.
      rewrite Z.mul_mod_idemp_l by lia. f_equal.
      set (K := 2 ^ Z.of_nat k) in *.
      rewrite Z.mul_0_l, Z.add_0_l, (Z.pow_add_r 2), Z.pow_1_r by lia. fold K.
      rewrite !Z.pow_mul_l.
      rewrite (Z.pow_mul_r b K 2) by lia. rewrite Z.pow_2_r. ring.
Qed.

Lemma sc_pow_spec a e :
  0 <= a < sc_n sc ->
  sc_pow sc a e = a ^ (e mod 2 ^ sc_bits sc) mod sc_n sc.
Proof.
  intros Ha. pose proof sc_n_gt_1 as Hn. pose proof sc_wf_bits as Hb.
  pose proof sc_n_lt_base as HnB.
  unfold sc_pow, sc_set, sc_set_word, mpn_copyi.
  pose proof (sc_pow_loop a e (Z.to_nat (sc_bits sc)) 1 Ha ltac:(lia)) as H.
  rewrite Z2Nat.id in H by lia. cbv zeta in H. rewrite H.
  rewrite Z.pow_1_l, Z.mul_1_l by (apply Z.pow_nonneg; lia).
  apply mpn_get_small.
  pose proof (Z.mod_pos_bound (a ^ (e mod 2 ^ sc_bits sc))
                (sc_n sc) ltac:(lia)).
  lia.
Qed.

Lemma sc_invert_spec a :
  0 <= a < sc_n sc ->
  sc_invert sc a = (a ^ (sc_n sc - 2) mod sc_n sc, negb (a =? 0)).
Proof.
  intros Ha. pose proof sc_n_gt_1 as Hn. pose proof sc_n_lt_base as HnB.
  pose proof sc_wf_n as Hnb.
  unfold sc_invert, mpn_copyi, mpn_sub_1.
  rewrite sc_is_zero_spec, sc_pow_spec by assumption.
  rewrite !(mpn_get_small (sc_n sc)), (mpn_get_small a) by lia.
  cbn [fst]. rewrite (Z.mod_small (sc_n sc - 2)) by lia.
  rewrite (Z.mod_small (sc_n sc - 2)) by lia. reflexivity.
Qed.

Lemma sc_is_high_spec a :
  0 <= a < sc_n sc -> sc_is_high sc a = (sc_n sc / 2 <? a).
Proof.
  intros Ha. pose proof sc_n_gt_1 as Hn. pose proof sc_n_lt_base as HnB.
  assert (Hh : 0 <= sc_n sc / 2 < sc_n sc)
    by (split; [apply Z.div_pos; lia | apply Z.div_lt; lia]).
  unfold sc_is_high, mpn_sub_n. rewrite sc_equal_spec, sc_wf_nh.
  rewrite !(mpn_get_small a), !(mpn_get_small (sc_n sc / 2)) by lia.
  cbn [snd].
  destruct (Z.ltb_spec (a - sc_n sc / 2) 0), (Z.eqb_spec a (sc_n sc / 2)),
    (Z.ltb_spec (sc_n sc / 2) a); cbn; try reflexivity; lia.
Qed.

Lemma sc_minimize_spec a :
  0 <= a < sc_n sc ->
  sc_minimize sc a =
  (if sc_n sc / 2 <? a then (- a) mod sc_n sc else a, sc_n sc / 2 <? a).
Proof.
  intros Ha. pose proof sc_n_gt_1 as Hn. pose proof sc_n_lt_base as HnB.
  unfold sc_minimize, sc_neg_cond, sc_select, mpn_cnd_select.
  rewrite sc_is_high_spec, sc_neg_spec by assumption.
  pose proof (Z.mod_pos_bound (- a) (sc_n sc) ltac:(lia)).
  destruct (sc_n sc / 2 <? a); rewrite mpn_get_small by lia; reflexivity.
Qed.

Lemma sc_size_bits : sc_bits sc <= 8 * Z.of_nat (sc_size sc) <= sc_bits sc + 7.
Proof.
  rewrite sc_wf_size.
  pose proof (Z.div_mod (sc_bits sc + 7) 8 ltac:(lia)).
  pose proof (Z.mod_pos_bound (sc_bits sc + 7) 8 ltac:(lia)).
  lia.
Qed.

Lemma sc_import_weak_range raw :
  Z.land (sc_bits sc) 7 = 0 ->
  0 <= fst (sc_import_weak sc raw) < sc_n sc.
Proof.
  intros H8. pose proof sc_n_gt_1 as Hn. pose proof sc_n_lt_base as HnB.
  pose proof sc_wf_n as Hnb. pose proof sc_wf_bits as Hb.
  pose proof sc_bits_le_limbs as HbL. pose proof sc_limbs_pos as HL.
  assert (Hsz : 8 * Z.of_nat (sc_size sc) = sc_bits sc).
  { change 7 with (Z.ones 3) in H8. rewrite Z.land_ones in H8 by lia.
    change (2 ^ 3) with 8 in H8. rewrite sc_wf_size.
    pose proof (Z.div_mod (sc_bits sc) 8 ltac:(lia)) as Hd.
    pose proof (Z.div_mod (sc_bits sc + 7) 8 ltac:(lia)) as Hd'.
    pose proof (Z.mod_pos_bound (sc_bits sc + 7) 8 ltac:(lia)).
    lia. }
  unfold sc_import_weak, mpn_import, mpn_sub_n, mpn_cnd_select.
  pose proof (import_value_range raw (sc_size sc) (sc_endian sc)) as Hv.
  rewrite Hsz in Hv.
  set (v := if sc_endian sc =? 1 then be_value (firstn (sc_size sc) raw)
            else le_value (firstn (sc_size sc) raw)) in *.
  assert (Hpow : 2 ^ sc_bits sc = 2 * 2 ^ (sc_bits sc - 1)).
  { rewrite <- Z.pow_succ_r by lia. f_equal. lia. }
  assert (HsB : 2 ^ sc_bits sc <= limb_base (sc_limbs sc))
    by (apply Z.pow_le_mono_r; lia).
  rewrite (Z.mod_small v) by lia.
  rewrite !(mpn_get_small v), (mpn_get_small (sc_n sc)) by lia.
  destruct (Z.ltb_spec (v - sc_n sc) 0); cbn [fst Z.eqb].
  - lia.
  - rewrite (Z.mod_small (v - sc_n sc)) by lia.
    rewrite mpn_get_small by lia. lia.
Qed.

Lemma sc_import_strong_spec raw :
  fst (sc_import_strong sc raw) =
  (if sc_endian sc =? 1 then be_value (firstn (sc_size sc) raw)
   else le_value (firstn (sc_size sc) raw)) mod sc_n sc.
Proof.
  pose proof sc_n_gt_1 as Hn. pose proof sc_wf_shift as Hsh.
  pose proof sc_bits_le_limbs as HbL. pose proof sc_limbs_pos as HL.
  pose proof sc_size_bits as Hsz.
  unfold sc_import_strong, mpn_import. cbn [fst].
  pose proof (import_value_range raw (sc_size sc) (sc_endian sc)) as Hv.
  set (v := if sc_endian sc =? 1 then be_value (firstn (sc_size sc) raw)
            else le_value (firstn (sc_size sc) raw)) in *.
  assert (HsB : 2 ^ (8 * Z.of_nat (sc_size sc)) <= limb_base (sc_shift sc))
    by (apply Z.pow_le_mono_r; nia).
  assert (HsB2 : limb_base (sc_shift sc) <= limb_base (sc_shift sc * 2))
    by (apply limb_base_le; lia).
  rewrite (Z.mod_small v) by lia.
  apply sc_reduce_spec. lia.
Qed.

Lemma sc_import_reduce_range raw :
  0 <= fst (sc_import_reduce sc raw) < sc_n sc.
Proof.
  pose proof sc_n_gt_1 as Hn. unfold sc_import_reduce.
  destruct (Z.eqb_spec (Z.land (sc_bits sc) 7) 0).
  - apply sc_import_weak_range. assumption.
  - rewrite sc_import_strong_spec. apply Z.mod_pos_bound. lia.
Qed.

End ScalarFacts.
(** ** Claims on the scalar field *)

Local Abbreviation W := GMP_NUMB_BITS (only parsing).

(** C5. Every scalar-field operation preserves full reduction: for
    operands in [[0, n)] the results of [sc_add], [sc_sub], [sc_neg],
    [sc_mul], [sc_sqr], [sc_import_reduce] (on any byte string),
    [sc_invert] and [sc_minimize] lie in [[0, n)]; [sc_neg 0 = 0]; and
    Barrett reduction computes [u = a - h * n] with [0 <= u < 2n] and ends
    in one conditional subtraction of [n]. *)
Theorem sc_ops_preserve_reduction (sc : scalar_field_t) (a b : Z)
    (raw : list byte) :
  sc_wf sc = true ->
  sc_reduced sc a -> sc_reduced sc b ->
  sc_reduced sc (sc_add sc a b) /\
  sc_reduced sc (sc_sub sc a b) /\
  sc_reduced sc (sc_neg sc a) /\
  sc_reduced sc (sc_mul sc a b) /\
  sc_reduced sc (sc_sqr sc a) /\
  sc_reduced sc (fst (sc_import_reduce sc raw)) /\
  sc_reduced sc (fst (sc_invert sc a)) /\
  sc_reduced sc (fst (sc_minimize sc a)) /\
  sc_neg sc 0 = 0 /\
  (forall ap, 0 <= ap < limb_base (sc_shift sc) ->
     let u := fst (sc_reduce_u sc ap) in
     0 <= u < 2 * sc_n sc /\
     sc_reduce sc ap = (if sc_n sc <=? u then u - sc_n sc else u) /\
     sc_reduced sc (sc_reduce sc ap)).
Proof.
  intros Hwf Ha Hb. unfold sc_reduced in *.
  pose proof (sc_n_gt_1 sc Hwf) as Hn.
  assert (Hmod : forall x, 0 <= x mod sc_n sc < sc_n sc)
    by (intros; apply Z.mod_pos_bound; lia).
  repeat split.
  all: try (rewrite ?sc_add_spec, ?sc_sub_spec, ?sc_neg_spec, ?sc_mul_spec,
             ?sc_sqr_spec by assumption; apply Hmod).
  all: try apply (sc_import_reduce_range sc Hwf raw).
  all: try (rewrite sc_invert_spec by assumption; apply Hmod).
  all: try (rewrite sc_minimize_spec by assumption; cbn [fst];
            destruct (sc_n sc / 2 <? a); [apply Hmod | lia]).
  - rewrite sc_neg_spec by (assumption || lia). apply Z.mod_0_l. lia.
  - destruct (sc_reduce_u_spec sc Hwf ap H) as [-> Hr]. cbn [fst]. lia.
  - destruct (sc_reduce_u_spec sc Hwf ap H) as [-> Hr]. cbn [fst]. lia.
  - pose proof (sc_reduce_u_spec sc Hwf ap H) as [Hu Hr].
    unfold sc_reduce. rewrite Hu. cbn [fst]. unfold mpn_sub_n, mpn_cnd_select.
    pose proof (sc_n_lt_base sc Hwf). pose proof (sc_base_lt_shift sc Hwf).
    pose proof (sc_limbs_pos sc Hwf).
    pose proof (limb_base_pos (sc_limbs sc) ltac:(lia)).
    set (u := ap - ap * sc_m sc / limb_base (sc_shift sc) * sc_n sc) in *.
    rewrite (mpn_get_small u (sc_shift sc)) by nia.
    rewrite (mpn_get_small (sc_n sc) (sc_shift sc)) by nia.
    destruct (Z.ltb_spec (u - sc_n sc) 0), (Z.leb_spec (sc_n sc) u);
      try lia; cbn [Z.eqb].
    + apply mpn_get_small. lia.
    + rewrite (Z.mod_small (u - sc_n sc)) by nia. apply mpn_get_small. lia.
  - rewrite sc_reduce_spec by assumption. apply Hmod.
  - rewrite sc_reduce_spec by assumption. apply Hmod.
Qed.

Lemma mpn_limb_top x k :
  0 <= k -> 0 <= x < limb_base (k + 1) -> mpn_limb x k = x / limb_base k.
Proof.
  intros Hk Hx. unfold mpn_limb.
  rewrite Z.shiftr_div_pow2, Z.land_ones by nia. fold (limb_base k).
  pose proof (limb_base_pos k Hk).
  apply Z.mod_small. split; [apply Z.div_pos; lia|].
  apply Z.div_lt_upper_bound; [lia|].
  rewrite limb_base_add in Hx by lia.
  unfold limb_base at 2 in Hx. rewrite Z.mul_1_r in Hx. lia.
Qed.

Lemma mpn_limb_top_zero x k :
  0 <= k -> 0 <= x < limb_base (k + 1) ->
  (mpn_limb x k =? 0) = (x <? limb_base k).
Proof.
  intros Hk Hx. rewrite mpn_limb_top by assumption.
  pose proof (limb_base_pos k Hk).
  destruct (Z.ltb_spec x (limb_base k)).
  - rewrite Z.div_small by lia. reflexivity.
  - apply Z.eqb_neq. intros Hz.
    apply Z.div_small_iff in Hz; lia.
Qed.

Lemma round_shift_bit x s :
  0 < s -> round_shift x s = x / 2 ^ s + Z.b2z (Z.testbit x (s - 1)).
Proof.
  intros Hs. unfold round_shift.
  assert (H2 : 0 < 2 ^ (s - 1)) by (apply Z.pow_pos_nonneg; lia).
  assert (Hp : 2 ^ s = 2 * 2 ^ (s - 1)).
  { rewrite <- Z.pow_succ_r by lia. f_equal. lia. }
  pose proof (mod_pow2_succ x (s - 1) ltac:(lia)) as Hm.
  replace (s - 1 + 1) with s in Hm by lia.
  pose proof (Z.div_mod x (2 ^ s) ltac:(lia)) as Hd.
  pose proof (Z.mod_pos_bound x (2 ^ (s - 1)) H2) as Hr.
  symmetry.
  destruct (Z.testbit x (s - 1)); cbn [Z.b2z] in *.
  - apply Z.div_unique with (r := x mod 2 ^ (s - 1)); lia.
  - apply Z.div_unique with (r := x mod 2 ^ (s - 1) + 2 ^ (s - 1)); lia.
Qed.

(** The run of [sc_mulshift] on a shift that leaves a limb of the
    product. *)
Lemma sc_mulshift_spec (sc : scalar_field_t) (a b s : Z) :
  sc_wf sc = true ->
  sc_reduced sc a -> sc_reduced sc b ->
  sc_bits sc < s < 2 * sc_limbs sc * GMP_NUMB_BITS ->
  sc_mulshift sc a b s = Some (round_shift (a * b) s) /\
  round_shift (a * b) s = a * b / 2 ^ s + Z.b2z (Z.testbit (a * b) (s - 1)) /\
  0 <= round_shift (a * b) s < limb_base (sc_limbs sc).
Proof.
  intros Hwf Ha Hb Hs. unfold sc_reduced in *.
  pose proof (sc_wf_bits sc Hwf) as Hbits.
  pose proof (sc_wf_n sc Hwf) as Hn.
  pose proof (sc_n_lt_base sc Hwf) as HnB.
  pose proof (sc_limbs_pos sc Hwf) as HL.
  pose proof (sc_bits_le_limbs sc Hwf) as HbL.
  set (L := sc_limbs sc) in *.
  set (P := a * b).
  assert (HP : 0 <= P < 2 ^ sc_bits sc * 2 ^ sc_bits sc) by (unfold P; nia).
  assert (HPB : P < limb_base L * limb_base L) by (unfold P; nia).
  rewrite (round_shift_bit P s) by lia.
  set (bit := Z.b2z (Z.testbit P (s - 1))).
  assert (Hbit : 0 <= bit <= 1) by (unfold bit; destruct (Z.testbit P (s - 1)); cbn; lia).
  set (v := P / 2 ^ s).
  assert (H2s : 0 < 2 ^ s) by (apply Z.pow_pos_nonneg; lia).
  assert (Hv0 : 0 <= v) by (apply Z.div_pos; lia).
  assert (Hvb : v < 2 ^ (sc_bits sc - 1)).
  { apply Z.div_lt_upper_bound; [lia|].
    rewrite <- Z.pow_add_r by lia.
    apply Z.lt_le_trans with (1 := proj2 HP).
    rewrite <- Z.pow_add_r by lia. apply Z.pow_le_mono_r; lia. }
  assert (HvL : v + bit < limb_base L).
  { assert (2 ^ (sc_bits sc - 1) < 2 ^ sc_bits sc)
      by (apply Z.pow_lt_mono_r; lia). lia. }
  split; [|split; [reflexivity | lia]].
  (* the run of the function *)
  set (q := s / W). set (l := s mod W).
  pose proof (Z.div_mod s W ltac:(lia)) as Hsq. fold q l in Hsq.
  pose proof (Z.mod_pos_bound s W ltac:(lia)) as Hl. fold l in Hl.
  assert (Hq0 : 0 <= q) by (apply Z.div_pos; lia).
  assert (HbL2 : W * (L - 1) < sc_bits sc).
  { unfold L in *. rewrite (sc_wf_limbs sc Hwf) in *.
    pose proof (Z.div_mod (sc_bits sc + W - 1) W ltac:(lia)).
    pose proof (Z.mod_pos_bound (sc_bits sc + W - 1) W ltac:(lia)).
    nia. }
  assert (HqL : L - 1 <= q) by nia.
  assert (HqL0 : l = 0 -> L <= q) by nia.
  assert (Hq2 : q < 2 * L) by nia.
  unfold sc_mulshift. fold L q l P.
  destruct (Z.ltb_spec (sc_bits sc) s); [|lia]. cbn [negb].
  unfold mpn_mul_n. rewrite !mpn_get_small by (fold L; lia). fold P.
  rewrite limb_bit by lia. fold bit.
  destruct (Z.ltb_spec 0 (L * 2 - q)); [|lia]. cbn [negb].
  set (rn1 := L * 2 - q) in *.
  set (rp1 := mpn_offset P q).
  assert (Hrp1 : rp1 = P / limb_base q).
  { unfold rp1, mpn_offset. rewrite Z.shiftr_div_pow2 by nia. reflexivity. }
  pose proof (limb_base_pos q Hq0) as HBq.
  assert (Hrp1b : 0 <= rp1 < limb_base rn1).
  { rewrite Hrp1. split; [apply Z.div_pos; lia|].
    apply Z.div_lt_upper_bound; [lia|].
    rewrite <- limb_base_add by lia. unfold rn1.
    replace (q + (L * 2 - q)) with (L + L) by lia.
    rewrite limb_base_add by lia. lia. }
  (* after the optional right shift the buffer holds [v] in [rn2] limbs *)
  assert (Hstage :
    exists rn2,
      (if negb (l =? 0)
       then
         (mpn_store rp1 rn1 (mpn_rshift rp1 rn1 l),
          rn1 - (if mpn_limb (mpn_store rp1 rn1 (mpn_rshift rp1 rn1 l))
                             (rn1 - 1) =? 0 then 1 else 0))
       else (rp1, rn1)) = (v, rn2) /\
      0 <= rn2 <= L /\ v < limb_base rn2).
  { assert (Hvrp : Z.shiftr rp1 l = v).
    { rewrite Hrp1, Z.shiftr_div_pow2 by lia. unfold v, limb_base.
      rewrite Z.div_div by (try apply Z.pow_pos_nonneg; nia).
      rewrite <- Z.pow_add_r by nia. do 2 f_equal. lia. }
    assert (Hvle : v <= rp1).
    { rewrite <- Hvrp, Z.shiftr_div_pow2 by lia.
      apply Z.div_le_upper_bound; [apply Z.pow_pos_nonneg; lia|].
      assert (0 < 2 ^ l) by (apply Z.pow_pos_nonneg; lia).
      apply Z.le_trans with (1 * rp1); [lia|].
      apply Z.mul_le_mono_nonneg_r; lia. }
    destruct (Z.eqb_spec l 0) as [Hl0|Hl0]; cbn [negb].
    - exists rn1. rewrite Hl0, Z.shiftr_0_r in Hvrp. rewrite Hvrp.
      split; [reflexivity|]. split; [|lia].
      unfold rn1. specialize (HqL0 Hl0). lia.
    - unfold mpn_rshift, mpn_store.
      rewrite (mpn_get_small rp1) by lia. rewrite Hvrp.
      rewrite (Z.mod_small v) by lia.
      rewrite (Z.div_small rp1) by lia. rewrite Z.mul_0_r, Z.add_0_r.
      rewrite mpn_limb_top_zero
        by (try replace (rn1 - 1 + 1) with rn1 by lia; lia).
      destruct (Z.ltb_spec v (limb_base (rn1 - 1))) as [Hlt|Hge].
      + exists (rn1 - 1). split; [reflexivity|]. split; [|assumption].
        unfold rn1. lia.
      + exists rn1. rewrite Z.sub_0_r. split; [reflexivity|].
        split; [|lia]. split; [lia|].
        (* v >= B^(rn1-1) and v < B^L force rn1 - 1 < L *)
        destruct (Z.le_gt_cases rn1 L) as [|Hgt]; [assumption|exfalso].
        assert (limb_base L <= limb_base (rn1 - 1))
          by (apply limb_base_le; lia).
        lia. }
  destruct Hstage as [rn2 [-> [Hrn2 Hv2]]].
  pose proof (limb_base_pos rn2 ltac:(lia)) as HB2.
  assert (HB3 : 256 * limb_base rn2 <= limb_base (rn2 + 1)).
  { rewrite limb_base_add, (Z.mul_comm (limb_base rn2)) by lia.
    apply Z.mul_le_mono_nonneg_r; [lia | apply limb_base_ge_256; lia]. }
  unfold mpn_add_1, mpn_store. cbn [fst].
  rewrite (mpn_get_small v) by lia.
  rewrite !(Z.mod_small (v + bit)) by lia.
  rewrite (Z.div_small v) by lia. rewrite Z.mul_0_r, Z.add_0_r.
  replace (rn2 + 1 - 1) with rn2 by lia.
  rewrite mpn_limb_top_zero by lia.
  assert (Hcopy : forall k, v + bit < limb_base k -> mpn_copyi (v + bit) k = v + bit)
    by (intros; apply mpn_get_small; lia).
  destruct (Z.ltb_spec (v + bit) (limb_base rn2)) as [Hlt|Hge].
  - replace (rn2 + 1 - 1) with rn2 by lia.
    destruct (Z.leb_spec rn2 L); [|lia]. cbn [negb].
    rewrite Hcopy by assumption. reflexivity.
  - rewrite Z.sub_0_r.
    assert (rn2 < L).
    { destruct (Z.lt_ge_cases rn2 L) as [|Hgt]; [assumption|exfalso].
      assert (limb_base L <= limb_base rn2) by (apply limb_base_le; lia).
      lia. }
    destruct (Z.leb_spec (rn2 + 1) L); [|lia]. cbn [negb].
    rewrite Hcopy by lia. reflexivity.
Qed.

(** A shift that leaves no limb of the product stops at
    [assert(rn > 0)]. *)
Lemma sc_mulshift_no_limb (sc : scalar_field_t) (a b s : Z) :
  2 * sc_limbs sc * GMP_NUMB_BITS <= s ->
  sc_mulshift sc a b s = None.
Proof.
  intros Hs. unfold sc_mulshift.
  destruct (sc_bits sc <? s); cbn [negb]; [|reflexivity].
  assert (Hq : sc_limbs sc * 2 <= s / W).
  { apply Z.div_le_lower_bound; lia. }
  destruct (Z.ltb_spec 0 (sc_limbs sc * 2 - s / W)); [lia|]. reflexivity.
Qed.

(** C7 (as the code has it). For scalars [a], [b] in [[0, n)] and every
    shift [s] with [bits(n) < s < 2 * limbs(n) * GMP_NUMB_BITS],
    [sc_mulshift a b s] returns exactly [round (a * b / 2^s)]: the floor
    plus the discarded bit at position [s - 1]; the result fits in
    [limbs(n)] limbs.  For
    [2 * limbs(n) * GMP_NUMB_BITS <= s <= (2 * limbs(n) + 1) * GMP_NUMB_BITS],
    where the rounding bit is still read inside the product buffer, the
    function stops at [assert(rn > 0)]. *)
Theorem sc_mulshift_rounds (sc : scalar_field_t) (a b s : Z) :
  sc_wf sc = true ->
  sc_reduced sc a -> sc_reduced sc b ->
  sc_bits sc < s <= (2 * sc_limbs sc + 1) * GMP_NUMB_BITS ->
  if s <? 2 * sc_limbs sc * GMP_NUMB_BITS
  then
    sc_mulshift sc a b s = Some (round_shift (a * b) s) /\
    round_shift (a * b) s
    = a * b / 2 ^ s + Z.b2z (Z.testbit (a * b) (s - 1)) /\
    0 <= round_shift (a * b) s < limb_base (sc_limbs sc)
  else
    sc_mulshift sc a b s = None.
Proof.
  intros Hwf Ha Hb Hs.
  destruct (Z.ltb_spec s (2 * sc_limbs sc * GMP_NUMB_BITS)) as [Hlt|Hge].
  - apply sc_mulshift_spec; try assumption. lia.
  - apply sc_mulshift_no_limb. exact Hge.
Qed.

(* ================================================================= *)
(** ** Constant-time byte comparison *)

Lemma u32_sign_bit d :
  - 2 ^ 31 <= d < 2 ^ 31 -> Z.shiftr (u32 d) 31 = if d <? 0 then 1 else 0.
Proof.
  intros Hd. unfold u32. rewrite Z.shiftr_div_pow2 by lia.
  destruct (Z.ltb_spec d 0).
  - replace (d mod 2 ^ 32) with (d + 2 ^ 32)
      by (apply (Z.mod_unique d (2 ^ 32) (-1)); lia).
    symmetry. apply (Z.div_unique _ _ 1 (d + 2 ^ 31)); lia.
  - rewrite Z.mod_small by lia. apply Z.div_small. lia.
Qed.

Lemma lxor_byte_range x y :
  0 <= x < 256 -> 0 <= y < 256 -> 0 <= Z.lxor x y < 256.
Proof.
  intros Hx Hy.
  assert (H0 : 0 <= Z.lxor x y) by (apply Z.lxor_nonneg; lia).
  split; [exact H0|].
  destruct (Z.eq_dec (Z.lxor x y) 0) as [E|E]; [lia|].
  change 256 with (2 ^ 8). apply Z.log2_lt_pow2; [lia|].
  pose proof (Z.log2_lxor x y ltac:(lia) ltac:(lia)) as Hl.
  assert (Hlx : Z.log2 x < 8).
  { destruct (Z.eq_dec x 0) as [->|]; [cbn; lia|].
    apply Z.log2_lt_pow2; [lia|]. change (2 ^ 8) with 256. lia. }
  assert (Hly : Z.log2 y < 8).
  { destruct (Z.eq_dec y 0) as [->|]; [cbn; lia|].
    apply Z.log2_lt_pow2; [lia|]. change (2 ^ 8) with 256. lia. }
  lia.
Qed.

Lemma bytes_cmp_step_spec va vb x y :
  0 <= va -> 0 <= vb ->
  bytes_cmp_step (cmp_state va vb) (x, y)
  = cmp_state (256 * va + b2z x) (256 * vb + b2z y).
Proof.
  intros Hva Hvb.
  pose proof (b2z_range x) as Hx. pose proof (b2z_range y) as Hy.
  pose proof (lxor_byte_range _ _ Hx Hy) as Hxy.
  unfold bytes_cmp_step, cmp_state. cbn [fst snd].
  assert (E1 : Z.shiftr (u32 (b2z x - b2z y)) 31
               = if b2z x <? b2z y then 1 else 0).
  { rewrite u32_sign_bit by lia.
    destruct (Z.ltb_spec (b2z x - b2z y) 0), (Z.ltb_spec (b2z x) (b2z y));
      lia. }
  assert (E2 : Z.shiftr (u32 (Z.lxor (b2z x) (b2z y) - 1)) 31
               = if b2z x =? b2z y then 1 else 0).
  { rewrite u32_sign_bit by lia.
    pose proof (Z.lxor_eq_0_iff (b2z x) (b2z y)) as Hz.
    destruct (Z.ltb_spec (Z.lxor (b2z x) (b2z y) - 1) 0),
             (Z.eqb_spec (b2z x) (b2z y)); try reflexivity.
    - exfalso. assert (Z.lxor (b2z x) (b2z y) = 0) by lia. tauto.
    - exfalso. assert (Z.lxor (b2z x) (b2z y) = 0) by tauto. lia. }
  destruct (Z.eqb_spec va vb) as [Ev|Ev].
  - subst vb. rewrite E1, E2.
    destruct (Z.eqb_spec (b2z x) (b2z y)) as [Eb|Eb].
    + rewrite Eb, Z.eqb_refl, Z.ltb_irrefl. reflexivity.
    + destruct (Z.eqb_spec (256 * va + b2z x) (256 * va + b2z y)); [lia|].
      destruct (Z.ltb_spec (b2z x) (b2z y)),
               (Z.ltb_spec (256 * va + b2z x) (256 * va + b2z y));
        try lia; reflexivity.
  - destruct (Z.eqb_spec (256 * va + b2z x) (256 * vb + b2z y)); [lia|].
    destruct (Z.ltb_spec va vb),
             (Z.ltb_spec (256 * va + b2z x) (256 * vb + b2z y));
      try lia; reflexivity.
Qed.

Lemma le_value_app a b :
  le_value (a ++ b) = le_value a + 256 ^ Z.of_nat (length a) * le_value b.
Proof.
  induction a as [|x t IH].
  - cbn [app le_value length]. change (Z.of_nat 0) with 0.
    rewrite Z.pow_0_r. lia.
  - cbn [app le_value length]. rewrite IH, Nat2Z.inj_succ, Z.pow_succ_r by lia.
    ring.
Qed.

Lemma be_value_snoc l x : be_value (l ++ [x]) = 256 * be_value l + b2z x.
Proof.
  unfold be_value. rewrite rev_app_distr. cbn [rev app le_value]. lia.
Qed.

Lemma be_value_nonneg l : 0 <= be_value l.
Proof. pose proof (be_value_range l). lia. Qed.

(** Going through the pairs from the most significant byte. *)
Lemma bytes_cmp_fold_be a b :
  length a = length b ->
  fold_left bytes_cmp_step (combine a b) (1, 0)
  = cmp_state (be_value a) (be_value b).
Proof.
  revert b. induction a as [|x a IH] using rev_ind; intros b Hlen.
  - destruct b; [reflexivity | discriminate].
  - destruct b as [|y b _] using rev_ind.
    + rewrite length_app in Hlen. cbn in Hlen. lia.
    + rewrite !length_app in Hlen. cbn in Hlen.
      assert (Hl : length a = length b) by lia.
      assert (Hc : combine (a ++ [x]) (b ++ [y]) = combine a b ++ [(x, y)]).
      { clear IH Hlen. revert b Hl.
        induction a as [|u a IHa]; intros [|v b] Hl; try discriminate.
        - reflexivity.
        - cbn. f_equal. apply IHa. cbn in Hl. lia. }
      rewrite Hc, fold_left_app, IH by exact Hl. cbn [fold_left].
      rewrite bytes_cmp_step_spec by apply be_value_nonneg.
      rewrite !be_value_snoc. reflexivity.
Qed.

Lemma rev_combine {A B} (a : list A) (b : list B) :
  length a = length b -> rev (combine a b) = combine (rev a) (rev b).
Proof.
  revert b. induction a as [|x a IH]; intros [|y b] Hl; try discriminate.
  - reflexivity.
  - cbn in Hl. cbn [combine rev]. rewrite IH by lia.
    assert (Hr : length (rev a) = length (rev b))
      by (rewrite !length_rev; lia).
    revert Hr. generalize (rev a) (rev b). clear.
    intros l. induction l as [|u l IHl]; intros [|v m] Hl; try discriminate.
    + reflexivity.
    + cbn. f_equal. apply IHl. cbn in Hl. lia.
Qed.

Lemma bytes_cmp_spec a b size endian :
  endian = 1 \/ endian = -1 ->
  (size <= length a)%nat -> (size <= length b)%nat ->
  bytes_cmp a b size endian
  = cmp_state (bytes_value endian (firstn size a))
              (bytes_value endian (firstn size b)).
Proof.
  intros He Ha Hb. unfold bytes_cmp, bytes_value.
  assert (Hl : length (firstn size a) = length (firstn size b))
    by (rewrite !firstn_length_le by assumption; reflexivity).
  destruct He as [-> | ->]; cbn [Z.eqb Pos.eqb].
  - apply bytes_cmp_fold_be. exact Hl.
  - rewrite rev_combine by exact Hl.
    rewrite bytes_cmp_fold_be by (rewrite !length_rev; exact Hl).
    unfold be_value. rewrite !rev_involutive. reflexivity.
Qed.

Lemma bytes_lt_spec a b size endian :
  endian = 1 \/ endian = -1 ->
  (size <= length a)%nat -> (size <= length b)%nat ->
  bytes_lt a b size endian
  = (bytes_value endian (firstn size a) <? bytes_value endian (firstn size b)).
Proof.
  intros He Ha Hb. unfold bytes_lt. rewrite bytes_cmp_spec by assumption.
  unfold cmp_state.
  destruct (Z.eqb_spec (bytes_value endian (firstn size a))
                       (bytes_value endian (firstn size b))) as [E|E].
  - rewrite E, Z.ltb_irrefl. reflexivity.
  - destruct (Z.ltb_spec (bytes_value endian (firstn size a))
                         (bytes_value endian (firstn size b))); reflexivity.
Qed.

Lemma bytes_lte_spec a b size endian :
  endian = 1 \/ endian = -1 ->
  (size <= length a)%nat -> (size <= length b)%nat ->
  bytes_lte a b size endian
  = (bytes_value endian (firstn size a) <=? bytes_value endian (firstn size b)).
Proof.
  intros He Ha Hb. unfold bytes_lte. rewrite bytes_cmp_spec by assumption.
  unfold cmp_state.
  destruct (Z.eqb_spec (bytes_value endian (firstn size a))
                       (bytes_value endian (firstn size b))) as [E|E].
  - rewrite E, Z.leb_refl. reflexivity.
  - destruct (Z.ltb_spec (bytes_value endian (firstn size a))
                         (bytes_value endian (firstn size b))),
             (Z.leb_spec (bytes_value endian (firstn size a))
                         (bytes_value endian (firstn size b)));
      try lia; reflexivity.
Qed.

(* ================================================================= *)
(** ** Encoding and decoding integers *)

Lemma b2z_z2b z : b2z (z2b z) = z mod 256.
Proof.
  unfold b2z, z2b.
  pose proof (Z.mod_pos_bound z 256 ltac:(lia)) as Hm.
  destruct (Byte.of_N (Z.to_N (z mod 256))) as [b|] eqn:E.
  - apply Byte.to_of_N in E. rewrite E. lia.
  - apply Byte.of_N_None_iff in E. lia.
Qed.

Lemma z2b_b2z b : z2b (b2z b) = b.
Proof.
  unfold z2b. pose proof (b2z_range b) as Hb.
  rewrite Z.mod_small by lia. unfold b2z. rewrite N2Z.id, Byte.of_to_N.
  reflexivity.
Qed.

Lemma length_le_bytes size v : length (le_bytes size v) = size.
Proof. unfold le_bytes. rewrite length_map, length_seq. reflexivity. Qed.

Lemma length_be_bytes size v : length (be_bytes size v) = size.
Proof. unfold be_bytes. rewrite length_rev. apply length_le_bytes. Qed.

Lemma le_bytes_succ size v :
  le_bytes (S size) v = z2b v :: le_bytes size (Z.shiftr v 8).
Proof.
  unfold le_bytes. cbn [seq map]. change (8 * Z.of_nat 0) with 0.
  rewrite Z.shiftr_0_r. f_equal.
  rewrite <- seq_shift, map_map. apply map_ext. intros i. f_equal.
  rewrite Z.shiftr_shiftr by lia. f_equal. lia.
Qed.

Lemma le_value_le_bytes size v :
  le_value (le_bytes size v) = v mod 256 ^ Z.of_nat size.
Proof.
  revert v. induction size as [|size IH]; intros v.
  - cbn. symmetry. apply Z.mod_1_r.
  - rewrite le_bytes_succ. cbn [le_value]. rewrite IH, b2z_z2b.
    rewrite Nat2Z.inj_succ, Z.pow_succ_r by lia.
    rewrite Z.shiftr_div_pow2 by lia. change (2 ^ 8) with 256.
    rewrite Z.rem_mul_r by lia. reflexivity.
Qed.

Lemma be_value_be_bytes size v :
  be_value (be_bytes size v) = v mod 256 ^ Z.of_nat size.
Proof.
  unfold be_value, be_bytes. rewrite rev_involutive. apply le_value_le_bytes.
Qed.

Lemma le_bytes_le_value l : le_bytes (length l) (le_value l) = l.
Proof.
  induction l as [|b t IH].
  - reflexivity.
  - cbn [length]. rewrite le_bytes_succ. cbn [le_value].
    pose proof (b2z_range b) as Hb.
    f_equal.
    + transitivity (z2b (b2z b)); [|apply z2b_b2z]. unfold z2b.
      replace ((b2z b + 256 * le_value t) mod 256) with (b2z b mod 256);
        [reflexivity|].
      rewrite (Z.mul_comm 256), Z.mod_add by lia. reflexivity.
    + rewrite Z.shiftr_div_pow2 by lia. change (2 ^ 8) with 256.
      rewrite Z.add_comm, Z.mul_comm, Z.div_add_l by lia.
      rewrite Z.div_small by lia. rewrite Z.add_0_r. exact IH.
Qed.

Lemma bytes_value_firstn_export size v endian :
  endian = 1 \/ endian = -1 ->
  bytes_value endian
    (firstn size (if endian =? 1 then be_bytes size v else le_bytes size v))
  = v mod 256 ^ Z.of_nat size.
Proof.
  intros [-> | ->]; unfold bytes_value; cbn [Z.eqb Pos.eqb].
  - rewrite firstn_all2 by (rewrite length_be_bytes; lia).
    apply be_value_be_bytes.
  - rewrite firstn_all2 by (rewrite length_le_bytes; lia).
    apply le_value_le_bytes.
Qed.
(* ================================================================= *)
(** ** The prime field *)

Hypothesis fe_p_prime : Z.prime fe_p.

(** The characteristic is odd. *)
Hypothesis fe_p_odd : 2 < fe_p.

Add Field fe_field : (Zmod.field_theory fe_p fe_p_prime).

Lemma fe_is_zero_iff (a : fe_t) : fe_is_zero a = true <-> a = Zmod.zero.
Proof.
  unfold fe_is_zero. rewrite Z.eqb_eq. apply Zmod.unsigned_0_iff.
Qed.

Lemma fe_is_zero_spec (a : fe_t) :
  BoolSpec (a = Zmod.zero) (a <> Zmod.zero) (fe_is_zero a).
Proof.
  destruct (fe_is_zero a) eqn:E; constructor.
  - apply fe_is_zero_iff. assumption.
  - intros H. apply fe_is_zero_iff in H. congruence.
Qed.

Lemma fe_sub_zero_iff (a b : fe_t) : Zmod.sub a b = Zmod.zero <-> a = b.
Proof.
  split; intros H.
  - transitivity (Zmod.add (Zmod.sub a b) b); [ring | rewrite H; ring].
  - subst. ring.
Qed.

Lemma fe_equal_iff (a b : fe_t) : fe_equal a b = true <-> a = b.
Proof.
  unfold fe_equal, fe_sub. rewrite fe_is_zero_iff. apply fe_sub_zero_iff.
Qed.

Lemma fe_equal_spec (a b : fe_t) : BoolSpec (a = b) (a <> b) (fe_equal a b).
Proof.
  destruct (fe_equal a b) eqn:E; constructor.
  - apply fe_equal_iff. assumption.
  - intros H. apply fe_equal_iff in H. congruence.
Qed.

Lemma fe_equal_refl (a : fe_t) : fe_equal a a = true.
Proof. apply fe_equal_iff. reflexivity. Qed.

Lemma fe_mul_zero_iff (a b : fe_t) :
  Zmod.mul a b = Zmod.zero <-> a = Zmod.zero \/ b = Zmod.zero.
Proof. apply Zmod.mul_0_iff_prime. exact fe_p_prime. Qed.

Lemma fe_two_nonzero : Zmod.add Zmod.one Zmod.one <> (Zmod.zero : fe_t).
Proof.
  intros H. apply (f_equal Zmod.to_Z) in H.
  rewrite Zmod.unsigned_add, Zmod.unsigned_1_pos, Zmod.unsigned_0 in H by lia.
  rewrite Z.mod_small in H by lia. discriminate.
Qed.

Lemma fe_double_zero_iff (a : fe_t) :
  Zmod.add a a = Zmod.zero <-> a = Zmod.zero.
Proof.
  replace (Zmod.add a a) with (Zmod.mul (Zmod.add Zmod.one Zmod.one) a) by ring.
  rewrite fe_mul_zero_iff. pose proof fe_two_nonzero. tauto.
Qed.

(** Unfolding the field wrappers down to the [Zmod] operations. *)
Ltac fe_unfold :=
  unfold fe_add, fe_sub, fe_mul, fe_sqr, fe_neg, fe_mone, fe_one, fe_zero,
         fe_two, fe_three, fe_four, fe_set_word in *;
  change (Zmod.of_Z fe_p 0) with (@Zmod.zero fe_p) in *;
  change (Zmod.of_Z fe_p 1) with (@Zmod.one fe_p) in *.

Lemma fe_three_eq :
  fe_three = Zmod.add (Zmod.add Zmod.one Zmod.one) Zmod.one.
Proof.
  unfold fe_three, fe_set_word. change 3 with (1 + 1 + 1).
  rewrite !Zmod.of_Z_add, Zmod.of_Z_1. reflexivity.
Qed.

Lemma fe_two_eq : fe_two = Zmod.add Zmod.one Zmod.one.
Proof.
  unfold fe_two, fe_set_word. change 2 with (1 + 1).
  rewrite !Zmod.of_Z_add, Zmod.of_Z_1. reflexivity.
Qed.


(** A product of doublings and factors vanishes only if a factor does. *)
Ltac fe_zero_split H :=
  repeat first
    [ apply (proj1 (fe_double_zero_iff _)) in H
    | apply (proj1 (fe_mul_zero_iff _ _)) in H; destruct H as [H|H] ].

(* ================================================================= *)
(** ** Field contexts *)

Section FieldFacts.

Variable fe : prime_field_t.
Hypothesis Hfe : fe_wf fe = true.

Lemma fe_wf_facts :
  1 < fe_bits fe /\
  fe_limbs fe = (fe_bits fe + GMP_NUMB_BITS - 1) / GMP_NUMB_BITS /\
  Z.of_nat (fe_size fe) = (fe_bits fe + 7) / 8 /\
  fe_plimbs fe = fe_p /\
  2 ^ (fe_bits fe - 1) <= fe_p < 2 ^ fe_bits fe /\
  (fe_endian fe = 1 \/ fe_endian fe = -1) /\
  length (fe_raw fe) = fe_size fe /\
  bytes_value (fe_endian fe) (fe_raw fe) = fe_p /\
  fe_mask fe = 2 ^ (fe_bits fe - 8 * (Z.of_nat (fe_size fe) - 1)) - 1.
Proof.
  unfold fe_wf in Hfe. rewrite !andb_true_iff, orb_true_iff in Hfe.
  rewrite !Z.eqb_eq, Z.ltb_lt, Z.leb_le, Z.ltb_lt, Nat.eqb_eq in Hfe.
  intuition.
Qed.

Lemma fe_p_lt_base : fe_p < limb_base (fe_limbs fe).
Proof.
  destruct fe_wf_facts as (Hb & Hl & _ & _ & Hp & _).
  assert (fe_bits fe <= GMP_NUMB_BITS * fe_limbs fe).
  { rewrite Hl.
    pose proof (Z.mul_div_le (fe_bits fe + GMP_NUMB_BITS - 1) GMP_NUMB_BITS
                  ltac:(lia)).
    pose proof (Z.mod_pos_bound (fe_bits fe + GMP_NUMB_BITS - 1) GMP_NUMB_BITS
                  ltac:(lia)).
    pose proof (Z.div_mod (fe_bits fe + GMP_NUMB_BITS - 1) GMP_NUMB_BITS
                  ltac:(lia)).
    lia. }
  unfold limb_base.
  assert (2 ^ fe_bits fe <= 2 ^ (GMP_NUMB_BITS * fe_limbs fe))
    by (apply Z.pow_le_mono_r; lia).
  lia.
Qed.

Lemma fe_import_spec raw :
  (fe_size fe <= length raw)%nat ->
  fe_import fe raw
  = (Zmod.of_Z fe_p (bytes_value (fe_endian fe) (firstn (fe_size fe) raw)),
     bytes_value (fe_endian fe) (firstn (fe_size fe) raw) <? fe_p).
Proof.
  intros Hlen.
  destruct fe_wf_facts as (_ & _ & _ & _ & _ & He & Hr & Hv & _).
  unfold fe_import. f_equal.
  rewrite bytes_lt_spec by (assumption || lia).
  rewrite <- Hr at 2. rewrite firstn_all, Hv. reflexivity.
Qed.

Lemma fe_set_sc_spec (sc : scalar_field_t) x :
  sc_wf sc = true ->
  sc_size sc = fe_size fe -> sc_endian sc = fe_endian fe ->
  0 <= x < sc_n sc ->
  fe_set_sc fe sc x = (Zmod.of_Z fe_p x, x <? fe_p).
Proof.
  intros Hsc Hsize Hend Hx.
  destruct fe_wf_facts as (_ & _ & _ & _ & _ & He & _).
  unfold fe_set_sc.
  assert (Hlen : length (sc_export sc x) = fe_size fe).
  { unfold sc_export, mpn_export. rewrite <- Hsize.
    destruct (sc_endian sc =? 1);
      [apply length_be_bytes | apply length_le_bytes]. }
  rewrite fe_import_spec by lia.
  assert (Hv : bytes_value (fe_endian fe)
                 (firstn (fe_size fe) (sc_export sc x)) = x).
  { unfold sc_export, mpn_export. rewrite <- Hsize, <- Hend.
    rewrite bytes_value_firstn_export by (rewrite Hend; exact He).
    rewrite (sc_get_a sc Hsc x Hx).
    apply Z.mod_small.
    pose proof (sc_wf_n sc Hsc) as Hn.
    pose proof (sc_size_bits sc Hsc) as Hs.
    assert (2 ^ sc_bits sc <= 256 ^ Z.of_nat (sc_size sc)).
    { change 256 with (2 ^ 8). rewrite <- Z.pow_mul_r by lia.
      apply Z.pow_le_mono_r; lia. }
    lia. }
  rewrite Hv. reflexivity.
Qed.

Lemma fe_size_bits :
  8 * Z.of_nat (fe_size fe) - 7 <= fe_bits fe <= 8 * Z.of_nat (fe_size fe).
Proof.
  destruct fe_wf_facts as (Hb & _ & Hs & _).
  pose proof (Z.div_mod (fe_bits fe + 7) 8 ltac:(lia)).
  pose proof (Z.mod_pos_bound (fe_bits fe + 7) 8 ltac:(lia)).
  lia.
Qed.

(** Masking the top byte keeps the low [bits] bits of the value. *)
Lemma fe_import_uniform_spec raw :
  fe_endian fe = -1 ->
  (fe_size fe <= length raw)%nat ->
  fst (fe_import_uniform fe raw)
  = Zmod.of_Z fe_p (le_value (firstn (fe_size fe) raw) mod 2 ^ fe_bits fe).
Proof.
  intros Hend Hlen.
  destruct fe_wf_facts as (Hb & _ & _ & _ & _ & _ & _ & _ & Hmask).
  pose proof fe_size_bits as Hsb.
  set (m := fe_bits fe - 8 * (Z.of_nat (fe_size fe) - 1)) in *.
  assert (Hm : 1 <= m <= 8) by (unfold m; lia).
  assert (Hltmp : length (firstn (fe_size fe) raw) = fe_size fe)
    by (apply firstn_length_le; exact Hlen).
  unfold fe_import_uniform.
  destruct (Z.eqb_spec (fe_mask fe) 255) as [E|E]; cbn [negb].
  - rewrite fe_import_spec by exact Hlen. cbn [fst].
    unfold bytes_value. rewrite Hend. cbn [Z.eqb Pos.eqb].
    assert (m = 8).
    { rewrite Hmask in E.
      assert (Hc : m = 1 \/ m = 2 \/ m = 3 \/ m = 4 \/ m = 5 \/ m = 6 \/
                   m = 7 \/ m = 8) by lia.
      destruct Hc as [Hc|[Hc|[Hc|[Hc|[Hc|[Hc|[Hc|Hc]]]]]]];
        rewrite Hc in E; cbn in E; lia. }
    pose proof (le_value_range (firstn (fe_size fe) raw)) as Hr.
    rewrite Hltmp in Hr.
    replace (fe_bits fe) with (8 * Z.of_nat (fe_size fe)) by (unfold m in *; lia).
    rewrite Z.pow_mul_r by lia. change (2 ^ 8) with 256.
    rewrite Z.mod_small by lia. reflexivity.
  - unfold mask_top_byte. rewrite Hend. cbn [Z.eqb Pos.eqb].
    set (tmp := firstn (fe_size fe) raw) in *.
    assert (Hsz : (1 <= fe_size fe)%nat) by lia.
    destruct (exists_last (l := tmp)) as (lo & b & Htmp).
    { intros ->. cbn in Hltmp. lia. }
    assert (Hlo : length lo = (fe_size fe - 1)%nat).
    { rewrite Htmp, length_app in Hltmp. cbn in Hltmp. lia. }
    rewrite Htmp.
    rewrite nth_error_app2 by lia.
    replace (fe_size fe - 1 - length lo)%nat with 0%nat by lia.
    cbn [nth_error].
    rewrite firstn_app, firstn_all2 by lia.
    replace (fe_size fe - 1 - length lo)%nat with 0%nat by lia.
    cbn [firstn]. rewrite app_nil_r.
    rewrite skipn_all2 by (rewrite length_app; cbn; lia).
    rewrite fe_import_spec by (rewrite length_app; cbn; lia). cbn [fst].
    rewrite firstn_all2 by (rewrite length_app; cbn; lia).
    unfold bytes_value. rewrite Hend. cbn [Z.eqb Pos.eqb].
    rewrite !le_value_app. cbn [le_value]. rewrite !Z.mul_0_r, !Z.add_0_r.
    rewrite b2z_z2b, Hmask, Hlo.
    pose proof (b2z_range b) as Hbr.
    pose proof (le_value_range lo) as Hlr. rewrite Hlo in Hlr.
    change (2 ^ m - 1) with (Z.pred (2 ^ m)). rewrite <- Z.ones_equiv.
    rewrite Z.land_ones by lia.
    pose proof (Z.mod_pos_bound (b2z b) (2 ^ m) ltac:(lia)) as Hbm.
    assert (H2m : 2 ^ m <= 256)
      by (change 256 with (2 ^ 8); apply Z.pow_le_mono_r; lia).
    rewrite (Z.mod_small (b2z b mod 2 ^ m)) by lia.
    f_equal.
    set (K := 256 ^ Z.of_nat (fe_size fe - 1)) in *.
    assert (HK : 0 < K) by (unfold K; lia).
    replace (2 ^ fe_bits fe) with (K * 2 ^ m).
    2:{ unfold K, m. change 256 with (2 ^ 8).
        rewrite <- Z.pow_mul_r, <- Z.pow_add_r by lia. f_equal. lia. }
    rewrite Z.rem_mul_r by lia.
    replace ((le_value lo + K * b2z b) mod K) with (le_value lo).
    2:{ rewrite (Z.mul_comm K), Z.mod_add by lia.
        symmetry. apply Z.mod_small. lia. }
    replace ((le_value lo + K * b2z b) / K) with (b2z b).
    2:{ rewrite (Z.mul_comm K), Z.div_add by lia.
        rewrite Z.div_small by lia. lia. }
    reflexivity.
Qed.

Lemma fe_p_lt_bytes : fe_p < 256 ^ Z.of_nat (fe_size fe).
Proof.
  destruct fe_wf_facts as (Hb & _ & _ & _ & Hp & _).
  pose proof fe_size_bits as Hsb.
  assert (2 ^ fe_bits fe <= 256 ^ Z.of_nat (fe_size fe)).
  { change 256 with (2 ^ 8). rewrite <- Z.pow_mul_r by lia.
    apply Z.pow_le_mono_r; lia. }
  lia.
Qed.

Lemma fe_limbs_pos : 1 <= fe_limbs fe.
Proof.
  destruct fe_wf_facts as (Hb & Hl & _).
  rewrite Hl. apply Z.div_le_lower_bound; lia.
Qed.

Lemma length_fe_export (a : fe_t) : length (fe_export fe a) = fe_size fe.
Proof.
  unfold fe_export.
  destruct (fe_endian fe =? 1); [apply length_be_bytes | apply length_le_bytes].
Qed.

Lemma fe_export_value (a : fe_t) :
  bytes_value (fe_endian fe) (firstn (fe_size fe) (fe_export fe a))
  = Zmod.to_Z a.
Proof.
  destruct fe_wf_facts as (_ & _ & _ & _ & _ & He & _).
  unfold fe_export.
  rewrite bytes_value_firstn_export by exact He.
  pose proof (Zmod.unsigned_pos_bound a ltac:(lia)).
  pose proof fe_p_lt_bytes. apply Z.mod_small. lia.
Qed.

Lemma fe_get_limbs_spec (a : fe_t) : fe_get_limbs fe a = Zmod.to_Z a.
Proof.
  unfold fe_get_limbs, mpn_import.
  pose proof (fe_export_value a) as Hv. unfold bytes_value in Hv.
  rewrite Hv.
  pose proof (Zmod.unsigned_pos_bound a ltac:(lia)).
  pose proof fe_p_lt_base. apply Z.mod_small. lia.
Qed.

Lemma fe_set_limbs_spec (v : Z) :
  0 <= v < fe_p ->
  fe_set_limbs fe v (fe_limbs fe) = (Zmod.of_Z fe_p v, true).
Proof.
  intros Hv.
  destruct fe_wf_facts as (_ & _ & _ & _ & _ & He & _).
  pose proof fe_p_lt_base. pose proof fe_p_lt_bytes.
  unfold fe_set_limbs.
  assert (Hlen : length (mpn_export (fe_size fe) v (fe_limbs fe) (fe_endian fe))
                 = fe_size fe).
  { unfold mpn_export.
    destruct (fe_endian fe =? 1);
      [apply length_be_bytes | apply length_le_bytes]. }
  rewrite fe_import_spec by lia.
  unfold mpn_export. rewrite bytes_value_firstn_export by exact He.
  rewrite mpn_get_small by lia. rewrite Z.mod_small by lia.
  f_equal. apply Z.ltb_lt. lia.
Qed.

Lemma fe_coprime (a : fe_t) :
  a <> Zmod.zero -> Z.gcd (Zmod.to_Z a) fe_p = 1.
Proof.
  intros Ha.
  pose proof (Zmod.unsigned_pos_bound a ltac:(lia)) as Hr.
  assert (Zmod.to_Z a <> 0)
    by (intros E; apply Ha; apply Zmod.unsigned_0_iff; exact E).
  rewrite Z.gcd_comm. apply Z.coprime_prime_small; [exact fe_p_prime | lia].
Qed.

(** [fe_invert_var] is the field inverse, with [0] for [0]; its
    [assert] holds. *)
Lemma fe_invert_var_spec (a : fe_t) :
  fe_invert_var fe a = (Zmod.inv a, negb (fe_is_zero a)) /\
  fe_invert_var_assert fe a = true.
Proof.
  destruct fe_wf_facts as (_ & _ & _ & Hp & _).
  pose proof fe_p_lt_base.
  pose proof (Zmod.unsigned_pos_bound a ltac:(lia)) as Hr.
  unfold fe_invert_var, fe_invert_var_assert, mpn_invert_n.
  rewrite fe_get_limbs_spec, Hp, !mpn_get_small by lia.
  destruct (fe_is_zero_spec a) as [Ea|Ea]; cbn [negb].
  - subst a. rewrite Zmod.unsigned_0, Z.gcd_0_l.
    replace (Z.abs fe_p =? 1) with false by (symmetry; apply Z.eqb_neq; lia).
    rewrite fe_set_limbs_spec by lia. cbn [fst snd].
    rewrite Zmod.inv_0. split; reflexivity.
  - rewrite (fe_coprime a Ea). cbn [Z.eqb Pos.eqb].
    pose proof (Z.mod_pos_bound (Z.invmod (Zmod.to_Z a) fe_p) fe_p ltac:(lia))
      as Hi.
    rewrite Z.mod_invmod in Hi.
    rewrite fe_set_limbs_spec by lia. cbn [fst snd].
    split; [|reflexivity]. f_equal.
    apply Zmod.unsigned_inj.
    rewrite Zmod.unsigned_inv, Zmod.unsigned_of_Z_small by lia. reflexivity.
Qed.

End FieldFacts.
(* ================================================================= *)
(** ** Jacobian addition and doubling *)

Section JacobianFacts.

Variable ec : wei_t.
Hypothesis Hflags : wei_flags_wf ec = true.

Lemma ec_zero_a_spec : ec_zero_a ec = fe_is_zero (ec_a ec).
Proof.
  unfold wei_flags_wf in Hflags. apply andb_true_iff in Hflags.
  destruct Hflags as [H _]. apply Bool.eqb_prop in H. exact H.
Qed.

Lemma ec_three_a_spec : ec_three_a ec = fe_equal (ec_a ec) (fe_neg fe_three).
Proof.
  unfold wei_flags_wf in Hflags. apply andb_true_iff in Hflags.
  destruct Hflags as [_ H]. apply Bool.eqb_prop in H. exact H.
Qed.

(** The three doubling formulas agree whenever their selector is on. *)
Lemma jge_dbl0_dblj p :
  ec_a ec = Zmod.zero -> jge_dbl0 p = jge_dblj ec p.
Proof.
  intros Ha. unfold jge_dbl0, jge_dblj. rewrite Ha. fe_unfold.
  f_equal; ring.
Qed.

Lemma jge_dbl3_dblj p :
  ec_a ec = fe_neg fe_three -> jge_dbl3 p = jge_dblj ec p.
Proof.
  intros Ha. unfold jge_dbl3, jge_dblj. rewrite Ha, fe_three_eq. fe_unfold.
  f_equal; ring.
Qed.

Lemma jge_dbl_formula_dblj p : jge_dbl_formula ec p = jge_dblj ec p.
Proof.
  unfold jge_dbl_formula. rewrite ec_zero_a_spec, ec_three_a_spec.
  destruct (fe_is_zero_spec (ec_a ec)) as [Ha|Ha].
  - apply jge_dbl0_dblj. assumption.
  - destruct (fe_equal_spec (ec_a ec) (fe_neg fe_three)) as [Ha3|Ha3].
    + apply jge_dbl3_dblj. assumption.
    + reflexivity.
Qed.


Lemma jge_add_a_term (r0 z : fe_t) :
  (if negb (ec_zero_a ec)
   then fe_add r0 (fe_mul (fe_sqr (fe_sqr z)) (ec_a ec)) else r0)
  = fe_add r0 (fe_mul (fe_sqr (fe_sqr z)) (ec_a ec)).
Proof.
  rewrite ec_zero_a_spec.
  destruct (fe_is_zero_spec (ec_a ec)) as [Ha|Ha]; cbn [negb].
  - rewrite Ha. fe_unfold. ring.
  - reflexivity.
Qed.

Lemma jge_equal_inf (a b : jge_t) :
  jge_is_zero a = true -> jge_is_zero b = true -> jge_equal a b = true.
Proof.
  intros Ha Hb. unfold jge_equal. rewrite Ha, Hb. cbn.
  rewrite !orb_true_r. reflexivity.
Qed.

Lemma jge_equal_proj (a b : jge_t) :
  jge_z a <> Zmod.zero -> jge_z b <> Zmod.zero ->
  Zmod.mul (jge_x a) (Zmod.mul (jge_z b) (jge_z b))
  = Zmod.mul (jge_x b) (Zmod.mul (jge_z a) (jge_z a)) ->
  Zmod.mul (jge_y a) (Zmod.mul (Zmod.mul (jge_z b) (jge_z b)) (jge_z b))
  = Zmod.mul (jge_y b) (Zmod.mul (Zmod.mul (jge_z a) (jge_z a)) (jge_z a)) ->
  jge_equal a b = true.
Proof.
  intros Ha Hb Hx Hy. unfold jge_equal, jge_is_zero.
  destruct (fe_is_zero_spec (jge_z a)) as [E|_]; [contradiction|].
  destruct (fe_is_zero_spec (jge_z b)) as [E|_]; [contradiction|].
  cbn [xorb negb andb]. fe_unfold. rewrite Hx, Hy, !fe_equal_refl.
  reflexivity.
Qed.

Lemma jge_equal_refl (a : jge_t) : jge_equal a a = true.
Proof.
  unfold jge_equal. rewrite !fe_equal_refl.
  destruct (jge_is_zero a); reflexivity.
Qed.

(** [P + O = P]: the second select restores the first operand. *)
Lemma jge_add_inf_r (a b : jge_t) :
  jge_z b = Zmod.zero -> jge_add ec a b = a.
Proof.
  intros Hb. destruct a as [X1 Y1 Z1], b as [X2 Y2 Z2].
  cbn [jge_z] in Hb. subst Z2.
  unfold jge_add. cbn [jge_x jge_y jge_z].
  replace (fe_is_zero (@Zmod.zero fe_p)) with true
    by (symmetry; apply fe_is_zero_iff; reflexivity).
  rewrite !orb_true_r. cbn [negb]. rewrite !andb_false_r.
  reflexivity.
Qed.

(** [O + P = P]: the first select takes the second operand. *)
Lemma jge_add_inf_l (a b : jge_t) :
  jge_z a = Zmod.zero -> jge_z b <> Zmod.zero -> jge_add ec a b = b.
Proof.
  intros Ha Hb. destruct a as [X1 Y1 Z1], b as [X2 Y2 Z2].
  cbn [jge_z] in Ha, Hb. subst Z1.
  unfold jge_add. cbn [jge_x jge_y jge_z].
  replace (fe_is_zero (@Zmod.zero fe_p)) with true
    by (symmetry; apply fe_is_zero_iff; reflexivity).
  destruct (fe_is_zero_spec Z2) as [E|_]; [contradiction|].
  cbn [orb negb]. rewrite !andb_false_r.
  reflexivity.
Qed.



Lemma jge_add_same_as_dbl (p : jge_t) :
  jge_equal (jge_add ec p p) (jge_dbl ec p) = true.
Proof.
  destruct (fe_is_zero_spec (jge_z p)) as [HZ|HZ].
  - apply jge_equal_inf.
    + rewrite jge_add_inf_r by assumption. apply fe_is_zero_iff, HZ.
    + unfold jge_dbl, jge_is_zero. cbn [jge_z].
      replace (fe_is_zero (jge_z p)) with true
        by (symmetry; apply fe_is_zero_iff; assumption).
      destruct (1 <? ec_h ec); cbn [orb fe_select];
        apply fe_is_zero_iff; reflexivity.
  - destruct p as [X Y Z]. cbn [jge_z] in HZ.
    unfold jge_dbl. rewrite jge_dbl_formula_dblj.
    unfold jge_add, jge_dblj, jge_is_zero. cbn [jge_x jge_y jge_z].
    rewrite jge_add_a_term.
    destruct (fe_is_zero_spec Z) as [E|_]; [contradiction|].
    cbn [orb negb]. rewrite !andb_true_r.
    destruct (fe_is_zero_spec Y) as [HY|HY].
    + subst Y. apply jge_equal_inf; unfold jge_is_zero; cbn [jge_z].
      * match goal with
        | |- context [fe_select _ fe_zero (fe_is_zero ?t)] =>
            destruct (fe_is_zero_spec t) as [H3|H3]
        end; cbn [fe_select]; [apply fe_is_zero_iff; reflexivity|].
        exfalso. apply H3. clear H3.
        match goal with
        | |- context [fe_select _ _ ?d] => destruct d
        end; cbn [fe_select]; fe_unfold; ring.
      * apply fe_is_zero_iff.
        destruct (if 1 <? ec_h ec then _ else _); cbn [fe_select];
          fe_unfold; ring.
    + match goal with
      | |- context [fe_is_zero ?t && _] =>
          destruct (fe_is_zero_spec t) as [H1|H1]
      end.
      { exfalso. fe_unfold. fe_zero_split H1; contradiction. }
      cbn [andb fe_select].
      match goal with
      | |- context [fe_select _ fe_zero (fe_is_zero ?t)] =>
          destruct (fe_is_zero_spec t) as [H3|H3]
      end.
      { exfalso. fe_unfold. fe_zero_split H3; contradiction. }
      replace (if 1 <? ec_h ec then false else false) with false
        by (destruct (1 <? ec_h ec); reflexivity).
      cbn [fe_select].
      apply jge_equal_proj; cbn [jge_x jge_y jge_z]; fe_unfold.
      * exact H3.
      * intros H. fe_zero_split H; contradiction.
      * ring.
      * ring.
Qed.

Lemma jge_add_neg_is_zero (p : jge_t) :
  jge_is_zero (jge_add ec p (jge_neg p)) = true.
Proof.
  destruct (fe_is_zero_spec (jge_z p)) as [HZ|HZ].
  - rewrite jge_add_inf_r by exact HZ. apply fe_is_zero_iff, HZ.
  - destruct p as [X Y Z]. cbn [jge_z] in HZ.
    unfold jge_add, jge_neg, jge_is_zero. cbn [jge_x jge_y jge_z].
    rewrite jge_add_a_term.
    destruct (fe_is_zero_spec Z) as [E|_]; [contradiction|].
    cbn [orb negb]. rewrite !andb_true_r.
    match goal with
    | |- context [fe_select _ fe_zero (fe_is_zero ?t)] =>
        destruct (fe_is_zero_spec t) as [H3|H3]
    end; cbn [fe_select]; [apply fe_is_zero_iff; reflexivity|].
    exfalso. apply H3. clear H3.
    match goal with
    | |- context [fe_select _ _ ?d] => destruct d
    end; cbn [fe_select]; fe_unfold; ring.
Qed.

Lemma jge_zero_is_zero : jge_is_zero jge_zero = true.
Proof. apply fe_is_zero_iff. reflexivity. Qed.

Lemma jge_add_zero_l (p : jge_t) :
  jge_equal (jge_add ec jge_zero p) p = true.
Proof.
  destruct (fe_is_zero_spec (jge_z p)) as [HZ|HZ].
  - rewrite jge_add_inf_r by exact HZ.
    apply jge_equal_inf; [apply jge_zero_is_zero | apply fe_is_zero_iff, HZ].
  - rewrite jge_add_inf_l by (reflexivity || exact HZ).
    apply jge_equal_refl.
Qed.

(** C2. The strongly unified Jacobian addition [jge_add] handles every
    special case of the group law by itself: for every Jacobian triple
    [p] (on the curve or not), [p + p] is the point [jge_dbl p], and
    [p + (-p)] is the point at infinity, both up to Jacobian scaling as
    decided by [jge_equal] and [jge_is_zero]; [O + p] is [p] itself
    whenever [p] is finite and the point at infinity otherwise, and
    [p + O] is [p] itself. *)
Theorem jge_add_unified (p : jge_t) :
  jge_equal (jge_add ec p p) (jge_dbl ec p) = true /\
  jge_is_zero (jge_add ec p (jge_neg p)) = true /\
  jge_equal (jge_add ec jge_zero p) p = true /\
  (jge_is_zero p = false -> jge_add ec jge_zero p = p) /\
  jge_add ec p jge_zero = p.
Proof.
  split; [apply jge_add_same_as_dbl|].
  split; [apply jge_add_neg_is_zero|].
  split; [apply jge_add_zero_l|].
  split.
  - intros Hp. apply jge_add_inf_l; [reflexivity|].
    intros E. apply fe_is_zero_iff in E. unfold jge_is_zero in Hp. congruence.
  - apply jge_add_inf_r. reflexivity.
Qed.

End JacobianFacts.

(* ================================================================= *)
(** ** Comparing an x-coordinate with a scalar ([jge_equal_r]) *)

Section EqualR.

Variable ec : wei_t.
Hypothesis Hec : wei_fields_wf ec = true.

Lemma wei_fields_wf_facts :
  fe_wf (ec_fe ec) = true /\ sc_wf (ec_sc ec) = true /\
  sc_size (ec_sc ec) = fe_size (ec_fe ec) /\
  sc_endian (ec_sc ec) = fe_endian (ec_fe ec) /\
  sc_limbs (ec_sc ec) <= fe_limbs (ec_fe ec) /\
  ec_red_n ec = Zmod.of_Z fe_p (sc_n (ec_sc ec)).
Proof.
  unfold wei_fields_wf in Hec. rewrite !andb_true_iff in Hec.
  rewrite Nat.eqb_eq, Z.eqb_eq, Z.leb_le, Z.eqb_eq in Hec.
  destruct Hec as [[[[[H1 H2] H3] H4] H5] H6].
  repeat (split; [assumption|]).
  rewrite <- (Zmod.of_Z_unsigned (ec_red_n ec)), H6. apply Zmod.of_Z_mod.
Qed.

Lemma fe_div_eq (X zz : fe_t) (c : Z) :
  zz <> Zmod.zero ->
  X = fe_mul (Zmod.of_Z fe_p c) zz <-> Zmod.mdiv X zz = Zmod.of_Z fe_p c.
Proof.
  intros Hz. unfold fe_mul. split; intros H.
  - rewrite H. field. exact Hz.
  - rewrite <- H. field. exact Hz.
Qed.

Lemma jge_equal_r_loop_spec (X zz : fe_t) (x : Z) :
  zz <> Zmod.zero ->
  forall (fuel : nat) (cp : Z) (rx : fe_t),
    0 <= cp < fe_p ->
    cp mod sc_n (ec_sc ec) = x ->
    rx = fe_mul (Zmod.of_Z fe_p cp) zz ->
    (Zmod.to_Z (Zmod.mdiv X zz) mod sc_n (ec_sc ec) = x ->
     cp < Zmod.to_Z (Zmod.mdiv X zz)) ->
    fe_p - cp <= Z.of_nat fuel * sc_n (ec_sc ec) ->
    jge_equal_r_loop ec fuel X (fe_mul (ec_red_n ec) zz)
      (fe_limbs (ec_fe ec) + 1) cp rx
    = Return (Zmod.to_Z (Zmod.mdiv X zz) mod sc_n (ec_sc ec) =? x).
Proof.
  intros Hz.
  destruct wei_fields_wf_facts as (Hfe & Hsc & _ & _ & Hl & Hred).
  pose proof (fe_p_lt_base _ Hfe) as Hpb.
  pose proof (sc_n_lt_base _ Hsc) as Hnb.
  pose proof (sc_n_gt_1 _ Hsc) as Hn1.
  pose proof (sc_limbs_pos _ Hsc) as Hsl.
  pose proof (Zmod.unsigned_pos_bound (Zmod.mdiv X zz) ltac:(lia)) as HxP.
  set (xP := Zmod.to_Z (Zmod.mdiv X zz)) in *.
  set (n := sc_n (ec_sc ec)) in *.
  set (fl := fe_limbs (ec_fe ec)) in *.
  assert (Hb1 : limb_base (sc_limbs (ec_sc ec)) <= limb_base fl)
    by (apply limb_base_le; lia).
  assert (Hb2 : 2 * limb_base fl <= limb_base (fl + 1)).
  { rewrite limb_base_add by lia.
    pose proof (limb_base_ge_256 1 ltac:(lia)).
    pose proof (limb_base_pos fl ltac:(lia)). nia. }
  induction fuel as [|fuel IH]; intros cp rx Hcp Hmod Hrx Hinv Hfuel.
  - exfalso. cbn in Hfuel. lia.
  - cbn [jge_equal_r_loop]. fold n.
    assert (Hadd : fst (mpn_add_n cp n (fl + 1)) = cp + n).
    { unfold mpn_add_n. cbn [fst].
      rewrite !mpn_get_small by lia. apply Z.mod_small. lia. }
    rewrite Hadd.
    assert (Hcmp : (0 <=? mpn_cmp (cp + n) (fe_plimbs (ec_fe ec)) (fl + 1))
                   = (fe_p <=? cp + n)).
    { destruct (fe_wf_facts _ Hfe) as (_ & _ & _ & Hp & _). rewrite Hp.
      unfold mpn_cmp. rewrite !mpn_get_small by lia.
      destruct (Z.compare_spec (cp + n) fe_p), (Z.leb_spec fe_p (cp + n));
        try lia; reflexivity. }
    rewrite Hcmp.
    assert (Hstep : xP mod n = x -> cp + n <= xP).
    { intros E. specialize (Hinv E).
      pose proof (Z.div_mod xP n ltac:(lia)) as D1.
      pose proof (Z.div_mod cp n ltac:(lia)) as D2.
      rewrite E in D1. rewrite Hmod in D2.
      assert (cp / n < xP / n) by nia. nia. }
    destruct (Z.leb_spec fe_p (cp + n)) as [Hge|Hlt].
    + f_equal. symmetry. apply Z.eqb_neq. intros E.
      specialize (Hstep E). lia.
    + assert (Hrx' : fe_add rx (fe_mul (ec_red_n ec) zz)
                     = fe_mul (Zmod.of_Z fe_p (cp + n)) zz).
      { rewrite Hrx, Hred, Zmod.of_Z_add. fold n. unfold fe_add, fe_mul.
        ring. }
      rewrite Hrx'.
      destruct (fe_equal_spec X (fe_mul (Zmod.of_Z fe_p (cp + n)) zz))
        as [E|E].
      * f_equal. symmetry. apply Z.eqb_eq.
        apply fe_div_eq in E; [|exact Hz].
        unfold xP. rewrite E, Zmod.unsigned_of_Z_small by lia.
        rewrite <- Hmod.
        rewrite <- (Z.mul_1_l n) at 1. apply Z.mod_add. lia.
      * apply IH.
        -- lia.
        -- rewrite <- Hmod. rewrite <- (Z.mul_1_l n) at 1.
           apply Z.mod_add. lia.
        -- reflexivity.
        -- intros Ex. specialize (Hstep Ex).
           assert (xP <> cp + n).
           { intros Heq. apply E. apply fe_div_eq; [exact Hz|].
             fold xP in Heq. rewrite <- Heq. unfold xP.
             symmetry. apply Zmod.of_Z_unsigned. }
           lia.
        -- lia.
Qed.

(** With enough fuel for [ceil(p / n)] rounds, [jge_equal_r] on a
    finite point either stops at [assert(fe_set_sc(...))] (when
    [x >= p]) or returns the comparison of the affine x-coordinate,
    reduced modulo [n], with [x]. *)
Lemma jge_equal_r_spec (p : jge_t) (x : Z) (fuel : nat) :
  jge_is_zero p = false ->
  0 <= x < sc_n (ec_sc ec) ->
  fe_p <= Z.of_nat fuel * sc_n (ec_sc ec) ->
  jge_equal_r ec fuel p x
  = if x <? fe_p
    then Return (jge_affine_x p mod sc_n (ec_sc ec) =? x)
    else Abort.
Proof.
  intros Hfin Hx Hfuel.
  destruct wei_fields_wf_facts as (Hfe & Hsc & Hsize & Hend & Hl & Hred).
  pose proof (fe_p_lt_base _ Hfe) as Hpb.
  pose proof (sc_n_lt_base _ Hsc) as Hnb.
  pose proof (sc_n_gt_1 _ Hsc) as Hn1.
  pose proof (sc_limbs_pos _ Hsc) as Hsl.
  assert (Hz : fe_mul (jge_z p) (jge_z p) <> Zmod.zero).
  { unfold jge_is_zero in Hfin. unfold fe_mul. intros E.
    apply fe_mul_zero_iff in E.
    assert (jge_z p = Zmod.zero) as E' by tauto.
    apply fe_is_zero_iff in E'. congruence. }
  unfold jge_equal_r. cbv zeta.
  replace (sc_limbs (ec_sc ec) <=? fe_limbs (ec_fe ec)) with true
    by (symmetry; apply Z.leb_le; exact Hl).
  cbn [negb]. rewrite Hfin.
  rewrite (fe_set_sc_spec _ Hfe _ x Hsc Hsize Hend Hx).
  destruct (Z.ltb_spec x fe_p) as [Hxp|Hxp]; cbn [negb]; [|reflexivity].
  unfold jge_affine_x, fe_sqr.
  change (Zmod.mul (jge_z p) (jge_z p)) with (fe_mul (jge_z p) (jge_z p)).
  set (zz := fe_mul (jge_z p) (jge_z p)) in *.
  destruct (fe_equal_spec (jge_x p) (fe_mul (Zmod.of_Z fe_p x) zz)) as [E|E].
  - f_equal. symmetry. apply Z.eqb_eq.
    apply fe_div_eq in E; [|exact Hz].
    rewrite E, Zmod.unsigned_of_Z_small by lia. apply Z.mod_small. lia.
  - replace (fe_limbs (ec_fe ec) + 1 - 1) with (fe_limbs (ec_fe ec)) by lia.
    assert (Hb : limb_base (sc_limbs (ec_sc ec))
                 <= limb_base (fe_limbs (ec_fe ec)))
      by (apply limb_base_le; lia).
    assert (Hb2 : limb_base (fe_limbs (ec_fe ec))
                  <= limb_base (fe_limbs (ec_fe ec) + 1))
      by (apply limb_base_le; lia).
    destruct (fe_wf_facts _ Hfe) as (_ & _ & _ & Hp & _).
    rewrite !mpn_limb_top_zero by lia.
    replace (sc_n (ec_sc ec) <? limb_base (fe_limbs (ec_fe ec))) with true
      by (symmetry; apply Z.ltb_lt; lia).
    replace (fe_plimbs (ec_fe ec) <? limb_base (fe_limbs (ec_fe ec)))
      with true by (symmetry; apply Z.ltb_lt; lia).
    cbn [negb].
    unfold mpn_copyi. rewrite mpn_get_small by lia.
    apply jge_equal_r_loop_spec.
    + exact Hz.
    + lia.
    + apply Z.mod_small. lia.
    + reflexivity.
    + intros Ex.
      pose proof (Zmod.unsigned_pos_bound (Zmod.mdiv (jge_x p) zz)
                    ltac:(lia)) as HxP.
      assert (Hne : Zmod.to_Z (Zmod.mdiv (jge_x p) zz) <> x).
      { intros Heq. apply E. apply fe_div_eq; [exact Hz|].
        rewrite <- Heq. symmetry. apply Zmod.of_Z_unsigned. }
      pose proof (Z.mod_le (Zmod.to_Z (Zmod.mdiv (jge_x p) zz))
                    (sc_n (ec_sc ec)) ltac:(lia) ltac:(lia)).
      lia.
    + lia.
Qed.

(** C8. For a finite Jacobian point [p] and a scalar [x] in [[0, n)],
    [jge_equal_r] terminates: [ceil(p / n)] rounds of fuel are enough,
    since each round adds [n] to the lifted candidate and the function
    leaves with 0 once the candidate reaches [p].  It returns true
    exactly when the affine x-coordinate of [p], reduced modulo [n], is
    [x]; this holds whatever [p / n] is.  When [x < p] it returns that
    comparison; the only other way out is [assert(fe_set_sc(...))],
    which needs [x >= p] and so cannot be reached when [n <= p]. *)
Theorem jge_equal_r_decides (p : jge_t) (x : Z) (fuel : nat) :
  jge_is_zero p = false ->
  0 <= x < sc_n (ec_sc ec) ->
  fe_p <= Z.of_nat fuel * sc_n (ec_sc ec) ->
  jge_equal_r ec fuel p x <> OutOfFuel /\
  (jge_equal_r ec fuel p x = Return true
   <-> jge_affine_x p mod sc_n (ec_sc ec) = x) /\
  (x < fe_p ->
   jge_equal_r ec fuel p x
   = Return (jge_affine_x p mod sc_n (ec_sc ec) =? x)).
Proof.
  intros Hfin Hx Hfuel.
  rewrite (jge_equal_r_spec p x fuel Hfin Hx Hfuel).
  destruct wei_fields_wf_facts as (_ & Hsc & _).
  pose proof (sc_n_gt_1 _ Hsc) as Hn1.
  pose proof (Zmod.unsigned_pos_bound
                (Zmod.mdiv (jge_x p) (Zmod.mul (jge_z p) (jge_z p)))
                ltac:(lia)) as HxP.
  fold (jge_affine_x p) in HxP.
  pose proof (Z.mod_le (jge_affine_x p) (sc_n (ec_sc ec))
                ltac:(lia) ltac:(lia)) as Hle.
  destruct (Z.ltb_spec x fe_p) as [Hxp|Hxp].
  - split; [discriminate|]. split; [|reflexivity].
    split; intros H.
    + injection H as H. apply Z.eqb_eq. exact H.
    + f_equal. apply Z.eqb_eq. exact H.
  - split; [discriminate|]. split; [|lia].
    split; intros H; [discriminate | lia].
Qed.

End EqualR.

(* ================================================================= *)
(** ** The Montgomery ladder *)

Section MontgomeryFacts.

Variable ec : mont_t.

Lemma pge_swap_spec (a b : pge_t) (flag : Z) :
  pge_swap a b flag = if flag =? 0 then (a, b) else (b, a).
Proof.
  destruct a, b. unfold pge_swap, fe_swap. cbn [pge_x pge_z].
  destruct (flag =? 0); reflexivity.
Qed.

Lemma length_bits_down bits : length (bits_down bits) = Z.to_nat bits.
Proof.
  unfold bits_down. rewrite length_rev, length_map, length_seq. reflexivity.
Qed.

Lemma bits_down_In bits i : In i (bits_down bits) -> 0 <= i < bits.
Proof.
  unfold bits_down. rewrite <- in_rev, in_map_iff.
  intros (j & <- & Hj). apply in_seq in Hj. lia.
Qed.

Ltac swap_simpl :=
  repeat first
    [ progress rewrite pge_swap_spec
    | progress change (Z.lxor 1 1) with 0
    | progress change (Z.lxor 1 0) with 1
    | progress change (Z.lxor 0 1) with 1
    | progress change (Z.lxor 0 0) with 0
    | progress change (1 =? 0) with false
    | progress change (0 =? 0) with true
    | progress cbv beta iota zeta
    | progress cbn [fst snd] ].

(** The deferred swap of the C loop: its state is the state of the
    plain ladder, exchanged when the previous bit was 1. *)
Lemma mont_mul_rounds (p : pge_t) (k : Z) (l : list Z) :
  (forall i, In i l -> 0 <= i) ->
  forall (st : pge_t * pge_t) (s : bool),
  exists s' : bool,
    fold_left (mont_mul_round ec p k) l (mont_mul_state ec st s)
    = mont_mul_state ec
        (fold_left (mont_ladder_round ec p) (map (Z.testbit k) l) st) s'.
Proof.
  induction l as [|i l IH]; intros Hl st s.
  - exists s. reflexivity.
  - cbn [fold_left map].
    assert (Hi : 0 <= i) by (apply Hl; left; reflexivity).
    specialize (IH (fun j Hj => Hl j (or_intror Hj))).
    destruct (IH (mont_ladder_round ec p st (Z.testbit k i)) (Z.testbit k i))
      as [s' Hs'].
    exists s'. rewrite <- Hs'. f_equal. clear Hs' IH.
    unfold mont_mul_state, mont_mul_round, mont_ladder_round, sc_get_bit.
    rewrite limb_bit by exact Hi.
    destruct st as [a b]. cbn [fst snd].
    rewrite !pge_swap_spec.
    destruct s, (Z.testbit k i); cbn [Z.b2z]; swap_simpl;
      destruct (pge_ladder ec p _ _) as [a' b']; swap_simpl; reflexivity.
Qed.

Lemma ladder_bits_low bits k :
  ladder_bits bits (k mod 2 ^ bits) = ladder_bits bits k.
Proof.
  unfold ladder_bits. apply map_ext_in. intros i Hi.
  apply bits_down_In in Hi. apply Z.mod_pow2_bits_low. lia.
Qed.

Lemma mont_mul_spec (p : pge_t) (k : Z) :
  mont_mul ec p k
  = if fe_bits (mont_fe ec) <=? sc_limbs (mont_sc ec) * GMP_NUMB_BITS
    then Some (mont_ladder ec p (ladder_bits (fe_bits (mont_fe ec)) k))
    else None.
Proof.
  unfold mont_mul.
  destruct (fe_bits (mont_fe ec) <=? sc_limbs (mont_sc ec) * GMP_NUMB_BITS);
    cbn [negb]; [|reflexivity].
  destruct (mont_mul_rounds p k (bits_down (fe_bits (mont_fe ec)))
              (fun i Hi => proj1 (bits_down_In _ _ Hi))
              (pge_zero, p) false) as [s' Hs'].
  unfold mont_mul_state at 1 in Hs'. rewrite pge_swap_spec in Hs'.
  cbn [Z.b2z Z.eqb fst snd] in Hs'. unfold pge_set. rewrite Hs'.
  unfold mont_mul_state, mont_ladder, ladder_bits.
  destruct (fold_left (mont_ladder_round ec p) _ _) as [a b].
  cbn [fst snd]. rewrite !pge_swap_spec.
  destruct s'; cbn [Z.b2z Z.eqb fst snd]; rewrite ?pge_swap_spec; reflexivity.
Qed.

(** C6. [mont_mul] is the Montgomery ladder over the low [bits(p)] bits
    of the scalar as given: past its limb-count [assert] the result is
    the plain ladder run on the [bits(p)] bits
    [k[bits(p) - 1], ..., k[0]] -- one round per bit of the field
    width, whatever the width of the scalar field -- so that the
    exchanges on [swap ^ bit] and the closing exchange of the C loop
    amount to exchanging around each round whose bit is 1; the result
    is unchanged when [k] is replaced by [k mod 2^bits(p)], and no bit
    of [k] is forced (no clamping). *)
Theorem mont_mul_ladder (p : pge_t) (k : Z) :
  fe_bits (mont_fe ec) <= sc_limbs (mont_sc ec) * GMP_NUMB_BITS ->
  mont_mul ec p k
  = Some (mont_ladder ec p (ladder_bits (fe_bits (mont_fe ec)) k)) /\
  length (ladder_bits (fe_bits (mont_fe ec)) k)
  = Z.to_nat (fe_bits (mont_fe ec)) /\
  mont_mul ec p (k mod 2 ^ fe_bits (mont_fe ec)) = mont_mul ec p k.
Proof.
  intros Hassert. rewrite !mont_mul_spec.
  apply Z.leb_le in Hassert. rewrite Hassert.
  split; [reflexivity|]. split.
  - unfold ladder_bits. rewrite length_map. apply length_bits_down.
  - rewrite ladder_bits_low. reflexivity.
Qed.

Lemma mont_wf_facts :
  mont_wf ec = true ->
  fe_wf (mont_fe ec) = true /\ fe_endian (mont_fe ec) = -1 /\
  fe_bits (mont_fe ec) <= sc_limbs (mont_sc ec) * GMP_NUMB_BITS.
Proof.
  unfold mont_wf. rewrite !andb_true_iff, Z.eqb_eq, Z.leb_le. tauto.
Qed.

Lemma fe_invert_ret (fe : prime_field_t) (a : fe_t) :
  snd (fe_invert fe a) = negb (fe_is_zero a).
Proof. unfold fe_invert. destruct (fe_invert_fn fe); reflexivity. Qed.

Lemma pge_export_ret (p : pge_t) :
  snd (pge_export ec p) = negb (pge_is_zero p).
Proof.
  unfold pge_export, pge_is_zero.
  pose proof (fe_invert_ret (mont_fe ec) (pge_z p)) as H.
  destruct (fe_invert (mont_fe ec) (pge_z p)) as [x ret].
  cbn [snd] in *. exact H.
Qed.

(** C10. [ecdh_derive] has no way to reject the peer key: [pge_import]
    always yields the point with [z = 1] whose [x] is the public-key
    string, read little-endian, cut to [bits(p)] bits and reduced
    modulo [p]; the ladder always yields a point [P]; and the value
    returned is 1 exactly when [P] has [z <> 0].  So the call fails if
    and only if the ladder output is the identity. *)
Theorem ecdh_derive_fails_iff (pub priv : list byte) :
  mont_wf ec = true ->
  (fe_size (mont_fe ec) <= length pub)%nat ->
  pge_import ec pub
  = mk_pge (Zmod.of_Z fe_p (le_value (firstn (fe_size (mont_fe ec)) pub)
                            mod 2 ^ fe_bits (mont_fe ec)))
           fe_one /\
  exists (P : pge_t) (secret : list byte),
    mont_mul ec (pge_import ec pub)
      (fst (sc_import (mont_sc ec) (mont_clamp ec priv))) = Some P /\
    ecdh_derive ec pub priv = Some (secret, negb (pge_is_zero P)) /\
    (snd (secret, negb (pge_is_zero P)) = false <-> pge_z P = Zmod.zero).
Proof.
  intros Hwf Hlen. destruct (mont_wf_facts Hwf) as (Hfe & Hend & Hassert).
  split.
  - unfold pge_import. f_equal.
    apply (fe_import_uniform_spec _ Hfe); assumption.
  - unfold ecdh_derive. rewrite mont_mul_spec.
    apply Z.leb_le in Hassert. rewrite Hassert.
    set (P := mont_ladder ec _ _).
    exists P, (fst (pge_export ec P)). split; [reflexivity|]. split.
    + f_equal. rewrite <- pge_export_ret. apply surjective_pairing.
    + cbn [snd]. rewrite negb_false_iff. apply fe_is_zero_iff.
Qed.

End MontgomeryFacts.

(* ================================================================= *)
(** ** Decoding Edwards points *)

Lemma fe_p_is_odd : Z.odd fe_p = true.
Proof.
  destruct (Z.odd fe_p) eqn:E; [reflexivity|exfalso].
  rewrite <- Z.negb_even in E. apply negb_false_iff in E.
  apply Z.even_spec in E. destruct E as [k Hk].
  destruct fe_p_prime as [_ Hp]. apply (Hp 2); [lia|].
  exists k. lia.
Qed.

Lemma fe_is_odd_zero : fe_is_odd (@Zmod.zero fe_p) = false.
Proof. unfold fe_is_odd. rewrite Zmod.unsigned_0. reflexivity. Qed.

Lemma fe_is_odd_neg (x : fe_t) :
  x <> Zmod.zero -> fe_is_odd (fe_neg x) = negb (fe_is_odd x).
Proof.
  intros Hx. unfold fe_is_odd, fe_neg. rewrite Zmod.unsigned_opp.
  pose proof (Zmod.unsigned_pos_bound x ltac:(lia)) as Hr.
  assert (Zmod.to_Z x <> 0).
  { intros E. apply Hx. apply Zmod.unsigned_0_iff. exact E. }
  replace (- Zmod.to_Z x mod fe_p) with (fe_p - Zmod.to_Z x)
    by (apply (Z.mod_unique _ _ (-1)); lia).
  rewrite Z.odd_sub, fe_p_is_odd. reflexivity.
Qed.

Lemma fe_neg_zero_iff (x : fe_t) : fe_neg x = Zmod.zero <-> x = Zmod.zero.
Proof.
  unfold fe_neg. split; intros H.
  - transitivity (Zmod.opp (Zmod.opp x)); [ring | rewrite H; ring].
  - subst. ring.
Qed.

Lemma fe_set_odd_cases (x : fe_t) (s : bool) :
  fe_set_odd x s = x \/ fe_set_odd x s = fe_neg x.
Proof.
  unfold fe_set_odd, fe_neg_cond, fe_select.
  destruct (xorb (fe_is_odd x) s); auto.
Qed.

Lemma fe_set_odd_zero_iff (x : fe_t) (s : bool) :
  fe_set_odd x s = Zmod.zero <-> x = Zmod.zero.
Proof.
  destruct (fe_set_odd_cases x s) as [E|E]; rewrite E;
    [reflexivity | apply fe_neg_zero_iff].
Qed.

Lemma fe_set_odd_parity (x : fe_t) (s : bool) :
  x <> Zmod.zero -> fe_is_odd (fe_set_odd x s) = s.
Proof.
  intros Hx. unfold fe_set_odd, fe_neg_cond, fe_select.
  destruct (fe_is_odd x) eqn:E, s; cbn [xorb];
    rewrite ?fe_is_odd_neg by exact Hx; rewrite ?E; reflexivity.
Qed.

Lemma sign_bit_of_byte (b : Z) :
  0 <= b < 256 -> negb (Z.shiftr b 7 =? 0) = Z.testbit b 7.
Proof.
  intros Hb. rewrite Z.testbit_odd, Z.shiftr_div_pow2 by lia.
  change (2 ^ 7) with 128.
  assert (Hq : b / 128 = 0 \/ b / 128 = 1).
  { pose proof (Z.div_pos b 128 ltac:(lia) ltac:(lia)).
    pose proof (Z.div_lt_upper_bound b 128 2 ltac:(lia) ltac:(lia)). lia. }
  destruct Hq as [-> | ->]; reflexivity.
Qed.

Lemma le_value_mask_top (lo : list byte) (b m : Z) :
  0 <= b < 256 -> 0 <= m <= 8 ->
  le_value (lo ++ [z2b (Z.land b (2 ^ m - 1))])
  = (le_value lo + 256 ^ Z.of_nat (length lo) * b)
    mod (256 ^ Z.of_nat (length lo) * 2 ^ m).
Proof.
  intros Hb Hm.
  rewrite le_value_app. cbn [le_value]. rewrite Z.mul_0_r, Z.add_0_r.
  rewrite b2z_z2b.
  change (2 ^ m - 1) with (Z.pred (2 ^ m)). rewrite <- Z.ones_equiv.
  rewrite Z.land_ones by lia.
  pose proof (Z.mod_pos_bound b (2 ^ m) ltac:(lia)) as Hbm.
  assert (H2m : 2 ^ m <= 256)
    by (change 256 with (2 ^ 8); apply Z.pow_le_mono_r; lia).
  rewrite (Z.mod_small (b mod 2 ^ m)) by lia.
  pose proof (le_value_range lo) as Hlr.
  set (K := 256 ^ Z.of_nat (length lo)) in *.
  assert (HK : 0 < K) by (unfold K; lia).
  rewrite Z.rem_mul_r by lia.
  replace ((le_value lo + K * b) mod K) with (le_value lo).
  2:{ rewrite (Z.mul_comm K), Z.mod_add by lia.
      symmetry. apply Z.mod_small. lia. }
  replace ((le_value lo + K * b) / K) with b.
  2:{ rewrite (Z.mul_comm K), Z.div_add by lia.
      rewrite Z.div_small by lia. lia. }
  reflexivity.
Qed.

Lemma firstn_succ_nth (raw : list byte) (n : nat) :
  (n < length raw)%nat ->
  firstn (S n) raw = firstn n raw ++ [nth n raw x00].
Proof.
  revert n. induction raw as [|a raw IH]; intros n Hn.
  - cbn in Hn. lia.
  - destruct n as [|n].
    + reflexivity.
    + cbn [firstn nth app]. f_equal. apply IH. cbn in Hn. lia.
Qed.

Lemma firstn_pred_nth (raw : list byte) (n : nat) :
  (1 <= n <= length raw)%nat ->
  firstn n raw = firstn (n - 1) raw ++ [nth (n - 1) raw x00].
Proof.
  intros Hn. destruct n as [|n]; [lia|].
  replace (S n - 1)%nat with n by lia. apply firstn_succ_nth. lia.
Qed.

Section EdwardsFacts.

Variable ec : edwards_t.
Hypothesis Hwf : edwards_wf ec = true.

Lemma edwards_wf_facts :
  fe_wf (ed_fe ec) = true /\ fe_endian (ed_fe ec) = -1.
Proof.
  unfold edwards_wf in Hwf. rewrite andb_true_iff, Z.eqb_eq in Hwf. exact Hwf.
Qed.

(** The bytes handed to [fe_import] carry [xge_encoded_y]. *)
Lemma xge_import_y (raw : list byte) :
  (xge_encoded_size (ed_fe ec) <= length raw)%nat ->
  fe_import (ed_fe ec)
    (if Z.land (fe_bits (ed_fe ec)) 7 =? 0 then raw else xge_clear_sign ec raw)
  = (Zmod.of_Z fe_p (xge_encoded_y (ed_fe ec) raw),
     xge_encoded_y (ed_fe ec) raw <? fe_p).
Proof.
  destruct edwards_wf_facts as (Hfe & Hend).
  pose proof (fe_size_bits _ Hfe) as Hsb.
  destruct (fe_wf_facts _ Hfe) as (Hb & _).
  unfold xge_encoded_size, xge_encoded_y.
  destruct (Z.land (fe_bits (ed_fe ec)) 7 =? 0); intros Hlen.
  - rewrite (fe_import_spec _ Hfe) by lia.
    unfold bytes_value. rewrite Hend. reflexivity.
  - set (size := fe_size (ed_fe ec)) in *.
    assert (Hsz : (1 <= size)%nat) by lia.
    set (lo := firstn (size - 1) raw).
    assert (Hlo : length lo = (size - 1)%nat)
      by (apply firstn_length_le; lia).
    assert (Htmp : length (xge_clear_sign ec raw) = size).
    { unfold xge_clear_sign. fold size lo. rewrite length_app, Hlo. cbn. lia. }
    rewrite (fe_import_spec _ Hfe) by (fold size; lia).
    fold size. rewrite firstn_all2 by lia.
    unfold bytes_value. rewrite Hend. cbn [Z.eqb].
    assert (Hv : le_value (xge_clear_sign ec raw)
                 = le_value (firstn size raw) mod 2 ^ (8 * Z.of_nat size - 1)).
    { unfold xge_clear_sign. fold size lo.
      change 127 with (2 ^ 7 - 1).
      rewrite le_value_mask_top by (unfold byte_at; try apply b2z_range; lia).
      rewrite (firstn_pred_nth raw size) by lia. fold lo.
      rewrite le_value_app. cbn [le_value]. rewrite Z.mul_0_r, Z.add_0_r.
      unfold byte_at. rewrite Hlo. f_equal.
      change 256 with (2 ^ 8).
      rewrite <- Z.pow_mul_r, <- Z.pow_add_r by lia. f_equal. lia. }
    rewrite Hv. reflexivity.
Qed.

Lemma xge_import_sign (raw : list byte) :
  negb (Z.shiftr (byte_at raw (xge_encoded_size (ed_fe ec) - 1)) 7 =? 0)
  = xge_encoded_sign (ed_fe ec) raw.
Proof.
  unfold xge_encoded_sign. apply sign_bit_of_byte. apply b2z_range.
Qed.

(** The result of [xge_set_y] on a given sign. *)
Lemma xge_set_y_sign_rule (y : fe_t) (s : bool) (r : xge_t) :
  xge_set_y ec y (Some s) = Some (r, true) ->
  (exists x0,
     fe_isqrt (ed_fe ec) (fe_sub (fe_sqr y) fe_one)
       (fe_sub (fe_mul (ed_d ec) (fe_sqr y)) (ed_a ec)) = Some (x0, true) /\
     (xge_x r = x0 \/ xge_x r = fe_neg x0)) /\
  r = xge_set_xy (xge_x r) y /\
  fe_is_odd (xge_x r) = s /\
  (xge_x r = Zmod.zero -> s = false).
Proof.
  unfold xge_set_y.
  destruct (fe_isqrt _ _ _) as [[x0 ok]|]; [|discriminate].
  intros H. injection H as Hr Hret.
  apply andb_true_iff in Hret. destruct Hret as [Hok Hz]. subst ok.
  subst r. cbn [xge_x xge_set_xy].
  split; [exists x0; split; [reflexivity | apply fe_set_odd_cases]|].
  split; [reflexivity|].
  apply negb_true_iff, andb_false_iff in Hz.
  destruct (fe_is_zero_spec (fe_set_odd x0 s)) as [E|E].
  - destruct Hz as [Hz|Hz]; [discriminate|]. subst s.
    rewrite E. split; [apply fe_is_odd_zero | intros _; reflexivity].
  - assert (x0 <> Zmod.zero).
    { intros E0. apply E. apply fe_set_odd_zero_iff. exact E0. }
    split; [apply fe_set_odd_parity; assumption | intros E'; contradiction].
Qed.

Lemma xge_set_y_rejects_zero (y x0 : fe_t) (ok : bool) :
  fe_isqrt (ed_fe ec) (fe_sub (fe_sqr y) fe_one)
    (fe_sub (fe_mul (ed_d ec) (fe_sqr y)) (ed_a ec)) = Some (x0, ok) ->
  x0 = Zmod.zero ->
  exists r, xge_set_y ec y (Some true) = Some (r, false).
Proof.
  intros Hq Hx. unfold xge_set_y. rewrite Hq.
  eexists. f_equal. f_equal.
  replace (fe_is_zero (fe_set_odd x0 true)) with true.
  - cbn. apply andb_false_r.
  - symmetry. apply fe_is_zero_iff, fe_set_odd_zero_iff. exact Hx.
Qed.

(** [xge_import] in terms of the encoded [y] and sign. *)
Lemma xge_import_spec (raw : list byte) :
  (xge_encoded_size (ed_fe ec) <= length raw)%nat ->
  xge_import ec raw
  = if (Z.land (fe_bits (ed_fe ec)) 7 =? 0)
       && negb (Z.land (byte_at raw (fe_size (ed_fe ec))) 127 =? 0)
    then Some None
    else if negb (xge_encoded_y (ed_fe ec) raw <? fe_p) then Some None
    else match xge_set_y ec (Zmod.of_Z fe_p (xge_encoded_y (ed_fe ec) raw))
                 (Some (xge_encoded_sign (ed_fe ec) raw)) with
         | None => None
         | Some (r, ret) => if ret then Some (Some r) else Some None
         end.
Proof.
  intros Hlen. unfold xge_import.
  pose proof (xge_import_y raw Hlen) as Hy.
  pose proof (xge_import_sign raw) as Hs.
  unfold xge_encoded_size in Hs.
  destruct (Z.land (fe_bits (ed_fe ec)) 7 =? 0); cbn [andb].
  - replace (S (fe_size (ed_fe ec)) - 1)%nat with (fe_size (ed_fe ec)) in Hs
      by lia.
    destruct (negb (Z.land (byte_at raw (fe_size (ed_fe ec))) 127 =? 0));
      [reflexivity|].
    rewrite Hy, Hs. reflexivity.
  - rewrite Hy, Hs. reflexivity.
Qed.

(** C9. [xge_import] reads [y] and the sign bit off the encoding and
    recovers [x] as the inverse square root of
    [(y^2 - 1) / (d * y^2 - a)], negated when its parity differs from
    the sign bit.  Whenever the import succeeds, [y] was canonical, the
    point is [(x, y, 1, x * y)] with [x] that root or its negation, and
    the parity of [x] is the sign bit; in particular [x = 0] comes with
    sign bit 0 only.  An encoding whose root is zero and whose sign bit
    is 1 is rejected. *)
Theorem xge_import_sign_rule (raw : list byte) :
  (xge_encoded_size (ed_fe ec) <= length raw)%nat ->
  let y := Zmod.of_Z fe_p (xge_encoded_y (ed_fe ec) raw) in
  let sign := xge_encoded_sign (ed_fe ec) raw in
  let u := fe_sub (fe_sqr y) fe_one in
  let v := fe_sub (fe_mul (ed_d ec) (fe_sqr y)) (ed_a ec) in
  (forall r : xge_t,
     xge_import ec raw = Some (Some r) ->
     xge_encoded_y (ed_fe ec) raw < fe_p /\
     (exists x0 : fe_t,
        fe_isqrt (ed_fe ec) u v = Some (x0, true) /\
        (xge_x r = x0 \/ xge_x r = fe_neg x0)) /\
     r = xge_set_xy (xge_x r) y /\
     fe_is_odd (xge_x r) = sign /\
     (xge_x r = Zmod.zero -> sign = false)) /\
  (forall (x0 : fe_t) (ok : bool),
     fe_isqrt (ed_fe ec) u v = Some (x0, ok) ->
     x0 = Zmod.zero -> sign = true ->
     xge_import ec raw = Some None).
Proof.
  intros Hlen y sign u v. rewrite (xge_import_spec raw Hlen).
  fold y sign. split.
  - intros r H.
    destruct (_ && _); [discriminate|].
    destruct (Z.ltb_spec (xge_encoded_y (ed_fe ec) raw) fe_p) as [Hlt|Hge];
      cbn [negb] in H; [|discriminate].
    split; [exact Hlt|].
    destruct (xge_set_y ec y (Some sign)) as [[r' ret]|] eqn:E; [|discriminate].
    destruct ret; [|discriminate].
    injection H as ->.
    apply (xge_set_y_sign_rule y sign r E).
  - intros x0 ok Hq Hx Hs.
    destruct (_ && _); [reflexivity|].
    destruct (negb _); [reflexivity|].
    rewrite Hs.
    destruct (xge_set_y_rejects_zero y x0 ok Hq Hx) as [r Hr].
    rewrite Hr. reflexivity.
Qed.

End EdwardsFacts.

(* ================================================================= *)
(** ** The group of points *)

Section PointGroupFacts.

Variable ec : wei_t.

Local Open Scope Zmod_scope.

Lemma fe_three_mul (x : fe_t) : Zmod.of_Z fe_p 3 * x = x + x + x.
Proof.
  change 3%Z with (1 + 1 + 1)%Z.
  rewrite !Zmod.of_Z_add, Zmod.of_Z_1. ring.
Qed.

Lemma on_curve_iff (x y : fe_t) :
  on_curve ec (Some (x, y)) = true
  <-> y * y = x * x * x + ec_a ec * x + ec_b ec.
Proof. unfold on_curve. apply fe_equal_iff. Qed.

Lemma fe_mul_cancel_l (c u : fe_t) : c <> 0 -> c * u = 0 -> u = 0.
Proof.
  intros Hc H. apply fe_mul_zero_iff in H. tauto.
Qed.

Lemma fe_sub_nonzero (x y : fe_t) : x <> y -> x - y <> 0.
Proof. intros H E. apply H. apply fe_sub_zero_iff. exact E. Qed.

Lemma fe_double_nonzero (y : fe_t) : y <> 0 -> y + y <> 0.
Proof. intros H E. apply H. apply fe_double_zero_iff. exact E. Qed.

Lemma pneg_on_curve (P : point) :
  on_curve ec P = true -> on_curve ec (pneg P) = true.
Proof.
  destruct P as [[x y]|]; [|reflexivity].
  cbn [pneg]. rewrite !on_curve_iff. intros H.
  transitivity (y * y); [ring | exact H].
Qed.

Lemma pneg_involutive (P : point) : pneg (pneg P) = P.
Proof.
  destruct P as [[x y]|]; [|reflexivity].
  cbn [pneg]. do 2 f_equal. ring.
Qed.

(** The chord through two points of the curve meets it again. *)
Lemma chord_on_curve (x1 y1 x2 y2 : fe_t) :
  y1 * y1 = x1 * x1 * x1 + ec_a ec * x1 + ec_b ec ->
  y2 * y2 = x2 * x2 * x2 + ec_a ec * x2 + ec_b ec ->
  x1 <> x2 ->
  forall l x3 y3 : fe_t,
    l = Zmod.mdiv (y1 - y2) (x1 - x2) ->
    x3 = l * l - x1 - x2 ->
    y3 = l * (x1 - x3) - y1 ->
    y3 * y3 = x3 * x3 * x3 + ec_a ec * x3 + ec_b ec.
Proof.
  intros H1 H2 Hx l x3 y3 Hl Hx3 Hy3.
  assert (Hd : x1 - x2 <> 0) by (apply fe_sub_nonzero; exact Hx).
  assert (Hy2 : y2 = y1 - l * (x1 - x2)) by (rewrite Hl; field; exact Hd).
  apply fe_sub_zero_iff. apply (fe_mul_cancel_l (x1 - x2)); [exact Hd|].
  transitivity
    ((x3 - x2) * (y1 * y1 - (x1 * x1 * x1 + ec_a ec * x1 + ec_b ec))
     - (x3 - x1) * (y2 * y2 - (x2 * x2 * x2 + ec_a ec * x2 + ec_b ec))).
  - rewrite Hy3, Hy2, Hx3. ring.
  - rewrite H1, H2. ring.
Qed.

(** So does the tangent. *)
Lemma tangent_on_curve (x1 y1 : fe_t) :
  y1 * y1 = x1 * x1 * x1 + ec_a ec * x1 + ec_b ec ->
  y1 <> 0 ->
  forall l x3 y3 : fe_t,
    l = Zmod.mdiv (Zmod.of_Z fe_p 3 * (x1 * x1) + ec_a ec) (y1 + y1) ->
    x3 = l * l - x1 - x1 ->
    y3 = l * (x1 - x3) - y1 ->
    y3 * y3 = x3 * x3 * x3 + ec_a ec * x3 + ec_b ec.
Proof.
  intros H1 Hy l x3 y3 Hl Hx3 Hy3.
  assert (Hd : y1 + y1 <> 0) by (apply fe_double_nonzero; exact Hy).
  assert (Hs : l * (y1 + y1) = x1 * x1 + x1 * x1 + x1 * x1 + ec_a ec).
  { rewrite Hl, fe_three_mul. field. exact Hd. }
  apply fe_sub_zero_iff.
  transitivity
    ((y1 * y1 - (x1 * x1 * x1 + ec_a ec * x1 + ec_b ec))
     + (x3 - x1)
       * (l * (y1 + y1) - (x1 * x1 + x1 * x1 + x1 * x1 + ec_a ec))).
  - rewrite Hy3, Hx3. ring.
  - rewrite H1, Hs. ring.
Qed.

Lemma padd_closed (P Q : point) :
  on_curve ec P = true -> on_curve ec Q = true ->
  on_curve ec (padd ec P Q) = true.
Proof.
  destruct P as [[x1 y1]|], Q as [[x2 y2]|]; try (intros; assumption).
  intros H1 H2. unfold padd.
  destruct (fe_equal_spec x1 x2) as [Ex|Ex].
  - destruct (fe_equal y1 y2 && negb (fe_is_zero y1)) eqn:E; [|reflexivity].
    apply andb_true_iff in E. destruct E as [_ Ey].
    apply negb_true_iff in Ey.
    assert (y1 <> 0) by (intros E; apply fe_is_zero_iff in E; congruence).
    cbv zeta. apply on_curve_iff. apply on_curve_iff in H1.
    eapply (tangent_on_curve x1 y1 H1); try reflexivity. assumption.
  - cbv zeta. apply on_curve_iff.
    apply on_curve_iff in H1. apply on_curve_iff in H2.
    eapply (chord_on_curve x1 y1 x2 y2 H1 H2 Ex); reflexivity.
Qed.

Lemma padd_O_l (P : point) : padd ec None P = P.
Proof. reflexivity. Qed.

Lemma padd_O_r (P : point) : padd ec P None = P.
Proof. destruct P as [[x y]|]; reflexivity. Qed.

Lemma fe_neg_eq_iff (y : fe_t) : y = Zmod.opp y <-> y = 0.
Proof.
  split; intros H.
  - apply fe_double_zero_iff. rewrite H at 1. ring.
  - subst. ring.
Qed.

Lemma padd_neg_r (P : point) : padd ec P (pneg P) = None.
Proof.
  destruct P as [[x y]|]; [|reflexivity].
  cbn [pneg padd]. rewrite fe_equal_refl.
  destruct (fe_equal_spec y (Zmod.opp y)) as [E|E]; [|reflexivity].
  apply fe_neg_eq_iff in E. subst y.
  replace (fe_is_zero 0) with true
    by (symmetry; apply fe_is_zero_iff; reflexivity).
  reflexivity.
Qed.

Lemma padd_comm (P Q : point) : padd ec P Q = padd ec Q P.
Proof.
  destruct P as [[x1 y1]|], Q as [[x2 y2]|]; try reflexivity.
  unfold padd.
  destruct (fe_equal_spec x1 x2) as [Ex|Ex].
  - subst x2. rewrite fe_equal_refl.
    destruct (fe_equal_spec y1 y2) as [Ey|Ey].
    + subst y2. rewrite fe_equal_refl. reflexivity.
    + destruct (fe_equal_spec y2 y1) as [Ey'|_]; [congruence|]. reflexivity.
  - destruct (fe_equal_spec x2 x1) as [Ex'|_]; [congruence|].
    assert (Hd : x1 - x2 <> 0) by (apply fe_sub_nonzero; exact Ex).
    assert (Hd' : x2 - x1 <> 0) by (apply fe_sub_nonzero; congruence).
    cbv zeta. apply f_equal. apply f_equal2; field; repeat split; assumption.
Qed.

Hypothesis Hassoc : padd_associative ec.

Local Abbreviation oc P := (on_curve ec P = true).

Lemma nmul_on_curve (k : nat) (P : point) : oc P -> oc (nmul ec k P).
Proof.
  intros HP. induction k as [|k IH]; [reflexivity|].
  cbn [nmul]. apply padd_closed; assumption.
Qed.

Lemma nmul_add (a b : nat) (P : point) :
  oc P -> nmul ec (a + b) P = padd ec (nmul ec a P) (nmul ec b P).
Proof.
  intros HP. induction a as [|a IH]; [reflexivity|].
  cbn [nmul Nat.add]. rewrite IH.
  symmetry. apply Hassoc; try apply nmul_on_curve; assumption.
Qed.

Lemma nmul_O (k : nat) : nmul ec k None = None.
Proof. induction k as [|k IH]; [reflexivity|]. cbn [nmul]. exact IH. Qed.

Lemma nmul_mul (a b : nat) (P : point) :
  oc P -> nmul ec (a * b) P = nmul ec a (nmul ec b P).
Proof.
  intros HP. induction a as [|a IH]; [reflexivity|].
  cbn [nmul Nat.mul]. rewrite nmul_add, IH by assumption. reflexivity.
Qed.

Lemma nmul_1 (P : point) : nmul ec 1 P = P.
Proof. cbn [nmul]. apply padd_O_r. Qed.

(** Inverses are unique. *)
Lemma padd_inv_unique (A B : point) :
  oc A -> oc B -> padd ec A B = None -> B = pneg A.
Proof.
  intros HA HB H.
  assert (HnA : oc (pneg A)) by (apply pneg_on_curve; exact HA).
  transitivity (padd ec (padd ec (pneg A) A) B).
  - rewrite (padd_comm (pneg A) A), padd_neg_r. reflexivity.
  - rewrite Hassoc by assumption. rewrite H. apply padd_O_r.
Qed.

Lemma pneg_padd (P Q : point) :
  oc P -> oc Q -> pneg (padd ec P Q) = padd ec (pneg P) (pneg Q).
Proof.
  intros HP HQ.
  assert (HnP : oc (pneg P)) by (apply pneg_on_curve; exact HP).
  assert (HnQ : oc (pneg Q)) by (apply pneg_on_curve; exact HQ).
  symmetry. apply padd_inv_unique.
  - apply padd_closed; assumption.
  - apply padd_closed; assumption.
  - rewrite Hassoc by (try apply padd_closed; assumption).
    rewrite <- (Hassoc Q (pneg P) (pneg Q)) by assumption.
    rewrite (padd_comm Q (pneg P)).
    rewrite (Hassoc (pneg P) Q (pneg Q)) by assumption.
    rewrite padd_neg_r, padd_O_r. apply padd_neg_r.
Qed.

Lemma pneg_nmul (k : nat) (P : point) :
  oc P -> pneg (nmul ec k P) = nmul ec k (pneg P).
Proof.
  intros HP. induction k as [|k IH]; [reflexivity|].
  cbn [nmul]. rewrite pneg_padd, IH by (try apply nmul_on_curve; assumption).
  reflexivity.
Qed.

(** [a * P - b * P = (a - b) * P] for naturals [b <= a]. *)
Lemma nmul_sub (a b : nat) (P : point) :
  oc P -> (b <= a)%nat ->
  padd ec (nmul ec a P) (pneg (nmul ec b P)) = nmul ec (a - b) P.
Proof.
  intros HP Hle.
  assert (Hb : oc (nmul ec b P)) by (apply nmul_on_curve; exact HP).
  assert (Hd : oc (nmul ec (a - b) P)) by (apply nmul_on_curve; exact HP).
  replace a with ((a - b) + b)%nat at 1 by lia.
  rewrite nmul_add by assumption.
  rewrite Hassoc by (try apply pneg_on_curve; assumption).
  rewrite padd_neg_r. apply padd_O_r.
Qed.

Lemma pmul_on_curve (k : Z) (P : point) : oc P -> oc (pmul ec k P).
Proof.
  intros HP. unfold pmul. destruct (k <? 0)%Z.
  - apply pneg_on_curve, nmul_on_curve, HP.
  - apply nmul_on_curve, HP.
Qed.

Lemma pmul_nonneg (k : Z) (P : point) :
  (0 <= k)%Z -> pmul ec k P = nmul ec (Z.to_nat k) P.
Proof.
  intros Hk. unfold pmul. destruct (Z.ltb_spec k 0); [lia | reflexivity].
Qed.

Lemma pmul_opp (k : Z) (P : point) :
  oc P -> pmul ec (- k) P = pneg (pmul ec k P).
Proof.
  intros HP. unfold pmul.
  destruct (Z.ltb_spec k 0), (Z.ltb_spec (- k) 0); try lia.
  - rewrite pneg_involutive. reflexivity.
  - rewrite Z.opp_involutive. reflexivity.
  - replace k with 0%Z by lia. reflexivity.
Qed.

Lemma pmul_add (a b : Z) (P : point) :
  oc P -> pmul ec (a + b) P = padd ec (pmul ec a P) (pmul ec b P).
Proof.
  intros HP.
  assert (Hn : forall k, oc (nmul ec k P))
    by (intros k; apply nmul_on_curve; exact HP).
  (* Both summands non-negative. *)
  assert (Hpos : forall a b, (0 <= a)%Z -> (0 <= b)%Z ->
            pmul ec (a + b) P = padd ec (pmul ec a P) (pmul ec b P)).
  { intros a' b' Ha Hb. rewrite !pmul_nonneg by lia.
    rewrite Z2Nat.inj_add by lia. apply nmul_add. exact HP. }
  (* One non-negative, one negative. *)
  assert (Hmix : forall a b, (0 <= a)%Z -> (b < 0)%Z ->
            pmul ec (a + b) P = padd ec (pmul ec a P) (pmul ec b P)).
  { intros a' b' Ha Hb.
    rewrite (pmul_nonneg a') by lia.
    replace b' with (- (- b'))%Z at 2 by lia.
    rewrite pmul_opp, (pmul_nonneg (- b')) by (assumption || lia).
    destruct (Z.le_gt_cases (- b') a') as [Hle|Hgt].
    - rewrite pmul_nonneg by lia.
      rewrite nmul_sub by (assumption || lia).
      f_equal. rewrite <- Z2Nat.inj_sub by lia. f_equal. lia.
    - replace (a' + b')%Z with (- (- b' - a'))%Z by lia.
      rewrite pmul_opp, pmul_nonneg by (assumption || lia).
      rewrite Z2Nat.inj_sub by lia.
      rewrite <- (nmul_sub (Z.to_nat (- b')) (Z.to_nat a')) by (assumption || lia).
      rewrite pneg_padd by (try apply pneg_on_curve; apply Hn).
      rewrite pneg_involutive. apply padd_comm. }
  destruct (Z.le_gt_cases 0 a) as [Ha|Ha], (Z.le_gt_cases 0 b) as [Hb|Hb].
  - apply Hpos; assumption.
  - apply Hmix; assumption.
  - rewrite Z.add_comm, padd_comm. apply Hmix; assumption.
  - replace (a + b)%Z with (- (- a + - b))%Z by lia.
    rewrite pmul_opp, Hpos by (assumption || lia).
    rewrite pneg_padd by (apply pmul_on_curve; exact HP).
    rewrite <- !pmul_opp by exact HP. rewrite !Z.opp_involutive. reflexivity.
Qed.

Lemma pmul_0 (P : point) : pmul ec 0 P = None.
Proof. reflexivity. Qed.

Lemma pmul_1 (P : point) : pmul ec 1 P = P.
Proof. rewrite pmul_nonneg by lia. apply nmul_1. Qed.

Lemma pmul_O (k : Z) : pmul ec k None = None.
Proof. unfold pmul. rewrite !nmul_O. destruct (k <? 0)%Z; reflexivity. Qed.

Lemma pmul_double (k : Z) (P : point) :
  oc P -> pmul ec (2 * k) P = padd ec (pmul ec k P) (pmul ec k P).
Proof.
  intros HP. replace (2 * k)%Z with (k + k)%Z by lia. apply pmul_add, HP.
Qed.

Lemma pmul_mul (a b : Z) (P : point) :
  oc P -> pmul ec (a * b) P = pmul ec a (pmul ec b P).
Proof.
  intros HP.
  assert (Hpos : forall a b, (0 <= a)%Z -> (0 <= b)%Z ->
            pmul ec (a * b) P = pmul ec a (pmul ec b P)).
  { intros a' b' Ha Hb. rewrite !pmul_nonneg by nia.
    rewrite Z2Nat.inj_mul by lia. apply nmul_mul. exact HP. }
  assert (Hnegb : forall a b, (0 <= a)%Z ->
            pmul ec (a * b) P = pmul ec a (pmul ec b P)).
  { intros a' b' Ha. destruct (Z.le_gt_cases 0 b') as [Hb|Hb].
    - apply Hpos; assumption.
    - assert (Hc : exists c, (0 <= c)%Z /\ b' = (- c)%Z)
        by (exists (- b')%Z; lia).
      destruct Hc as (c & Hc & ->).
      rewrite Z.mul_opp_r, !pmul_opp by assumption.
      rewrite Hpos by lia.
      rewrite !(pmul_nonneg a') by lia.
      apply pneg_nmul. apply pmul_on_curve. exact HP. }
  destruct (Z.le_gt_cases 0 a) as [Ha|Ha].
  - apply Hnegb. exact Ha.
  - assert (Hc : exists c, (0 <= c)%Z /\ a = (- c)%Z)
      by (exists (- a)%Z; lia).
    destruct Hc as (c & Hc & ->).
    rewrite Z.mul_opp_l, !pmul_opp by (try apply pmul_on_curve; assumption).
    rewrite Hnegb by lia. reflexivity.
Qed.

(** Scalars act modulo the order of the point. *)
Lemma pmul_mod (n k : Z) (P : point) :
  oc P -> (0 < n)%Z -> pmul ec n P = None ->
  pmul ec (k mod n) P = pmul ec k P.
Proof.
  intros HP Hn Hord.
  rewrite (Z.div_mod k n) at 2 by lia.
  rewrite pmul_add by exact HP.
  rewrite (Z.mul_comm n), pmul_mul, Hord, pmul_O by exact HP.
  reflexivity.
Qed.

End PointGroupFacts.

(* ================================================================= *)
(** ** Affine arithmetic against the group law *)

Section AffineFacts.

Variable ec : wei_t.
Hypothesis Hfe : fe_wf (ec_fe ec) = true.
Hypothesis Hcof : cofactor_ok ec.

Local Open Scope Zmod_scope.

Lemma wge_validate_on_curve (p : wge_t) :
  wge_validate ec p = on_curve ec (waff p).
Proof.
  unfold wge_validate, waff, on_curve.
  destruct (wge_inf p); [apply orb_true_r | apply orb_false_r].
Qed.

Lemma wge_neg_spec (p : wge_t) : waff (wge_neg p) = pneg (waff p).
Proof. unfold waff, wge_neg, pneg. cbn. destruct (wge_inf p); reflexivity. Qed.

Lemma waff_zero : waff wge_zero = None.
Proof. reflexivity. Qed.

(** A finite point of the curve with [y = 0] needs a cofactor. *)
Lemma cofactor_y_zero (x y : fe_t) :
  on_curve ec (Some (x, y)) = true -> y = 0 -> (1 <? ec_h ec)%Z = true.
Proof.
  intros Hc Hy. subst y. apply Z.ltb_lt.
  destruct (Z.le_gt_cases (ec_h ec) 1) as [Hh|Hh]; [|lia].
  rewrite (Hcof Hh x) in Hc. discriminate.
Qed.

Lemma wge_dbl_var_spec (p : wge_t) :
  on_curve ec (waff p) = true ->
  waff (wge_dbl_var ec p) = padd ec (waff p) (waff p).
Proof.
  unfold waff at 1 3 4, wge_dbl_var. destruct p as [x y inf]. cbn [wge_inf wge_x wge_y].
  destruct inf; [reflexivity|]. intros Hc.
  unfold padd. rewrite !fe_equal_refl. cbn [andb].
  destruct (fe_is_zero_spec y) as [Ey|Ey]; cbn [negb].
  - rewrite (cofactor_y_zero x y Hc Ey). reflexivity.
  - rewrite andb_false_r.
    destruct (fe_invert_var_spec _ Hfe (fe_add y y)) as [Hi _].
    rewrite Hi. cbn [fst]. unfold waff. cbn [wge_inf wge_x wge_y].
    rewrite fe_three_mul. fe_unfold. unfold Zmod.mdiv.
    apply f_equal. apply f_equal2; ring.
Qed.

Lemma wge_add_var_spec (a b : wge_t) :
  on_curve ec (waff a) = true ->
  waff (wge_add_var ec a b) = padd ec (waff a) (waff b).
Proof.
  intros Hc. unfold wge_add_var, wge_set.
  destruct (wge_inf a) eqn:Ia.
  { unfold waff at 2. rewrite Ia. reflexivity. }
  destruct (wge_inf b) eqn:Ib.
  { unfold waff at 3. rewrite Ib. apply eq_sym, padd_O_r. }
  destruct (fe_equal_spec (wge_x a) (wge_x b)) as [Ex|Ex].
  - destruct (fe_equal_spec (wge_y a) (wge_y b)) as [Ey|Ey]; cbn [negb].
    + rewrite wge_dbl_var_spec by exact Hc.
      f_equal. unfold waff. rewrite Ia, Ib, Ex, Ey. reflexivity.
    + unfold waff. rewrite Ia, Ib. cbn [wge_inf padd].
      destruct (fe_equal_spec (wge_x a) (wge_x b)); [|contradiction].
      destruct (fe_equal_spec (wge_y a) (wge_y b)); [contradiction|].
      reflexivity.
  - assert (Hd : wge_x a - wge_x b <> 0) by (apply fe_sub_nonzero; exact Ex).
    unfold waff at 2 3. rewrite Ia, Ib. unfold padd.
    destruct (fe_equal_spec (wge_x a) (wge_x b)); [contradiction|].
    destruct (fe_equal_spec (wge_y a) (wge_y b)) as [Ey|Ey].
    + unfold waff. cbn [wge_inf wge_x wge_y]. rewrite Ey.
      fe_unfold. apply f_equal. apply f_equal2; field; exact Hd.
    + destruct (fe_invert_var_spec _ Hfe (fe_sub (wge_x a) (wge_x b)))
        as [Hi _].
      rewrite Hi. cbn [fst]. unfold waff. cbn [wge_inf wge_x wge_y].
      fe_unfold. unfold Zmod.mdiv. apply f_equal. apply f_equal2; ring.
Qed.

Lemma wge_sub_var_spec (a b : wge_t) :
  on_curve ec (waff a) = true ->
  waff (wge_sub_var ec a b) = padd ec (waff a) (pneg (waff b)).
Proof.
  intros Hc. unfold wge_sub_var. rewrite wge_add_var_spec by exact Hc.
  rewrite wge_neg_spec. reflexivity.
Qed.

End AffineFacts.

(* ================================================================= *)
(** ** Variable-time Jacobian arithmetic against the group law *)

Section JacobianVarFacts.

Variable ec : wei_t.
Hypothesis Hfe : fe_wf (ec_fe ec) = true.
Hypothesis Hflags : wei_flags_wf ec = true.
Hypothesis Hcof : cofactor_ok ec.

Local Open Scope Zmod_scope.

Lemma jaff_zero : jaff jge_zero = None.
Proof.
  unfold jaff, jge_zero. cbn [jge_z].
  replace (fe_is_zero fe_zero) with true
    by (symmetry; apply fe_is_zero_iff; reflexivity).
  reflexivity.
Qed.

Lemma jaff_inf (p : jge_t) : jge_z p = 0 -> jaff p = None.
Proof.
  intros H. unfold jaff. rewrite H.
  replace (fe_is_zero 0) with true
    by (symmetry; apply fe_is_zero_iff; reflexivity).
  reflexivity.
Qed.

(** A finite Jacobian triple is [(x z^2, y z^3, z)]. *)
Lemma jaff_finite (p : jge_t) :
  jge_z p <> 0 ->
  exists x y : fe_t,
    jaff p = Some (x, y) /\
    jge_x p = x * (jge_z p * jge_z p) /\
    jge_y p = y * (jge_z p * jge_z p * jge_z p).
Proof.
  intros Hz. unfold jaff.
  destruct (fe_is_zero_spec (jge_z p)) as [E|_]; [contradiction|].
  eexists _, _. split; [reflexivity|].
  split; field; exact Hz.
Qed.

Lemma jaff_mk (X Y Z x y : fe_t) :
  Z <> 0 -> X = x * (Z * Z) -> Y = y * (Z * Z * Z) ->
  jaff (mk_jge X Y Z) = Some (x, y).
Proof.
  intros Hz HX HY. unfold jaff. cbn [jge_x jge_y jge_z].
  destruct (fe_is_zero_spec Z) as [E|_]; [contradiction|].
  apply f_equal. apply f_equal2; [rewrite HX | rewrite HY]; field; exact Hz.
Qed.

Lemma jge_neg_spec (p : jge_t) : jaff (jge_neg p) = pneg (jaff p).
Proof.
  unfold jaff, jge_neg. cbn [jge_x jge_y jge_z].
  destruct (fe_is_zero_spec (jge_z p)) as [E|E]; [reflexivity|].
  cbn [pneg]. apply f_equal. apply f_equal2; [reflexivity|].
  unfold fe_neg. field. repeat split; exact E.
Qed.

Lemma wge_to_jge_spec (p : wge_t) : jaff (wge_to_jge p) = waff p.
Proof.
  unfold wge_to_jge, waff, fe_select. destruct (wge_inf p).
  - apply jaff_zero.
  - apply jaff_mk; fe_unfold.
    + intros E. apply (f_equal Zmod.to_Z) in E.
      rewrite Zmod.unsigned_1_pos, Zmod.unsigned_0 in E by lia. discriminate.
    + ring.
    + ring.
Qed.

Lemma fe_one_nonzero : (1 : fe_t) <> 0.
Proof.
  intros E. apply (f_equal Zmod.to_Z) in E.
  rewrite Zmod.unsigned_1_pos, Zmod.unsigned_0 in E by lia. discriminate.
Qed.

Lemma jge_dbl_var_spec (p : jge_t) :
  on_curve ec (jaff p) = true ->
  jaff (jge_dbl_var ec p) = padd ec (jaff p) (jaff p).
Proof.
  intros Hc. unfold jge_dbl_var, jge_is_zero.
  destruct (fe_is_zero_spec (jge_z p)) as [Ez|Ez].
  { rewrite (jaff_inf p Ez). apply jaff_zero. }
  destruct (jaff_finite p Ez) as (x & y & Hp & HX & HY).
  rewrite Hp in Hc |- *. unfold padd. rewrite !fe_equal_refl. cbn [andb].
  assert (Hy0 : jge_y p = 0 <-> y = 0).
  { rewrite HY. rewrite !fe_mul_zero_iff. tauto. }
  destruct (fe_is_zero_spec y) as [Ey|Ey]; cbn [negb].
  - rewrite (cofactor_y_zero ec Hcof x y Hc Ey). cbn [andb].
    replace (fe_is_zero (jge_y p)) with true
      by (symmetry; apply fe_is_zero_iff; tauto).
    apply jaff_zero.
  - replace (fe_is_zero (jge_y p)) with false.
    2:{ symmetry. destruct (fe_is_zero_spec (jge_y p)); [tauto|reflexivity]. }
    rewrite andb_false_r.
    rewrite (jge_dbl_formula_dblj ec Hflags).
    unfold jge_dblj. destruct p as [X Y Z]. cbn [jge_x jge_y jge_z] in *.
    subst X Y.
    assert (Hyy : y + y <> 0) by (apply fe_double_nonzero; exact Ey).
    apply jaff_mk; fe_unfold; rewrite ?fe_three_mul.
    + intros E. fe_zero_split E; contradiction.
    + field. exact Hyy.
    + field. exact Hyy.
Qed.

Lemma padd_same_coords (x1 y1 x2 y2 : fe_t) :
  x1 = x2 -> y1 = y2 ->
  padd ec (Some (x1, y1)) (Some (x2, y2))
  = padd ec (Some (x1, y1)) (Some (x1, y1)).
Proof. intros -> ->. reflexivity. Qed.

Lemma jge_add_var_spec (a b : jge_t) :
  on_curve ec (jaff a) = true ->
  jaff (jge_add_var ec a b) = padd ec (jaff a) (jaff b).
Proof.
  intros Hc. unfold jge_add_var, jge_is_zero, jge_set.
  destruct (fe_is_zero_spec (jge_z a)) as [Ea|Ea].
  { rewrite (jaff_inf a Ea). reflexivity. }
  destruct (fe_is_zero_spec (jge_z b)) as [Eb|Eb].
  { rewrite (jaff_inf b Eb). apply eq_sym, padd_O_r. }
  destruct (jaff_finite a Ea) as (x1 & y1 & Ha & HX1 & HY1).
  destruct (jaff_finite b Eb) as (x2 & y2 & Hb & HX2 & HY2).
  cbv zeta.
  assert (Hh : fe_sub (fe_mul (jge_x b) (fe_sqr (jge_z a)))
                      (fe_mul (jge_x a) (fe_sqr (jge_z b)))
               = (x2 - x1) * (jge_z a * jge_z a * (jge_z b * jge_z b))).
  { rewrite HX1, HX2. fe_unfold. ring. }
  assert (Hr : fe_sub (fe_mul (fe_mul (jge_y b) (jge_z a)) (fe_sqr (jge_z a)))
                      (fe_mul (fe_mul (jge_y a) (jge_z b)) (fe_sqr (jge_z b)))
               = (y2 - y1) * (jge_z a * jge_z a * jge_z a
                              * (jge_z b * jge_z b * jge_z b))).
  { rewrite HY1, HY2. fe_unfold. ring. }
  rewrite Hh, Hr.
  destruct (fe_is_zero_spec ((x2 - x1) * (jge_z a * jge_z a * (jge_z b * jge_z b))))
    as [E|E].
  - assert (Ex : x1 = x2).
    { fe_zero_split E; try contradiction.
      symmetry. apply fe_sub_zero_iff. exact E. }
    destruct (fe_is_zero_spec ((y2 - y1) * (jge_z a * jge_z a * jge_z a
                                 * (jge_z b * jge_z b * jge_z b)))) as [E'|E'];
      cbn [negb].
    + assert (Ey : y1 = y2).
      { fe_zero_split E'; try contradiction.
        symmetry. apply fe_sub_zero_iff. exact E'. }
      rewrite jge_dbl_var_spec by exact Hc.
      rewrite Ha, Hb. symmetry. apply padd_same_coords; assumption.
    + rewrite jaff_zero, Ha, Hb. unfold padd.
      destruct (fe_equal_spec x1 x2); [|contradiction].
      destruct (fe_equal_spec y1 y2) as [Ey|Ey]; [|reflexivity].
      exfalso. apply E'. rewrite Ey. ring.
  - assert (Ex : x1 <> x2).
    { intros Ex. apply E. rewrite Ex. ring. }
    assert (Hd : x1 - x2 <> 0) by (apply fe_sub_nonzero; exact Ex).
    rewrite Ha, Hb. unfold padd.
    destruct (fe_equal_spec x1 x2); [contradiction|].
    destruct a as [X1 Y1 Z1], b as [X2 Y2 Z2]. cbn [jge_x jge_y jge_z] in *.
    subst X1 Y1 X2 Y2.
    apply jaff_mk; fe_unfold.
    + intros E0. fe_zero_split E0; try contradiction.
      apply Hd. transitivity (Zmod.opp (x2 - x1)); [ring | rewrite E0; ring].
    + field. exact Hd.
    + field. exact Hd.
Qed.

Lemma jge_sub_var_spec (a b : jge_t) :
  on_curve ec (jaff a) = true ->
  jaff (jge_sub_var ec a b) = padd ec (jaff a) (pneg (jaff b)).
Proof.
  intros Hc. unfold jge_sub_var. rewrite jge_add_var_spec by exact Hc.
  rewrite jge_neg_spec. reflexivity.
Qed.

Lemma waff_finite (b : wge_t) :
  wge_inf b = false -> waff b = Some (wge_x b, wge_y b).
Proof. intros H. unfold waff. rewrite H. reflexivity. Qed.

Lemma jge_mixed_add_var_spec (a : jge_t) (b : wge_t) :
  on_curve ec (jaff a) = true ->
  jaff (jge_mixed_add_var ec a b) = padd ec (jaff a) (waff b).
Proof.
  intros Hc. unfold jge_mixed_add_var, jge_is_zero, wge_is_zero, jge_set.
  destruct (fe_is_zero_spec (jge_z a)) as [Ea|Ea].
  { rewrite (jaff_inf a Ea). apply wge_to_jge_spec. }
  destruct (wge_inf b) eqn:Eb.
  { unfold waff. rewrite Eb. apply eq_sym, padd_O_r. }
  destruct (jaff_finite a Ea) as (x1 & y1 & Ha & HX1 & HY1).
  rewrite (waff_finite b Eb).
  destruct b as [x2 y2 inf2]. cbn [wge_x wge_y wge_inf] in *.
  cbv zeta.
  assert (Hh : fe_sub (fe_mul x2 (fe_sqr (jge_z a))) (jge_x a)
               = (x2 - x1) * (jge_z a * jge_z a)).
  { rewrite HX1. fe_unfold. ring. }
  assert (Hr : fe_sub (fe_mul (fe_mul y2 (jge_z a)) (fe_sqr (jge_z a)))
                      (jge_y a)
               = (y2 - y1) * (jge_z a * jge_z a * jge_z a)).
  { rewrite HY1. fe_unfold. ring. }
  rewrite Hh, Hr.
  destruct (fe_is_zero_spec ((x2 - x1) * (jge_z a * jge_z a))) as [E|E].
  - assert (Ex : x1 = x2).
    { fe_zero_split E; try contradiction.
      symmetry. apply fe_sub_zero_iff. exact E. }
    set (r0 := (y2 - y1) * (jge_z a * jge_z a * jge_z a)).
    destruct (fe_is_zero_spec (fe_add r0 r0)) as [E'|E']; cbn [negb].
    + assert (Ey : y1 = y2).
      { destruct (fe_equal_spec y1 y2) as [Ey|Ey]; [exact Ey|exfalso].
        revert E'. fe_unfold. apply fe_double_nonzero. unfold r0.
        intros E'. fe_zero_split E'; try contradiction.
        apply Ey. symmetry. apply fe_sub_zero_iff. exact E'. }
      rewrite jge_dbl_var_spec by exact Hc.
      rewrite Ha. symmetry. apply padd_same_coords; assumption.
    + rewrite jaff_zero, Ha. unfold padd.
      destruct (fe_equal_spec x1 x2); [|contradiction].
      destruct (fe_equal_spec y1 y2) as [Ey|Ey]; [|reflexivity].
      exfalso. apply E'. unfold r0. rewrite Ey. fe_unfold. ring.
  - assert (Ex : x1 <> x2).
    { intros Ex. apply E. rewrite Ex. ring. }
    assert (Hd : x1 - x2 <> 0) by (apply fe_sub_nonzero; exact Ex).
    pose proof fe_one_nonzero as H1.
    rewrite Ha. unfold padd.
    destruct (fe_equal_spec x1 x2); [contradiction|].
    destruct a as [X1 Y1 Z1]. cbn [jge_x jge_y jge_z] in *.
    subst X1 Y1.
    apply jaff_mk; fe_unfold.
    + intros E0.
      replace (Z1 * ((x2 - x1) * (Z1 * Z1)) + Z1 * ((x2 - x1) * (Z1 * Z1)))
        with ((1 + 1) * (Z1 * ((x2 - x1) * (Z1 * Z1)))) in E0 by ring.
      fe_zero_split E0; try contradiction.
      apply Hd. transitivity (Zmod.opp (x2 - x1)); [ring | rewrite E0; ring].
    + field. exact Hd.
    + field. exact Hd.
Qed.

Lemma jge_mixed_sub_var_spec (a : jge_t) (b : wge_t) :
  on_curve ec (jaff a) = true ->
  jaff (jge_mixed_sub_var ec a b) = padd ec (jaff a) (pneg (waff b)).
Proof.
  intros Hc. unfold jge_mixed_sub_var.
  rewrite jge_mixed_add_var_spec by exact Hc.
  rewrite wge_neg_spec. reflexivity.
Qed.

Lemma jge_to_wge_var_spec (p : jge_t) :
  waff (jge_to_wge_var ec p) = jaff p.
Proof.
  unfold jge_to_wge_var, jge_is_zero.
  destruct (fe_is_zero_spec (jge_z p)) as [Ez|Ez].
  { rewrite (jaff_inf p Ez). reflexivity. }
  destruct (jaff_finite p Ez) as (x & y & Hp & HX & HY). rewrite Hp.
  destruct (fe_equal_spec (jge_z p) fe_one) as [E1|E1].
  - unfold waff. cbn [wge_inf wge_x wge_y]. rewrite HX, HY, E1.
    apply f_equal. apply f_equal2; fe_unfold; ring.
  - destruct (fe_invert_var_spec (ec_fe ec) Hfe (jge_z p)) as [-> _].
    cbn [fst]. unfold waff. cbn [wge_inf wge_x wge_y]. rewrite HX, HY.
    apply f_equal. apply f_equal2; fe_unfold; field; exact Ez.
Qed.

(** ** The unified (constant-time) mixed addition *)

Lemma fe_div_cross (e d r m : fe_t) :
  d <> 0 -> m <> 0 -> e * m = r * d -> Zmod.mdiv e d = Zmod.mdiv r m.
Proof.
  intros Hd Hm H.
  transitivity (Zmod.mdiv (e * m) (d * m)); [field; split; assumption|].
  rewrite H. field. split; assumption.
Qed.

(** Two points of the curve with opposite ordinates: either the same
    abscissa, or the unified slope numerator vanishes. *)
Lemma curve_slope_relation (x1 y1 x2 y2 : fe_t) :
  on_curve ec (Some (x1, y1)) = true -> on_curve ec (Some (x2, y2)) = true ->
  (y1 - y2) * (y1 + y2)
  = (x1 * x1 + x1 * x2 + x2 * x2 + ec_a ec) * (x1 - x2).
Proof.
  intros H1 H2. apply on_curve_iff in H1. apply on_curve_iff in H2.
  transitivity (y1 * y1 - y2 * y2); [ring|]. rewrite H1, H2. ring.
Qed.

(** The selects that end in the point at infinity. *)
Ltac select_infinity :=
  cbv iota;
  match goal with |- jaff ?p = _ => change p with jge_zero end;
  rewrite jaff_zero.

Lemma jge_mixed_add_spec (a : jge_t) (b : wge_t) :
  on_curve ec (jaff a) = true -> on_curve ec (waff b) = true ->
  jaff (jge_mixed_add ec a b) = padd ec (jaff a) (waff b).
Proof.
  intros Hca Hcb. unfold jge_mixed_add. cbv zeta.
  rewrite (jge_add_a_term ec Hflags).
  destruct (fe_is_zero_spec (jge_z a)) as [Ez|Ez].
  { rewrite (jaff_inf a Ez). cbn [orb negb]. rewrite andb_false_r.
    unfold fe_select. unfold waff. destruct (wge_inf b).
    - apply jaff_inf. exact Ez.
    - apply jaff_mk; fe_unfold; [apply fe_one_nonzero|ring|ring]. }
  destruct (wge_inf b) eqn:Eb.
  { unfold waff. rewrite Eb, padd_O_r. cbn [orb negb].
    rewrite andb_false_r. unfold fe_select. destruct a; reflexivity. }
  destruct (jaff_finite a Ez) as (x1 & y1 & HP & HX & HY).
  rewrite HP in Hca |- *. rewrite (waff_finite b Eb) in Hcb |- *.
  destruct a as [X1 Y1 Z], b as [x2 y2 inf2].
  cbn [jge_x jge_y jge_z wge_x wge_y wge_inf] in *. subst X1 Y1.
  pose proof (curve_slope_relation x1 y1 x2 y2 Hca Hcb) as Hrel.
  set (r := x1 * x1 + x1 * x2 + x2 * x2 + ec_a ec) in *.
  assert (Hm : fe_add (y1 * (Z * Z * Z)) (fe_mul (fe_mul y2 (fe_sqr Z)) Z)
               = (y1 + y2) * (Z * Z * Z)) by (fe_unfold; ring).
  assert (Hr : fe_add
                 (fe_sub (fe_sqr (fe_add (x1 * (Z * Z)) (fe_mul x2 (fe_sqr Z))))
                         (fe_mul (x1 * (Z * Z)) (fe_mul x2 (fe_sqr Z))))
                 (fe_mul (fe_sqr (fe_sqr Z)) (ec_a ec))
               = r * (Z * Z * Z * Z)) by (unfold r; fe_unfold; ring).
  rewrite Hm, Hr. clear Hm Hr. cbn [orb negb]. rewrite !andb_true_r.
  pose proof fe_one_nonzero as H1.
  destruct (fe_is_zero_spec ((y1 + y2) * (Z * Z * Z))) as [Em|Em].
  - assert (Ey : y2 = Zmod.opp y1).
    { fe_zero_split Em; try contradiction.
      transitivity (y1 + y2 - y1); [ring|]. rewrite Em. ring. }
    subst y2.
    destruct (fe_is_zero_spec (r * (Z * Z * Z * Z))) as [Er|Er];
      cbn [andb]; unfold fe_select.
    + (* degenerate *)
      destruct (fe_equal_spec x1 x2) as [Ex|Ex].
      * subst x2.
        replace (fe_is_zero _) with true.
        2:{ symmetry. apply fe_is_zero_iff. fe_unfold. ring. }
        select_infinity. unfold padd. rewrite fe_equal_refl.
        destruct (fe_equal_spec y1 (Zmod.opp y1)) as [E|E];
          [|reflexivity].
        apply fe_neg_eq_iff in E. subst y1.
        replace (fe_is_zero 0) with true
          by (symmetry; apply fe_is_zero_iff; reflexivity).
        reflexivity.
      * assert (Hd : x1 - x2 <> 0) by (apply fe_sub_nonzero; exact Ex).
        destruct (fe_is_zero_spec
                    (fe_add (fe_mul (fe_sub (x1 * (Z * Z)) (fe_mul x2 (fe_sqr Z))) Z)
                            (fe_mul (fe_sub (x1 * (Z * Z)) (fe_mul x2 (fe_sqr Z))) Z)))
          as [E0|E0].
        { exfalso. revert E0. fe_unfold. intros E0.
          replace (x1 * (Z * Z) - x2 * (Z * Z)) with ((x1 - x2) * (Z * Z))
            in E0 by ring.
          fe_zero_split E0; contradiction. }
        unfold padd. destruct (fe_equal_spec x1 x2); [contradiction|].
        apply jaff_mk; [exact E0| |]; fe_unfold; field;
          repeat split; try assumption; apply fe_two_nonzero.
    + (* opposite points *)
      assert (Ex : x1 = x2).
      { replace (y1 + Zmod.opp y1) with (0 : fe_t) in Hrel by ring.
        rewrite Zmod.mul_0_r in Hrel. symmetry in Hrel.
        apply fe_mul_zero_iff in Hrel. destruct Hrel as [Hrel|Hrel].
        - exfalso. apply Er. rewrite Hrel. ring.
        - apply fe_sub_zero_iff. exact Hrel. }
      subst x2.
      replace (fe_is_zero _) with true.
      2:{ symmetry. apply fe_is_zero_iff. fe_unfold. ring. }
      select_infinity. unfold padd. rewrite fe_equal_refl.
      destruct (fe_equal_spec y1 (Zmod.opp y1)) as [E|E]; [|reflexivity].
      apply fe_neg_eq_iff in E. subst y1.
      replace (fe_is_zero 0) with true
        by (symmetry; apply fe_is_zero_iff; reflexivity).
      reflexivity.
  - cbn [andb]. unfold fe_select.
    assert (Hs : y1 + y2 <> 0).
    { intros E. apply Em. rewrite E. ring. }
    destruct (fe_is_zero_spec
                (fe_add (fe_mul ((y1 + y2) * (Z * Z * Z)) Z)
                        (fe_mul ((y1 + y2) * (Z * Z * Z)) Z))) as [E0|E0].
    { exfalso. revert E0. fe_unfold. intros E0.
      fe_zero_split E0; contradiction. }
    unfold padd. destruct (fe_equal_spec x1 x2) as [Ex|Ex].
    + subst x2.
      assert (Ey : y1 = y2).
      { replace (x1 - x1) with (0 : fe_t) in Hrel by ring.
        rewrite Zmod.mul_0_r in Hrel.
        apply fe_mul_zero_iff in Hrel. destruct Hrel as [Hrel|Hrel];
          [|contradiction].
        apply fe_sub_zero_iff. exact Hrel. }
      subst y2. rewrite fe_equal_refl.
      assert (Hy : y1 <> 0).
      { intros E. apply Hs. rewrite E. ring. }
      destruct (fe_is_zero_spec y1); [contradiction|]. cbn [andb negb].
      cbv zeta. unfold r. rewrite fe_three_mul.
      apply jaff_mk; [exact E0| |]; fe_unfold; field;
        repeat split; try assumption; apply fe_two_nonzero.
    + assert (Hd : x1 - x2 <> 0) by (apply fe_sub_nonzero; exact Ex).
      assert (Hrr : r = Zmod.mdiv ((y1 - y2) * (y1 + y2)) (x1 - x2)).
      { rewrite Hrel. field. exact Hd. }
      clearbody r. subst r.
      apply jaff_mk; [exact E0| |]; fe_unfold; field;
        repeat split; try assumption; apply fe_two_nonzero.
Qed.

End JacobianVarFacts.

(* ================================================================= *)
(** ** Field exponentiation, inversion and the affine conversion *)

Section FieldPow.

Variable fe : prime_field_t.
Hypothesis Hfe : fe_wf fe = true.

Local Open Scope Zmod_scope.

Lemma fe_pow_loop (a : fe_t) (e : Z) (k : nat) (b : fe_t) :
  fold_left
    (fun b i =>
       let bit := Z.shiftr (mpn_limb e (i / GMP_NUMB_BITS))
                           (i mod GMP_NUMB_BITS) in
       let b := fe_sqr b in
       if Z.land bit 1 =? 0 then b else fe_mul b a)
    (bits_down (Z.of_nat k)) b
  = b ^ (2 ^ Z.of_nat k) * a ^ (e mod 2 ^ Z.of_nat k).
Proof.
  revert b. induction k as [|k IH]; intros b.
  - cbn [bits_down Z.of_nat Z.to_nat seq map rev fold_left].
    rewrite Z.pow_0_r, Z.mod_1_r, Zmod.pow_0_r, Zmod.pow_1_r. ring.
  - rewrite bits_down_succ. cbn [fold_left].
    rewrite limb_bit by lia.
    rewrite Nat2Z.inj_succ, <- Z.add_1_r, mod_pow2_succ by lia.
    assert (H2k : (0 <= 2 ^ Z.of_nat k)%Z) by (apply Z.pow_nonneg; lia).
    assert (Hek : (0 <= e mod 2 ^ Z.of_nat k)%Z)
      by (apply Z.mod_pos_bound, Z.pow_pos_nonneg; lia).
    rewrite (Z.pow_add_r 2), Z.pow_1_r by lia.
    set (K := (2 ^ Z.of_nat k)%Z) in *.
    destruct (Z.testbit e (Z.of_nat k)); cbn [Z.b2z Z.eqb]; rewrite IH;
      unfold fe_sqr, fe_mul.
    + rewrite Z.mul_1_l, (Zmod.pow_add_r_nonneg a K) by lia.
      rewrite Zmod.pow_mul_l_nonneg by lia.
      rewrite <- Zmod.pow_2_r, <- Zmod.pow_mul_r_nonneg by lia.
      rewrite (Z.mul_comm 2 K). ring.
    + rewrite Z.mul_0_l, Z.add_0_l.
      rewrite <- Zmod.pow_2_r, <- Zmod.pow_mul_r_nonneg by lia.
      rewrite (Z.mul_comm 2 K). reflexivity.
Qed.

Lemma fe_pow_spec (a : fe_t) (e : Z) :
  fe_pow fe a e = a ^ (e mod 2 ^ fe_bits fe).
Proof.
  destruct (fe_wf_facts fe Hfe) as (Hb & _).
  unfold fe_pow.
  pose proof (fe_pow_loop a e (Z.to_nat (fe_bits fe)) fe_one) as H.
  rewrite Z2Nat.id in H by lia. cbv zeta in H. rewrite H.
  unfold fe_one, fe_set_word. rewrite Zmod.of_Z_1, Zmod.pow_1_l. ring.
Qed.

(** [fe_invert]: the inverse by the backend or by Fermat's little
    theorem, zero at zero. *)
Lemma fe_invert_spec (a : fe_t) :
  fe_backend_wf fe ->
  fe_invert fe a = (Zmod.inv a, negb (fe_is_zero a)).
Proof.
  intros [Hinv _]. unfold fe_invert.
  destruct (fe_invert_fn fe) as [f|] eqn:Ef.
  - rewrite (Hinv f eq_refl). reflexivity.
  - f_equal. rewrite fe_pow_spec.
    destruct (fe_wf_facts fe Hfe) as (Hb & _ & _ & Hp & Hpb & _).
    pose proof (fe_p_lt_base fe Hfe) as HpB.
    unfold mpn_copyi, mpn_sub_1. cbn [fst].
    rewrite Hp. rewrite !(mpn_get_small fe_p) by lia.
    rewrite (Z.mod_small (fe_p - 2)) by lia.
    rewrite (Z.mod_small (fe_p - 2)) by lia.
    destruct (fe_is_zero_spec a) as [->|Ha].
    + rewrite Zmod.pow_0_l by lia. symmetry. apply Zmod.inv_0.
    + apply Zmod.fermat_inv; assumption.
Qed.

End FieldPow.

Section AffineConversion.

Variable ec : wei_t.
Hypothesis Hfe : fe_wf (ec_fe ec) = true.
Hypothesis Hback : fe_backend_wf (ec_fe ec).

Local Open Scope Zmod_scope.

Lemma jge_to_wge_spec (p : jge_t) : waff (jge_to_wge ec p) = jaff p.
Proof.
  unfold jge_to_wge. rewrite (fe_invert_spec (ec_fe ec) Hfe _ Hback).
  unfold waff, jaff. cbn [wge_inf wge_x wge_y]. rewrite negb_involutive.
  destruct (fe_is_zero_spec (jge_z p)) as [Ez|Ez]; [reflexivity|].
  apply f_equal. apply f_equal2; fe_unfold; field; repeat split; exact Ez.
Qed.

End AffineConversion.

(* ================================================================= *)
(** ** The unified Jacobian addition *)

Section JacobianUnified.

Variable ec : wei_t.
Hypothesis Hflags : wei_flags_wf ec = true.

Local Open Scope Zmod_scope.

Ltac select_zero :=
  cbv iota;
  match goal with |- jaff ?p = _ => change p with jge_zero end;
  rewrite jaff_zero.

Lemma jge_add_spec (a b : jge_t) :
  on_curve ec (jaff a) = true -> on_curve ec (jaff b) = true ->
  jaff (jge_add ec a b) = padd ec (jaff a) (jaff b).
Proof.
  intros Hca Hcb. unfold jge_add. cbv zeta.
  rewrite (jge_add_a_term ec Hflags).
  destruct (fe_is_zero_spec (jge_z a)) as [Ez|Ez].
  { rewrite (jaff_inf a Ez). cbn [orb negb]. rewrite andb_false_r.
    unfold fe_select.
    destruct (fe_is_zero_spec (jge_z b)) as [Ez2|Ez2].
    - rewrite (jaff_inf b Ez2). apply jaff_inf. exact Ez.
    - rewrite padd_O_l. destruct b; reflexivity. }
  destruct (fe_is_zero_spec (jge_z b)) as [Ez2|Ez2].
  { rewrite (jaff_inf b Ez2), padd_O_r. cbn [orb negb].
    rewrite andb_false_r. unfold fe_select. destruct a; reflexivity. }
  destruct (jaff_finite a Ez) as (x1 & y1 & HP & HX & HY).
  destruct (jaff_finite b Ez2) as (x2 & y2 & HQ & HX2 & HY2).
  rewrite HP in Hca |- *. rewrite HQ in Hcb |- *.
  destruct a as [X1 Y1 Z1], b as [X2 Y2 Z2].
  cbn [jge_x jge_y jge_z] in *. subst X1 Y1 X2 Y2.
  pose proof (curve_slope_relation ec x1 y1 x2 y2 Hca Hcb) as Hrel.
  set (r := x1 * x1 + x1 * x2 + x2 * x2 + ec_a ec) in *.
  assert (HZ : Z1 * Z2 <> 0).
  { intros E. apply fe_mul_zero_iff in E. tauto. }
  set (Z := Z1 * Z2) in *.
  replace (fe_mul (x1 * (Z1 * Z1)) (fe_sqr Z2)) with (x1 * (Z * Z))
    by (unfold Z; fe_unfold; ring).
  replace (fe_mul (x2 * (Z2 * Z2)) (fe_sqr Z1)) with (x2 * (Z * Z))
    by (unfold Z; fe_unfold; ring).
  replace (fe_mul (fe_mul (y1 * (Z1 * Z1 * Z1)) (fe_sqr Z2)) Z2)
    with (y1 * (Z * Z * Z)) by (unfold Z; fe_unfold; ring).
  replace (fe_mul (fe_mul (y2 * (Z2 * Z2 * Z2)) (fe_sqr Z1)) Z1)
    with (y2 * (Z * Z * Z)) by (unfold Z; fe_unfold; ring).
  replace (fe_mul Z1 Z2) with Z by reflexivity.
  clearbody Z. clear HP HQ.
  assert (Hm : fe_add (y1 * (Z * Z * Z)) (y2 * (Z * Z * Z))
               = (y1 + y2) * (Z * Z * Z)) by (fe_unfold; ring).
  assert (Hr : fe_add
                 (fe_sub (fe_sqr (fe_add (x1 * (Z * Z)) (x2 * (Z * Z))))
                         (fe_mul (x1 * (Z * Z)) (x2 * (Z * Z))))
                 (fe_mul (fe_sqr (fe_sqr Z)) (ec_a ec))
               = r * (Z * Z * Z * Z)) by (unfold r; fe_unfold; ring).
  rewrite Hm, Hr. clear Hm Hr. cbn [orb negb]. rewrite !andb_true_r.
  pose proof fe_one_nonzero as H1.
  destruct (fe_is_zero_spec ((y1 + y2) * (Z * Z * Z))) as [Em|Em].
  - assert (Ey : y2 = Zmod.opp y1).
    { fe_zero_split Em; try contradiction.
      transitivity (y1 + y2 - y1); [ring|]. rewrite Em. ring. }
    subst y2.
    destruct (fe_is_zero_spec (r * (Z * Z * Z * Z))) as [Er|Er];
      cbn [andb]; unfold fe_select.
    + (* degenerate *)
      destruct (fe_equal_spec x1 x2) as [Ex|Ex].
      * subst x2.
        replace (fe_is_zero _) with true.
        2:{ symmetry. apply fe_is_zero_iff. fe_unfold. ring. }
        select_zero. unfold padd. rewrite fe_equal_refl.
        destruct (fe_equal_spec y1 (Zmod.opp y1)) as [E|E];
          [|reflexivity].
        apply fe_neg_eq_iff in E. subst y1.
        replace (fe_is_zero 0) with true
          by (symmetry; apply fe_is_zero_iff; reflexivity).
        reflexivity.
      * assert (Hd : x1 - x2 <> 0) by (apply fe_sub_nonzero; exact Ex).
        destruct (fe_is_zero_spec
                    (fe_add (fe_mul (fe_sub (x1 * (Z * Z)) (x2 * (Z * Z))) Z)
                            (fe_mul (fe_sub (x1 * (Z * Z)) (x2 * (Z * Z))) Z)))
          as [E0|E0].
        { exfalso. revert E0. fe_unfold. intros E0.
          replace (x1 * (Z * Z) - x2 * (Z * Z)) with ((x1 - x2) * (Z * Z))
            in E0 by ring.
          fe_zero_split E0; contradiction. }
        unfold padd. destruct (fe_equal_spec x1 x2); [contradiction|].
        apply jaff_mk; [exact E0| |]; fe_unfold; field;
          repeat split; try assumption; apply fe_two_nonzero.
    + (* opposite points *)
      assert (Ex : x1 = x2).
      { replace (y1 + Zmod.opp y1) with (0 : fe_t) in Hrel by ring.
        rewrite Zmod.mul_0_r in Hrel. symmetry in Hrel.
        apply fe_mul_zero_iff in Hrel. destruct Hrel as [Hrel|Hrel].
        - exfalso. apply Er. rewrite Hrel. ring.
        - apply fe_sub_zero_iff. exact Hrel. }
      subst x2.
      replace (fe_is_zero _) with true.
      2:{ symmetry. apply fe_is_zero_iff. fe_unfold. ring. }
      select_zero. unfold padd. rewrite fe_equal_refl.
      destruct (fe_equal_spec y1 (Zmod.opp y1)) as [E|E]; [|reflexivity].
      apply fe_neg_eq_iff in E. subst y1.
      replace (fe_is_zero 0) with true
        by (symmetry; apply fe_is_zero_iff; reflexivity).
      reflexivity.
  - cbn [andb]. unfold fe_select.
    assert (Hs : y1 + y2 <> 0).
    { intros E. apply Em. rewrite E. ring. }
    destruct (fe_is_zero_spec
                (fe_add (fe_mul ((y1 + y2) * (Z * Z * Z)) Z)
                        (fe_mul ((y1 + y2) * (Z * Z * Z)) Z))) as [E0|E0].
    { exfalso. revert E0. fe_unfold. intros E0.
      fe_zero_split E0; contradiction. }
    unfold padd. destruct (fe_equal_spec x1 x2) as [Ex|Ex].
    + subst x2.
      assert (Ey : y1 = y2).
      { replace (x1 - x1) with (0 : fe_t) in Hrel by ring.
        rewrite Zmod.mul_0_r in Hrel.
        apply fe_mul_zero_iff in Hrel. destruct Hrel as [Hrel|Hrel];
          [|contradiction].
        apply fe_sub_zero_iff. exact Hrel. }
      subst y2. rewrite fe_equal_refl.
      assert (Hy : y1 <> 0).
      { intros E. apply Hs. rewrite E. ring. }
      destruct (fe_is_zero_spec y1); [contradiction|]. cbn [andb negb].
      cbv zeta. unfold r. rewrite fe_three_mul.
      apply jaff_mk; [exact E0| |]; fe_unfold; field;
        repeat split; try assumption; apply fe_two_nonzero.
    + assert (Hd : x1 - x2 <> 0) by (apply fe_sub_nonzero; exact Ex).
      assert (Hrr : r = Zmod.mdiv ((y1 - y2) * (y1 + y2)) (x1 - x2)).
      { rewrite Hrel. field. exact Hd. }
      clearbody r. subst r.
      apply jaff_mk; [exact E0| |]; fe_unfold; field;
        repeat split; try assumption; apply fe_two_nonzero.
Qed.

Lemma jge_sub_spec (a b : jge_t) :
  on_curve ec (jaff a) = true -> on_curve ec (jaff b) = true ->
  jaff (jge_sub ec a b) = padd ec (jaff a) (pneg (jaff b)).
Proof.
  intros Ha Hb. unfold jge_sub. cbv zeta.
  rewrite jge_add_spec, jge_neg_spec;
    rewrite ?jge_neg_spec; try apply pneg_on_curve; auto.
Qed.

Lemma jge_mixed_sub_spec (a : jge_t) (b : wge_t) :
  on_curve ec (jaff a) = true -> on_curve ec (waff b) = true ->
  jaff (jge_mixed_sub ec a b) = padd ec (jaff a) (pneg (waff b)).
Proof.
  intros Ha Hb. unfold jge_mixed_sub. cbv zeta.
  rewrite (jge_mixed_add_spec ec Hflags), wge_neg_spec;
    rewrite ?wge_neg_spec; try apply pneg_on_curve; auto.
Qed.

End JacobianUnified.

(* ================================================================= *)
(** ** Width-w NAF recoding *)

Lemma limb0_mod k m :
  0 <= m <= GMP_NUMB_BITS ->
  Z.land (mpn_limb k 0) (2 ^ m - 1) = k mod 2 ^ m.
Proof.
  intros Hm. unfold mpn_limb. rewrite Z.mul_0_r, Z.shiftr_0_r.
  rewrite Z.land_ones by lia.
  replace (2 ^ m - 1) with (Z.ones m) by (rewrite Z.ones_equiv; lia).
  rewrite Z.land_ones by lia.
  apply Z.mod_mod_divide.
  exists (2 ^ (GMP_NUMB_BITS - m)). rewrite <- Z.pow_add_r by lia.
  f_equal. lia.
Qed.

Lemma land_pow2_top z w :
  0 <= w -> 0 <= z < 2 ^ (w + 1) ->
  (Z.land z (2 ^ w) =? 0) = (z <? 2 ^ w).
Proof.
  intros Hw Hz.
  assert (Hp : 0 < 2 ^ w) by (apply Z.pow_pos_nonneg; lia).
  rewrite Z.pow_add_r, Z.pow_1_r in Hz by lia.
  destruct (Z.ltb_spec z (2 ^ w)) as [Hlt|Hge].
  - apply Z.eqb_eq. apply Z.bits_inj'. intros i Hi.
    rewrite Z.land_spec, Z.bits_0, Z.pow2_bits_eqb by lia.
    destruct (Z.eqb_spec w i) as [<-|]; [|apply andb_false_r].
    rewrite andb_true_r. apply Z.testbit_false; [lia|].
    rewrite Z.div_small by lia. reflexivity.
  - apply Z.eqb_neq. intros E.
    pose proof (Z.land_spec z (2 ^ w) w) as Hb.
    rewrite E, Z.bits_0, Z.pow2_bits_true, andb_true_r in Hb by lia.
    symmetry in Hb. apply Z.testbit_false in Hb; [|lia].
    assert (Hq : z / 2 ^ w = 1).
    { symmetry. apply Z.div_unique with (r := z - 2 ^ w); lia. }
    rewrite Hq in Hb. discriminate.
Qed.

Lemma naf_eval_app a b :
  naf_eval (a ++ b) = naf_eval a + 2 ^ Z.of_nat (length a) * naf_eval b.
Proof.
  induction a as [|d a IH].
  - cbn [app naf_eval length]. change (Z.of_nat 0) with 0. lia.
  - cbn [app naf_eval length]. rewrite IH, Nat2Z.inj_succ, Z.pow_succ_r by lia.
    lia.
Qed.

Lemma naf_eval_zeros m : naf_eval (repeat 0 m) = 0.
Proof. induction m as [|m IH]; cbn [repeat naf_eval]; lia. Qed.

Lemma naf_digit_zeros w m : forallb (naf_digit w) (repeat 0 m) = true.
Proof. induction m as [|m IH]; [reflexivity|exact IH]. Qed.

Lemma naf_digit_sign w z sign :
  sign = 1 \/ sign = -1 -> naf_digit w (z * sign) = naf_digit w z.
Proof.
  intros [-> | ->]; [rewrite Z.mul_1_r; reflexivity|].
  unfold naf_digit. replace (z * -1) with (- z) by lia.
  rewrite Z.odd_opp, Z.abs_opp.
  destruct (Z.eqb_spec z 0), (Z.eqb_spec (- z) 0); try lia; reflexivity.
Qed.

(** One round of the main loop: the digit taken off an odd [k]. *)
Lemma naf_digit_odd k w :
  1 <= w -> 0 < k -> Z.odd k = true ->
  let z0 := k mod 2 ^ (w + 1) in
  let z := if z0 <? 2 ^ w then z0 else z0 - 2 ^ (w + 1) in
  naf_digit w z = true /\ 0 <= k - z /\ (k - z) mod 2 ^ (w + 1) = 0 /\
  (k < 2 ^ w -> z = k).
Proof.
  intros Hw Hk Hodd z0 z.
  assert (Hp : 0 < 2 ^ w) by (apply Z.pow_pos_nonneg; lia).
  assert (Hpp : 2 ^ (w + 1) = 2 * 2 ^ w)
    by (rewrite Z.pow_add_r, Z.pow_1_r by lia; lia).
  pose proof (Z.mod_pos_bound k (2 ^ (w + 1)) ltac:(lia)) as Hz0.
  pose proof (Z.div_mod k (2 ^ (w + 1)) ltac:(lia)) as Hdm.
  fold z0 in Hz0, Hdm.
  assert (Hzo : Z.odd z0 = true).
  { rewrite <- Hodd. unfold z0. rewrite <- !Z.bit0_odd.
    apply Z.mod_pow2_bits_low. lia. }
  assert (Hpe : Z.odd (2 ^ (w + 1)) = false).
  { rewrite Hpp, Z.odd_mul. reflexivity. }
  assert (Hq : 0 <= k / 2 ^ (w + 1)) by (apply Z.div_pos; lia).
  repeat split.
  - unfold naf_digit, z. destruct (Z.ltb_spec z0 (2 ^ w)).
    + rewrite Hzo. apply orb_true_iff. right. apply andb_true_iff.
      split; [reflexivity|]. apply Z.ltb_lt. lia.
    + rewrite Z.odd_sub, Hzo, Hpe. apply orb_true_iff. right.
      apply andb_true_iff. split; [reflexivity|]. apply Z.ltb_lt.
      assert (z0 <> 2 ^ w).
      { intros E. rewrite E in Hzo.
        replace w with ((w - 1) + 1) in Hzo by lia.
        rewrite Z.pow_add_r, Z.pow_1_r, Z.odd_mul in Hzo by lia.
        rewrite andb_false_r in Hzo. discriminate. }
      lia.
  - unfold z. destruct (Z.ltb_spec z0 (2 ^ w)); nia.
  - unfold z. destruct (Z.ltb_spec z0 (2 ^ w)).
    + replace (k - z0) with (k / 2 ^ (w + 1) * 2 ^ (w + 1)) by lia.
      apply Z.mod_mul. lia.
    + replace (k - (z0 - 2 ^ (w + 1)))
        with ((k / 2 ^ (w + 1) + 1) * 2 ^ (w + 1)) by lia.
      apply Z.mod_mul. lia.
  - intros Hlt. unfold z, z0. rewrite Z.mod_small by lia.
    destruct (Z.ltb_spec k (2 ^ w)); lia.
Qed.

(** The digit [sc_naf_var] emits for [k]. *)
Lemma sc_naf_loop_step fuel w sign k :
  1 <= w -> w + 1 <= GMP_NUMB_BITS -> 0 < k ->
  sc_naf_loop (S fuel) (2 ^ (w + 1)) sign k =
  let z0 := k mod 2 ^ (w + 1) in
  let z := if Z.odd k then if z0 <? 2 ^ w then z0 else z0 - 2 ^ (w + 1)
           else 0 in
  match sc_naf_loop fuel (2 ^ (w + 1)) sign ((k - z) / 2) with
  | Some naf => Some (z * sign :: naf)
  | None => None
  end.
Proof.
  intros Hw HL Hk. cbn [sc_naf_loop].
  destruct (Z.ltb_spec 0 k) as [_|]; [|lia]. cbn [negb].
  assert (Hp : 0 < 2 ^ w) by (apply Z.pow_pos_nonneg; lia).
  assert (Hpp : 2 ^ (w + 1) = 2 * 2 ^ w)
    by (rewrite Z.pow_add_r, Z.pow_1_r by lia; lia).
  change 1 with (2 ^ 1 - 1) at 1. rewrite limb0_mod by lia.
  rewrite Z.pow_1_r, Zmod_odd.
  assert (Hsh : forall x, 0 <= x -> (if 0 <? x then Z.shiftr x 1 else x) = x / 2).
  { intros x Hx. rewrite Z.shiftr_div_pow2, Z.pow_1_r by lia.
    destruct (Z.ltb_spec 0 x); [reflexivity|].
    replace x with 0 by lia. reflexivity. }
  destruct (Z.odd k) eqn:Hodd; cbn [Z.eqb negb]; cbv zeta.
  - rewrite limb0_mod by lia.
    rewrite Z.shiftr_div_pow2, Z.pow_1_r by lia.
    replace (2 ^ (w + 1) / 2) with (2 ^ w)
      by (rewrite Hpp, Z.mul_comm, Z.div_mul; lia).
    pose proof (Z.mod_pos_bound k (2 ^ (w + 1)) ltac:(lia)) as Hz0.
    rewrite land_pow2_top by lia.
    destruct (naf_digit_odd k w Hw Hk Hodd) as (_ & Hnn & _ & _).
    cbv zeta in Hnn.
    destruct (Z.ltb_spec (k mod 2 ^ (w + 1)) (2 ^ w)) as [Hlt|Hge];
      cbn [negb].
    + destruct (Z.ltb_spec (k mod 2 ^ (w + 1)) 0); [lia|].
      rewrite Hsh by exact Hnn. reflexivity.
    + destruct (Z.ltb_spec (k mod 2 ^ (w + 1) - 2 ^ (w + 1)) 0); [|lia].
      replace (k + - (k mod 2 ^ (w + 1) - 2 ^ (w + 1)))
        with (k - (k mod 2 ^ (w + 1) - 2 ^ (w + 1))) by lia.
      rewrite Hsh by exact Hnn. reflexivity.
  - rewrite Hsh by lia. rewrite Z.sub_0_r. reflexivity.
Qed.

Lemma sc_naf_loop_spec (w sign : Z) :
  1 <= w -> w + 1 <= GMP_NUMB_BITS -> sign = 1 \/ sign = -1 ->
  forall (fuel b : nat) (k : Z),
    0 <= k <= 2 ^ Z.of_nat b -> (b + 1 <= fuel)%nat ->
    exists naf,
      sc_naf_loop fuel (2 ^ (w + 1)) sign k = Some naf /\
      (length naf <= b + 1)%nat /\
      naf_eval naf = sign * k /\
      forallb (naf_digit w) naf = true.
Proof.
  intros Hw HL Hs. induction fuel as [|fuel IH]; intros b k Hk Hf; [lia|].
  destruct (Z.eq_dec k 0) as [->|Hk0].
  { exists []. cbn [sc_naf_loop]. cbn. repeat split; lia. }
  rewrite sc_naf_loop_step by lia. cbv zeta.
  assert (Hp : 0 < 2 ^ w) by (apply Z.pow_pos_nonneg; lia).
  assert (Hpp : 2 ^ (w + 1) = 2 * 2 ^ w)
    by (rewrite Z.pow_add_r, Z.pow_1_r by lia; lia).
  set (z := if Z.odd k then _ else 0).
  assert (Hz : naf_digit w z = true /\ 0 <= k - z /\ (k - z) mod 2 = 0 /\
               (b = 0%nat -> k - z = 0) /\
               (k - z <= 2 ^ Z.of_nat b)).
  { unfold z. destruct (Z.odd k) eqn:Hodd.
    - destruct (naf_digit_odd k w Hw ltac:(lia) Hodd) as (Hd & Hnn & Hm & Hsm).
      cbv zeta in Hd, Hnn, Hm, Hsm.
      set (z' := if k mod 2 ^ (w + 1) <? 2 ^ w then _ else _) in *.
      split; [exact Hd|]. split; [exact Hnn|].
      apply Z.mod_divide in Hm; [|lia]. destruct Hm as [q Hq].
      split.
      { replace (k - z') with (q * 2 ^ w * 2) by lia. apply Z.mod_mul. lia. }
      assert (Hzr : - 2 ^ w < z' < 2 ^ w).
      { unfold naf_digit in Hd. apply orb_true_iff in Hd.
        destruct Hd as [Hd|Hd]; [apply Z.eqb_eq in Hd; lia|].
        apply andb_true_iff in Hd. destruct Hd as [_ Hd].
        apply Z.ltb_lt in Hd. lia. }
      split.
      + intros ->. change (Z.of_nat 0) with 0 in Hk. rewrite Z.pow_0_r in Hk.
        rewrite Hsm by lia. lia.
      + destruct (Z.le_gt_cases (w + 1) (Z.of_nat b)) as [Hb|Hb].
        * (* 2^b is a multiple of 2^(w+1) *)
          assert (Hbb : 2 ^ Z.of_nat b = 2 ^ (Z.of_nat b - (w + 1)) * 2 ^ (w + 1)).
          { rewrite <- Z.pow_add_r by lia. f_equal. lia. }
          assert (0 < 2 ^ (Z.of_nat b - (w + 1)))
            by (apply Z.pow_pos_nonneg; lia).
          assert (Hlt : q * 2 ^ (w + 1)
                        < (2 ^ (Z.of_nat b - (w + 1)) + 1) * 2 ^ (w + 1)) by lia.
          apply Z.mul_lt_mono_pos_r in Hlt; [|lia].
          rewrite Hq, Hbb. apply Z.mul_le_mono_nonneg_r; lia.
        * (* k is odd and at most 2^b <= 2^w *)
          assert (Hbw : 2 ^ Z.of_nat b <= 2 ^ w)
            by (apply Z.pow_le_mono_r; lia).
          assert (k <> 2 ^ w).
          { intros E. rewrite E in Hodd.
            replace w with ((w - 1) + 1) in Hodd by lia.
            rewrite Z.pow_add_r, Z.pow_1_r, Z.odd_mul in Hodd by lia.
            rewrite andb_false_r in Hodd. discriminate. }
          rewrite Hsm by lia. lia.
    - rewrite Z.sub_0_r, Zmod_odd, Hodd.
      split; [reflexivity|]. split; [lia|]. split; [reflexivity|].
      split; [|lia].
      intros ->. change (Z.of_nat 0) with 0 in Hk. rewrite Z.pow_0_r in Hk.
      assert (k = 1) by lia. subst k. discriminate. }
  destruct Hz as (Hd & Hnn & Hev & Hb0 & Hle).
  assert (Hhalf : k - z = 2 * ((k - z) / 2)).
  { pose proof (Z.div_mod (k - z) 2 ltac:(lia)). lia. }
  assert (Hnil : forall f, sc_naf_loop f (2 ^ (w + 1)) sign 0 = Some []).
  { intros [|f]; reflexivity. }
  destruct b as [|b'].
  { rewrite Hb0 by reflexivity. change (0 / 2) with 0. rewrite Hnil.
    exists [z * sign]. split; [reflexivity|]. split; [cbn; lia|].
    split.
    - cbn [naf_eval]. specialize (Hb0 eq_refl). lia.
    - cbn [forallb]. rewrite naf_digit_sign by exact Hs. rewrite Hd.
      reflexivity. }
  destruct (IH b' ((k - z) / 2)) as (naf & Hn & Hl & He & Hf').
  { rewrite Nat2Z.inj_succ, Z.pow_succ_r in Hle by lia. lia. }
  { lia. }
  rewrite Hn. exists (z * sign :: naf).
  split; [reflexivity|]. split; [|split].
  - cbn [length]. lia.
  - cbn [naf_eval]. rewrite He. lia.
  - cbn [forallb]. rewrite naf_digit_sign by exact Hs. rewrite Hd. exact Hf'.
Qed.

Lemma mpn_bitlen_bound a n :
  0 <= n -> 0 <= mpn_bitlen a n /\ mpn_get a n < 2 ^ mpn_bitlen a n.
Proof.
  intros Hn. unfold mpn_bitlen. cbv zeta.
  pose proof (mpn_get_range a n Hn) as Hr.
  destruct (Z.eqb_spec (mpn_get a n) 0) as [->|Hne].
  - split; [lia|reflexivity].
  - pose proof (Z.log2_nonneg (mpn_get a n)).
    split; [lia|]. apply Z.log2_spec. lia.
Qed.

Lemma forallb_app {A} (f : A -> bool) a b :
  forallb f (a ++ b) = forallb f a && forallb f b.
Proof.
  induction a as [|x a IH]; [reflexivity|].
  cbn [app forallb]. rewrite IH. apply andb_assoc.
Qed.

(** [sc_naf_var] passes its [assert] whenever [max] exceeds the bit
    length of the scalar, and then yields [max] digits denoting
    [sign * x]. *)
Lemma sc_naf_var_spec (sc : scalar_field_t) (x sign w max : Z) :
  1 <= w -> w + 1 <= GMP_NUMB_BITS -> sign = 1 \/ sign = -1 ->
  0 <= sc_limbs sc ->
  0 <= x < limb_base (sc_limbs sc) ->
  sc_bitlen_var sc x + 1 <= max ->
  exists naf,
    sc_naf_var sc x sign w max = Some naf /\
    length naf = Z.to_nat max /\
    naf_eval naf = sign * x /\
    forallb (naf_digit w) naf = true.
Proof.
  intros Hw HL Hs Hn Hx Hmax. unfold sc_naf_var. cbv zeta.
  rewrite Z.shiftl_1_l. unfold mpn_copyi.
  destruct (mpn_bitlen_bound x (sc_limbs sc) Hn) as [Hb0 Hb].
  fold (sc_bitlen_var sc x) in Hb0, Hb.
  rewrite mpn_get_small in Hb |- * by exact Hx.
  destruct (sc_naf_loop_spec w sign Hw HL Hs (Z.to_nat max)
              (Z.to_nat (sc_bitlen_var sc x)) x)
    as (naf & Hnaf & Hl & He & Hd).
  { rewrite Z2Nat.id by lia. lia. }
  { lia. }
  rewrite Hnaf. eexists. split; [reflexivity|].
  split; [|split].
  - rewrite length_app, repeat_length. lia.
  - rewrite naf_eval_app, naf_eval_zeros. lia.
  - rewrite forallb_app, Hd, naf_digit_zeros. reflexivity.
Qed.

(* ================================================================= *)
(** ** Joint sparse form *)

Lemma limb0_low (k d m : Z) :
  0 <= m <= GMP_NUMB_BITS ->
  Z.land (Z.land (mpn_limb k 0) (2 ^ m - 1) + d) (2 ^ m - 1)
  = (k + d) mod 2 ^ m.
Proof.
  intros Hm. rewrite limb0_mod by exact Hm.
  replace (2 ^ m - 1) with (Z.ones m) by (rewrite Z.ones_equiv; lia).
  rewrite Z.land_ones by lia.
  rewrite Z.add_mod_idemp_l by (apply Z.pow_nonzero; lia).
  reflexivity.
Qed.

Lemma limb0_low2 (k d : Z) :
  Z.land (Z.land (mpn_limb k 0) 3 + d) 3 = (k + d) mod 4.
Proof. pose proof limb_bits_ge_8. apply (limb0_low k d 2). lia. Qed.

Lemma limb0_low3 (k d : Z) :
  Z.land (Z.land (mpn_limb k 0) 7 + d) 7 = (k + d) mod 8.
Proof. pose proof limb_bits_ge_8. apply (limb0_low k d 3). lia. Qed.

(** The digit of a column is [0] or [+-1] and has the parity of
    [k + d]; once [k] is used up it is the carry. *)
Lemma jsf_digit_spec (k1 d1 k2 d2 : Z) :
  0 <= k1 -> d1 = 0 \/ d1 = 1 ->
  let u := jsf_digit k1 d1 k2 d2 in
  (u = -1 \/ u = 0 \/ u = 1) /\
  (exists q, k1 + d1 = u + 2 * q) /\
  (k1 = 0 -> u = d1).
Proof.
  intros Hk Hd u. unfold u, jsf_digit. cbv zeta.
  pose proof limb_bits_ge_8 as HW.
  rewrite (limb0_low2 k1 d1), (limb0_low2 k2 d2), limb0_low3.
  assert (Hpar : ((k1 + d1) mod 4) mod 2 = (k1 + d1) mod 2).
  { apply Z.mod_mod_divide. exists 2. reflexivity. }
  assert (H84 : ((k1 + d1) mod 8) mod 4 = (k1 + d1) mod 4).
  { apply Z.mod_mod_divide. exists 2. reflexivity. }
  pose proof (Z.mod_pos_bound (k1 + d1) 4 ltac:(lia)) as Hr.
  pose proof (Z.mod_pos_bound (k1 + d1) 8 ltac:(lia)) as Hr8.
  pose proof (Z.div_mod (k1 + d1) 2 ltac:(lia)) as Hdm.
  pose proof (Z.div_mod ((k1 + d1) mod 8) 4 ltac:(lia)) as Hdm8.
  rewrite H84 in Hdm8.
  assert (Hzero : k1 = 0 -> (k1 + d1) mod 4 = d1 /\ (k1 + d1) mod 8 = d1).
  { intros ->. cbn [Z.add]. destruct Hd as [-> | ->]; split; reflexivity. }
  set (r8 := (k1 + d1) mod 8) in *.
  set (m24 := if (k2 + d2) mod 4 =? 3 then -1 else (k2 + d2) mod 4).
  clearbody m24.
  destruct (Z.eqb_spec ((k1 + d1) mod 4) 3) as [E|E].
  - rewrite E in Hpar. change (3 mod 2) with 1 in Hpar.
    change (Z.land (-1) 1) with 1. cbn [Z.eqb negb].
    destruct (((r8 =? 3) || (r8 =? 5)) && (m24 =? 2)).
    + split; [right; right; reflexivity|]. split.
      * exists ((k1 + d1) / 2). change (- (-1)) with 1. lia.
      * intros H0. destruct (Hzero H0) as [H4 _]. lia.
    + split; [left; reflexivity|]. split.
      * exists ((k1 + d1) / 2 + 1). lia.
      * intros H0. destruct (Hzero H0) as [H4 _]. lia.
  - assert (Hc : (k1 + d1) mod 4 = 0 \/ (k1 + d1) mod 4 = 1
                 \/ (k1 + d1) mod 4 = 2) by lia.
    destruct Hc as [E0|[E1|E2]].
    + rewrite E0 in *. change (0 mod 2) with 0 in Hpar.
      change (Z.land 0 1) with 0. cbn [Z.eqb negb].
      split; [right; left; reflexivity|]. split.
      * exists ((k1 + d1) / 2). lia.
      * intros H0. destruct (Hzero H0) as [H4 _]. lia.
    + rewrite E1 in *. change (1 mod 2) with 1 in Hpar.
      change (Z.land 1 1) with 1. cbn [Z.eqb negb].
      destruct (((r8 =? 3) || (r8 =? 5)) && (m24 =? 2)) eqn:Ec.
      * split; [left; reflexivity|]. split.
        -- exists ((k1 + d1) / 2 + 1). lia.
        -- intros H0. destruct (Hzero H0) as [H4 H8].
           apply andb_true_iff in Ec. destruct Ec as [Ec _].
           apply orb_true_iff in Ec.
           destruct Ec as [Ec|Ec]; apply Z.eqb_eq in Ec; lia.
      * split; [right; right; reflexivity|]. split.
        -- exists ((k1 + d1) / 2). lia.
        -- intros H0. destruct (Hzero H0) as [H4 _]. lia.
    + rewrite E2 in *. change (2 mod 2) with 0 in Hpar.
      change (Z.land 2 1) with 0. cbn [Z.eqb negb].
      split; [right; left; reflexivity|]. split.
      * exists ((k1 + d1) / 2). lia.
      * intros H0. destruct (Hzero H0) as [H4 _]. lia.
Qed.

(** The second phase of a column: the carry and the halved number. *)
Lemma jsf_carry (k d u : Z) :
  0 <= k -> d = 0 \/ d = 1 -> u = -1 \/ u = 0 \/ u = 1 ->
  (exists q, k + d = u + 2 * q) -> (k = 0 -> u = d) ->
  let d' := if 2 * d =? u + 1 then 1 - d else d in
  let k' := if 0 <? k then Z.shiftr k 1 else k in
  k' = k / 2 /\ (d' = 0 \/ d' = 1) /\ k + d = u + 2 * (k' + d') /\
  (k = 0 -> d' = 0).
Proof.
  intros Hk Hd Hu [q Hq] H0 d' k'.
  assert (Hk' : k' = k / 2).
  { unfold k'. rewrite Z.shiftr_div_pow2, Z.pow_1_r by lia.
    destruct (Z.ltb_spec 0 k); [reflexivity|].
    replace k with 0 by lia. reflexivity. }
  pose proof (Z.div_mod k 2 ltac:(lia)) as Hdm.
  pose proof (Z.mod_pos_bound k 2 ltac:(lia)) as Hm.
  split; [exact Hk'|]. rewrite Hk'. unfold d'.
  destruct (Z.eqb_spec (2 * d) (u + 1)).
  - split; [lia|]. split; [lia|]. intros E. specialize (H0 E). lia.
  - split; [lia|]. split; [lia|]. intros E. specialize (H0 E). lia.
Qed.

(** The column read from the conversion table. *)
Lemma jsf_table_decode (a b : Z) :
  a = -1 \/ a = 0 \/ a = 1 -> b = -1 \/ b = 0 \/ b = 1 ->
  let z := nth (Z.to_nat ((a + 1) * 3 + (b + 1))) jsf_table 0 in
  jsf_first z = a /\ jsf_second z = b /\ naf_digit 3 z = true.
Proof.
  intros [-> | [-> | ->]] [-> | [-> | ->]]; cbv; repeat split.
Qed.

Lemma sign_digit (u s : Z) :
  u = -1 \/ u = 0 \/ u = 1 -> s = 1 \/ s = -1 ->
  u * s = -1 \/ u * s = 0 \/ u * s = 1.
Proof. intros [-> | [-> | ->]] [-> | ->]; cbn; auto. Qed.

Lemma sc_jsf_loop_done (sc : scalar_field_t) (fuel : nat) (s1 s2 : Z) :
  sc_jsf_loop sc fuel s1 s2 0 0 0 0 = Some [].
Proof.
  destruct fuel; cbn [sc_jsf_loop]; unfold mpn_cmp_limb, mpn_get;
    rewrite Zmod_0_l; reflexivity.
Qed.

Lemma mpn_cmp_limb_carry (k nn d : Z) :
  0 <= k < limb_base nn -> d = 0 \/ d = 1 ->
  (0 <? mpn_cmp_limb k nn (- d)) = (0 <? k + d).
Proof.
  intros Hk Hd. unfold mpn_cmp_limb. rewrite mpn_get_small by exact Hk.
  destruct (Z.compare_spec k (- d)); destruct (Z.ltb_spec 0 (k + d));
    try reflexivity; lia.
Qed.

(** One column of [sc_jsf_var]. *)
Lemma sc_jsf_loop_step (sc : scalar_field_t) (s1 s2 : Z) (fuel : nat)
      (k1 k2 d1 d2 : Z) :
  s1 = 1 \/ s1 = -1 -> s2 = 1 \/ s2 = -1 ->
  0 <= k1 < limb_base (sc_limbs sc) -> 0 <= k2 < limb_base (sc_limbs sc) ->
  d1 = 0 \/ d1 = 1 -> d2 = 0 \/ d2 = 1 ->
  0 < k1 + d1 \/ 0 < k2 + d2 ->
  exists z d1' d2',
    sc_jsf_loop sc (S fuel) s1 s2 k1 k2 d1 d2
    = match sc_jsf_loop sc fuel s1 s2 (k1 / 2) (k2 / 2) d1' d2' with
      | Some naf => Some (z :: naf)
      | None => None
      end /\
    (d1' = 0 \/ d1' = 1) /\ (d2' = 0 \/ d2' = 1) /\
    (k1 = 0 -> d1' = 0) /\ (k2 = 0 -> d2' = 0) /\
    s1 * (k1 + d1) = jsf_first z + 2 * (s1 * (k1 / 2 + d1')) /\
    s2 * (k2 + d2) = jsf_second z + 2 * (s2 * (k2 / 2 + d2')) /\
    naf_digit 3 z = true.
Proof.
  intros Hs1 Hs2 Hk1 Hk2 Hd1 Hd2 Hpos.
  cbn [sc_jsf_loop]. cbv zeta.
  rewrite !mpn_cmp_limb_carry by assumption.
  assert (Hc : (0 <? k1 + d1) || (0 <? k2 + d2) = true).
  { apply orb_true_iff. destruct Hpos; [left|right]; apply Z.ltb_lt; lia. }
  rewrite Hc. cbn [negb].
  destruct (jsf_digit_spec k1 d1 k2 d2 ltac:(lia) Hd1) as (Hu1 & Hq1 & Hz1).
  destruct (jsf_digit_spec k2 d2 k1 d1 ltac:(lia) Hd2) as (Hu2 & Hq2 & Hz2).
  cbv zeta in Hu1, Hq1, Hz1, Hu2, Hq2, Hz2.
  set (u1 := jsf_digit k1 d1 k2 d2) in *.
  set (u2 := jsf_digit k2 d2 k1 d1) in *.
  destruct (jsf_carry k1 d1 u1 ltac:(lia) Hd1 Hu1 Hq1 Hz1)
    as (Hh1 & Hc1 & He1 & Hn1).
  destruct (jsf_carry k2 d2 u2 ltac:(lia) Hd2 Hu2 Hq2 Hz2)
    as (Hh2 & Hc2 & He2 & Hn2).
  cbv zeta in Hh1, Hc1, He1, Hn1, Hh2, Hc2, He2, Hn2.
  destruct (jsf_table_decode (u1 * s1) (u2 * s2)
              (sign_digit _ _ Hu1 Hs1) (sign_digit _ _ Hu2 Hs2))
    as (Hf1 & Hf2 & Hdg).
  cbv zeta in Hf1, Hf2, Hdg.
  rewrite Hh1, Hh2 in *.
  eexists. eexists. eexists. split; [reflexivity|].
  split; [exact Hc1|]. split; [exact Hc2|].
  split; [exact Hn1|]. split; [exact Hn2|].
  rewrite Hf1, Hf2.
  split; [rewrite He1; ring|]. split; [rewrite He2; ring|]. exact Hdg.
Qed.

Lemma sc_jsf_loop_spec (sc : scalar_field_t) (s1 s2 : Z) :
  s1 = 1 \/ s1 = -1 -> s2 = 1 \/ s2 = -1 ->
  forall (b fuel : nat) (k1 k2 d1 d2 : Z),
    0 <= k1 < 2 ^ Z.of_nat b -> 0 <= k2 < 2 ^ Z.of_nat b ->
    k1 < limb_base (sc_limbs sc) -> k2 < limb_base (sc_limbs sc) ->
    d1 = 0 \/ d1 = 1 -> d2 = 0 \/ d2 = 1 ->
    (b + 1 <= fuel)%nat ->
    exists naf,
      sc_jsf_loop sc fuel s1 s2 k1 k2 d1 d2 = Some naf /\
      (length naf <= b + 1)%nat /\
      naf_eval (map jsf_first naf) = s1 * (k1 + d1) /\
      naf_eval (map jsf_second naf) = s2 * (k2 + d2) /\
      forallb (naf_digit 3) naf = true.
Proof.
  intros Hs1 Hs2.
  assert (Hstop : forall fuel k1 k2 d1 d2,
            0 <= k1 < limb_base (sc_limbs sc) ->
            0 <= k2 < limb_base (sc_limbs sc) ->
            d1 = 0 \/ d1 = 1 -> d2 = 0 \/ d2 = 1 ->
            ~ (0 < k1 + d1 \/ 0 < k2 + d2) ->
            sc_jsf_loop sc fuel s1 s2 k1 k2 d1 d2 = Some [] /\
            k1 + d1 = 0 /\ k2 + d2 = 0).
  { intros fuel k1 k2 d1 d2 Hk1 Hk2 Hd1 Hd2 Hn.
    split; [|lia].
    destruct fuel; cbn [sc_jsf_loop]; cbv zeta;
      rewrite !mpn_cmp_limb_carry by assumption;
      destruct (Z.ltb_spec 0 (k1 + d1)); [lia| |lia|];
      destruct (Z.ltb_spec 0 (k2 + d2)); try lia; reflexivity. }
  induction b as [|b IH]; intros fuel k1 k2 d1 d2 Hk1 Hk2 Hl1 Hl2 Hd1 Hd2 Hf.
  - change (2 ^ Z.of_nat 0) with 1 in Hk1, Hk2.
    assert (k1 = 0) by lia. assert (k2 = 0) by lia. subst k1 k2.
    destruct (Z.eq_dec (d1 + d2) 0) as [E|E].
    + destruct (Hstop fuel 0 0 d1 d2) as (-> & _ & _); try lia.
      exists []. cbn [length map naf_eval forallb]. repeat split; lia.
    + destruct fuel as [|fuel]; [lia|].
      destruct (sc_jsf_loop_step sc s1 s2 fuel 0 0 d1 d2 Hs1 Hs2)
        as (z & d1' & d2' & -> & _ & _ & Hz1 & Hz2 & He1 & He2 & Hdg);
        try assumption; try lia.
      rewrite (Hz1 eq_refl), (Hz2 eq_refl) in *.
      change (0 / 2) with 0 in *. rewrite sc_jsf_loop_done.
      exists [z]. cbn [length map naf_eval forallb]. rewrite Hdg.
      repeat split; lia.
  - destruct (Z.le_gt_cases (k1 + d1 + (k2 + d2)) 0) as [E|E].
    + destruct (Hstop fuel k1 k2 d1 d2) as (-> & E1 & E2); try lia.
      exists []. cbn [length map naf_eval forallb]. rewrite E1, E2.
      repeat split; lia.
    + destruct fuel as [|fuel]; [lia|].
      destruct (sc_jsf_loop_step sc s1 s2 fuel k1 k2 d1 d2 Hs1 Hs2)
        as (z & d1' & d2' & -> & Hc1 & Hc2 & _ & _ & He1 & He2 & Hdg);
        try assumption; try lia.
      rewrite Nat2Z.inj_succ, Z.pow_succ_r in Hk1, Hk2 by lia.
      assert (Hb1 : 0 <= k1 / 2 < 2 ^ Z.of_nat b).
      { split; [apply Z.div_pos; lia|apply Z.div_lt_upper_bound; lia]. }
      assert (Hb2 : 0 <= k2 / 2 < 2 ^ Z.of_nat b).
      { split; [apply Z.div_pos; lia|apply Z.div_lt_upper_bound; lia]. }
      assert (Hle1 : k1 / 2 <= k1) by (apply Z.div_le_upper_bound; lia).
      assert (Hle2 : k2 / 2 <= k2) by (apply Z.div_le_upper_bound; lia).
      destruct (IH fuel (k1 / 2) (k2 / 2) d1' d2' Hb1 Hb2 ltac:(lia)
                  ltac:(lia) Hc1 Hc2 ltac:(lia))
        as (naf & -> & Hl & Ha & Hb & Hd).
      exists (z :: naf). cbn [length map naf_eval forallb].
      rewrite Ha, Hb, Hdg, Hd. repeat split; lia.
Qed.

(** [sc_jsf_var] passes its [assert] whenever [max] exceeds the bit
    lengths of both numbers, and then yields [max] columns denoting
    [s1 * x1] and [s2 * x2]. *)
Lemma sc_jsf_var_spec (sc : scalar_field_t) (x1 s1 x2 s2 max : Z) :
  s1 = 1 \/ s1 = -1 -> s2 = 1 \/ s2 = -1 ->
  0 <= sc_limbs sc ->
  0 <= x1 < limb_base (sc_limbs sc) -> 0 <= x2 < limb_base (sc_limbs sc) ->
  sc_bitlen_var sc x1 + 1 <= max -> sc_bitlen_var sc x2 + 1 <= max ->
  exists naf,
    sc_jsf_var sc x1 s1 x2 s2 max = Some naf /\
    length naf = Z.to_nat max /\
    naf_eval (map jsf_first naf) = s1 * x1 /\
    naf_eval (map jsf_second naf) = s2 * x2 /\
    forallb (naf_digit 3) naf = true.
Proof.
  intros Hs1 Hs2 Hn Hx1 Hx2 Hm1 Hm2. unfold sc_jsf_var. cbv zeta.
  unfold mpn_copyi.
  destruct (mpn_bitlen_bound x1 (sc_limbs sc) Hn) as [Hb1 Hb1'].
  destruct (mpn_bitlen_bound x2 (sc_limbs sc) Hn) as [Hb2 Hb2'].
  fold (sc_bitlen_var sc x1) in Hb1, Hb1'.
  fold (sc_bitlen_var sc x2) in Hb2, Hb2'.
  rewrite mpn_get_small in Hb1', Hb2' |- * by assumption.
  rewrite (mpn_get_small x2) by assumption.
  assert (Hpow : forall x, 0 <= sc_bitlen_var sc x -> sc_bitlen_var sc x + 1 <= max ->
            2 ^ sc_bitlen_var sc x <= 2 ^ Z.of_nat (Z.to_nat (max - 1))).
  { intros x H0 H1. apply Z.pow_le_mono_r; lia. }
  destruct (sc_jsf_loop_spec sc s1 s2 Hs1 Hs2 (Z.to_nat (max - 1))
              (Z.to_nat max) x1 x2 0 0)
    as (naf & -> & Hl & Ha & Hb & Hd); try lia.
  { specialize (Hpow x1 Hb1 Hm1). lia. }
  { specialize (Hpow x2 Hb2 Hm2). lia. }
  eexists. split; [reflexivity|].
  assert (Hz1 : forall m, map jsf_first (repeat 0 m) = repeat 0 m).
  { induction m as [|m IHm]; [reflexivity|].
    cbn [repeat map]. rewrite IHm. reflexivity. }
  assert (Hz2 : forall m, map jsf_second (repeat 0 m) = repeat 0 m).
  { induction m as [|m IHm]; [reflexivity|].
    cbn [repeat map]. rewrite IHm. reflexivity. }
  split; [|split; [|split]].
  - rewrite length_app, repeat_length. lia.
  - rewrite map_app, naf_eval_app, Hz1, naf_eval_zeros. lia.
  - rewrite map_app, naf_eval_app, Hz2, naf_eval_zeros. lia.
  - rewrite forallb_app, Hd, naf_digit_zeros. reflexivity.
Qed.

(* ================================================================= *)
(** ** Tables of multiples and the digit steps that read them *)

Section TableFacts.

Variable ec : wei_t.
Hypothesis Hfe : fe_wf (ec_fe ec) = true.
Hypothesis Hflags : wei_flags_wf ec = true.
Hypothesis Hcof : cofactor_ok ec.
Hypothesis Hassoc : padd_associative ec.

Local Abbreviation oc P := (on_curve ec P = true) (only parsing).

Lemma pmul_2 (P : point) : oc P -> pmul ec 2 P = padd ec P P.
Proof.
  intros HP. change 2 with (2 * 1). rewrite pmul_double by assumption.
  rewrite pmul_1. reflexivity.
Qed.

Lemma pmul_succ (k : Z) (P : point) :
  oc P -> padd ec P (pmul ec k P) = pmul ec (1 + k) P.
Proof.
  intros HP. rewrite pmul_add by assumption. rewrite pmul_1. reflexivity.
Qed.

Lemma wge_chain_var_spec (g : wge_t) (n : nat) :
  oc (waff g) ->
  forall (prev : wge_t) (j : nat),
    oc (waff prev) -> (j < n)%nat ->
    waff (nth j (wge_chain_var ec g prev n) wge_zero)
    = padd ec (waff prev) (pmul ec (Z.of_nat (S j)) (waff g)).
Proof.
  intros Hg. induction n as [|n IH]; intros prev j Hp Hj; [lia|].
  cbn [wge_chain_var]. cbv zeta.
  assert (Hn : waff (wge_add_var ec prev g) = padd ec (waff prev) (waff g)).
  { apply wge_add_var_spec; assumption. }
  destruct j as [|j]; cbn [nth].
  - rewrite Hn. change (Z.of_nat 1) with 1. rewrite pmul_1. reflexivity.
  - rewrite IH; [|rewrite Hn; apply padd_closed; assumption|lia].
    rewrite Hn, Hassoc; [|assumption|assumption|apply pmul_on_curve; assumption].
    rewrite pmul_succ by assumption. do 2 f_equal. lia.
Qed.

Lemma jge_chain_var_spec (g : jge_t) (n : nat) :
  oc (jaff g) ->
  forall (prev : jge_t) (j : nat),
    oc (jaff prev) -> (j < n)%nat ->
    jaff (nth j (jge_chain_var ec g prev n) jge_zero)
    = padd ec (jaff prev) (pmul ec (Z.of_nat (S j)) (jaff g)).
Proof.
  intros Hg. induction n as [|n IH]; intros prev j Hp Hj; [lia|].
  cbn [jge_chain_var]. cbv zeta.
  assert (Hn : jaff (jge_add_var ec prev g) = padd ec (jaff prev) (jaff g)).
  { apply jge_add_var_spec; assumption. }
  destruct j as [|j]; cbn [nth].
  - rewrite Hn. change (Z.of_nat 1) with 1. rewrite pmul_1. reflexivity.
  - rewrite IH; [|rewrite Hn; apply padd_closed; assumption|lia].
    rewrite Hn, Hassoc; [|assumption|assumption|apply pmul_on_curve; assumption].
    rewrite pmul_succ by assumption. do 2 f_equal. lia.
Qed.

Lemma odd_multiple (j : Z) (P : point) :
  oc P -> 0 <= j ->
  padd ec P (pmul ec j (padd ec P P)) = pmul ec (2 * j + 1) P.
Proof.
  intros HP Hj. rewrite <- pmul_2 by assumption.
  rewrite <- pmul_mul by assumption.
  rewrite pmul_succ by assumption. f_equal. lia.
Qed.

(** [points[j] = (2 j + 1) P] *)
Lemma wge_naf_points_var_spec (p : wge_t) (w j : Z) :
  oc (waff p) -> 1 <= w -> 0 <= j < 2 ^ (w - 1) ->
  waff (wge_at (wge_naf_points_var ec p w) j)
  = pmul ec (2 * j + 1) (waff p).
Proof.
  intros Hp Hw Hj. unfold wge_naf_points_var, wge_at, wge_set. cbv zeta.
  rewrite Z.shiftl_1_l.
  destruct (Z.to_nat j) as [|j'] eqn:Ej; cbn [nth].
  - assert (j = 0) by lia. subst j. apply eq_sym, pmul_1.
  - rewrite wge_chain_var_spec.
    + rewrite wge_dbl_var_spec by assumption.
      replace (Z.of_nat (S j')) with j by lia.
      apply odd_multiple; [assumption|lia].
    + rewrite wge_dbl_var_spec by assumption. apply padd_closed; assumption.
    + assumption.
    + lia.
Qed.

Lemma jge_naf_points_var_spec (p : wge_t) (w j : Z) :
  oc (waff p) -> 1 <= w -> 0 <= j < 2 ^ (w - 1) ->
  jaff (jge_at (jge_naf_points_var ec p w) j)
  = pmul ec (2 * j + 1) (waff p).
Proof.
  intros Hp Hw Hj. unfold jge_naf_points_var, jge_at. cbv zeta.
  rewrite Z.shiftl_1_l.
  assert (Hp' : oc (jaff (wge_to_jge p))) by (rewrite wge_to_jge_spec; exact Hp).
  destruct (Z.to_nat j) as [|j'] eqn:Ej; cbn [nth].
  - assert (j = 0) by lia. subst j. rewrite wge_to_jge_spec.
    apply eq_sym, pmul_1.
  - rewrite jge_chain_var_spec.
    + rewrite jge_dbl_var_spec by assumption.
      replace (Z.of_nat (S j')) with j by lia.
      rewrite wge_to_jge_spec. apply odd_multiple; [assumption|lia].
    + rewrite jge_dbl_var_spec by assumption. apply padd_closed; assumption.
    + assumption.
    + lia.
Qed.

End TableFacts.

(* ================================================================= *)
(** ** Double multiplication with interleaved NAFs *)

Lemma skipn_nth_cons {A} (l : list A) (d : A) (m : nat) :
  (m < length l)%nat -> skipn m l = nth m l d :: skipn (S m) l.
Proof.
  revert m. induction l as [|x l IH]; intros m Hm; [cbn in Hm; lia|].
  destruct m as [|m]; [reflexivity|].
  cbn [skipn nth]. apply IH. cbn in Hm. lia.
Qed.

Lemma naf_digit_index (w z : Z) :
  1 <= w -> naf_digit w z = true -> 0 < z ->
  0 <= Z.shiftr (z - 1) 1 < 2 ^ (w - 1) /\ 2 * Z.shiftr (z - 1) 1 + 1 = z.
Proof.
  intros Hw Hd Hz. unfold naf_digit in Hd.
  apply orb_true_iff in Hd. destruct Hd as [Hd|Hd];
    [apply Z.eqb_eq in Hd; lia|].
  apply andb_true_iff in Hd. destruct Hd as [Ho Hlt].
  apply Z.ltb_lt in Hlt. rewrite Z.abs_eq in Hlt by lia.
  rewrite Z.shiftr_div_pow2, Z.pow_1_r by lia.
  pose proof (Zmod_odd z) as Hm. rewrite Ho in Hm.
  pose proof (Z.div_mod z 2 ltac:(lia)) as Hdm.
  assert (Hq : (z - 1) / 2 = z / 2).
  { symmetry. apply Z.div_unique with (r := 0); lia. }
  rewrite Hq.
  replace w with ((w - 1) + 1) in Hlt by lia.
  rewrite Z.pow_add_r, Z.pow_1_r in Hlt by lia.
  pose proof (Z.div_pos z 2 ltac:(lia) ltac:(lia)).
  lia.
Qed.

Section MulDoubleFacts.

Variable ec : wei_t.
Hypothesis Hfe : fe_wf (ec_fe ec) = true.
Hypothesis Hflags : wei_flags_wf ec = true.
Hypothesis Hcof : cofactor_ok ec.
Hypothesis Hassoc : padd_associative ec.

Local Abbreviation oc P := (on_curve ec P = true) (only parsing).

Lemma padd_swap_inner (a b c d : point) :
  oc a -> oc b -> oc c -> oc d ->
  padd ec (padd ec a b) (padd ec c d) = padd ec (padd ec a c) (padd ec b d).
Proof.
  intros Ha Hb Hc Hd.
  rewrite (Hassoc a b (padd ec c d)) by auto using padd_closed.
  rewrite <- (Hassoc b c d) by auto.
  rewrite (padd_comm ec b c).
  rewrite (Hassoc c b d) by auto.
  rewrite <- (Hassoc a c (padd ec b d)) by auto using padd_closed.
  reflexivity.
Qed.

Lemma pmul_digit_neg (z : Z) (P : point) :
  oc P -> pneg (pmul ec (- z) P) = pmul ec z P.
Proof.
  intros HP. rewrite pmul_opp by assumption. apply pneg_involutive.
Qed.

Lemma jge_naf_step_mixed_spec (acc : jge_t) (wnd : list wge_t) (P : point)
      (w z : Z) :
  oc P -> oc (jaff acc) -> 1 <= w -> naf_digit w z = true ->
  (forall j, 0 <= j < 2 ^ (w - 1) ->
             waff (wge_at wnd j) = pmul ec (2 * j + 1) P) ->
  jaff (jge_naf_step_mixed ec acc wnd z) = padd ec (jaff acc) (pmul ec z P).
Proof.
  intros HP Hacc Hw Hd Ht. unfold jge_naf_step_mixed.
  destruct (Z.ltb_spec 0 z) as [Hpos|Hnp].
  - destruct (naf_digit_index w z Hw Hd Hpos) as [Hj Hz].
    rewrite jge_mixed_add_var_spec by assumption.
    rewrite Ht by exact Hj. rewrite Hz. reflexivity.
  - destruct (Z.ltb_spec z 0) as [Hneg|Hz0].
    + assert (Hd' : naf_digit w (- z) = true).
      { replace (- z) with (z * -1) by lia. rewrite naf_digit_sign by auto.
        exact Hd. }
      destruct (naf_digit_index w (- z) Hw Hd' ltac:(lia)) as [Hj Hz].
      rewrite jge_mixed_sub_var_spec by assumption.
      rewrite Ht by exact Hj. rewrite Hz.
      rewrite pmul_digit_neg by assumption. reflexivity.
    + assert (z = 0) by lia. subst z. rewrite pmul_0, padd_O_r. reflexivity.
Qed.

Lemma jge_naf_step_spec (acc : jge_t) (wnd : list jge_t) (P : point)
      (w z : Z) :
  oc P -> oc (jaff acc) -> 1 <= w -> naf_digit w z = true ->
  (forall j, 0 <= j < 2 ^ (w - 1) ->
             jaff (jge_at wnd j) = pmul ec (2 * j + 1) P) ->
  jaff (jge_naf_step ec acc wnd z) = padd ec (jaff acc) (pmul ec z P).
Proof.
  intros HP Hacc Hw Hd Ht. unfold jge_naf_step.
  destruct (Z.ltb_spec 0 z) as [Hpos|Hnp].
  - destruct (naf_digit_index w z Hw Hd Hpos) as [Hj Hz].
    rewrite jge_add_var_spec by assumption.
    rewrite Ht by exact Hj. rewrite Hz. reflexivity.
  - destruct (Z.ltb_spec z 0) as [Hneg|Hz0].
    + assert (Hd' : naf_digit w (- z) = true).
      { replace (- z) with (z * -1) by lia. rewrite naf_digit_sign by auto.
        exact Hd. }
      destruct (naf_digit_index w (- z) Hw Hd' ltac:(lia)) as [Hj Hz].
      rewrite jge_sub_var_spec by assumption.
      rewrite Ht by exact Hj. rewrite Hz.
      rewrite pmul_digit_neg by assumption. reflexivity.
    + assert (z = 0) by lia. subst z. rewrite pmul_0, padd_O_r. reflexivity.
Qed.

(** The body of the multiply-and-add loop of
    [wei_jmul_double_normal_var]. *)
Lemma double_normal_loop (wnd1 : list wge_t) (wnd2 : list jge_t)
      (naf1 naf2 : list Z) (G A : point) (max : Z) :
  oc G -> oc A -> 1 <= max ->
  length naf1 = Z.to_nat max -> length naf2 = Z.to_nat max ->
  forallb (naf_digit NAF_WIDTH_PRE) naf1 = true ->
  forallb (naf_digit NAF_WIDTH) naf2 = true ->
  (forall j, 0 <= j < 2 ^ (NAF_WIDTH_PRE - 1) ->
             waff (wge_at wnd1 j) = pmul ec (2 * j + 1) G) ->
  (forall j, 0 <= j < 2 ^ (NAF_WIDTH - 1) ->
             jaff (jge_at wnd2 j) = pmul ec (2 * j + 1) A) ->
  forall (m : nat) (acc : jge_t),
    (m <= Z.to_nat max)%nat ->
    jaff acc = padd ec (pmul ec (naf_eval (skipn m naf1)) G)
                       (pmul ec (naf_eval (skipn m naf2)) A) ->
    jaff (fold_left
            (fun acc i =>
               let z1 := nth (Z.to_nat i) naf1 0 in
               let z2 := nth (Z.to_nat i) naf2 0 in
               let acc := if negb (i =? max - 1) then jge_dbl_var ec acc
                          else acc in
               let acc := jge_naf_step_mixed ec acc wnd1 z1 in
               jge_naf_step ec acc wnd2 z2)
            (bits_down (Z.of_nat m)) acc)
    = padd ec (pmul ec (naf_eval naf1) G) (pmul ec (naf_eval naf2) A).
Proof.
  intros HG HA Hmax Hl1 Hl2 Hd1 Hd2 Ht1 Ht2.
  induction m as [|m IH]; intros acc Hm Hacc.
  { cbn [bits_down Z.of_nat Z.to_nat seq map rev fold_left].
    exact Hacc. }
  rewrite bits_down_succ. cbn [fold_left]. cbv zeta. rewrite Nat2Z.id.
  apply IH; [lia|].
  set (S1 := naf_eval (skipn (S m) naf1)) in *.
  set (S2 := naf_eval (skipn (S m) naf2)) in *.
  rewrite (skipn_nth_cons naf1 0 m), (skipn_nth_cons naf2 0 m) by lia.
  cbn [naf_eval]. fold S1 S2.
  set (z1 := nth m naf1 0). set (z2 := nth m naf2 0).
  assert (Hz1 : naf_digit NAF_WIDTH_PRE z1 = true).
  { rewrite forallb_forall in Hd1. apply Hd1, nth_In. lia. }
  assert (Hz2 : naf_digit NAF_WIDTH z2 = true).
  { rewrite forallb_forall in Hd2. apply Hd2, nth_In. lia. }
  assert (Hoc : oc (jaff acc)).
  { rewrite Hacc. apply padd_closed; apply pmul_on_curve; assumption. }
  set (acc1 := if negb (Z.of_nat m =? max - 1) then jge_dbl_var ec acc
               else acc).
  assert (H1 : jaff acc1 = padd ec (jaff acc) (jaff acc)).
  { unfold acc1. destruct (Z.eqb_spec (Z.of_nat m) (max - 1)) as [E|E];
      cbn [negb].
    - (* the first round starts from infinity *)
      assert (Hs : forall l : list Z, length l = Z.to_nat max ->
                     naf_eval (skipn (S m) l) = 0).
      { intros l Hl. rewrite skipn_all2 by lia. reflexivity. }
      unfold S1, S2 in Hacc. rewrite (Hs naf1 Hl1), (Hs naf2 Hl2) in Hacc.
      rewrite pmul_0 in Hacc. cbn [padd] in Hacc.
      rewrite Hacc. reflexivity.
    - apply jge_dbl_var_spec; assumption. }
  assert (Hoc1 : oc (jaff acc1)).
  { rewrite H1. apply padd_closed; assumption. }
  rewrite (jge_naf_step_spec _ wnd2 A NAF_WIDTH z2);
    try assumption; try (unfold NAF_WIDTH; lia).
  2:{ rewrite (jge_naf_step_mixed_spec _ wnd1 G NAF_WIDTH_PRE z1);
        try assumption; try (unfold NAF_WIDTH_PRE; lia).
      apply padd_closed; [assumption|apply pmul_on_curve; assumption]. }
  rewrite (jge_naf_step_mixed_spec _ wnd1 G NAF_WIDTH_PRE z1);
    try assumption; try (unfold NAF_WIDTH_PRE; lia).
  rewrite H1, Hacc.
  assert (HS1 : oc (pmul ec S1 G)) by (apply pmul_on_curve; assumption).
  assert (HS2 : oc (pmul ec S2 A)) by (apply pmul_on_curve; assumption).
  assert (Hp1 : oc (pmul ec z1 G)) by (apply pmul_on_curve; assumption).
  assert (Hp2 : oc (pmul ec z2 A)) by (apply pmul_on_curve; assumption).
  rewrite (padd_swap_inner _ _ _ _ HS1 HS2 HS1 HS2).
  rewrite <- !pmul_double by assumption.
  assert (HD1 : oc (pmul ec (2 * S1) G)) by (apply pmul_on_curve; assumption).
  assert (HD2 : oc (pmul ec (2 * S2) A)) by (apply pmul_on_curve; assumption).
  rewrite (pmul_add ec Hassoc z1 (2 * S1) G HG).
  rewrite (pmul_add ec Hassoc z2 (2 * S2) A HA).
  rewrite (padd_comm ec (pmul ec z1 G)), (padd_comm ec (pmul ec z2 A)).
  rewrite <- (padd_swap_inner _ _ _ _ HD1 HD2 Hp1 Hp2).
  apply Hassoc; [apply padd_closed| |]; assumption.
Qed.

(** [wei_jmul_double_normal_var] passes its [assert]s and computes
    [k1 * G + k2 * P2]. *)
Lemma wei_jmul_double_normal_var_spec (k1 : Z) (p2 : wge_t) (k2 : Z) :
  sc_wf (ec_sc ec) = true -> 9 <= GMP_NUMB_BITS ->
  ec_points ec = wge_naf_points_var ec (ec_g ec) NAF_WIDTH_PRE ->
  oc (waff (ec_g ec)) -> oc (waff p2) ->
  0 <= k1 < sc_n (ec_sc ec) -> 0 <= k2 < sc_n (ec_sc ec) ->
  exists R,
    wei_jmul_double_normal_var ec k1 p2 k2 = Some R /\
    jaff R = padd ec (pmul ec k1 (waff (ec_g ec))) (pmul ec k2 (waff p2)).
Proof.
  intros Hsc HL Hpts HG HP Hk1 Hk2. unfold wei_jmul_double_normal_var.
  cbv zeta.
  set (sc := ec_sc ec) in *.
  pose proof (sc_limbs_pos sc Hsc) as Hlimbs.
  pose proof (sc_n_lt_base sc Hsc) as Hbase.
  destruct (mpn_bitlen_bound k1 (sc_limbs sc) ltac:(lia)) as [Hb1 _].
  destruct (mpn_bitlen_bound k2 (sc_limbs sc) ltac:(lia)) as [Hb2 _].
  fold (sc_bitlen_var sc k1) in Hb1. fold (sc_bitlen_var sc k2) in Hb2.
  set (max := if sc_bitlen_var sc k2 + 1 <? sc_bitlen_var sc k1 + 1
              then sc_bitlen_var sc k1 + 1 else sc_bitlen_var sc k2 + 1).
  assert (Hmax : sc_bitlen_var sc k1 + 1 <= max /\
                 sc_bitlen_var sc k2 + 1 <= max).
  { unfold max. destruct (Z.ltb_spec (sc_bitlen_var sc k2 + 1)
                                     (sc_bitlen_var sc k1 + 1)); lia. }
  destruct (sc_naf_var_spec sc k1 1 NAF_WIDTH_PRE max
              ltac:(unfold NAF_WIDTH_PRE; lia) ltac:(unfold NAF_WIDTH_PRE; lia)
              (or_introl eq_refl) ltac:(lia) ltac:(lia) ltac:(lia))
    as (naf1 & -> & Hl1 & He1 & Hd1).
  destruct (sc_naf_var_spec sc k2 1 NAF_WIDTH max
              ltac:(unfold NAF_WIDTH; lia) ltac:(unfold NAF_WIDTH; lia)
              (or_introl eq_refl) ltac:(lia) ltac:(lia) ltac:(lia))
    as (naf2 & -> & Hl2 & He2 & Hd2).
  eexists. split; [reflexivity|]. unfold jge_set.
  replace (bits_down max) with (bits_down (Z.of_nat (Z.to_nat max)))
    by (rewrite Z2Nat.id by lia; reflexivity).
  rewrite (double_normal_loop (ec_points ec)
             (jge_naf_points_var ec p2 NAF_WIDTH) naf1 naf2
             (waff (ec_g ec)) (waff p2) max); try assumption; try lia.
  - rewrite He1, He2, !Z.mul_1_l. reflexivity.
  - intros j Hj. rewrite Hpts.
    apply wge_naf_points_var_spec; try assumption. unfold NAF_WIDTH_PRE. lia.
  - intros j Hj.
    apply jge_naf_points_var_spec; try assumption. unfold NAF_WIDTH. lia.
  - rewrite !skipn_all2 by lia. cbn [naf_eval]. rewrite pmul_0.
    cbn [padd]. apply jaff_zero.
Qed.

End MulDoubleFacts.

(* ================================================================= *)
(** ** Double multiplication with the endomorphism *)

Lemma sc_minimize_sign (sc : scalar_field_t) (a : Z) :
  sc_wf sc = true -> 0 <= a < sc_n sc ->
  let c := fst (sc_minimize sc a) in
  let s := Z.lor (- Z.b2z (snd (sc_minimize sc a))) 1 in
  0 <= c < sc_n sc /\ (s = 1 \/ s = -1) /\
  exists q, s * c = a + q * sc_n sc.
Proof.
  intros Hsc Ha c s. unfold c, s.
  rewrite (sc_minimize_spec sc Hsc a Ha). cbn [fst snd].
  pose proof (sc_n_gt_1 sc Hsc) as Hn.
  destruct (Z.ltb_spec (sc_n sc / 2) a) as [Hhi|Hlo].
  - change (Z.lor (- Z.b2z true) 1) with (-1).
    assert (Hh : 0 <= sc_n sc / 2) by (apply Z.div_pos; lia).
    assert (E : (- a) mod sc_n sc = sc_n sc - a).
    { symmetry. apply Z.mod_unique with (q := -1); lia. }
    rewrite E. split; [lia|]. split; [right; reflexivity|].
    exists (-1). lia.
  - change (Z.lor (- Z.b2z false) 1) with 1.
    split; [lia|]. split; [left; reflexivity|]. exists 0. lia.
Qed.

(** The rounded quotient of [wei_endo_split] is a reduced scalar. *)
Lemma round_shift_reduced (sc : scalar_field_t) (a b : Z) :
  sc_wf sc = true -> 0 <= a < sc_n sc -> 0 <= b < sc_n sc ->
  0 <= round_shift (a * b) (sc_bits sc + 16) < sc_n sc.
Proof.
  intros Hsc Ha Hb. unfold round_shift.
  pose proof (sc_wf_bits sc Hsc) as Hbits.
  pose proof (sc_wf_n sc Hsc) as Hn.
  replace (sc_bits sc + 16 - 1) with (sc_bits sc + 15) by lia.
  rewrite !Z.pow_add_r by lia.
  change (2 ^ 16) with 65536. change (2 ^ 15) with 32768.
  assert (Hp : 0 < 2 ^ sc_bits sc) by (apply Z.pow_pos_nonneg; lia).
  assert (Hab : a * b < sc_n sc * 2 ^ sc_bits sc) by nia.
  assert (H0 : 0 <= a * b) by nia.
  split.
  - apply Z.div_pos; nia.
  - apply Z.div_lt_upper_bound; nia.
Qed.

Lemma sc_maxlen_var_bound (sc : scalar_field_t) (k1 k2 k3 k4 : Z) :
  sc_bitlen_var sc k1 <= sc_maxlen_var sc k1 k2 k3 k4 /\
  sc_bitlen_var sc k2 <= sc_maxlen_var sc k1 k2 k3 k4 /\
  sc_bitlen_var sc k3 <= sc_maxlen_var sc k1 k2 k3 k4 /\
  sc_bitlen_var sc k4 <= sc_maxlen_var sc k1 k2 k3 k4 /\
  0 <= sc_maxlen_var sc k1 k2 k3 k4.
Proof.
  unfold sc_maxlen_var. cbv zeta.
  assert (Hmax : forall a b, (if a <? b then b else a) = Z.max a b).
  { intros a b. destruct (Z.ltb_spec a b); lia. }
  rewrite !Hmax. lia.
Qed.

Lemma wge_chain_var_length (ec : wei_t) (g : wge_t) (n : nat) :
  forall prev, length (wge_chain_var ec g prev n) = n.
Proof.
  induction n as [|n IH]; intros prev; [reflexivity|].
  cbn [wge_chain_var]. cbv zeta. cbn [length]. rewrite IH. reflexivity.
Qed.

Lemma wge_naf_points_var_length (ec : wei_t) (p : wge_t) (w : Z) :
  1 <= w ->
  length (wge_naf_points_var ec p w) = Z.to_nat (2 ^ (w - 1)).
Proof.
  intros Hw. unfold wge_naf_points_var. cbv zeta.
  cbn [length]. rewrite wge_chain_var_length, Z.shiftl_1_l.
  assert (0 < 2 ^ (w - 1)) by (apply Z.pow_pos_nonneg; lia). lia.
Qed.

Lemma wge_at_map (f : wge_t -> wge_t) (l : list wge_t) (j : Z) :
  (Z.to_nat j < length l)%nat ->
  wge_at (map f l) j = f (wge_at l j).
Proof.
  intros Hj. unfold wge_at.
  rewrite (nth_indep (map f l) wge_zero (f wge_zero))
    by (rewrite length_map; exact Hj).
  apply map_nth.
Qed.

Section EndoFacts.

Variable ec : wei_t.
Hypothesis Hfe : fe_wf (ec_fe ec) = true.
Hypothesis Hflags : wei_flags_wf ec = true.
Hypothesis Hcof : cofactor_ok ec.
Hypothesis Hassoc : padd_associative ec.
Hypothesis Hsc : sc_wf (ec_sc ec) = true.

Local Abbreviation oc P := (on_curve ec P = true) (only parsing).

Lemma pmul_m1 (P : point) : oc P -> pmul ec (-1) P = pneg P.
Proof.
  intros HP.
  exact (eq_trans (pmul_opp ec 1 P HP) (f_equal (pneg) (pmul_1 ec P))).
Qed.

Lemma waff_endo_beta (p : wge_t) :
  waff (wge_endo_beta ec p) = pendo ec (waff p).
Proof.
  unfold waff, wge_endo_beta, pendo. cbn [wge_inf wge_x wge_y].
  destruct (wge_inf p); reflexivity.
Qed.

(** *** Combinations of four points *)

Section Combinations.

Variables G1 G2 A1 A2 : point.
Hypothesis HG1 : oc G1.
Hypothesis HG2 : oc G2.
Hypothesis HA1 : oc A1.
Hypothesis HA2 : oc A2.

Local Abbreviation lin := (plin ec G1 G2 A1 A2) (only parsing).

Lemma plin_on_curve (a b c d : Z) : oc (lin a b c d).
Proof.
  unfold plin. repeat apply padd_closed; apply pmul_on_curve; assumption.
Qed.

Lemma plin_ext (a b c d a' b' c' d' : Z) :
  a = a' -> b = b' -> c = c' -> d = d' -> lin a b c d = lin a' b' c' d'.
Proof. intros -> -> -> ->. reflexivity. Qed.

Lemma plin_add (a b c d a' b' c' d' : Z) :
  padd ec (lin a b c d) (lin a' b' c' d')
  = lin (a + a') (b + b') (c + c') (d + d').
Proof.
  unfold plin.
  assert (Hm : forall k P, oc P -> oc (pmul ec k P))
    by (intros; apply pmul_on_curve; assumption).
  rewrite padd_swap_inner by (try apply padd_closed; auto).
  rewrite (padd_swap_inner ec Hassoc (pmul ec a G1)) by auto.
  rewrite (padd_swap_inner ec Hassoc (pmul ec c A1)) by auto.
  rewrite <- !(pmul_add ec Hassoc) by assumption.
  reflexivity.
Qed.

Lemma plin_first (z : Z) : lin z 0 0 0 = pmul ec z G1.
Proof. unfold plin. rewrite !pmul_0. cbn [padd]. rewrite !padd_O_r. reflexivity. Qed.

Lemma plin_second (z : Z) : lin 0 z 0 0 = pmul ec z G2.
Proof. unfold plin. rewrite !pmul_0. cbn [padd]. rewrite !padd_O_r. reflexivity. Qed.

Lemma plin_pair (f s : Z) :
  lin 0 0 f s = padd ec (pmul ec f A1) (pmul ec s A2).
Proof. unfold plin. rewrite !pmul_0. reflexivity. Qed.

(** One round of the loop on the combination. *)
Lemma plin_round (a b c d z1 z2 f s : Z) :
  padd ec
    (padd ec (padd ec (padd ec (lin a b c d) (lin a b c d)) (pmul ec z1 G1))
             (pmul ec z2 G2))
    (padd ec (pmul ec f A1) (pmul ec s A2))
  = lin (z1 + 2 * a) (z2 + 2 * b) (f + 2 * c) (s + 2 * d).
Proof.
  rewrite <- (plin_first z1), <- (plin_second z2), <- (plin_pair f s).
  rewrite !plin_add. apply plin_ext; lia.
Qed.

(** A column of the joint sparse form on the comb
    [A1, A1 + A2, A1 - A2, A2]. *)
Lemma jge_jsf_step_spec (acc : jge_t) (wnd : list wge_t) (z : Z) :
  oc (jaff acc) -> naf_digit 3 z = true ->
  waff (wge_at wnd 0) = A1 ->
  waff (wge_at wnd 1) = padd ec A1 A2 ->
  waff (wge_at wnd 2) = padd ec A1 (pneg A2) ->
  waff (wge_at wnd 3) = A2 ->
  jaff (jge_naf_step_mixed ec acc wnd z)
  = padd ec (jaff acc)
            (padd ec (pmul ec (jsf_first z) A1) (pmul ec (jsf_second z) A2)).
Proof.
  intros Hacc Hd H0 H1 H2 H3.
  assert (Hz : z = 0 \/ z = 1 \/ z = 3 \/ z = 5 \/ z = 7 \/
               z = -1 \/ z = -3 \/ z = -5 \/ z = -7).
  { unfold naf_digit in Hd. apply orb_true_iff in Hd.
    destruct Hd as [Hd|Hd]; [apply Z.eqb_eq in Hd; lia|].
    apply andb_true_iff in Hd. destruct Hd as [Ho Hlt].
    apply Z.ltb_lt in Hlt. change (2 ^ 3) with 8 in Hlt.
    apply Z.odd_spec in Ho. destruct Ho as [q Hq]. lia. }
  assert (HnA2 : oc (pneg A2)) by (apply pneg_on_curve; exact HA2).
  assert (Hn1 : pmul ec (-1) A1 = pneg A1) by (apply pmul_m1; exact HA1).
  assert (Hn2 : pmul ec (-1) A2 = pneg A2) by (apply pmul_m1; exact HA2).
  destruct Hz as [-> | [-> | [-> | [-> | [-> | [-> | [-> | [-> | ->]]]]]]]].
  - change (jge_naf_step_mixed ec acc wnd 0) with acc.
    change (jsf_first 0) with 0. change (jsf_second 0) with 0.
    rewrite !pmul_0. cbn [padd]. rewrite padd_O_r. reflexivity.
  - change (jge_naf_step_mixed ec acc wnd 1)
      with (jge_mixed_add_var ec acc (wge_at wnd 0)).
    change (jsf_first 1) with 1. change (jsf_second 1) with 0.
    rewrite jge_mixed_add_var_spec by assumption.
    rewrite H0, pmul_0, pmul_1, padd_O_r. reflexivity.
  - change (jge_naf_step_mixed ec acc wnd 3)
      with (jge_mixed_add_var ec acc (wge_at wnd 1)).
    change (jsf_first 3) with 1. change (jsf_second 3) with 1.
    rewrite jge_mixed_add_var_spec by assumption.
    rewrite H1, !pmul_1. reflexivity.
  - change (jge_naf_step_mixed ec acc wnd 5)
      with (jge_mixed_add_var ec acc (wge_at wnd 2)).
    change (jsf_first 5) with 1. change (jsf_second 5) with (-1).
    rewrite jge_mixed_add_var_spec by assumption.
    rewrite H2, Hn2, pmul_1. reflexivity.
  - change (jge_naf_step_mixed ec acc wnd 7)
      with (jge_mixed_add_var ec acc (wge_at wnd 3)).
    change (jsf_first 7) with 0. change (jsf_second 7) with 1.
    rewrite jge_mixed_add_var_spec by assumption.
    rewrite H3, pmul_0, pmul_1. reflexivity.
  - change (jge_naf_step_mixed ec acc wnd (-1))
      with (jge_mixed_sub_var ec acc (wge_at wnd 0)).
    change (jsf_first (-1)) with (-1). change (jsf_second (-1)) with 0.
    rewrite jge_mixed_sub_var_spec by assumption.
    rewrite H0, Hn1, pmul_0, padd_O_r. reflexivity.
  - change (jge_naf_step_mixed ec acc wnd (-3))
      with (jge_mixed_sub_var ec acc (wge_at wnd 1)).
    change (jsf_first (-3)) with (-1). change (jsf_second (-3)) with (-1).
    rewrite jge_mixed_sub_var_spec by assumption.
    rewrite H1, Hn1, Hn2.
    rewrite pneg_padd by assumption. reflexivity.
  - change (jge_naf_step_mixed ec acc wnd (-5))
      with (jge_mixed_sub_var ec acc (wge_at wnd 2)).
    change (jsf_first (-5)) with (-1). change (jsf_second (-5)) with 1.
    rewrite jge_mixed_sub_var_spec by assumption.
    rewrite H2, Hn1, pmul_1.
    rewrite pneg_padd by assumption.
    rewrite pneg_involutive. reflexivity.
  - change (jge_naf_step_mixed ec acc wnd (-7))
      with (jge_mixed_sub_var ec acc (wge_at wnd 3)).
    change (jsf_first (-7)) with 0. change (jsf_second (-7)) with (-1).
    rewrite jge_mixed_sub_var_spec by assumption.
    rewrite H3, Hn2, pmul_0. reflexivity.
Qed.

(** The body of the multiply-and-add loop of
    [wei_jmul_double_endo_var]. *)
Lemma double_endo_loop (wnd1 wnd2 wnd3 : list wge_t)
      (naf1 naf2 naf3 : list Z) (max : Z) :
  1 <= max ->
  length naf1 = Z.to_nat max -> length naf2 = Z.to_nat max ->
  length naf3 = Z.to_nat max ->
  forallb (naf_digit NAF_WIDTH_PRE) naf1 = true ->
  forallb (naf_digit NAF_WIDTH_PRE) naf2 = true ->
  forallb (naf_digit 3) naf3 = true ->
  (forall j, 0 <= j < 2 ^ (NAF_WIDTH_PRE - 1) ->
             waff (wge_at wnd1 j) = pmul ec (2 * j + 1) G1) ->
  (forall j, 0 <= j < 2 ^ (NAF_WIDTH_PRE - 1) ->
             waff (wge_at wnd2 j) = pmul ec (2 * j + 1) G2) ->
  waff (wge_at wnd3 0) = A1 ->
  waff (wge_at wnd3 1) = padd ec A1 A2 ->
  waff (wge_at wnd3 2) = padd ec A1 (pneg A2) ->
  waff (wge_at wnd3 3) = A2 ->
  forall (m : nat) (acc : jge_t),
    (m <= Z.to_nat max)%nat ->
    jaff acc = lin (naf_eval (skipn m naf1)) (naf_eval (skipn m naf2))
                   (naf_eval (skipn m (map jsf_first naf3)))
                   (naf_eval (skipn m (map jsf_second naf3))) ->
    jaff (fold_left
            (fun acc i =>
               let z1 := nth (Z.to_nat i) naf1 0 in
               let z2 := nth (Z.to_nat i) naf2 0 in
               let z3 := nth (Z.to_nat i) naf3 0 in
               let acc := if negb (i =? max - 1) then jge_dbl_var ec acc
                          else acc in
               let acc := jge_naf_step_mixed ec acc wnd1 z1 in
               let acc := jge_naf_step_mixed ec acc wnd2 z2 in
               jge_naf_step_mixed ec acc wnd3 z3)
            (bits_down (Z.of_nat m)) acc)
    = lin (naf_eval naf1) (naf_eval naf2)
          (naf_eval (map jsf_first naf3)) (naf_eval (map jsf_second naf3)).
Proof.
  intros Hmax Hl1 Hl2 Hl3 Hd1 Hd2 Hd3 Ht1 Ht2 H30 H31 H32 H33.
  induction m as [|m IH]; intros acc Hm Hacc.
  { cbn [bits_down Z.of_nat Z.to_nat seq map rev fold_left].
    exact Hacc. }
  rewrite bits_down_succ. cbn [fold_left]. cbv zeta. rewrite Nat2Z.id.
  apply IH; [lia|].
  set (F3 := map jsf_first naf3) in *.
  set (S3 := map jsf_second naf3) in *.
  assert (HlF : length F3 = Z.to_nat max)
    by (unfold F3; rewrite length_map; exact Hl3).
  assert (HlS : length S3 = Z.to_nat max)
    by (unfold S3; rewrite length_map; exact Hl3).
  set (E1 := naf_eval (skipn (S m) naf1)) in *.
  set (E2 := naf_eval (skipn (S m) naf2)) in *.
  set (E3 := naf_eval (skipn (S m) F3)) in *.
  set (E4 := naf_eval (skipn (S m) S3)) in *.
  rewrite (skipn_nth_cons naf1 0 m), (skipn_nth_cons naf2 0 m),
    (skipn_nth_cons F3 0 m), (skipn_nth_cons S3 0 m) by lia.
  cbn [naf_eval]. fold E1 E2 E3 E4.
  set (z1 := nth m naf1 0). set (z2 := nth m naf2 0).
  set (z3 := nth m naf3 0).
  assert (Hf3 : nth m F3 0 = jsf_first z3).
  { unfold F3, z3. change 0 with (jsf_first 0) at 1. apply map_nth. }
  assert (Hs3 : nth m S3 0 = jsf_second z3).
  { unfold S3, z3. change 0 with (jsf_second 0) at 1. apply map_nth. }
  rewrite Hf3, Hs3.
  assert (Hz1 : naf_digit NAF_WIDTH_PRE z1 = true).
  { rewrite forallb_forall in Hd1. apply Hd1, nth_In. lia. }
  assert (Hz2 : naf_digit NAF_WIDTH_PRE z2 = true).
  { rewrite forallb_forall in Hd2. apply Hd2, nth_In. lia. }
  assert (Hz3 : naf_digit 3 z3 = true).
  { rewrite forallb_forall in Hd3. apply Hd3, nth_In. lia. }
  assert (Hoc : oc (jaff acc)) by (rewrite Hacc; apply plin_on_curve).
  set (acc1 := if negb (Z.of_nat m =? max - 1) then jge_dbl_var ec acc
               else acc).
  assert (H1 : jaff acc1 = padd ec (jaff acc) (jaff acc)).
  { unfold acc1. destruct (Z.eqb_spec (Z.of_nat m) (max - 1)) as [E|E];
      cbn [negb].
    - (* the first round starts from infinity *)
      assert (Hs : forall l : list Z, length l = Z.to_nat max ->
                     naf_eval (skipn (S m) l) = 0).
      { intros l Hl. rewrite skipn_all2 by lia. reflexivity. }
      unfold E1, E2, E3, E4 in Hacc.
      rewrite (Hs naf1 Hl1), (Hs naf2 Hl2), (Hs F3 HlF), (Hs S3 HlS) in Hacc.
      unfold plin in Hacc. rewrite !pmul_0 in Hacc. cbn [padd] in Hacc.
      rewrite Hacc. reflexivity.
    - apply jge_dbl_var_spec; assumption. }
  assert (Hoc1 : oc (jaff acc1)).
  { rewrite H1. apply padd_closed; assumption. }
  set (acc2 := jge_naf_step_mixed ec acc1 wnd1 z1).
  assert (H2 : jaff acc2 = padd ec (jaff acc1) (pmul ec z1 G1)).
  { apply (jge_naf_step_mixed_spec ec) with (w := NAF_WIDTH_PRE);
      try assumption. unfold NAF_WIDTH_PRE. lia. }
  assert (Hoc2 : oc (jaff acc2)).
  { rewrite H2. apply padd_closed; [assumption|].
    apply pmul_on_curve; assumption. }
  set (acc3 := jge_naf_step_mixed ec acc2 wnd2 z2).
  assert (H3 : jaff acc3 = padd ec (jaff acc2) (pmul ec z2 G2)).
  { apply (jge_naf_step_mixed_spec ec) with (w := NAF_WIDTH_PRE);
      try assumption. unfold NAF_WIDTH_PRE. lia. }
  assert (Hoc3 : oc (jaff acc3)).
  { rewrite H3. apply padd_closed; [assumption|].
    apply pmul_on_curve; assumption. }
  rewrite (jge_jsf_step_spec acc3 wnd3 z3 Hoc3 Hz3 H30 H31 H32 H33).
  rewrite H3, H2, H1, Hacc.
  apply plin_round.
Qed.

End Combinations.

End EndoFacts.

Section EndoMul.

Variable ec : wei_t.
Hypothesis Hfe : fe_wf (ec_fe ec) = true.
Hypothesis Hflags : wei_flags_wf ec = true.
Hypothesis Hcof : cofactor_ok ec.
Hypothesis Hassoc : padd_associative ec.
Hypothesis Hsc : sc_wf (ec_sc ec) = true.
Hypothesis Hendo : wei_endo_wf ec.
Hypothesis Hon : ec_endo ec = true.

Local Abbreviation oc P := (on_curve ec P = true) (only parsing).
Local Abbreviation sc := (ec_sc ec) (only parsing).
Local Abbreviation n := (sc_n (ec_sc ec)) (only parsing).
Local Abbreviation lam := (sc_n (ec_sc ec) - ec_lambda ec) (only parsing).

Lemma wei_endo_facts :
  sc_bits sc + 16 < 2 * sc_limbs sc * GMP_NUMB_BITS /\
  sc_reduced sc (ec_lambda ec) /\
  sc_reduced sc (ec_b1 ec) /\ sc_reduced sc (ec_b2 ec) /\
  sc_reduced sc (ec_g1 ec) /\ sc_reduced sc (ec_g2 ec) /\
  ec_endo_points ec = map (wge_endo_beta ec) (ec_points ec) /\
  (forall P, oc P -> pmul ec n P = None) /\
  (forall P, oc P -> pendo ec P = pmul ec lam P).
Proof.
  pose proof (Hendo Hon) as H. cbv zeta in H.
  destruct H as (H1 & H2 & H3 & H4 & H5 & H6 & H7 & H8).
  repeat split; try assumption; try apply H2; try apply H3; try apply H4;
    try apply H5; try apply H6; intros P HP; apply (H8 P HP).
Qed.

(** [wei_endo_split] passes the [assert]s of [sc_mulshift] and writes
    [k] as [s1 k1 + s2 k2 * (-lambda)] modulo [n]. *)
Lemma wei_endo_split_spec (k : Z) :
  0 <= k < n ->
  exists k1 s1 k2 s2,
    wei_endo_split ec k = Some (k1, s1, k2, s2) /\
    0 <= k1 < n /\ 0 <= k2 < n /\
    (s1 = 1 \/ s1 = -1) /\ (s2 = 1 \/ s2 = -1) /\
    (s1 * k1 + s2 * k2 * lam) mod n = k.
Proof.
  intros Hk.
  destruct wei_endo_facts as (Hroom & HL & Hb1 & Hb2 & Hg1 & Hg2 & _).
  unfold sc_reduced in *.
  pose proof (sc_n_gt_1 sc Hsc) as Hn.
  pose proof (sc_wf_bits sc Hsc) as Hbits.
  unfold wei_endo_split. cbv zeta.
  destruct (sc_mulshift_spec sc k (ec_g1 ec) (sc_bits sc + 16) Hsc Hk Hg1
              ltac:(lia)) as (-> & _ & _).
  destruct (sc_mulshift_spec sc k (ec_g2 ec) (sc_bits sc + 16) Hsc Hk Hg2
              ltac:(lia)) as (-> & _ & _).
  pose proof (round_shift_reduced sc k (ec_g1 ec) Hsc Hk Hg1) as Hc1.
  pose proof (round_shift_reduced sc k (ec_g2 ec) Hsc Hk Hg2) as Hc2.
  set (c1 := round_shift (k * ec_g1 ec) (sc_bits sc + 16)) in *.
  set (c2 := round_shift (k * ec_g2 ec) (sc_bits sc + 16)) in *.
  rewrite (sc_mul_spec sc Hsc c1 (ec_b1 ec)) by assumption.
  rewrite (sc_mul_spec sc Hsc c2 (ec_b2 ec)) by assumption.
  assert (Hm : forall x, 0 <= x mod n < n)
    by (intros x; apply Z.mod_pos_bound; lia).
  rewrite (sc_add_spec sc Hsc (c1 * ec_b1 ec mod n) (c2 * ec_b2 ec mod n))
    by apply Hm.
  set (k2' := (c1 * ec_b1 ec mod n + c2 * ec_b2 ec mod n) mod n).
  assert (Hk2' : 0 <= k2' < n) by apply Hm.
  rewrite (sc_mul_spec sc Hsc k2' (ec_lambda ec)) by assumption.
  rewrite (sc_add_spec sc Hsc (k2' * ec_lambda ec mod n) k)
    by (apply Hm || assumption).
  set (k1' := (k2' * ec_lambda ec mod n + k) mod n).
  assert (Hk1' : 0 <= k1' < n) by apply Hm.
  destruct (sc_minimize_sign sc k1' Hsc Hk1') as (Hr1 & Hs1 & q1 & Hq1).
  destruct (sc_minimize_sign sc k2' Hsc Hk2') as (Hr2 & Hs2 & q2 & Hq2).
  cbv zeta in Hr1, Hs1, Hq1, Hr2, Hs2, Hq2.
  destruct (sc_minimize sc k1') as [m1 h1].
  destruct (sc_minimize sc k2') as [m2 h2].
  cbn [fst snd] in *.
  eexists. eexists. eexists. eexists.
  split; [reflexivity|].
  split; [exact Hr1|]. split; [exact Hr2|].
  split; [exact Hs1|]. split; [exact Hs2|].
  (* the congruence *)
  pose proof (Z.div_mod (k2' * ec_lambda ec) n ltac:(lia)) as Ha.
  pose proof (Z.div_mod (k2' * ec_lambda ec mod n + k) n ltac:(lia)) as Hb.
  fold k1' in Hb.
  set (t := k2' * ec_lambda ec mod n) in *.
  set (qa := k2' * ec_lambda ec / n) in *.
  set (qb := (t + k) / n) in *.
  rewrite Hq1, Hq2.
  replace (k1' + q1 * n + (k2' + q2 * n) * lam)
    with (k + (q1 - qb - qa + k2' + q2 * lam) * n).
  - rewrite Z.mod_add by lia. apply Z.mod_small. exact Hk.
  - replace k1' with (t + k - n * qb) by lia.
    replace t with (k2' * ec_lambda ec - n * qa) by lia.
    ring.
Qed.

Section Tables.

Variable G : point.
Hypothesis HG : oc G.

Lemma pendo_multiple (j : Z) :
  pendo ec (pmul ec j G) = pmul ec j (pmul ec lam G).
Proof.
  destruct wei_endo_facts as (_ & _ & _ & _ & _ & _ & _ & _ & Hact).
  rewrite Hact by (apply pmul_on_curve; exact HG).
  rewrite <- !(pmul_mul ec Hassoc) by exact HG.
  f_equal. apply Z.mul_comm.
Qed.

End Tables.

(** The table of images holds the odd multiples of [(-lambda) G]. *)
Lemma endo_points_spec (j : Z) :
  ec_points ec = wge_naf_points_var ec (ec_g ec) NAF_WIDTH_PRE ->
  oc (waff (ec_g ec)) ->
  0 <= j < 2 ^ (NAF_WIDTH_PRE - 1) ->
  waff (wge_at (ec_endo_points ec) j)
  = pmul ec (2 * j + 1) (pmul ec lam (waff (ec_g ec))).
Proof.
  intros Hpts HG Hj.
  destruct wei_endo_facts as (_ & _ & _ & _ & _ & _ & Het & _).
  rewrite Het, wge_at_map.
  2:{ rewrite Hpts, wge_naf_points_var_length by (unfold NAF_WIDTH_PRE; lia).
      lia. }
  rewrite waff_endo_beta, Hpts.
  rewrite wge_naf_points_var_spec; try assumption;
    try (unfold NAF_WIDTH_PRE; lia).
  apply pendo_multiple. exact HG.
Qed.

(** The comb of [wge_jsf_points_endo]. *)
Lemma wge_jsf_points_endo_spec (p : wge_t) :
  oc (waff p) ->
  let wnd := wge_jsf_points_endo ec p in
  let A := waff p in
  let A' := pmul ec lam A in
  oc A' /\
  waff (wge_at wnd 0) = A /\
  waff (wge_at wnd 1) = padd ec A A' /\
  waff (wge_at wnd 2) = padd ec A (pneg A') /\
  waff (wge_at wnd 3) = A'.
Proof.
  intros HP wnd A A'.
  destruct wei_endo_facts as (_ & _ & _ & _ & _ & _ & _ & _ & Hact).
  assert (HA' : oc A') by (apply pmul_on_curve; exact HP).
  assert (He : waff (wge_endo_beta ec p) = A').
  { rewrite waff_endo_beta. apply Hact. exact HP. }
  split; [exact HA'|].
  unfold wnd, wge_jsf_points_endo, wge_at, wge_set. cbv zeta.
  change (Z.to_nat 0) with 0%nat. change (Z.to_nat 1) with 1%nat.
  change (Z.to_nat 2) with 2%nat. change (Z.to_nat 3) with 3%nat.
  cbn [nth].
  rewrite wge_add_var_spec, wge_sub_var_spec, He by assumption.
  repeat split; reflexivity.
Qed.

(** [wei_jmul_double_endo_var] passes its [assert]s and computes
    [k1 * G + k2 * P2]. *)
Lemma wei_jmul_double_endo_var_spec (k1 : Z) (p2 : wge_t) (k2 : Z) :
  9 <= GMP_NUMB_BITS ->
  ec_points ec = wge_naf_points_var ec (ec_g ec) NAF_WIDTH_PRE ->
  oc (waff (ec_g ec)) -> oc (waff p2) ->
  0 <= k1 < n -> 0 <= k2 < n ->
  exists R,
    wei_jmul_double_endo_var ec k1 p2 k2 = Some R /\
    jaff R = padd ec (pmul ec k1 (waff (ec_g ec))) (pmul ec k2 (waff p2)).
Proof.
  intros HL Hpts HG HP Hk1 Hk2. unfold wei_jmul_double_endo_var.
  cbv zeta. rewrite Hon. cbn [negb].
  destruct wei_endo_facts as (_ & _ & _ & _ & _ & _ & _ & Hord & _).
  pose proof (sc_limbs_pos sc Hsc) as Hlimbs.
  pose proof (sc_n_lt_base sc Hsc) as Hbase.
  pose proof (sc_n_gt_1 sc Hsc) as Hn.
  destruct (wei_endo_split_spec k1 Hk1)
    as (c1 & s1 & c2 & s2 & -> & Hc1 & Hc2 & Hs1 & Hs2 & He12).
  destruct (wei_endo_split_spec k2 Hk2)
    as (c3 & s3 & c4 & s4 & -> & Hc3 & Hc4 & Hs3 & Hs4 & He34).
  destruct (sc_maxlen_var_bound sc c1 c2 c3 c4)
    as (Hm1 & Hm2 & Hm3 & Hm4 & Hm0).
  set (max := sc_maxlen_var sc c1 c2 c3 c4 + 1) in *.
  destruct (sc_naf_var_spec sc c1 s1 NAF_WIDTH_PRE max
              ltac:(unfold NAF_WIDTH_PRE; lia) ltac:(unfold NAF_WIDTH_PRE; lia)
              Hs1 ltac:(lia) ltac:(lia) ltac:(lia))
    as (naf1 & -> & Hl1 & He1 & Hd1).
  destruct (sc_naf_var_spec sc c2 s2 NAF_WIDTH_PRE max
              ltac:(unfold NAF_WIDTH_PRE; lia) ltac:(unfold NAF_WIDTH_PRE; lia)
              Hs2 ltac:(lia) ltac:(lia) ltac:(lia))
    as (naf2 & -> & Hl2 & He2 & Hd2).
  destruct (sc_jsf_var_spec sc c3 s3 c4 s4 max Hs3 Hs4
              ltac:(lia) ltac:(lia) ltac:(lia) ltac:(lia) ltac:(lia))
    as (naf3 & -> & Hl3 & He3 & He4 & Hd3).
  eexists. split; [reflexivity|]. unfold jge_set.
  destruct (wge_jsf_points_endo_spec p2 HP) as (HA' & H30 & H31 & H32 & H33).
  cbv zeta in HA', H30, H31, H32, H33.
  set (G := waff (ec_g ec)) in *. set (A := waff p2) in *.
  assert (HG' : oc (pmul ec lam G)) by (apply pmul_on_curve; exact HG).
  replace (bits_down max) with (bits_down (Z.of_nat (Z.to_nat max)))
    by (rewrite Z2Nat.id by lia; reflexivity).
  rewrite double_endo_loop
    with (G1 := G) (G2 := pmul ec lam G) (A1 := A) (A2 := pmul ec lam A);
    try assumption; try lia.
  - (* the combination is [k1 G + k2 A] *)
    rewrite He1, He2, He3, He4. unfold plin.
    rewrite <- !(pmul_mul ec Hassoc) by assumption.
    rewrite <- !(pmul_add ec Hassoc) by assumption.
    rewrite <- (pmul_mod ec Hassoc n (s1 * c1 + s2 * c2 * lam) G)
      by (try apply Hord; assumption || lia).
    rewrite <- (pmul_mod ec Hassoc n (s3 * c3 + s4 * c4 * lam) A)
      by (try apply Hord; assumption || lia).
    rewrite He12, He34. reflexivity.
  - intros j Hj. rewrite Hpts.
    apply wge_naf_points_var_spec; try assumption.
    unfold NAF_WIDTH_PRE. lia.
  - intros j Hj. apply endo_points_spec; assumption.
  - rewrite !skipn_all2 by (rewrite ?length_map; lia).
    cbn [naf_eval]. unfold plin. rewrite !pmul_0. cbn [padd].
    apply jaff_zero.
Qed.

End EndoMul.

(** *** Both paths of the double multiplication *)

Section MulDoubleBoth.

Variable ec : wei_t.
Hypothesis Hfe : fe_wf (ec_fe ec) = true.
Hypothesis Hflags : wei_flags_wf ec = true.
Hypothesis Hcof : cofactor_ok ec.
Hypothesis Hassoc : padd_associative ec.
Hypothesis Hsc : sc_wf (ec_sc ec) = true.
Hypothesis Hendo : wei_endo_wf ec.

(** [wei_jmul_double_var] passes its [assert]s and computes
    [k1 * G + k2 * P2], with or without the endomorphism. *)
Lemma wei_jmul_double_var_spec (k1 : Z) (p2 : wge_t) (k2 : Z) :
  9 <= GMP_NUMB_BITS ->
  ec_points ec = wge_naf_points_var ec (ec_g ec) NAF_WIDTH_PRE ->
  on_curve ec (waff (ec_g ec)) = true -> on_curve ec (waff p2) = true ->
  0 <= k1 < sc_n (ec_sc ec) -> 0 <= k2 < sc_n (ec_sc ec) ->
  exists R,
    wei_jmul_double_var ec k1 p2 k2 = Some R /\
    jaff R = padd ec (pmul ec k1 (waff (ec_g ec))) (pmul ec k2 (waff p2)).
Proof.
  intros HL Hpts HG HP Hk1 Hk2. unfold wei_jmul_double_var.
  destruct (ec_endo ec) eqn:Hon.
  - apply wei_jmul_double_endo_var_spec; assumption.
  - apply wei_jmul_double_normal_var_spec; assumption.
Qed.

End MulDoubleBoth.

(* ================================================================= *)
(** ** Scalars at the ECDSA interface *)

Lemma lor_shift_add a b k :
  0 <= k -> 0 <= b < 2 ^ k -> Z.lor (Z.shiftl a k) b = a * 2 ^ k + b.
Proof.
  intros Hk Hb.
  assert (Hd : Z.land (Z.shiftl a k) b = 0).
  { apply Z.bits_inj'. intros i Hi. rewrite Z.land_spec, Z.bits_0.
    destruct (Z.lt_ge_cases i k) as [Hlt|Hge].
    - rewrite Z.shiftl_spec_low by lia. reflexivity.
    - rewrite <- (Z.mod_small b (2 ^ k)) by lia.
      rewrite Z.mod_pow2_bits_high by lia. apply andb_false_r. }
  pose proof (Z.add_lor_land (Z.shiftl a k) b) as H.
  rewrite Hd in H. rewrite Z.shiftl_mul_pow2 in * by lia. lia.
Qed.

(** The bit shift of [ecdsa_reduce] divides the big-endian value by
    [2^shift]. *)
Lemma ecdsa_reduce_shift_spec (shift : Z) (l : list byte) :
  0 < shift < 8 ->
  let st := fold_left (ecdsa_reduce_shift shift (Z.shiftl 1 shift - 1)) l
                      ([], 0) in
  be_value (fst st) = be_value l / 2 ^ shift /\
  snd st = be_value l mod 2 ^ shift /\
  length (fst st) = length l.
Proof.
  intros Hs. cbv zeta.
  assert (Hp : 0 < 2 ^ shift) by (apply Z.pow_pos_nonneg; lia).
  assert (Hp8 : 2 ^ shift * 2 ^ (8 - shift) = 256).
  { rewrite <- Z.pow_add_r by lia. replace (shift + (8 - shift)) with 8 by lia.
    reflexivity. }
  assert (Hq : 0 < 2 ^ (8 - shift)) by (apply Z.pow_pos_nonneg; lia).
  induction l as [|ch l IH] using rev_ind.
  - cbn [fold_left fst snd length]. unfold be_value. cbn [rev le_value].
    rewrite Z.div_0_l, Z.mod_0_l by lia. auto.
  - rewrite fold_left_app. cbn [fold_left].
    destruct (fold_left _ l ([], 0)) as [out cy].
    cbn [fst snd] in IH. destruct IH as (Hv & Hc & Hl).
    unfold ecdsa_reduce_shift. cbn [fst snd].
    pose proof (b2z_range ch) as Hch.
    pose proof (be_value_nonneg l) as Hl0.
    pose proof (Z.mod_pos_bound (be_value l) (2 ^ shift) Hp) as Hcy.
    pose proof (Z.div_mod (be_value l) (2 ^ shift) ltac:(lia)) as Hdm.
    pose proof (Z.div_mod (b2z ch) (2 ^ shift) ltac:(lia)) as Hdc.
    pose proof (Z.mod_pos_bound (b2z ch) (2 ^ shift) Hp) as Hcm.
    assert (Hch' : 0 <= b2z ch / 2 ^ shift < 2 ^ (8 - shift)).
    { split; [apply Z.div_pos; lia|].
      apply Z.div_lt_upper_bound; lia. }
    rewrite !be_value_snoc, Hv, length_app, length_app, Hl. cbn [length].
    rewrite Z.shiftr_div_pow2 by lia.
    rewrite lor_shift_add by lia.
    rewrite b2z_z2b, Z.mod_small by (rewrite Hc; nia).
    replace (Z.shiftl 1 shift - 1) with (Z.ones shift)
      by (rewrite Z.ones_equiv, Z.shiftl_1_l; lia).
    rewrite Z.land_ones by lia. rewrite Hc.
    repeat split.
    + apply Z.div_unique with (r := b2z ch mod 2 ^ shift); [lia|]. nia.
    + apply Z.mod_unique with
        (q := 256 * (be_value l / 2 ^ shift)
              + be_value l mod 2 ^ shift * 2 ^ (8 - shift)
              + b2z ch / 2 ^ shift); [lia|]. nia.
Qed.

Section ScalarInterface.

Variable sc : scalar_field_t.
Hypothesis Hwf : sc_wf sc = true.
Hypothesis Hraw : sc_raw_wf sc = true.

Lemma sc_raw_wf_facts :
  length (sc_raw sc) = sc_size sc /\
  bytes_value (sc_endian sc) (sc_raw sc) = sc_n sc.
Proof.
  unfold sc_raw_wf in Hraw. apply andb_true_iff in Hraw.
  destruct Hraw as [H1 H2]. apply Nat.eqb_eq in H1. apply Z.eqb_eq in H2.
  auto.
Qed.

(** [sc_import]: the value read, and whether it is below [n]. *)
Lemma sc_import_spec raw :
  (sc_size sc <= length raw)%nat ->
  sc_import sc raw
  = (bytes_value (sc_endian sc) (firstn (sc_size sc) raw)
       mod limb_base (sc_limbs sc),
     bytes_value (sc_endian sc) (firstn (sc_size sc) raw) <? sc_n sc).
Proof.
  intros Hl. destruct sc_raw_wf_facts as [Hrl Hrv].
  unfold sc_import, mpn_import.
  rewrite bytes_lt_spec; [|apply (sc_wf_endian sc Hwf)|exact Hl|lia].
  rewrite (firstn_all2 (sc_raw sc)) by lia. rewrite Hrv. reflexivity.
Qed.

Lemma sc_import_ok raw r :
  (sc_size sc <= length raw)%nat ->
  sc_import sc raw = (r, true) ->
  r = bytes_value (sc_endian sc) (firstn (sc_size sc) raw) /\
  0 <= r < sc_n sc.
Proof.
  intros Hl H. rewrite sc_import_spec in H by exact Hl.
  injection H as Hr Hlt. apply Z.ltb_lt in Hlt.
  pose proof (sc_n_lt_base sc Hwf) as HnB.
  pose proof (import_value_range raw (sc_size sc) (sc_endian sc)) as Hv.
  fold (bytes_value (sc_endian sc) (firstn (sc_size sc) raw)) in Hv.
  rewrite Z.mod_small in Hr by lia. subst r. lia.
Qed.

(** [sc_import_weak] on a value of at most [bits] bits. *)
Lemma sc_import_weak_spec raw :
  bytes_value (sc_endian sc) (firstn (sc_size sc) raw) < 2 ^ sc_bits sc ->
  sc_import_weak sc raw
  = (bytes_value (sc_endian sc) (firstn (sc_size sc) raw) mod sc_n sc,
     bytes_value (sc_endian sc) (firstn (sc_size sc) raw) <? sc_n sc).
Proof.
  intros Hlt.
  pose proof (sc_n_gt_1 sc Hwf) as Hn. pose proof (sc_n_lt_base sc Hwf) as HnB.
  pose proof (sc_wf_n sc Hwf) as Hnb. pose proof (sc_wf_bits sc Hwf) as Hb.
  pose proof (sc_bits_le_limbs sc Hwf) as HbL.
  pose proof (sc_limbs_pos sc Hwf) as HL.
  unfold sc_import_weak, mpn_import, mpn_sub_n, mpn_cnd_select.
  pose proof (import_value_range raw (sc_size sc) (sc_endian sc)) as Hv.
  unfold bytes_value in *.
  set (v := if sc_endian sc =? 1 then be_value (firstn (sc_size sc) raw)
            else le_value (firstn (sc_size sc) raw)) in *.
  assert (Hpow : 2 ^ sc_bits sc = 2 * 2 ^ (sc_bits sc - 1)).
  { rewrite <- Z.pow_succ_r by lia. f_equal. lia. }
  assert (HsB : 2 ^ sc_bits sc <= limb_base (sc_limbs sc))
    by (apply Z.pow_le_mono_r; lia).
  rewrite (Z.mod_small v (limb_base _)) by lia.
  rewrite !(mpn_get_small v), (mpn_get_small (sc_n sc)) by lia.
  destruct (Z.ltb_spec (v - sc_n sc) 0) as [Hneg|Hpos]; cbn [Z.eqb negb].
  - destruct (Z.ltb_spec v (sc_n sc)); [|lia].
    rewrite Z.mod_small by lia. reflexivity.
  - destruct (Z.ltb_spec v (sc_n sc)); [lia|].
    rewrite (Z.mod_small (v - sc_n sc)) by lia.
    rewrite mpn_get_small by lia.
    f_equal. apply Z.mod_unique with (q := 1); lia.
Qed.

Lemma invmod_range a n : 1 < n -> 0 <= Z.invmod a n < n.
Proof.
  intros Hn. rewrite <- Z.mod_invmod. apply Z.mod_pos_bound. lia.
Qed.

Lemma sc_invert_var_spec s :
  Z.prime (sc_n sc) -> 0 < s < sc_n sc ->
  sc_invert_var sc s = (Z.invmod s (sc_n sc), true).
Proof.
  intros Hp Hs. pose proof (sc_n_lt_base sc Hwf) as HnB.
  unfold sc_invert_var, mpn_invert_n. cbv zeta.
  rewrite !mpn_get_small by lia.
  assert (Hg : Z.gcd s (sc_n sc) = 1).
  { rewrite Z.gcd_comm. apply Z.coprime_prime_small; [exact Hp|lia]. }
  rewrite Hg. reflexivity.
Qed.

Lemma zn_div_spec a b :
  0 <= a < sc_n sc -> 0 <= b < sc_n sc ->
  zn_div (sc_n sc) a b = a * Z.invmod b (sc_n sc) mod sc_n sc.
Proof.
  intros Ha Hb. unfold zn_div.
  rewrite Zmod.unsigned_mdiv, !Zmod.unsigned_of_Z_small by lia.
  reflexivity.
Qed.

Lemma zn_div_range a b : 0 <= zn_div (sc_n sc) a b < sc_n sc.
Proof.
  pose proof (sc_n_gt_1 sc Hwf) as Hn. unfold zn_div.
  apply Zmod.unsigned_pos_bound. lia.
Qed.

(** The quotients [u1 = m / s] and [u2 = r / s] as the code computes
    them. *)
Lemma sc_mul_invert_var a s :
  Z.prime (sc_n sc) -> 0 <= a < sc_n sc -> 0 < s < sc_n sc ->
  sc_mul sc a (fst (sc_invert_var sc s)) = zn_div (sc_n sc) a s.
Proof.
  intros Hp Ha Hs. pose proof (sc_n_gt_1 sc Hwf) as Hn.
  rewrite sc_invert_var_spec by assumption. cbn [fst].
  rewrite sc_mul_spec; [|exact Hwf|exact Ha|apply invmod_range; lia].
  rewrite zn_div_spec by lia. reflexivity.
Qed.

End ScalarInterface.

Section FieldScalarInterface.

Variable ec : wei_t.
Hypothesis Hec : wei_fields_wf ec = true.
Hypothesis Hraw : sc_raw_wf (ec_sc ec) = true.

(** [sc_set_fe]: the residue modulo [n], and whether the element was
    already below [n]. *)
Lemma sc_set_fe_spec (x : fe_t) :
  sc_set_fe (ec_fe ec) (ec_sc ec) x
  = (Zmod.to_Z x mod sc_n (ec_sc ec), Zmod.to_Z x <? sc_n (ec_sc ec)).
Proof.
  destruct (wei_fields_wf_facts ec Hec) as (Hfe & Hsc & Hsz & Hen & _ & _).
  destruct (sc_raw_wf_facts (ec_sc ec) Hraw) as [Hrl Hrv].
  pose proof (fe_export_value (ec_fe ec) Hfe x) as Hv.
  pose proof (length_fe_export (ec_fe ec) x) as Hl.
  rewrite <- Hsz, <- Hen in Hv.
  unfold sc_set_fe, sc_import_reduce.
  destruct (Z.eqb_spec (Z.land (sc_bits (ec_sc ec)) 7) 0) as [H8|H8].
  - rewrite sc_import_weak_spec by
      (try assumption;
       pose proof (import_value_range (fe_export (ec_fe ec) x)
                     (sc_size (ec_sc ec)) (sc_endian (ec_sc ec))) as Hr;
       fold (bytes_value (sc_endian (ec_sc ec))
               (firstn (sc_size (ec_sc ec)) (fe_export (ec_fe ec) x))) in Hr;
       change 7 with (Z.ones 3) in H8; rewrite Z.land_ones in H8 by lia;
       change (2 ^ 3) with 8 in H8;
       pose proof (sc_wf_size (ec_sc ec) Hsc) as Hs;
       pose proof (Z.div_mod (sc_bits (ec_sc ec)) 8 ltac:(lia));
       pose proof (Z.div_mod (sc_bits (ec_sc ec) + 7) 8 ltac:(lia));
       pose proof (Z.mod_pos_bound (sc_bits (ec_sc ec) + 7) 8 ltac:(lia));
       replace (sc_bits (ec_sc ec)) with (8 * Z.of_nat (sc_size (ec_sc ec)))
         by lia;
       lia).
    rewrite Hv. reflexivity.
  - apply injective_projections.
    + rewrite sc_import_strong_spec by assumption. cbn [fst].
      fold (bytes_value (sc_endian (ec_sc ec))
              (firstn (sc_size (ec_sc ec)) (fe_export (ec_fe ec) x))).
      rewrite Hv. reflexivity.
    + unfold sc_import_strong. cbn [snd].
      rewrite bytes_lt_spec;
        [|apply (sc_wf_endian _ Hsc)|rewrite Hl; lia|lia].
      rewrite (firstn_all2 (sc_raw (ec_sc ec))) by lia.
      rewrite Hrv, Hv. reflexivity.
Qed.

End FieldScalarInterface.

Lemma le_value_zeros k : le_value (repeat x00 k) = 0.
Proof.
  induction k as [|k IH]; [reflexivity|].
  cbn [repeat le_value]. rewrite IH. reflexivity.
Qed.

Lemma be_value_zeros_app k l : be_value (repeat x00 k ++ l) = be_value l.
Proof.
  unfold be_value. rewrite rev_app_distr, le_value_app.
  replace (rev (repeat x00 k)) with (repeat x00 k).
  - rewrite le_value_zeros. lia.
  - induction k as [|k IH]; [reflexivity|].
    cbn [repeat rev]. rewrite <- IH. rewrite <- repeat_cons. reflexivity.
Qed.

Section EcdsaReduce.

Variable ec : wei_t.
Hypothesis Hsc : sc_wf (ec_sc ec) = true.
Hypothesis Hbe : sc_endian (ec_sc ec) = 1.

(** [ecdsa_reduce] passes its [assert]s and yields a reduced scalar. *)
Lemma ecdsa_reduce_spec (msg : list byte) :
  exists m ok,
    ecdsa_reduce ec msg = Some (m, ok) /\ 0 <= m < sc_n (ec_sc ec).
Proof.
  set (sc := ec_sc ec) in *.
  pose proof (sc_size_bits sc Hsc) as Hsz.
  pose proof (sc_wf_bits sc Hsc) as Hb.
  pose proof (sc_n_gt_1 sc Hsc) as Hn.
  unfold ecdsa_reduce. cbv zeta. fold sc. rewrite Hbe. cbn [Z.eqb Pos.eqb negb].
  set (msg_len := Nat.min (length msg) (sc_size sc)).
  set (tmp := repeat x00 (sc_size sc - msg_len) ++ firstn msg_len msg).
  assert (Hml : (msg_len <= sc_size sc)%nat) by (unfold msg_len; lia).
  assert (Hfl : length (firstn msg_len msg) = msg_len).
  { rewrite length_firstn. unfold msg_len. lia. }
  assert (Htl : length tmp = sc_size sc).
  { unfold tmp. rewrite length_app, repeat_length, Hfl. lia. }
  assert (Hweak : forall t, length t = sc_size sc ->
                    be_value t < 2 ^ sc_bits sc ->
                    exists m ok, Some (sc_import_weak sc t) = Some (m, ok) /\
                                 0 <= m < sc_n sc).
  { intros t Ht Hv.
    pose proof (sc_import_weak_spec sc Hsc t) as Hw.
    unfold bytes_value in Hw. rewrite Hbe in Hw. cbn [Z.eqb Pos.eqb] in Hw.
    rewrite firstn_all2 in Hw by lia. rewrite (Hw Hv).
    eexists _, _. split; [reflexivity|]. apply Z.mod_pos_bound. lia. }
  destruct (Z.ltb_spec (sc_bits sc) (Z.of_nat msg_len * 8)) as [Hlt|Hge].
  - assert (Hms : msg_len = sc_size sc) by lia.
    set (shift := Z.of_nat msg_len * 8 - sc_bits sc).
    assert (Hsh : 0 < shift < 8) by (unfold shift; lia).
    destruct (Z.ltb_spec 0 shift); [|lia].
    destruct (Z.ltb_spec shift 8); [|lia]. cbn [negb].
    destruct (ecdsa_reduce_shift_spec shift tmp Hsh) as (Hv & _ & Hl).
    apply Hweak; [lia|]. rewrite Hv.
    pose proof (be_value_range tmp) as Hr. rewrite Htl in Hr.
    apply Z.div_lt_upper_bound; [apply Z.pow_pos_nonneg; lia|].
    rewrite <- Z.pow_add_r by lia.
    replace (shift + sc_bits sc) with (8 * Z.of_nat (sc_size sc))
      by (unfold shift; lia).
    rewrite Z.pow_mul_r by lia. change (2 ^ 8) with 256. lia.
  - apply Hweak; [exact Htl|].
    unfold tmp. rewrite be_value_zeros_app.
    pose proof (be_value_range (firstn msg_len msg)) as Hr.
    rewrite Hfl in Hr.
    assert (256 ^ Z.of_nat msg_len <= 2 ^ sc_bits sc).
    { change 256 with (2 ^ 8). rewrite <- Z.pow_mul_r by lia.
      apply Z.pow_le_mono_r; lia. }
    lia.
Qed.

End EcdsaReduce.

(* ================================================================= *)
(** ** Points at the ECDSA interface *)

Section PointInterface.

Variable ec : wei_t.
Hypothesis Hfe : fe_wf (ec_fe ec) = true.
Hypothesis Hback : fe_backend_wf (ec_fe ec).

Local Open Scope Zmod_scope.

(** Whatever the implementation, a reported square root is one. *)
Lemma fe_sqrt_sound (a y : fe_t) :
  fe_sqrt (ec_fe ec) a = Some (y, true) -> y * y = a.
Proof.
  destruct Hback as [_ Hsq]. unfold fe_sqrt.
  destruct (fe_sqrt_fn (ec_fe ec)) as [f|] eqn:Ef.
  - intros H. injection H as H. destruct (Hsq f eq_refl a) as [Hs _].
    rewrite H in Hs. cbn [fst snd] in Hs. auto.
  - destruct (Z.land (mpn_limb (fe_plimbs (ec_fe ec)) 0) 3 =? 3).
    + intros H. injection H as <- H. apply fe_equal_iff in H. exact H.
    + destruct (Z.land (mpn_limb (fe_plimbs (ec_fe ec)) 0) 7 =? 5);
        [|discriminate].
      intros H. injection H as <- H. apply fe_equal_iff in H. exact H.
Qed.

Lemma wge_set_x_on_curve (x : fe_t) (sign : option bool) (R : wge_t) :
  wge_set_x ec x sign = Some (R, true) ->
  wge_inf R = false /\ wge_x R = x /\ on_curve ec (waff R) = true.
Proof.
  unfold wge_set_x.
  destruct (fe_sqrt (ec_fe ec) _) as [[y ret]|] eqn:Es; [|discriminate].
  intros H. injection H as <- ->. cbn [wge_inf wge_x].
  split; [reflexivity|]. split; [reflexivity|].
  apply fe_sqrt_sound in Es. unfold waff. cbn [wge_inf wge_x wge_y].
  apply on_curve_iff.
  assert (Hy : forall y' : fe_t, y' = y \/ y' = fe_neg y ->
                 y' * y' = x * x * x + ec_a ec * x + ec_b ec).
  { intros y' [-> | ->]; revert Es; fe_unfold; intros Es.
    - rewrite Es. ring.
    - transitivity (y * y); [ring|]. rewrite Es. ring. }
  destruct sign as [s|]; apply Hy; [apply fe_set_odd_cases|left; reflexivity].
Qed.

Lemma wge_import_on_curve (raw : list byte) (len : nat) (A : wge_t) :
  wge_import ec raw len = Some (Some A) ->
  wge_inf A = false /\ on_curve ec (waff A) = true.
Proof.
  unfold wge_import. destruct raw as [|form rest]; destruct len as [|len];
    try discriminate.
  cbv zeta.
  destruct ((b2z form =? 2) || (b2z form =? 3)).
  - destruct (negb _); [discriminate|].
    destruct (fe_import (ec_fe ec) rest) as [x ok].
    destruct ok; cbn [negb]; [|discriminate].
    destruct (wge_set_x ec x _) as [[R ret]|] eqn:Ex; [|discriminate].
    destruct ret; cbn [negb]; [|discriminate].
    intros H. injection H as <-.
    destruct (wge_set_x_on_curve _ _ _ Ex) as (H1 & _ & H2). auto.
  - destruct ((b2z form =? 4) || (b2z form =? 6) || (b2z form =? 7));
      [|discriminate].
    destruct (negb _); [discriminate|].
    destruct (fe_import (ec_fe ec) rest) as [x ok].
    destruct ok; cbn [negb]; [|discriminate].
    destruct (fe_import (ec_fe ec) (skipn _ rest)) as [y ok].
    destruct ok; cbn [negb]; [|discriminate].
    destruct (negb (b2z form =? 4) && _); [discriminate|].
    destruct (wge_validate ec _) eqn:Ev; cbn [negb]; [|discriminate].
    intros H. injection H as <-. split; [reflexivity|].
    rewrite <- wge_validate_on_curve. exact Ev.
Qed.

End PointInterface.

(* ================================================================= *)
(** ** ECDSA verification *)

Section EcdsaVerify.

Variable ec : wei_t.
Hypothesis Hwf : wei_wf ec.
Hypothesis Hendo : wei_endo_wf ec.
Hypothesis Hcof : cofactor_ok ec.
Hypothesis Hassoc : padd_associative ec.
Hypothesis Hprime : Z.prime (sc_n (ec_sc ec)).
Hypothesis Hback : fe_backend_wf (ec_fe ec).
Hypothesis Hlimb : 9 <= GMP_NUMB_BITS.

Lemma wei_wf_facts :
  fe_wf (ec_fe ec) = true /\ sc_wf (ec_sc ec) = true /\
  sc_size (ec_sc ec) = fe_size (ec_fe ec) /\
  sc_endian (ec_sc ec) = 1 /\
  sc_limbs (ec_sc ec) <= fe_limbs (ec_fe ec).
Proof.
  destruct Hwf as (Hf & _ & _ & Hbe & _).
  destruct (wei_fields_wf_facts ec Hf) as (H1 & H2 & H3 & _ & H5 & _).
  auto.
Qed.

(** The checks of [ecdsa_verify] and the point it forms. *)
Lemma ecdsa_verify_point_spec (msg sig pub : list byte) (A : wge_t)
      (m : Z) (ok : bool) :
  ecdsa_reduce ec msg = Some (m, ok) -> 0 <= m < sc_n (ec_sc ec) ->
  (2 * sc_size (ec_sc ec) <= length sig)%nat ->
  wge_import ec pub (length pub) = Some (Some A) ->
  let n := sc_n (ec_sc ec) in
  let r := be_value (firstn (sc_size (ec_sc ec)) sig) in
  let s := be_value (firstn (sc_size (ec_sc ec))
                            (skipn (sc_size (ec_sc ec)) sig)) in
  if (r =? 0) || (s =? 0) || (n <=? r) || (n <=? s) || (n / 2 <? s)
  then ecdsa_verify_point ec msg sig pub = Return None
  else exists Rj,
      ecdsa_verify_point ec msg sig pub = Return (Some (Rj, r)) /\
      jaff Rj = ecdsa_point ec m r s (waff A).
Proof.
  intros Hm Hmr Hlen Himp n r s.
  destruct Hwf as (Hf & Hflags & Hraw & Hbe & [_ Hpts] & Hginf & Hg).
  destruct wei_wf_facts as (Hfe & Hsc & Hsz & _ & Hlimbs).
  destruct (wge_import_on_curve ec Hback _ _ _ Himp) as [HAinf HA].
  pose proof (sc_n_lt_base _ Hsc) as HnB.
  pose proof (sc_n_gt_1 _ Hsc) as Hn1.
  unfold ecdsa_verify_point. cbv zeta. rewrite Hm, Himp.
  rewrite !sc_import_spec by
    (try assumption; rewrite ?length_skipn; lia).
  unfold bytes_value. rewrite Hbe. cbn [Z.eqb Pos.eqb].
  fold r s n.
  pose proof (be_value_nonneg (firstn (sc_size (ec_sc ec)) sig)) as Hr0.
  pose proof (be_value_nonneg
                (firstn (sc_size (ec_sc ec))
                   (skipn (sc_size (ec_sc ec)) sig))) as Hs0.
  fold r in Hr0. fold s in Hs0.
  destruct (Z.ltb_spec r n) as [Hrn|Hrn]; cbn [negb].
  2:{ destruct (Z.leb_spec n r); [|lia].
      rewrite !orb_true_r. cbn [orb]. reflexivity. }
  destruct (Z.ltb_spec s n) as [Hsn|Hsn]; cbn [negb].
  2:{ destruct (Z.leb_spec n s); [|lia].
      rewrite !orb_true_r. cbn [orb]. reflexivity. }
  rewrite !(Z.mod_small _ (limb_base _)) by lia.
  rewrite !sc_is_zero_spec by assumption.
  rewrite !mpn_get_small by lia.
  destruct (Z.eqb_spec r 0) as [Hr|Hr]; [reflexivity|].
  destruct (Z.eqb_spec s 0) as [Hs|Hs]; [reflexivity|].
  destruct (Z.leb_spec n r); [lia|]. destruct (Z.leb_spec n s); [lia|].
  cbn [orb].
  rewrite sc_is_high_spec by (try assumption; lia). fold n.
  destruct (Z.ltb_spec (n / 2) s) as [Hhi|Hhi]; [reflexivity|].
  rewrite !sc_mul_invert_var by (try assumption; lia).
  assert (Hmul : exists Rj,
            wei_jmul_double_var ec (zn_div (sc_n (ec_sc ec)) m s) A
                                (zn_div (sc_n (ec_sc ec)) r s) = Some Rj /\
            jaff Rj = padd ec (pmul ec (zn_div (sc_n (ec_sc ec)) m s)
                                       (waff (ec_g ec)))
                              (pmul ec (zn_div (sc_n (ec_sc ec)) r s)
                                       (waff A))).
  { apply wei_jmul_double_var_spec; try assumption;
      apply zn_div_range; assumption. }
  destruct Hmul as (Rj & HR & HRj).
  rewrite HR. exists Rj. split; [reflexivity|].
  exact HRj.
Qed.

Lemma waff_some (p : wge_t) (x y : fe_t) :
  waff p = Some (x, y) -> wge_x p = x.
Proof.
  unfold waff. destruct (wge_inf p); [discriminate|].
  intros H. injection H as H _. exact H.
Qed.

(** C4: [ecdsa_verify] rejects a signature whose [r] or [s] is zero, not
    below [n], or whose [s] exceeds [n / 2]; otherwise it accepts exactly
    when [R = (m / s) G + (r / s) A] is finite and [x(R) = r (mod n)].
    This holds for the build that affinizes [R] and for the
    [ECC_WITH_TRICK] build that compares through [jge_equal_r] without
    affinizing, and on both paths of [wei_jmul_double_var]: the
    interleaved NAFs, and the endomorphism path that the definitions
    with [endo] set (secp256k1) take. *)
Theorem ecdsa_verify_decides (msg sig pub : list byte) (A : wge_t)
        (fuel : nat) :
  (2 * sc_size (ec_sc ec) <= length sig)%nat ->
  wge_import ec pub (length pub) = Some (Some A) ->
  fe_p <= Z.of_nat fuel * sc_n (ec_sc ec) ->
  let r := be_value (firstn (sc_size (ec_sc ec)) sig) in
  let s := be_value (firstn (sc_size (ec_sc ec))
                            (skipn (sc_size (ec_sc ec)) sig)) in
  exists m ok,
    ecdsa_reduce ec msg = Some (m, ok) /\
    0 <= m < sc_n (ec_sc ec) /\
    ecdsa_verify ec msg sig pub
    = Return (ecdsa_verdict ec m r s (waff A)) /\
    (sc_n (ec_sc ec) <= fe_p ->
     ecdsa_verify_trick ec fuel msg sig pub
     = Return (ecdsa_verdict ec m r s (waff A))).
Proof.
  intros Hlen Himp Hfuel r s.
  destruct Hwf as (Hf & Hflags & Hraw & Hbe & _).
  destruct wei_wf_facts as (Hfe & Hsc & Hsz & _ & Hlimbs).
  pose proof (sc_n_lt_base _ Hsc) as HnB.
  destruct (ecdsa_reduce_spec ec Hsc Hbe msg) as (m & ok & Hm & Hmr).
  exists m, ok. split; [exact Hm|]. split; [exact Hmr|].
  pose proof (ecdsa_verify_point_spec msg sig pub A m ok Hm Hmr Hlen Himp)
    as Hp.
  cbv zeta in Hp. fold r s in Hp.
  unfold ecdsa_verify, ecdsa_verify_trick, ecdsa_verdict. cbv zeta.
  destruct ((r =? 0) || (s =? 0) || (sc_n (ec_sc ec) <=? r)
            || (sc_n (ec_sc ec) <=? s) || (sc_n (ec_sc ec) / 2 <? s)) eqn:Ebad.
  { rewrite Hp. split; [reflexivity|]. intros _. reflexivity. }
  destruct Hp as (Rj & -> & HRj).
  apply orb_false_iff in Ebad. destruct Ebad as [Ebad _].
  apply orb_false_iff in Ebad. destruct Ebad as [Ebad _].
  apply orb_false_iff in Ebad. destruct Ebad as [Ebad Ern].
  apply orb_false_iff in Ebad. destruct Ebad as [Er0 _].
  apply Z.eqb_neq in Er0. apply Z.leb_gt in Ern.
  pose proof (be_value_nonneg (firstn (sc_size (ec_sc ec)) sig)) as Hr0.
  fold r in Hr0.
  unfold ecdsa_accepts. rewrite <- HRj.
  unfold jge_is_zero.
  destruct (fe_is_zero_spec (jge_z Rj)) as [Ez|Ez].
  - rewrite (jaff_inf Rj Ez). cbn [point_x_is].
    split; [reflexivity|]. intros _.
    unfold jge_equal_r, jge_is_zero. cbv zeta.
    destruct (Z.leb_spec (sc_limbs (ec_sc ec)) (fe_limbs (ec_fe ec)));
      [|lia].
    cbn [negb].
    replace (fe_is_zero (jge_z Rj)) with true
      by (symmetry; apply fe_is_zero_iff; exact Ez).
    reflexivity.
  - destruct (jaff_finite Rj Ez) as (x & y & HP & _ & _).
    split.
    + pose proof (jge_to_wge_var_spec ec Hfe Rj) as Hw. rewrite HP in Hw.
      rewrite (waff_some _ _ _ Hw).
      rewrite (sc_set_fe_spec ec Hf Hraw). cbn [fst].
      rewrite HP. cbn [point_x_is].
      rewrite sc_equal_spec by assumption.
      pose proof (Z.mod_pos_bound (Zmod.to_Z x) (sc_n (ec_sc ec))
                    ltac:(lia)) as Hx.
      rewrite !mpn_get_small by lia.
      rewrite Z.eqb_sym. reflexivity.
    + intros Hnp.
      rewrite (jge_equal_r_spec ec Hf Rj r fuel); try assumption; try lia.
      * destruct (Z.ltb_spec r fe_p); [|lia].
        rewrite HP. cbn [point_x_is].
        unfold jaff in HP.
        destruct (fe_is_zero (jge_z Rj)); [discriminate|].
        injection HP as <- _. reflexivity.
      * unfold jge_is_zero.
        destruct (fe_is_zero_spec (jge_z Rj)); [contradiction|reflexivity].
Qed.

End EcdsaVerify.

(* ================================================================= *)
(** ** The group facts by enumeration on small fields *)

Lemma upto_In (n i : Z) : In i (upto n) <-> 0 <= i < n.
Proof.
  unfold upto. rewrite in_map_iff. split.
  - intros (k & <- & Hk). apply in_seq in Hk. lia.
  - intros Hi. exists (Z.to_nat i). split; [lia|]. apply in_seq. lia.
Qed.

Lemma all_points_complete (P : point) : In P all_points.
Proof.
  unfold all_points. destruct P as [[x y]|]; [right|left; reflexivity].
  apply in_flat_map. exists (Zmod.to_Z x). split.
  - apply upto_In. apply Zmod.unsigned_pos_bound. lia.
  - apply in_map_iff. exists (Zmod.to_Z y). split.
    + rewrite !Zmod.of_Z_unsigned. reflexivity.
    + apply upto_In. apply Zmod.unsigned_pos_bound. lia.
Qed.

Lemma point_eqb_eq (P Q : point) : point_eqb P Q = true -> P = Q.
Proof.
  destruct P as [[x1 y1]|], Q as [[x2 y2]|]; cbn [point_eqb];
    try discriminate; [|reflexivity].
  intros H. apply andb_true_iff in H. destruct H as [Hx Hy].
  apply fe_equal_iff in Hx. apply fe_equal_iff in Hy. subst. reflexivity.
Qed.

Lemma curve_points_In (ec : wei_t) (P : point) :
  on_curve ec P = true -> In P (curve_points ec).
Proof.
  intros H. apply filter_In. split; [apply all_points_complete|exact H].
Qed.

Lemma padd_associative_checked (ec : wei_t) :
  padd_associative_check ec = true -> padd_associative ec.
Proof.
  unfold padd_associative_check. cbv zeta. intros H P Q R HP HQ HR.
  rewrite forallb_forall in H.
  specialize (H P (curve_points_In ec P HP)).
  rewrite forallb_forall in H.
  specialize (H Q (curve_points_In ec Q HQ)).
  rewrite forallb_forall in H.
  specialize (H R (curve_points_In ec R HR)).
  apply point_eqb_eq. exact H.
Qed.

Lemma cofactor_checked (ec : wei_t) :
  cofactor_check ec = true -> cofactor_ok ec.
Proof.
  unfold cofactor_check. intros H Hh x.
  apply orb_true_iff in H. destruct H as [H|H]; [apply Z.ltb_lt in H; lia|].
  rewrite forallb_forall in H.
  specialize (H (Zmod.to_Z x)).
  rewrite Zmod.of_Z_unsigned in H. apply negb_true_iff. apply H.
  apply upto_In. apply Zmod.unsigned_pos_bound. lia.
Qed.

Lemma endo_action_checked (ec : wei_t) :
  endo_action_check ec = true ->
  forall P : point,
    on_curve ec P = true ->
    pmul ec (sc_n (ec_sc ec)) P = None /\
    pendo ec P = pmul ec (sc_n (ec_sc ec) - ec_lambda ec) P.
Proof.
  unfold endo_action_check. cbv zeta. intros H P HP.
  rewrite forallb_forall in H.
  specialize (H P (curve_points_In ec P HP)).
  apply andb_true_iff in H. destruct H as [H1 H2].
  split; apply point_eqb_eq; assumption.
Qed.

(* ================================================================= *)
(** ** Fixed-base multiplication with the window table *)

Lemma wge_select_spec (a b : wge_t) (flag : bool) :
  wge_select a b flag = if flag then b else a.
Proof. destruct a, b, flag; reflexivity. Qed.

Lemma wge_lookup_loop (points : list wge_t) (base b : Z) (l : list Z)
      (p : wge_t) :
  fold_left (fun p j => wge_select p (wge_at points (base + j)) (j =? b)) l p
  = if existsb (fun j => j =? b) l then wge_at points (base + b) else p.
Proof.
  revert p. induction l as [|j l IH]; intros p; [reflexivity|].
  cbn [fold_left existsb]. rewrite IH, wge_select_spec.
  destruct (Z.eqb_spec j b) as [->|Hj]; cbn [orb].
  - destruct (existsb _ l); reflexivity.
  - reflexivity.
Qed.

(** The constant-time scan returns [points[base + b]]. *)
Lemma wge_lookup_spec (points : list wge_t) (base b : Z) (p : wge_t) :
  0 <= b < WND_SIZE ->
  wge_lookup points base b p = wge_at points (base + b).
Proof.
  intros Hb. unfold wge_lookup. rewrite wge_lookup_loop.
  replace (existsb (fun j => j =? b) (upto WND_SIZE)) with true;
    [reflexivity|].
  symmetry. apply existsb_exists. exists b. split; [|apply Z.eqb_refl].
  apply upto_In. exact Hb.
Qed.

(** A window of [w] bits at a position that is a multiple of [w], when
    limbs hold a whole number of windows. *)
Lemma sc_get_bits_spec (a i w : Z) :
  0 < w -> 0 <= i -> (GMP_NUMB_BITS mod w = 0) -> (i mod w = 0) ->
  sc_get_bits a i w = (a / 2 ^ i) mod 2 ^ w.
Proof.
  intros Hw Hi HL Hiw. unfold sc_get_bits. cbv zeta.
  replace (Z.shiftl 1 w - 1) with (Z.ones w)
    by (rewrite Z.ones_equiv, Z.shiftl_1_l; lia).
  rewrite Z.land_ones by lia.
  assert (Hq : 0 <= i / GMP_NUMB_BITS) by (apply Z.div_pos; lia).
  pose proof (Z.mod_pos_bound i GMP_NUMB_BITS ltac:(lia)) as Hr.
  pose proof (Z.div_mod i GMP_NUMB_BITS ltac:(lia)) as Hdm.
  (* the window does not straddle a limb *)
  assert (Hfit : i mod GMP_NUMB_BITS + w <= GMP_NUMB_BITS).
  { apply Z.mod_divide in HL; [|lia]. apply Z.mod_divide in Hiw; [|lia].
    destruct HL as [cL HL]. destruct Hiw as [ci Hci].
    set (q := i / GMP_NUMB_BITS) in *. set (r := i mod GMP_NUMB_BITS) in *.
    set (c := ci - cL * q).
    assert (Hrc : r = c * w).
    { unfold c. rewrite Z.mul_sub_distr_r, <- Hci.
      replace (cL * q * w) with (cL * w * q) by ring. rewrite <- HL. lia. }
    assert (Hc : c < cL).
    { apply (Z.mul_lt_mono_pos_r w); [lia|]. rewrite <- Hrc, <- HL. lia. }
    assert (Hc1 : (c + 1) * w <= cL * w)
      by (apply Z.mul_le_mono_nonneg_r; lia).
    rewrite Hrc, HL. lia. }
  apply Z.bits_inj'. intros j Hj.
  rewrite !Z.testbit_mod_pow2 by lia.
  rewrite Z.shiftr_spec, mpn_limb_testbit by lia.
  rewrite Z.div_pow2_bits by lia.
  destruct (Z.ltb_spec j w) as [Hjw|Hjw]; [|reflexivity]. cbn [andb].
  destruct (Z.ltb_spec (j + i mod GMP_NUMB_BITS) GMP_NUMB_BITS); [|lia].
  f_equal. lia.
Qed.

Section MulGFacts.

Variable ec : wei_t.
Hypothesis Hfe : fe_wf (ec_fe ec) = true.
Hypothesis Hflags : wei_flags_wf ec = true.
Hypothesis Hcof : cofactor_ok ec.
Hypothesis Hassoc : padd_associative ec.

Local Abbreviation oc P := (on_curve ec P = true) (only parsing).

Lemma length_wge_chain_var (g prev : wge_t) (n : nat) :
  length (wge_chain_var ec g prev n) = n.
Proof.
  revert prev. induction n as [|n IH]; intros prev; [reflexivity|].
  cbn [wge_chain_var length]. rewrite IH. reflexivity.
Qed.

(** A row of the window table: [row[j] = j * g]. *)
Lemma wge_wnd_row_spec (g : wge_t) (j : nat) :
  oc (waff g) -> (j < 16)%nat ->
  waff (nth j (wge_zero :: wge_chain_var ec g wge_zero 15) wge_zero)
  = pmul ec (Z.of_nat j) (waff g).
Proof.
  intros Hg Hj. destruct j as [|j]; cbn [nth].
  - rewrite waff_zero, pmul_0. reflexivity.
  - rewrite (wge_chain_var_spec ec Hfe Hcof Hassoc g 15 Hg wge_zero j);
      [|rewrite waff_zero; reflexivity|lia].
    rewrite waff_zero. reflexivity.
Qed.

Lemma wge_dbl4_spec (g : wge_t) :
  oc (waff g) ->
  waff (wge_dbl_var ec (wge_dbl_var ec (wge_dbl_var ec (wge_dbl_var ec g))))
  = pmul ec 16 (waff g).
Proof.
  intros Hg.
  assert (Hd : forall k (q : wge_t),
             waff q = pmul ec k (waff g) ->
             waff (wge_dbl_var ec q) = pmul ec (2 * k) (waff g)).
  { intros k q Hq. rewrite (wge_dbl_var_spec ec Hfe Hcof)
      by (rewrite Hq; apply pmul_on_curve; assumption).
    rewrite Hq. symmetry. apply pmul_double; assumption. }
  change 16 with (2 * (2 * (2 * (2 * 1)))).
  do 4 apply Hd. symmetry. apply pmul_1.
Qed.

(** [windows[i * 16 + j] = j * 16^i * g] *)
Lemma wge_wnd_steps_var_spec (steps : nat) :
  forall (g : wge_t) (i j : nat),
    oc (waff g) -> (i < steps)%nat -> (j < 16)%nat ->
    waff (nth (i * 16 + j) (wge_wnd_steps_var ec g steps) wge_zero)
    = pmul ec (Z.of_nat j * 16 ^ Z.of_nat i) (waff g).
Proof.
  induction steps as [|steps IH]; intros g i j Hg Hi Hj; [lia|].
  cbn [wge_wnd_steps_var]. cbv zeta.
  change (Z.to_nat WND_SIZE - 1)%nat with 15%nat.
  set (row := wge_zero :: wge_chain_var ec g wge_zero 15).
  assert (Hrow : length row = 16%nat).
  { unfold row. cbn [length]. rewrite length_wge_chain_var. reflexivity. }
  destruct i as [|i].
  - rewrite app_nth1 by (rewrite Hrow; lia).
    cbn [Nat.mul Nat.add]. unfold row. rewrite wge_wnd_row_spec by assumption.
    change (Z.of_nat 0) with 0. rewrite Z.pow_0_r, Z.mul_1_r. reflexivity.
  - rewrite app_nth2 by (rewrite Hrow; lia).
    replace (S i * 16 + j - length row)%nat with (i * 16 + j)%nat
      by (rewrite Hrow; lia).
    rewrite IH; [| |lia|assumption].
    + rewrite wge_dbl4_spec by assumption.
      rewrite <- pmul_mul by assumption. f_equal.
      rewrite Nat2Z.inj_succ, Z.pow_succ_r by lia. ring.
    + rewrite wge_dbl4_spec by assumption. apply pmul_on_curve; assumption.
Qed.

Lemma upto_succ (t : nat) :
  upto (Z.of_nat (S t)) = upto (Z.of_nat t) ++ [Z.of_nat t].
Proof.
  unfold upto. rewrite !Nat2Z.id, seq_S, map_app. reflexivity.
Qed.

(** The accumulation loop of [wei_jmul_g] over the first [t] windows. *)
Lemma wei_jmul_g_loop (k0 : Z) (steps : nat) (r0 : jge_t) (p0 : wge_t) :
  GMP_NUMB_BITS mod 4 = 0 ->
  ec_windows ec = wge_wnd_steps_var ec (ec_g ec) steps ->
  oc (waff (ec_g ec)) -> oc (jaff r0) -> 0 <= k0 ->
  forall t : nat,
    (t <= steps)%nat ->
    jaff (fst (fold_left
                 (fun (st : jge_t * wge_t) i =>
                    let '(r, p) := st in
                    let b := sc_get_bits k0 (i * WND_WIDTH) WND_WIDTH in
                    let p := wge_lookup (ec_windows ec) (i * WND_SIZE) b p in
                    (jge_mixed_add ec r p, p))
                 (upto (Z.of_nat t)) (r0, p0)))
    = padd ec (jaff r0) (pmul ec (k0 mod 16 ^ Z.of_nat t) (waff (ec_g ec))).
Proof.
  intros HL Hwnd HG Hr0 Hk0. induction t as [|t IH]; intros Ht.
  { cbn [upto Z.of_nat Z.to_nat seq map fold_left fst].
    change (16 ^ 0) with 1. rewrite Z.mod_1_r, pmul_0, padd_O_r.
    reflexivity. }
  rewrite upto_succ, fold_left_app. cbn [fold_left].
  specialize (IH ltac:(lia)).
  destruct (fold_left _ (upto (Z.of_nat t)) (r0, p0)) as [r p].
  cbn [fst] in IH |- *. cbv zeta.
  assert (H16 : 0 < 16 ^ Z.of_nat t) by (apply Z.pow_pos_nonneg; lia).
  assert (Hb : sc_get_bits k0 (Z.of_nat t * WND_WIDTH) WND_WIDTH
               = (k0 / 16 ^ Z.of_nat t) mod 16).
  { unfold WND_WIDTH. rewrite sc_get_bits_spec;
      [|lia|lia|exact HL|apply Z.mod_mul; lia].
    rewrite (Z.mul_comm (Z.of_nat t) 4), Z.pow_mul_r by lia.
    reflexivity. }
  rewrite Hb.
  pose proof (Z.mod_pos_bound (k0 / 16 ^ Z.of_nat t) 16 ltac:(lia)) as Hbr.
  set (b := (k0 / 16 ^ Z.of_nat t) mod 16) in *.
  rewrite wge_lookup_spec by (change WND_SIZE with 16; lia).
  assert (Hp : waff (wge_at (ec_windows ec) (Z.of_nat t * WND_SIZE + b))
               = pmul ec (b * 16 ^ Z.of_nat t) (waff (ec_g ec))).
  { unfold wge_at. rewrite Hwnd. change WND_SIZE with 16.
    replace (Z.to_nat (Z.of_nat t * 16 + b))
      with (t * 16 + Z.to_nat b)%nat by lia.
    rewrite wge_wnd_steps_var_spec by (try assumption; lia).
    rewrite Z2Nat.id by lia. reflexivity. }
  assert (Hr : oc (jaff r)).
  { rewrite IH. apply padd_closed; [assumption|].
    apply pmul_on_curve; assumption. }
  rewrite (jge_mixed_add_spec ec Hflags) by
    (try assumption; rewrite Hp; apply pmul_on_curve; assumption).
  rewrite Hp, IH.
  rewrite Hassoc by (try apply pmul_on_curve; assumption).
  rewrite <- pmul_add by assumption. do 2 f_equal.
  rewrite Nat2Z.inj_succ, Z.pow_succ_r by lia.
  rewrite (Z.mul_comm 16), Z.rem_mul_r by lia. fold b. ring.
Qed.

(** [wei_jmul_g] computes [k * G], whatever the blinding pair. *)
Lemma wei_jmul_g_spec (k : Z) :
  sc_wf (ec_sc ec) = true ->
  GMP_NUMB_BITS mod 4 = 0 ->
  wei_tables_wf ec -> wei_blind_wf ec -> wei_order_wf ec ->
  oc (waff (ec_g ec)) ->
  0 <= k < sc_n (ec_sc ec) ->
  jaff (wei_jmul_g ec k) = pmul ec k (waff (ec_g ec)).
Proof.
  intros Hsc HL [Hwnd _] [Hbl Hub] Hord HG Hk.
  pose proof (sc_n_gt_1 _ Hsc) as Hn.
  pose proof (sc_wf_n _ Hsc) as Hnb. pose proof (sc_wf_bits _ Hsc) as Hbits.
  unfold wei_jmul_g. cbv zeta.
  rewrite sc_add_spec by assumption.
  set (k0 := (k + ec_blind ec) mod sc_n (ec_sc ec)).
  pose proof (Z.mod_pos_bound (k + ec_blind ec) (sc_n (ec_sc ec))
                ltac:(lia)) as Hk0. fold k0 in Hk0.
  set (steps := WND_STEPS (sc_bits (ec_sc ec))).
  assert (Hsteps : sc_bits (ec_sc ec) <= 4 * steps).
  { unfold steps, WND_STEPS, WND_WIDTH.
    pose proof (Z.div_mod (sc_bits (ec_sc ec) + 4 - 1) 4 ltac:(lia)).
    pose proof (Z.mod_pos_bound (sc_bits (ec_sc ec) + 4 - 1) 4 ltac:(lia)).
    lia. }
  assert (Hs0 : 0 <= steps) by lia.
  replace (upto steps) with (upto (Z.of_nat (Z.to_nat steps)))
    by (rewrite Z2Nat.id by lia; reflexivity).
  rewrite (wei_jmul_g_loop k0 (Z.to_nat steps)); try assumption; try lia.
  2:{ rewrite wge_to_jge_spec, Hub. apply pneg_on_curve, pmul_on_curve;
      assumption. }
  rewrite Z2Nat.id by lia.
  assert (Hpow : 2 ^ sc_bits (ec_sc ec) <= 16 ^ steps).
  { change 16 with (2 ^ 4). rewrite <- Z.pow_mul_r by lia.
    apply Z.pow_le_mono_r; lia. }
  rewrite (Z.mod_small k0) by lia.
  rewrite wge_to_jge_spec, Hub. unfold k0.
  rewrite pmul_mod by (try assumption; lia).
  rewrite pmul_add by assumption.
  set (K := pmul ec k (waff (ec_g ec))).
  set (B := pmul ec (ec_blind ec) (waff (ec_g ec))).
  assert (HK : oc K) by (apply pmul_on_curve; assumption).
  assert (HB : oc B) by (apply pmul_on_curve; assumption).
  rewrite (padd_comm ec (pneg B)).
  rewrite Hassoc by (try apply pneg_on_curve; assumption).
  rewrite padd_neg_r, padd_O_r. reflexivity.
Qed.

End MulGFacts.

(* ================================================================= *)
(** ** Encode/decode round trips *)

Lemma firstn_app_exact {A} (l rest : list A) (n : nat) :
  length l = n -> firstn n (l ++ rest) = l.
Proof.
  intros <-. rewrite firstn_app, Nat.sub_diag, firstn_all.
  cbn [firstn]. apply app_nil_r.
Qed.

Lemma skipn_app_exact {A} (l rest : list A) (n : nat) :
  length l = n -> skipn n (l ++ rest) = rest.
Proof.
  intros <-. rewrite skipn_app, Nat.sub_diag, skipn_all.
  reflexivity.
Qed.

Section ScalarRoundTrip.

Variable sc : scalar_field_t.
Hypothesis Hwf : sc_wf sc = true.
Hypothesis Hraw : sc_raw_wf sc = true.

Lemma length_sc_export (a : Z) : length (sc_export sc a) = sc_size sc.
Proof.
  unfold sc_export, mpn_export.
  destruct (sc_endian sc =? 1); [apply length_be_bytes|apply length_le_bytes].
Qed.

Lemma sc_n_lt_bytes : sc_n sc < 256 ^ Z.of_nat (sc_size sc).
Proof.
  pose proof (sc_wf_n sc Hwf) as Hn. pose proof (sc_size_bits sc Hwf) as Hs.
  pose proof (sc_wf_bits sc Hwf) as Hb.
  change 256 with (2 ^ 8). rewrite <- Z.pow_mul_r by lia.
  assert (2 ^ sc_bits sc <= 2 ^ (8 * Z.of_nat (sc_size sc)))
    by (apply Z.pow_le_mono_r; lia).
  lia.
Qed.

Lemma sc_export_value (a : Z) (rest : list byte) :
  0 <= a < sc_n sc ->
  bytes_value (sc_endian sc) (firstn (sc_size sc) (sc_export sc a ++ rest))
  = a.
Proof.
  intros Ha. pose proof (sc_n_lt_base sc Hwf) as HnB.
  pose proof sc_n_lt_bytes as Hnb.
  rewrite firstn_app_exact by apply length_sc_export.
  rewrite <- (firstn_all2 (n := sc_size sc) (sc_export sc a))
    by (rewrite length_sc_export; lia).
  unfold sc_export, mpn_export.
  rewrite bytes_value_firstn_export by apply (sc_wf_endian sc Hwf).
  rewrite mpn_get_small by lia. apply Z.mod_small. lia.
Qed.

(** What [sc_export] writes, [sc_import] reads back and accepts. *)
Lemma sc_import_export (a : Z) (rest : list byte) :
  0 <= a < sc_n sc ->
  sc_import sc (sc_export sc a ++ rest) = (a, true).
Proof.
  intros Ha. pose proof (sc_n_lt_base sc Hwf) as HnB.
  rewrite sc_import_spec
    by (try assumption; rewrite length_app, length_sc_export; lia).
  rewrite sc_export_value by exact Ha.
  rewrite Z.mod_small by lia.
  destruct (Z.ltb_spec a (sc_n sc)); [reflexivity|lia].
Qed.

End ScalarRoundTrip.

Section FieldRoundTrip.

Variable fe : prime_field_t.
Hypothesis Hfe : fe_wf fe = true.

(** What [fe_export] writes, [fe_import] reads back and accepts. *)
Lemma fe_import_export (a : fe_t) (rest : list byte) :
  fe_import fe (fe_export fe a ++ rest) = (a, true).
Proof.
  pose proof (length_fe_export fe a) as Hl.
  rewrite (fe_import_spec fe Hfe) by (rewrite length_app; lia).
  rewrite firstn_app_exact by exact Hl.
  rewrite <- (firstn_all2 (n := fe_size fe) (fe_export fe a)) by lia.
  rewrite (fe_export_value fe Hfe), Zmod.of_Z_unsigned.
  pose proof (Zmod.unsigned_pos_bound a ltac:(lia)) as Hr.
  destruct (Z.ltb_spec (Zmod.to_Z a) fe_p); [reflexivity|lia].
Qed.

End FieldRoundTrip.

(* ================================================================= *)
(** ** Square roots *)

Section SqrtFacts.

Variable fe : prime_field_t.
Hypothesis Hfe : fe_wf fe = true.

Local Open Scope Zmod_scope.

Lemma fe_sqrt_complete_backend (f : fe_t -> fe_t * bool) :
  fe_backend_wf fe -> fe_sqrt_fn fe = Some f -> fe_sqrt_complete fe.
Proof.
  intros [_ Hsq] Hf a Ha. unfold fe_sqrt. rewrite Hf.
  destruct (Hsq f Hf a) as [_ Hc]. specialize (Hc Ha).
  destruct (f a) as [r ok]. cbn [snd] in Hc. subst ok.
  exists r. reflexivity.
Qed.

(** The exponent [(p + 1) / 4] of the default implementation. *)
Lemma fe_sqrt_exponent :
  mpn_rshift
    (fst (mpn_add_1 (mpn_copyi (fe_plimbs fe) (fe_limbs fe + 1))
                    (fe_limbs fe + 1) 1))
    (fe_limbs fe + 1) 2
  = ((fe_p + 1) / 4)%Z.
Proof.
  destruct (fe_wf_facts fe Hfe) as (Hb & _ & _ & Hp & Hpb & _).
  pose proof (fe_p_lt_base fe Hfe) as HpB.
  pose proof (fe_limbs_pos fe Hfe) as Hl.
  assert (HB : (limb_base (fe_limbs fe) * 256 <= limb_base (fe_limbs fe + 1))%Z).
  { rewrite limb_base_add by lia.
    apply Z.mul_le_mono_nonneg_l; [pose proof (limb_base_pos (fe_limbs fe)); lia|].
    apply limb_base_ge_256. lia. }
  unfold mpn_rshift, mpn_add_1, mpn_copyi. cbn [fst]. rewrite Hp.
  rewrite (mpn_get_small fe_p) by lia.
  rewrite (mpn_get_small fe_p) by lia.
  rewrite (Z.mod_small (fe_p + 1)) by lia.
  rewrite mpn_get_small by lia.
  rewrite Z.shiftr_div_pow2 by lia. reflexivity.
Qed.

(** With [p = 3 (mod 4)] and no backend, [a^((p + 1) / 4)] is a root of
    every square [a] (Euler's criterion through Fermat's little
    theorem). *)
Lemma fe_sqrt_complete_3mod4 :
  fe_sqrt_fn fe = None -> (fe_p mod 4 = 3)%Z -> fe_sqrt_complete fe.
Proof.
  intros Hf Hp4 a [z Hz].
  destruct (fe_wf_facts fe Hfe) as (Hb & _ & _ & Hp & Hpb & _).
  unfold fe_sqrt. rewrite Hf. cbv zeta.
  rewrite fe_sqrt_exponent, (fe_pow_spec fe Hfe).
  change 3%Z with (2 ^ 2 - 1)%Z at 1. rewrite limb0_mod by lia.
  change (2 ^ 2)%Z with 4%Z. rewrite Hp, Hp4. cbn [Z.eqb Pos.eqb].
  eexists. f_equal. f_equal. apply fe_equal_iff.
  pose proof (Z.div_mod (fe_p + 1) 4 ltac:(lia)) as Hdm.
  assert (Hm : ((fe_p + 1) mod 4 = 0)%Z).
  { rewrite <- Z.add_mod_idemp_l, Hp4 by lia. reflexivity. }
  set (e := ((fe_p + 1) / 4)%Z) in *.
  assert (He : (0 <= e < 2 ^ fe_bits fe)%Z) by lia.
  rewrite Z.mod_small by exact He.
  unfold fe_sqr. rewrite <- Hz.
  rewrite <- !Zmod.pow_2_r.
  rewrite <- !Zmod.pow_mul_r_nonneg by lia.
  replace (2 * (e * 2))%Z with (Z.pred fe_p + 2)%Z by lia.
  rewrite Zmod.pow_add_r_nonneg by lia.
  destruct (fe_is_zero_spec z) as [->|Hnz].
  - rewrite !(Zmod.pow_0_l 2) by lia. ring.
  - rewrite Zmod.fermat_nz by assumption. ring.
Qed.

End SqrtFacts.

(* ================================================================= *)
(** ** Point encodings *)

Section PointCodec.

Variable ec : wei_t.
Hypothesis Hfe : fe_wf (ec_fe ec) = true.
Hypothesis Hback : fe_backend_wf (ec_fe ec).
Hypothesis Hsqrt : fe_sqrt_complete (ec_fe ec).

Local Open Scope Zmod_scope.

Lemma fe_square_roots (r y : fe_t) : r * r = y * y -> r = y \/ r = Zmod.opp y.
Proof.
  intros H. apply (Zmod.square_roots_opp_prime fe_p_prime).
  rewrite !Zmod.pow_2_r. exact H.
Qed.

(** Lifting an abscissa of the curve: the root with the asked parity. *)
Lemma wge_set_x_lift (x y : fe_t) (s : bool) :
  on_curve ec (Some (x, y)) = true ->
  (y <> 0 -> fe_is_odd y = s) ->
  wge_set_x ec x (Some s) = Some (mk_wge x y false, true).
Proof.
  intros Hc Hs. apply on_curve_iff in Hc.
  unfold wge_set_x. cbv zeta.
  set (rhs := fe_add (fe_add (fe_mul (fe_sqr x) x) (fe_mul (ec_a ec) x))
                     (ec_b ec)).
  assert (Hrhs : y * y = rhs).
  { rewrite Hc. unfold rhs. fe_unfold. ring. }
  destruct (Hsqrt rhs (ex_intro _ y Hrhs)) as [r Hr]. rewrite Hr.
  pose proof (fe_sqrt_sound ec Hback rhs r Hr) as Hrr.
  rewrite <- Hrhs in Hrr. apply fe_square_roots in Hrr.
  enough (Hgoal : fe_set_odd r s = y) by (rewrite Hgoal; reflexivity).
  destruct (fe_is_zero_spec y) as [Hy|Hy].
  - subst y. assert (r = 0) by (destruct Hrr as [->| ->]; ring).
    apply fe_set_odd_zero_iff. assumption.
  - specialize (Hs Hy).
    assert (Hrn : r <> 0).
    { intros E. subst r. destruct Hrr as [E|E].
      - apply Hy. symmetry. exact E.
      - apply Hy. transitivity (Zmod.opp (Zmod.opp y)); [ring|].
        rewrite <- E. ring. }
    pose proof (fe_set_odd_parity r s Hrn) as Hpar.
    pose proof (fe_is_odd_neg y Hy) as Hn. unfold fe_neg in Hn.
    destruct (fe_set_odd_cases r s) as [E|E]; rewrite E in Hpar |- *;
      destruct Hrr as [Er|Er]; subst r; unfold fe_neg in *.
    + reflexivity.
    + exfalso. rewrite Hn, Hs in Hpar. destruct s; discriminate.
    + exfalso. rewrite Hn, Hs in Hpar. destruct s; discriminate.
    + ring.
Qed.

(** What [wge_export] writes, in either format, [wge_import] reads back
    as the same point. *)
Lemma wge_import_export (p : wge_t) (compact : bool) :
  wge_inf p = false -> on_curve ec (waff p) = true ->
  exists raw,
    wge_export ec p compact = Some raw /\
    wge_import ec raw (length raw) = Some (Some p).
Proof.
  intros Hinf Hc. destruct p as [x y inf]. cbn [wge_inf] in Hinf. subst inf.
  unfold waff in Hc. cbn [wge_inf wge_x wge_y] in Hc.
  unfold wge_export. cbn [wge_inf wge_x wge_y].
  pose proof (length_fe_export (ec_fe ec) x) as Hlx.
  pose proof (length_fe_export (ec_fe ec) y) as Hly.
  destruct compact.
  - eexists. split; [reflexivity|].
    unfold wge_import. cbn [length].
    assert (Hform : forall b : bool,
               b2z (z2b (Z.lor 2 (Z.b2z b))) = (2 + Z.b2z b)%Z)
      by (intros []; reflexivity).
    rewrite Hform. cbv zeta.
    replace ((2 + Z.b2z (fe_is_odd y) =? 2) || (2 + Z.b2z (fe_is_odd y) =? 3))%Z
      with true by (destruct (fe_is_odd y); reflexivity).
    rewrite Hlx. cbn [Nat.add]. rewrite Nat.eqb_refl. cbn [negb].
    rewrite <- (app_nil_r (fe_export (ec_fe ec) x)).
    rewrite (fe_import_export (ec_fe ec) Hfe). cbn [negb].
    replace (Z.odd (2 + Z.b2z (fe_is_odd y))) with (fe_is_odd y)
      by (destruct (fe_is_odd y); reflexivity).
    rewrite (wge_set_x_lift x y (fe_is_odd y) Hc (fun _ => eq_refl)).
    reflexivity.
  - eexists. split; [reflexivity|].
    unfold wge_import. cbn [length]. cbv zeta.
    change (b2z x04) with 4%Z. cbn [Z.eqb Pos.eqb orb negb andb].
    rewrite length_app, Hlx, Hly.
    replace (S (fe_size (ec_fe ec) + fe_size (ec_fe ec))
             =? 1 + fe_size (ec_fe ec) * 2)%nat with true
      by (symmetry; apply Nat.eqb_eq; lia).
    cbn [negb].
    rewrite (fe_import_export (ec_fe ec) Hfe). cbn [negb].
    rewrite skipn_app_exact by exact Hlx.
    rewrite <- (app_nil_r (fe_export (ec_fe ec) y)).
    rewrite (fe_import_export (ec_fe ec) Hfe). cbn [negb].
    rewrite wge_validate_on_curve. unfold waff. cbn [wge_inf wge_x wge_y].
    rewrite Hc. reflexivity.
Qed.

End PointCodec.

(* ================================================================= *)
(** ** ECDSA key generation and signing *)

Section ScalarInverse.

Variable sc : scalar_field_t.
Hypothesis Hwf : sc_wf sc = true.
Hypothesis Hprime : Z.prime (sc_n sc).

(** The constant-time inverse (Fermat) is the modular inverse. *)
Lemma sc_invert_fermat (a : Z) :
  0 < a < sc_n sc -> sc_invert sc a = (Z.invmod a (sc_n sc), true).
Proof.
  intros Ha. rewrite (sc_invert_spec sc Hwf) by lia.
  destruct (Z.eqb_spec a 0); [lia|]. cbn [negb]. f_equal.
  assert (Hnz : Zmod.of_Z (sc_n sc) a <> Zmod.zero).
  { intros E. apply (f_equal Zmod.to_Z) in E.
    rewrite Zmod.unsigned_of_Z_small, Zmod.unsigned_0 in E by lia. lia. }
  pose proof (Zmod.fermat_inv (Zmod.of_Z (sc_n sc) a) Hnz Hprime) as H.
  apply (f_equal Zmod.to_Z) in H.
  rewrite Zmod.unsigned_pow_nonneg_r, Zmod.unsigned_inv,
    Zmod.unsigned_of_Z_small in H by lia.
  exact H.
Qed.

End ScalarInverse.

Section OrderFacts.

Variable ec : wei_t.
Hypothesis Hassoc : padd_associative ec.
Hypothesis Hprime : Z.prime (sc_n (ec_sc ec)).
Hypothesis Hord : wei_order_wf ec.
Hypothesis Hg : on_curve ec (waff (ec_g ec)) = true.
Hypothesis Hginf : wge_inf (ec_g ec) = false.

(** No multiple [a G] with [0 < a < n] is the point at infinity. *)
Lemma pmul_g_finite (a : Z) :
  0 < a < sc_n (ec_sc ec) -> pmul ec a (waff (ec_g ec)) <> None.
Proof.
  intros Ha E.
  assert (Hn : 1 < sc_n (ec_sc ec)) by (destruct Hprime; lia).
  pose proof (Z.invmod_prime a (sc_n (ec_sc ec)) Hprime) as Hinv.
  rewrite Z.mod_small in Hinv by lia. specialize (Hinv ltac:(lia)).
  assert (H1 : pmul ec ((Z.invmod a (sc_n (ec_sc ec)) * a) mod sc_n (ec_sc ec))
                 (waff (ec_g ec)) = None).
  { rewrite pmul_mod by (try assumption; lia).
    rewrite pmul_mul by assumption. rewrite E. apply pmul_O. }
  rewrite Hinv, pmul_1 in H1. unfold waff in H1. rewrite Hginf in H1.
  discriminate.
Qed.

End OrderFacts.

Section EcdsaSign.

Variable ec : wei_t.
Hypothesis Hwf : wei_wf ec.
Hypothesis Hcof : cofactor_ok ec.
Hypothesis Hassoc : padd_associative ec.
Hypothesis Hprime : Z.prime (sc_n (ec_sc ec)).
Hypothesis Hback : fe_backend_wf (ec_fe ec).
Hypothesis Hlimb4 : GMP_NUMB_BITS mod 4 = 0.
Hypothesis Hblind : wei_blind_wf ec.
Hypothesis Hord : wei_order_wf ec.

Variable drbg_t : Type.
Variable drbg_init : Z -> list byte -> drbg_t.
Variable drbg_generate : drbg_t -> nat -> drbg_t * list byte.

(** [wei_mul_g] computes [k G] as an affine point. *)
Lemma wei_mul_g_spec (k : Z) :
  0 <= k < sc_n (ec_sc ec) ->
  waff (wei_mul_g ec k) = pmul ec k (waff (ec_g ec)).
Proof.
  intros Hk.
  destruct Hwf as (Hf & Hflags & Hraw & Hbe & Htab & Hginf & Hg).
  destruct (wei_fields_wf_facts ec Hf) as (Hfe & Hsc & _).
  unfold wei_mul_g. cbv zeta.
  rewrite (jge_to_wge_spec ec Hfe Hback).
  apply wei_jmul_g_spec; assumption.
Qed.

Lemma ecdsa_sign_loop_spec (fuel : nat) :
  forall (rng : drbg_t) (a m : Z),
    0 <= a < sc_n (ec_sc ec) -> 0 <= m < sc_n (ec_sc ec) ->
    match ecdsa_sign_loop ec drbg_t drbg_generate fuel rng a m with
    | Return (sig, param) =>
        exists k, 0 < k < sc_n (ec_sc ec) /\ ecdsa_signed ec a m k sig param
    | Abort => False
    | OutOfFuel => True
    end.
Proof.
  destruct Hwf as (Hf & Hflags & Hraw & Hbe & Htab & Hginf & Hg).
  destruct (wei_fields_wf_facts ec Hf) as (Hfe & Hsc & _).
  pose proof (sc_n_lt_base _ Hsc) as HnB.
  pose proof (sc_n_gt_1 _ Hsc) as Hn1.
  induction fuel as [|fuel IH]; intros rng a m Ha Hm; [exact I|].
  cbn [ecdsa_sign_loop]. cbv zeta.
  destruct (drbg_generate rng (sc_size (ec_sc ec))) as [rng' bytes].
  destruct (ecdsa_reduce_spec ec Hsc Hbe (firstn (sc_size (ec_sc ec)) bytes))
    as (k & ok & Hk & Hkr).
  rewrite Hk.
  destruct ok; cbn [negb]; [|apply IH; assumption].
  rewrite (sc_is_zero_spec _ Hsc), mpn_get_small by lia.
  destruct (Z.eqb_spec k 0) as [Hk0|Hk0]; [apply IH; assumption|].
  pose proof (wei_mul_g_spec k Hkr) as HR.
  unfold wge_is_zero.
  destruct (wge_inf (wei_mul_g ec k)) eqn:Einf; [apply IH; assumption|].
  rewrite (waff_finite _ Einf) in HR.
  rewrite (sc_set_fe_spec ec Hf Hraw).
  set (x := wge_x (wei_mul_g ec k)) in *.
  set (y := wge_y (wei_mul_g ec k)) in *.
  pose proof (Z.mod_pos_bound (Zmod.to_Z x) (sc_n (ec_sc ec)) ltac:(lia))
    as Hr.
  set (r := Zmod.to_Z x mod sc_n (ec_sc ec)) in *.
  rewrite (sc_is_zero_spec _ Hsc), mpn_get_small by lia.
  destruct (Z.eqb_spec r 0) as [Hr0|Hr0]; [apply IH; assumption|].
  rewrite (sc_invert_fermat _ Hsc Hprime) by lia. cbn [fst].
  rewrite (sc_mul_spec _ Hsc r a) by lia.
  rewrite (sc_add_spec _ Hsc)
    by (try assumption; apply Z.mod_pos_bound; lia).
  rewrite (sc_mul_spec _ Hsc)
    by (try apply Z.mod_pos_bound; try apply invmod_range; lia).
  rewrite Z.add_mod_idemp_l, Z.mul_mod_idemp_l by lia.
  rewrite (sc_minimize_spec _ Hsc) by (apply Z.mod_pos_bound; lia).
  exists k. split; [lia|].
  exists x, y. split; [symmetry; exact HR|].
  cbv zeta. fold r. split; [exact Hr0|]. split; reflexivity.
Qed.

End EcdsaSign.

(* ================================================================= *)
(** ** The scalar identities behind verification and recovery *)

Section ScalarAlgebra.

Variable n : Z.
Hypothesis Hn : Z.prime n.

Add Field zn_field : (Zmod.field_theory n Hn).

Local Open Scope Zmod_scope.

Lemma zn_gt_1 : (1 < n)%Z.
Proof. destruct Hn. lia. Qed.

Lemma zn_of_Z_eq (x y : Z) :
  Zmod.of_Z n x = Zmod.of_Z n y -> (x mod n = y mod n)%Z.
Proof.
  intros H. apply (f_equal Zmod.to_Z) in H.
  rewrite !Zmod.unsigned_of_Z in H. exact H.
Qed.

Lemma zn_of_Z_nonzero (x : Z) :
  (0 < x < n)%Z -> Zmod.of_Z n x <> 0.
Proof.
  intros Hx E. apply (f_equal Zmod.to_Z) in E.
  rewrite Zmod.unsigned_of_Z_small, Zmod.unsigned_0 in E by lia. lia.
Qed.

Lemma zn_of_Z_invmod (k : Z) :
  Zmod.of_Z n (Z.invmod k n) = Zmod.inv (Zmod.of_Z n k).
Proof.
  rewrite <- (Zmod.of_Z_unsigned (Zmod.inv (Zmod.of_Z n k))).
  rewrite Zmod.unsigned_inv, Zmod.unsigned_of_Z, Z.invmod_mod_l.
  reflexivity.
Qed.

Lemma zn_of_Z_div (a b : Z) :
  Zmod.of_Z n (zn_div n a b)
  = Zmod.mdiv (Zmod.of_Z n a) (Zmod.of_Z n b).
Proof. unfold zn_div. apply Zmod.of_Z_unsigned. Qed.

(** Verification recombines the nonce: with [s = (r a + m) / k],
    [m / s + (r / s) a = k], and [-k] for the negated [s]. *)
Lemma ecdsa_verify_identity (a m k r : Z) (neg : bool) :
  (0 < k < n)%Z ->
  let s0 := ((r * a + m) * Z.invmod k n mod n)%Z in
  let s1 := if neg then ((- s0) mod n)%Z else s0 in
  s0 <> 0%Z ->
  ((zn_div n m s1 + zn_div n r s1 * a) mod n
   = (if neg then - k else k) mod n)%Z.
Proof.
  intros Hk s0 s1 Hs0. pose proof zn_gt_1 as Hn1.
  apply zn_of_Z_eq.
  rewrite Zmod.of_Z_add, Zmod.of_Z_mul, !zn_of_Z_div.
  pose proof (zn_of_Z_nonzero k Hk) as HK.
  assert (HS0 : Zmod.of_Z n s0
                = (Zmod.of_Z n r * Zmod.of_Z n a + Zmod.of_Z n m)
                  * Zmod.inv (Zmod.of_Z n k)).
  { unfold s0. rewrite Zmod.of_Z_mod, Zmod.of_Z_mul, Zmod.of_Z_add,
      Zmod.of_Z_mul, zn_of_Z_invmod. reflexivity. }
  assert (HS0n : Zmod.of_Z n s0 <> 0).
  { apply zn_of_Z_nonzero.
    pose proof (Z.mod_pos_bound ((r * a + m) * Z.invmod k n) n ltac:(lia)).
    fold s0 in H. lia. }
  assert (HT : Zmod.of_Z n r * Zmod.of_Z n a + Zmod.of_Z n m <> 0).
  { intros E. apply HS0n. rewrite HS0, E. ring. }
  assert (HS1 : Zmod.of_Z n s1
                = if neg then Zmod.opp (Zmod.of_Z n s0) else Zmod.of_Z n s0).
  { unfold s1. destruct neg; [|reflexivity].
    rewrite Zmod.of_Z_mod, Zmod.of_Z_opp. reflexivity. }
  rewrite HS1, HS0.
  set (R := Zmod.of_Z n r) in *. set (A := Zmod.of_Z n a) in *.
  set (M := Zmod.of_Z n m) in *. set (K := Zmod.of_Z n k) in *.
  destruct neg.
  - rewrite Zmod.of_Z_opp. fold K. field. split; [assumption|].
    intros E. apply HT. transitivity (Zmod.opp (Zmod.opp (R * A + M))); [ring|].
    rewrite E. ring.
  - fold K. field. repeat split; assumption.
Qed.

(** Recovery recombines the key: with [s = (r a + m) / k],
    [-(m / r) + (s / r) k = a], also with [s] and [k] both negated. *)
Lemma ecdsa_recover_identity (a m k r : Z) (neg : bool) :
  (0 < k < n)%Z -> (0 < r < n)%Z ->
  let s0 := ((r * a + m) * Z.invmod k n mod n)%Z in
  let s1 := if neg then ((- s0) mod n)%Z else s0 in
  let rinv := Z.invmod r n in
  (((- (m * rinv mod n)) mod n
    + (s1 * rinv mod n) * (if neg then - k else k)) mod n
   = a mod n)%Z.
Proof.
  intros Hk Hr s0 s1 rinv. pose proof zn_gt_1 as Hn1.
  apply zn_of_Z_eq.
  pose proof (zn_of_Z_nonzero k Hk) as HK.
  pose proof (zn_of_Z_nonzero r Hr) as HR.
  assert (HS0 : Zmod.of_Z n s0
                = (Zmod.of_Z n r * Zmod.of_Z n a + Zmod.of_Z n m)
                  * Zmod.inv (Zmod.of_Z n k)).
  { unfold s0. rewrite Zmod.of_Z_mod, Zmod.of_Z_mul, Zmod.of_Z_add,
      Zmod.of_Z_mul, zn_of_Z_invmod. reflexivity. }
  assert (HS1 : Zmod.of_Z n s1
                = if neg then Zmod.opp (Zmod.of_Z n s0) else Zmod.of_Z n s0).
  { unfold s1. destruct neg; [|reflexivity].
    rewrite Zmod.of_Z_mod, Zmod.of_Z_opp. reflexivity. }
  rewrite Zmod.of_Z_add, Zmod.of_Z_mul, !Zmod.of_Z_mod, Zmod.of_Z_opp,
    Zmod.of_Z_mod, !Zmod.of_Z_mul.
  unfold rinv. rewrite zn_of_Z_invmod, HS1, HS0.
  set (R := Zmod.of_Z n r) in *. set (A := Zmod.of_Z n a) in *.
  set (M := Zmod.of_Z n m) in *. set (K := Zmod.of_Z n k) in *.
  destruct neg.
  - rewrite Zmod.of_Z_opp. fold K. field. split; assumption.
  - fold K. field. split; assumption.
Qed.

End ScalarAlgebra.

(* ================================================================= *)
(** ** Signing against verification *)

Section EcdsaRoundTrip.

Variable ec : wei_t.
Hypothesis Hwf : wei_wf ec.
Hypothesis Hendo : wei_endo_wf ec.
Hypothesis Hcof : cofactor_ok ec.
Hypothesis Hassoc : padd_associative ec.
Hypothesis Hprime : Z.prime (sc_n (ec_sc ec)).
Hypothesis Hback : fe_backend_wf (ec_fe ec).
Hypothesis Hsqrt : fe_sqrt_complete (ec_fe ec).
Hypothesis Hlimb9 : 9 <= GMP_NUMB_BITS.
Hypothesis Hlimb4 : GMP_NUMB_BITS mod 4 = 0.
Hypothesis Hblind : wei_blind_wf ec.
Hypothesis Hord : wei_order_wf ec.

Local Abbreviation sc := (ec_sc ec) (only parsing).
Local Abbreviation n := (sc_n (ec_sc ec)) (only parsing).
Local Abbreviation G := (waff (ec_g ec)) (only parsing).

(** The verdict of the default build, for a key that decodes. *)
Lemma ecdsa_verify_spec (msg sig pub : list byte) (A : wge_t) (m : Z)
      (ok : bool) :
  ecdsa_reduce ec msg = Some (m, ok) -> 0 <= m < n ->
  (2 * sc_size sc <= length sig)%nat ->
  wge_import ec pub (length pub) = Some (Some A) ->
  ecdsa_verify ec msg sig pub
  = Return (ecdsa_verdict ec m
              (be_value (firstn (sc_size sc) sig))
              (be_value (firstn (sc_size sc) (skipn (sc_size sc) sig)))
              (waff A)).
Proof.
  intros Hm Hmr Hlen Himp.
  destruct Hwf as (Hf & Hflags & Hraw & Hbe & _).
  destruct (wei_fields_wf_facts ec Hf) as (Hfe & Hsc & _).
  pose proof (sc_n_lt_base _ Hsc) as HnB.
  pose proof (ecdsa_verify_point_spec ec Hwf Hendo Hcof Hassoc Hprime Hback
                Hlimb9 msg sig pub A m ok Hm Hmr Hlen Himp) as Hp.
  cbv zeta in Hp.
  set (r := be_value (firstn (sc_size sc) sig)) in *.
  set (s := be_value (firstn (sc_size sc) (skipn (sc_size sc) sig))) in *.
  unfold ecdsa_verify, ecdsa_verdict. cbv zeta.
  destruct ((r =? 0) || (s =? 0) || (n <=? r) || (n <=? s) || (n / 2 <? s))
    eqn:Ebad.
  { rewrite Hp. reflexivity. }
  destruct Hp as (Rj & -> & HRj).
  apply orb_false_iff in Ebad. destruct Ebad as [Ebad _].
  apply orb_false_iff in Ebad. destruct Ebad as [Ebad _].
  apply orb_false_iff in Ebad. destruct Ebad as [Ebad Ern].
  apply orb_false_iff in Ebad. destruct Ebad as [Er0 _].
  apply Z.eqb_neq in Er0. apply Z.leb_gt in Ern.
  pose proof (be_value_nonneg (firstn (sc_size sc) sig)) as Hr0.
  fold r in Hr0.
  unfold ecdsa_accepts. rewrite <- HRj. unfold jge_is_zero.
  destruct (fe_is_zero_spec (jge_z Rj)) as [Ez|Ez].
  - rewrite (jaff_inf Rj Ez). reflexivity.
  - destruct (jaff_finite Rj Ez) as (x & y & HP & _ & _).
    pose proof (jge_to_wge_var_spec ec Hfe Rj) as Hw. rewrite HP in Hw.
    rewrite (waff_some _ _ _ Hw).
    rewrite (sc_set_fe_spec ec Hf Hraw). cbn [fst].
    rewrite HP. cbn [point_x_is].
    rewrite sc_equal_spec by assumption.
    pose proof (Z.mod_pos_bound (Zmod.to_Z x) n ltac:(lia)) as Hx.
    rewrite !mpn_get_small by lia.
    rewrite Z.eqb_sym. reflexivity.
Qed.

(** A signature made with the key [a] passes the acceptance test under
    the point [a G], as soon as its [s] is not zero. *)
Lemma ecdsa_signed_verdict (a m k : Z) (sig : list byte) (param : Z) :
  0 < k < n -> 0 <= a < n -> 0 <= m < n ->
  ecdsa_signed ec a m k sig param ->
  length sig = (2 * sc_size sc)%nat /\
  ecdsa_verdict ec m
    (be_value (firstn (sc_size sc) sig))
    (be_value (firstn (sc_size sc) (skipn (sc_size sc) sig)))
    (pmul ec a G)
  = negb (be_value (firstn (sc_size sc) (skipn (sc_size sc) sig)) =? 0).
Proof.
  intros Hk Ha Hm (x & y & HR & Hsig). cbv zeta in Hsig.
  destruct Hsig as (Hr0 & Hsig & _).
  destruct Hwf as (Hf & Hflags & Hraw & Hbe & _ & Hginf & Hg).
  destruct (wei_fields_wf_facts ec Hf) as (Hfe & Hsc & _).
  pose proof (sc_n_gt_1 _ Hsc) as Hn1.
  pose proof (Z.mod_pos_bound (Zmod.to_Z x) n ltac:(lia)) as Hr.
  set (r := Zmod.to_Z x mod n) in *.
  pose proof (Z.mod_pos_bound ((r * a + m) * Z.invmod k n) n ltac:(lia))
    as Hs0.
  set (s0 := (r * a + m) * Z.invmod k n mod n) in *.
  set (hi := n / 2 <? s0) in *.
  set (s1 := if hi then (- s0) mod n else s0) in *.
  pose proof (Z.div_mod n 2 ltac:(lia)) as Hdm.
  pose proof (Z.mod_pos_bound n 2 ltac:(lia)) as Hm2.
  assert (Hs1 : 0 <= s1 <= n / 2 /\ (s1 = 0 <-> s0 = 0)).
  { unfold s1, hi. destruct (Z.ltb_spec (n / 2) s0) as [Hhi|Hlo].
    - assert (E : (- s0) mod n = n - s0).
      { symmetry. apply Z.mod_unique with (q := -1); lia. }
      rewrite E. lia.
    - lia. }
  assert (Hv : forall rest, bytes_value (sc_endian sc)
                 (firstn (sc_size sc) rest) = be_value (firstn (sc_size sc) rest)).
  { intros rest. unfold bytes_value. rewrite Hbe. reflexivity. }
  assert (Hrv : be_value (firstn (sc_size sc) sig) = r).
  { rewrite Hsig, <- Hv. apply (sc_export_value _ Hsc). lia. }
  assert (Hsv : be_value (firstn (sc_size sc) (skipn (sc_size sc) sig)) = s1).
  { rewrite Hsig, skipn_app_exact by apply length_sc_export.
    rewrite <- (app_nil_r (sc_export sc s1)), <- Hv.
    apply (sc_export_value _ Hsc). lia. }
  split.
  { rewrite Hsig, length_app, !length_sc_export. lia. }
  rewrite Hrv, Hsv. unfold ecdsa_verdict. cbv zeta.
  destruct (Z.eqb_spec r 0) as [Er|Er]; [contradiction|].
  destruct (Z.eqb_spec s1 0) as [Es|Es]; [reflexivity|].
  destruct (Z.leb_spec n r) as [Hc1|Hc1]; [lia|].
  destruct (Z.leb_spec n s1) as [Hc2|Hc2]; [lia|].
  destruct (Z.ltb_spec (n / 2) s1) as [Hc3|Hc3]; [lia|]. cbn [orb negb].
  unfold ecdsa_accepts, ecdsa_point. cbv zeta.
  rewrite <- pmul_mul by assumption.
  rewrite <- pmul_add by assumption.
  rewrite <- (pmul_mod ec Hassoc n) by (try assumption; lia).
  assert (Hs0n : s0 <> 0) by tauto.
  pose proof (ecdsa_verify_identity n Hprime a m k r hi Hk Hs0n) as Hid.
  cbv zeta in Hid. fold s0 s1 in Hid. rewrite Hid.
  rewrite (pmul_mod ec Hassoc n) by (try assumption; lia).
  destruct hi.
  - rewrite pmul_opp by assumption. rewrite HR. cbn [pneg point_x_is].
    apply Z.eqb_refl.
  - rewrite HR. cbn [point_x_is]. apply Z.eqb_refl.
Qed.

(** A valid private key: its bytes denote some [a] with [0 < a < n]. *)
Lemma sc_import_valid (priv : list byte) :
  (sc_size sc <= length priv)%nat ->
  0 < be_value (firstn (sc_size sc) priv) < n ->
  sc_import sc priv = (be_value (firstn (sc_size sc) priv), true).
Proof.
  intros Hl Ha.
  destruct Hwf as (Hf & Hflags & Hraw & Hbe & _).
  destruct (wei_fields_wf_facts ec Hf) as (Hfe & Hsc & _).
  pose proof (sc_n_lt_base _ Hsc) as HnB.
  rewrite (sc_import_spec _ Hsc Hraw) by exact Hl.
  unfold bytes_value. rewrite Hbe. cbn [Z.eqb Pos.eqb].
  rewrite Z.mod_small by lia.
  destruct (Z.ltb_spec (be_value (firstn (sc_size sc) priv)) n);
    [reflexivity|lia].
Qed.

Lemma ecdsa_pubkey_create_spec (priv : list byte) (compact : bool) (a : Z) :
  sc_import sc priv = (a, true) -> 0 < a < n ->
  exists pub,
    ecdsa_pubkey_create ec priv compact = Some pub /\
    wge_import ec pub (length pub) = Some (Some (wei_mul_g ec a)) /\
    waff (wei_mul_g ec a) = pmul ec a G.
Proof.
  intros Hi Ha.
  destruct Hwf as (Hf & Hflags & Hraw & Hbe & Htab & Hginf & Hg).
  destruct (wei_fields_wf_facts ec Hf) as (Hfe & Hsc & _).
  pose proof (sc_n_lt_base _ Hsc) as HnB.
  assert (HA : waff (wei_mul_g ec a) = pmul ec a G).
  { apply wei_mul_g_spec; try assumption. lia. }
  assert (Hfin : wge_inf (wei_mul_g ec a) = false).
  { destruct (wge_inf (wei_mul_g ec a)) eqn:E; [|reflexivity].
    exfalso. apply (pmul_g_finite ec Hassoc Hprime Hord Hg Hginf a Ha).
    rewrite <- HA. unfold waff. rewrite E. reflexivity. }
  assert (Hoc : on_curve ec (waff (wei_mul_g ec a)) = true).
  { rewrite HA. apply pmul_on_curve; assumption. }
  destruct (wge_import_export ec Hfe Hback Hsqrt (wei_mul_g ec a) compact
              Hfin Hoc) as (pub & Hexp & Himp).
  exists pub. split; [|split; assumption].
  unfold ecdsa_pubkey_create. rewrite Hi. cbn [negb].
  rewrite (sc_is_zero_spec _ Hsc), mpn_get_small by lia.
  destruct (Z.eqb_spec a 0); [lia|]. exact Hexp.
Qed.

Variable drbg_t : Type.
Variable drbg_init : Z -> list byte -> drbg_t.
Variable drbg_generate : drbg_t -> nat -> drbg_t * list byte.

(** With a valid key [ecdsa_sign] neither fails nor stops at an
    [assert]; what it returns is a signature of the reduced message. *)
Lemma ecdsa_sign_spec (fuel : nat) (msg priv : list byte) (a : Z) :
  sc_import sc priv = (a, true) -> 0 < a < n ->
  match ecdsa_sign ec drbg_t drbg_init drbg_generate fuel msg priv with
  | Return (Some (sig, param)) =>
      exists m ok k,
        ecdsa_reduce ec msg = Some (m, ok) /\ 0 <= m < n /\
        0 < k < n /\ ecdsa_signed ec a m k sig param
  | Return None => False
  | Abort => False
  | OutOfFuel => True
  end.
Proof.
  intros Hi Ha.
  destruct Hwf as (Hf & Hflags & Hraw & Hbe & Htab & Hginf & Hg).
  destruct (wei_fields_wf_facts ec Hf) as (Hfe & Hsc & _).
  pose proof (sc_n_lt_base _ Hsc) as HnB.
  unfold ecdsa_sign. cbv zeta. rewrite Hi. cbn [negb].
  rewrite (sc_is_zero_spec _ Hsc), mpn_get_small by lia.
  destruct (Z.eqb_spec a 0); [lia|].
  destruct (ecdsa_reduce_spec ec Hsc Hbe msg) as (m & ok & Hm & Hmr).
  rewrite Hm.
  pose proof (ecdsa_sign_loop_spec ec Hwf Hcof Hassoc Hprime Hback Hlimb4
                Hblind Hord drbg_t drbg_generate fuel
                (drbg_init (ec_hash ec) (sc_export sc a ++ sc_export sc m))
                a m ltac:(lia) Hmr) as Hloop.
  destruct (ecdsa_sign_loop _ _ _ _ _ _ _) as [[sig param]| |];
    [|exact Hloop|exact I].
  destruct Hloop as (k & Hk & Hs). exists m, ok, k. auto.
Qed.

End EcdsaRoundTrip.

(* ================================================================= *)
(** ** Public key recovery *)

Lemma param_bits (high sign : bool) :
  Z.land (Z.lor (Z.shiftl (Z.b2z high) 1) (Z.b2z sign)) 1 = Z.b2z sign /\
  Z.shiftr (Z.lor (Z.shiftl (Z.b2z high) 1) (Z.b2z sign)) 1 = Z.b2z high.
Proof. destruct high, sign; split; reflexivity. Qed.

Section EcdsaRecover.

Variable ec : wei_t.
Hypothesis Hwf : wei_wf ec.
Hypothesis Hendo : wei_endo_wf ec.
Hypothesis Hcof : cofactor_ok ec.
Hypothesis Hassoc : padd_associative ec.
Hypothesis Hprime : Z.prime (sc_n (ec_sc ec)).
Hypothesis Hback : fe_backend_wf (ec_fe ec).
Hypothesis Hsqrt : fe_sqrt_complete (ec_fe ec).
Hypothesis Hlimb9 : 9 <= GMP_NUMB_BITS.
Hypothesis Hord : wei_order_wf ec.
Hypothesis Hrec : wei_recover_wf ec.

Local Abbreviation sc := (ec_sc ec) (only parsing).
Local Abbreviation n := (sc_n (ec_sc ec)) (only parsing).
Local Abbreviation G := (waff (ec_g ec)) (only parsing).

Local Open Scope Zmod_scope.

Lemma wge_export_waff (p q : wge_t) (compact : bool) :
  waff p = waff q -> wge_export ec p compact = wge_export ec q compact.
Proof.
  unfold waff, wge_export. destruct p as [x1 y1 i1], q as [x2 y2 i2].
  cbn [wge_inf wge_x wge_y]. destruct i1, i2; try discriminate;
    [reflexivity|].
  intros H. injection H as -> ->. reflexivity.
Qed.

(** The abscissa rebuilt from [r] and the high bit. *)
Lemma recover_abscissa (x : fe_t) :
  let X := Zmod.to_Z x in
  let r := (X mod n)%Z in
  (if (X <? n)%Z then Zmod.of_Z fe_p r
   else fe_add (Zmod.of_Z fe_p r) (ec_red_n ec)) = x /\
  ((X <? n)%Z = false -> (r < ec_pmodn ec)%Z).
Proof.
  intros X r. destruct Hrec as (Hpm & Hnp).
  destruct Hwf as (Hf & _).
  destruct (wei_fields_wf_facts ec Hf) as (_ & Hsc & _ & _ & _ & Hred).
  pose proof (Zmod.unsigned_pos_bound x ltac:(lia)) as HX. fold X in HX.
  destruct (Z.ltb_spec X n) as [Hlt|Hge].
  - split; [|discriminate]. unfold r. rewrite Z.mod_small by lia.
    apply Zmod.of_Z_unsigned.
  - assert (Hr : r = (X - n)%Z).
    { unfold r. symmetry. apply Z.mod_unique with (q := 1%Z); lia. }
    split.
    + rewrite Hred. unfold fe_add. rewrite <- Zmod.of_Z_add, Hr.
      replace (X - n + n)%Z with X by lia. apply Zmod.of_Z_unsigned.
    + intros _. rewrite Hpm.
      assert (Hp : (fe_p mod n = fe_p - n)%Z).
      { symmetry. apply Z.mod_unique with (q := 1%Z); lia. }
      lia.
Qed.

(** Recovery from a signature made with the key [a] rebuilds [a G]. *)
Lemma ecdsa_recover_signed (msg sig : list byte) (param a m k : Z)
      (ok compact : bool) (A : wge_t) :
  ecdsa_reduce ec msg = Some (m, ok) -> (0 <= m < n)%Z ->
  (0 < k < n)%Z -> (0 < a < n)%Z ->
  ecdsa_signed ec a m k sig param ->
  be_value (firstn (sc_size sc) (skipn (sc_size sc) sig)) <> 0%Z ->
  waff A = pmul ec a G ->
  ecdsa_recover ec msg sig param compact
  = match wge_export ec A compact with
    | Some pub => Return (Some pub)
    | None => Return None
    end.
Proof.
  intros Hm Hmr Hk Ha (x & y & HR & Hsig) Hsnz HA. cbv zeta in Hsig.
  destruct Hsig as (Hr0 & Hsig & Hparam).
  destruct Hwf as (Hf & Hflags & Hraw & Hbe & [_ Hpts] & Hginf & Hg).
  destruct (wei_fields_wf_facts ec Hf) as (Hfe & Hsc & Hsz & Hen & _ & Hred).
  destruct Hrec as (Hpm & Hnp).
  pose proof (sc_n_gt_1 _ Hsc) as Hn1.
  pose proof (sc_n_lt_base _ Hsc) as HnB.
  pose proof (Z.mod_pos_bound (Zmod.to_Z x) n ltac:(lia)) as Hr.
  set (X := Zmod.to_Z x) in *.
  set (r := (X mod n)%Z) in *.
  pose proof (Z.mod_pos_bound ((r * a + m) * Z.invmod k n) n ltac:(lia))
    as Hs0.
  set (s0 := ((r * a + m) * Z.invmod k n mod n)%Z) in *.
  set (hi := (n / 2 <? s0)%Z) in *.
  set (s1 := if hi then ((- s0) mod n)%Z else s0) in *.
  pose proof (Z.div_mod n 2 ltac:(lia)) as Hdm.
  pose proof (Z.mod_pos_bound n 2 ltac:(lia)) as Hm2.
  assert (Hs1 : (0 <= s1 <= n / 2)%Z).
  { unfold s1, hi. destruct (Z.ltb_spec (n / 2) s0) as [Hhi|Hlo]; [|lia].
    assert (E : ((- s0) mod n = n - s0)%Z).
    { symmetry. apply Z.mod_unique with (q := (-1)%Z); lia. }
    rewrite E. lia. }
  assert (Hsk : skipn (sc_size sc) sig = sc_export sc s1 ++ []).
  { rewrite Hsig, skipn_app_exact by apply length_sc_export.
    symmetry. apply app_nil_r. }
  assert (Hs1n : s1 <> 0%Z).
  { intros E. apply Hsnz. rewrite Hsk.
    pose proof (sc_export_value _ Hsc s1 [] ltac:(lia)) as Hv.
    unfold bytes_value in Hv. rewrite Hbe in Hv. cbn [Z.eqb Pos.eqb] in Hv.
    rewrite Hv. exact E. }
  unfold ecdsa_recover. cbv zeta. rewrite Hm, Hsk.
  rewrite Hsig at 1.
  rewrite !(sc_import_export _ Hsc Hraw) by lia. cbn [negb].
  rewrite !(sc_is_zero_spec _ Hsc), !mpn_get_small by lia.
  destruct (Z.eqb_spec r 0) as [Er|Er]; [contradiction|].
  destruct (Z.eqb_spec s1 0) as [Es|Es]; [contradiction|]. cbn [orb].
  rewrite (sc_is_high_spec _ Hsc) by lia.
  destruct (Z.ltb_spec (n / 2) s1) as [Hc|Hc]; [lia|].
  rewrite (fe_set_sc_spec (ec_fe ec) Hfe sc r Hsc Hsz Hen) by lia.
  destruct (Z.ltb_spec r fe_p) as [Hrp|Hrp]; [|lia]. cbn [negb].
  (* the recovery parameter *)
  destruct (param_bits (negb (X <? n)%Z) (xorb (fe_is_odd y) hi))
    as [Hsign Hhigh].
  rewrite Hparam, Hsign, Hhigh.
  destruct (recover_abscissa x) as [Hx Hlow]. cbv zeta in Hx, Hlow.
  fold X r in Hx, Hlow.
  assert (Hxo : (if negb (Z.b2z (negb (X <? n)%Z) =? 0)%Z
                 then if (0 <=? sc_cmp_var sc r (ec_pmodn ec))%Z then None
                      else Some (fe_add (Zmod.of_Z fe_p r) (ec_red_n ec))
                 else Some (Zmod.of_Z fe_p r)) = Some x).
  { destruct (X <? n)%Z eqn:EX; cbn [negb Z.b2z Z.eqb].
    - rewrite <- Hx. reflexivity.
    - specialize (Hlow eq_refl).
      unfold sc_cmp_var, mpn_cmp.
      assert (Hpn : (0 <= ec_pmodn ec < n)%Z)
        by (rewrite Hpm; apply Z.mod_pos_bound; lia).
      rewrite !mpn_get_small by lia.
      replace (r ?= ec_pmodn ec)%Z with Lt by (symmetry; apply Z.compare_lt_iff; lia).
      cbn [Z.leb Z.compare]. rewrite <- Hx. reflexivity. }
  rewrite Hxo.
  (* lifting the abscissa *)
  set (y' := if hi then Zmod.opp y else y).
  assert (HR' : pmul ec (if hi then - k else k)%Z G = Some (x, y')).
  { unfold y'. destruct hi; [|exact HR].
    rewrite pmul_opp by assumption. rewrite HR. reflexivity. }
  assert (Hoc : on_curve ec (Some (x, y')) = true).
  { rewrite <- HR'. apply pmul_on_curve; assumption. }
  replace (negb (Z.b2z (xorb (fe_is_odd y) hi) =? 0)%Z)
    with (xorb (fe_is_odd y) hi)
    by (destruct (xorb (fe_is_odd y) hi); reflexivity).
  rewrite (wge_set_x_lift ec Hback Hsqrt x y' (xorb (fe_is_odd y) hi) Hoc).
  2:{ unfold y'. destruct hi; [|intros _; symmetry; apply xorb_false_r].
      intros Hy. rewrite xorb_true_r.
      assert (Hyn : y <> 0).
      { intros E. apply Hy. rewrite E. ring. }
      pose proof (fe_is_odd_neg y Hyn) as Hn. unfold fe_neg in Hn.
      exact Hn. }
  cbn [negb].
  (* the double multiplication *)
  rewrite (sc_invert_var_spec _ Hsc) by (assumption || lia). cbn [fst].
  pose proof (invmod_range r n Hn1) as Hri.
  rewrite !(sc_mul_spec _ Hsc) by lia.
  rewrite (sc_neg_spec _ Hsc) by (apply Z.mod_pos_bound; lia).
  unfold wei_mul_double_var.
  set (R' := mk_wge x y' false).
  assert (HwR : waff R' = Some (x, y')) by reflexivity.
  assert (Hmul : exists Rj,
            wei_jmul_double_var ec ((- (m * Z.invmod r n mod n)) mod n)%Z R'
                                (s1 * Z.invmod r n mod n)%Z = Some Rj /\
            jaff Rj = padd ec (pmul ec ((- (m * Z.invmod r n mod n)) mod n)%Z
                                       (waff (ec_g ec)))
                              (pmul ec (s1 * Z.invmod r n mod n)%Z
                                       (waff R'))).
  { apply wei_jmul_double_var_spec; try assumption;
      apply Z.mod_pos_bound; lia. }
  destruct Hmul as (Rj & HRj & HjR).
  rewrite HRj.
  rewrite (wge_export_waff (jge_to_wge_var ec Rj) A compact).
  { destruct (wge_export ec A compact); reflexivity. }
  rewrite (jge_to_wge_var_spec ec Hfe), HjR, HwR, <- HR', HA.
  rewrite <- pmul_mul by assumption.
  rewrite <- pmul_add by assumption.
  rewrite <- (pmul_mod ec Hassoc n) by (try assumption; lia).
  pose proof (ecdsa_recover_identity n Hprime a m k r hi Hk ltac:(lia))
    as Hid.
  cbv zeta in Hid. fold s0 s1 in Hid. rewrite Hid.
  rewrite (pmul_mod ec Hassoc n) by (try assumption; lia).
  reflexivity.
Qed.

End EcdsaRecover.

(* ================================================================= *)
(** ** Private keys *)

Lemma lor_byte_range x y :
  0 <= x < 256 -> 0 <= y < 256 -> 0 <= Z.lor x y < 256.
Proof.
  intros Hx Hy.
  assert (H0 : 0 <= Z.lor x y) by (apply Z.lor_nonneg; lia).
  split; [exact H0|].
  destruct (Z.eq_dec (Z.lor x y) 0) as [E|E]; [lia|].
  change 256 with (2 ^ 8). apply Z.log2_lt_pow2; [lia|].
  rewrite Z.log2_lor by lia.
  assert (Hlx : Z.log2 x < 8).
  { destruct (Z.eq_dec x 0) as [->|]; [cbn; lia|].
    apply Z.log2_lt_pow2; [lia|]. change (2 ^ 8) with 256. lia. }
  assert (Hly : Z.log2 y < 8).
  { destruct (Z.eq_dec y 0) as [->|]; [cbn; lia|].
    apply Z.log2_lt_pow2; [lia|]. change (2 ^ 8) with 256. lia. }
  lia.
Qed.

Lemma fold_lor_bytes (l : list byte) (z0 : Z) :
  0 <= z0 < 256 ->
  let z := fold_left (fun z b => Z.lor z (b2z b)) l z0 in
  0 <= z < 256 /\ (z = 0 <-> z0 = 0 /\ le_value l = 0).
Proof.
  revert z0. induction l as [|b l IH]; intros z0 Hz; cbv zeta.
  - cbn [fold_left le_value]. split; [exact Hz|tauto].
  - cbn [fold_left le_value]. pose proof (b2z_range b) as Hb.
    pose proof (lor_byte_range z0 (b2z b) Hz Hb) as Hl.
    destruct (IH _ Hl) as [Hr Hi]. split; [exact Hr|].
    rewrite Hi, Z.lor_eq_0_iff. pose proof (le_value_range l). lia.
Qed.

Lemma le_value_rev_zero (l : list byte) :
  le_value (rev l) = 0 <-> le_value l = 0.
Proof.
  induction l as [|b l IH]; [tauto|].
  cbn [rev]. rewrite le_value_app. cbn [le_value].
  pose proof (b2z_range b). pose proof (le_value_range l).
  pose proof (le_value_range (rev l)).
  assert (0 < 256 ^ Z.of_nat (length (rev l)))
    by (apply Z.pow_pos_nonneg; lia).
  split; intros H5; nia.
Qed.

(** [bytes_zero] tells whether the bytes denote zero. *)
Lemma bytes_zero_spec (a : list byte) (size : nat) (endian : Z) :
  bytes_zero a size = (bytes_value endian (firstn size a) =? 0).
Proof.
  unfold bytes_zero. cbv zeta.
  destruct (fold_lor_bytes (firstn size a) 0 ltac:(lia)) as [Hr Hi].
  cbv zeta in Hr, Hi.
  rewrite u32_sign_bit by lia.
  assert (Hv : bytes_value endian (firstn size a) = 0
               <-> le_value (firstn size a) = 0).
  { unfold bytes_value, be_value. destruct (endian =? 1); [|tauto].
    apply le_value_rev_zero. }
  destruct (Z.eqb_spec (bytes_value endian (firstn size a)) 0) as [E|E].
  - destruct (Z.ltb_spec (fold_left (fun z b => Z.lor z (b2z b))
                                    (firstn size a) 0 - 1) 0);
      [reflexivity|].
    exfalso. apply Hv in E. assert (fold_left (fun z b => Z.lor z (b2z b))
                                      (firstn size a) 0 = 0) by tauto.
    lia.
  - destruct (Z.ltb_spec (fold_left (fun z b => Z.lor z (b2z b))
                                    (firstn size a) 0 - 1) 0) as [Hlt|];
      [|reflexivity].
    exfalso. apply E, Hv, Hi. lia.
Qed.

Lemma be_bytes_be_value (l : list byte) :
  be_bytes (length l) (be_value l) = l.
Proof.
  unfold be_bytes, be_value. rewrite <- (length_rev l).
  rewrite le_bytes_le_value. apply rev_involutive.
Qed.

Section PrivateKeys.

Variable ec : wei_t.
Hypothesis Hsc : sc_wf (ec_sc ec) = true.
Hypothesis Hraw : sc_raw_wf (ec_sc ec) = true.

Local Abbreviation sc := (ec_sc ec) (only parsing).
Local Abbreviation n := (sc_n (ec_sc ec)) (only parsing).
Local Abbreviation sc_value raw :=
  (bytes_value (sc_endian (ec_sc ec)) (firstn (sc_size (ec_sc ec)) raw))
  (only parsing).

Lemma sc_value_range (raw : list byte) :
  0 <= sc_value raw < 256 ^ Z.of_nat (sc_size sc).
Proof.
  pose proof (import_value_range raw (sc_size sc) (sc_endian sc)) as H.
  rewrite Z.pow_mul_r in H by lia. exact H.
Qed.

(** Re-encoding an accepted scalar gives back its bytes. *)
Lemma sc_export_import (raw : list byte) :
  (sc_size sc <= length raw)%nat ->
  sc_value raw < n ->
  sc_export sc (sc_value raw) = firstn (sc_size sc) raw.
Proof.
  intros Hl Hv. pose proof (sc_n_lt_base _ Hsc) as HnB.
  pose proof (sc_value_range raw) as Hr.
  assert (Hfl : length (firstn (sc_size sc) raw) = sc_size sc)
    by (rewrite length_firstn; lia).
  unfold sc_export, mpn_export. rewrite mpn_get_small by lia.
  unfold bytes_value. destruct (sc_endian sc =? 1).
  - rewrite <- Hfl at 1. apply be_bytes_be_value.
  - rewrite <- Hfl at 1. apply le_bytes_le_value.
Qed.

Lemma ecdsa_privkey_verify_spec (priv : list byte) :
  (sc_size sc <= length priv)%nat ->
  ecdsa_privkey_verify ec priv
  = (0 <? sc_value priv) && (sc_value priv <? n).
Proof.
  intros Hl. destruct (sc_raw_wf_facts _ Hraw) as [Hrl Hrv].
  unfold ecdsa_privkey_verify. cbv zeta.
  rewrite (bytes_zero_spec priv (sc_size sc) (sc_endian sc)).
  rewrite bytes_lt_spec; [|apply (sc_wf_endian _ Hsc)|exact Hl|lia].
  rewrite (firstn_all2 (sc_raw sc)) by lia. rewrite Hrv.
  pose proof (sc_value_range priv) as Hr.
  destruct (Z.eqb_spec (sc_value priv) 0), (Z.ltb_spec 0 (sc_value priv));
    try lia; reflexivity.
Qed.

Lemma sc_import_cases (raw : list byte) :
  (sc_size sc <= length raw)%nat ->
  sc_import sc raw
  = if sc_value raw <? n then (sc_value raw, true)
    else (sc_value raw mod limb_base (sc_limbs sc), false).
Proof.
  intros Hl. rewrite (sc_import_spec _ Hsc Hraw) by exact Hl.
  pose proof (sc_n_lt_base _ Hsc) as HnB.
  pose proof (sc_value_range raw) as Hr.
  destruct (Z.ltb_spec (sc_value raw) n) as [Hlt|Hge]; [|reflexivity].
  rewrite Z.mod_small by lia. reflexivity.
Qed.

Lemma sc_is_zero_small (a : Z) :
  0 <= a < n -> sc_is_zero sc a = (a =? 0).
Proof.
  intros Ha. pose proof (sc_n_lt_base _ Hsc) as HnB.
  rewrite (sc_is_zero_spec _ Hsc), mpn_get_small by lia. reflexivity.
Qed.

Lemma sc_is_high_var_spec (a : Z) :
  0 <= a < n -> sc_is_high_var sc a = (n / 2 <? a).
Proof.
  intros Ha. pose proof (sc_n_lt_base _ Hsc) as HnB.
  pose proof (sc_n_gt_1 _ Hsc) as Hn.
  assert (Hh : 0 <= n / 2 < n)
    by (split; [apply Z.div_pos; lia | apply Z.div_lt; lia]).
  unfold sc_is_high_var, sc_cmp_var, mpn_cmp.
  rewrite (sc_wf_nh _ Hsc), !mpn_get_small by lia.
  destruct (Z.compare_spec a (n / 2)), (Z.ltb_spec (n / 2) a);
    try lia; reflexivity.
Qed.

(** The key-transforming functions share their prologue: decode,
    reject the out-of-range and the zero key. *)
Lemma privkey_prologue (priv : list byte) (f : Z -> option (list byte)) :
  (sc_size sc <= length priv)%nat ->
  (let '(a, ok) := sc_import sc priv in
   if negb ok then None else if sc_is_zero sc a then None else f a)
  = if ecdsa_privkey_verify ec priv then f (sc_value priv) else None.
Proof.
  intros Hl. rewrite sc_import_cases, ecdsa_privkey_verify_spec by exact Hl.
  pose proof (sc_value_range priv) as Hr.
  destruct (Z.ltb_spec (sc_value priv) n) as [Hlt|Hge]; cbn [negb].
  - rewrite sc_is_zero_small by lia.
    destruct (Z.eqb_spec (sc_value priv) 0), (Z.ltb_spec 0 (sc_value priv));
      try lia; reflexivity.
  - rewrite andb_false_r. reflexivity.
Qed.

Lemma ecdsa_privkey_negate_spec (priv : list byte) :
  (sc_size sc <= length priv)%nat ->
  ecdsa_privkey_negate ec priv
  = if ecdsa_privkey_verify ec priv
    then Some (sc_export sc (n - sc_value priv)) else None.
Proof.
  intros Hl. unfold ecdsa_privkey_negate. cbv zeta.
  rewrite (privkey_prologue priv (fun a => Some (sc_export sc (sc_neg sc a))))
    by exact Hl.
  destruct (ecdsa_privkey_verify ec priv) eqn:Hv; [|reflexivity].
  rewrite ecdsa_privkey_verify_spec in Hv by exact Hl.
  apply andb_true_iff in Hv. destruct Hv as [H0 H1].
  apply Z.ltb_lt in H0, H1.
  rewrite (sc_neg_spec _ Hsc) by lia.
  replace (- sc_value priv) with (n - sc_value priv + (-1) * n) by ring.
  rewrite Z.mod_add, Z.mod_small by lia. reflexivity.
Qed.

Lemma ecdsa_privkey_invert_spec (priv : list byte) :
  Z.prime n ->
  (sc_size sc <= length priv)%nat ->
  ecdsa_privkey_invert ec priv
  = if ecdsa_privkey_verify ec priv
    then Some (sc_export sc (Z.invmod (sc_value priv) n)) else None.
Proof.
  intros Hp Hl. unfold ecdsa_privkey_invert. cbv zeta.
  rewrite (privkey_prologue priv
             (fun a => Some (sc_export sc (fst (sc_invert sc a)))))
    by exact Hl.
  destruct (ecdsa_privkey_verify ec priv) eqn:Hv; [|reflexivity].
  rewrite ecdsa_privkey_verify_spec in Hv by exact Hl.
  apply andb_true_iff in Hv. destruct Hv as [H0 H1].
  apply Z.ltb_lt in H0, H1.
  rewrite (sc_invert_fermat _ Hsc Hp) by lia. reflexivity.
Qed.

Lemma ecdsa_privkey_tweak_add_spec (priv tweak : list byte) :
  (sc_size sc <= length priv)%nat ->
  (sc_size sc <= length tweak)%nat ->
  ecdsa_privkey_tweak_add ec priv tweak
  = if ecdsa_privkey_verify ec priv && (sc_value tweak <? n)
       && negb ((sc_value priv + sc_value tweak) mod n =? 0)
    then Some (sc_export sc ((sc_value priv + sc_value tweak) mod n))
    else None.
Proof.
  intros Hl Ht. unfold ecdsa_privkey_tweak_add. cbv zeta.
  rewrite (privkey_prologue priv
    (fun a => let '(t, ok) := sc_import sc tweak in
              if negb ok then None else
              if sc_is_zero sc (sc_add sc a t) then None
              else Some (sc_export sc (sc_add sc a t)))) by exact Hl.
  destruct (ecdsa_privkey_verify ec priv) eqn:Hv; [|reflexivity].
  cbn [andb]. rewrite sc_import_cases by exact Ht.
  pose proof (sc_n_gt_1 _ Hsc) as Hn.
  rewrite ecdsa_privkey_verify_spec in Hv by exact Hl.
  apply andb_true_iff in Hv. destruct Hv as [H0 H1].
  apply Z.ltb_lt in H0, H1.
  pose proof (sc_value_range tweak) as Hr.
  destruct (Z.ltb_spec (sc_value tweak) n) as [Hlt|Hge]; cbn [negb];
    [|reflexivity].
  rewrite (sc_add_spec _ Hsc) by lia.
  rewrite sc_is_zero_small by (apply Z.mod_pos_bound; lia).
  destruct ((sc_value priv + sc_value tweak) mod n =? 0); reflexivity.
Qed.

Lemma ecdsa_privkey_tweak_mul_spec (priv tweak : list byte) :
  (sc_size sc <= length priv)%nat ->
  (sc_size sc <= length tweak)%nat ->
  ecdsa_privkey_tweak_mul ec priv tweak
  = if ecdsa_privkey_verify ec priv && (sc_value tweak <? n)
       && negb ((sc_value priv * sc_value tweak) mod n =? 0)
    then Some (sc_export sc ((sc_value priv * sc_value tweak) mod n))
    else None.
Proof.
  intros Hl Ht. unfold ecdsa_privkey_tweak_mul. cbv zeta.
  rewrite (privkey_prologue priv
    (fun a => let '(t, ok) := sc_import sc tweak in
              if negb ok then None else
              if sc_is_zero sc (sc_mul sc a t) then None
              else Some (sc_export sc (sc_mul sc a t)))) by exact Hl.
  destruct (ecdsa_privkey_verify ec priv) eqn:Hv; [|reflexivity].
  cbn [andb]. rewrite sc_import_cases by exact Ht.
  pose proof (sc_n_gt_1 _ Hsc) as Hn.
  rewrite ecdsa_privkey_verify_spec in Hv by exact Hl.
  apply andb_true_iff in Hv. destruct Hv as [H0 H1].
  apply Z.ltb_lt in H0, H1.
  pose proof (sc_value_range tweak) as Hr.
  destruct (Z.ltb_spec (sc_value tweak) n) as [Hlt|Hge]; cbn [negb];
    [|reflexivity].
  rewrite (sc_mul_spec _ Hsc) by lia.
  rewrite sc_is_zero_small by (apply Z.mod_pos_bound; lia).
  destruct ((sc_value priv * sc_value tweak) mod n =? 0); reflexivity.
Qed.

(** The exported form of a scalar in range is an accepted key exactly
    when the scalar is not zero. *)
Lemma ecdsa_privkey_verify_export (a : Z) :
  0 <= a < n ->
  ecdsa_privkey_verify ec (sc_export sc a) = (0 <? a).
Proof.
  intros Ha.
  rewrite ecdsa_privkey_verify_spec by (rewrite length_sc_export; lia).
  pose proof (sc_export_value _ Hsc a [] Ha) as Hv.
  rewrite app_nil_r in Hv. rewrite Hv.
  destruct (Z.ltb_spec a n); [|lia]. apply andb_true_r.
Qed.

Lemma sc_value_export (a : Z) :
  0 <= a < n -> sc_value (sc_export sc a) = a.
Proof.
  intros Ha. pose proof (sc_export_value _ Hsc a [] Ha) as Hv.
  rewrite app_nil_r in Hv. exact Hv.
Qed.

(* ----------------------------------------------------------------- *)
(** *** Signature encodings *)

Lemma sig_prologue {T : Type} (sig : list byte) (f : Z -> Z -> T) (d : T) :
  (2 * sc_size sc <= length sig)%nat ->
  (let '(r, ok) := sc_import sc sig in
   if negb ok then d else
   let '(s, ok) := sc_import sc (skipn (sc_size sc) sig) in
   if negb ok then d else f r s)
  = if (sc_value sig <? n) && (sc_value (skipn (sc_size sc) sig) <? n)
    then f (sc_value sig) (sc_value (skipn (sc_size sc) sig)) else d.
Proof.
  intros Hl.
  rewrite (sc_import_cases sig) by lia.
  destruct (sc_value sig <? n); cbn [negb andb]; [|reflexivity].
  rewrite sc_import_cases by (rewrite length_skipn; lia).
  destruct (sc_value (skipn (sc_size sc) sig) <? n); reflexivity.
Qed.

Lemma ecdsa_is_low_s_spec (sig : list byte) :
  (2 * sc_size sc <= length sig)%nat ->
  ecdsa_is_low_s ec sig
  = (sc_value sig <? n)
    && (sc_value (skipn (sc_size sc) sig) <=? n / 2).
Proof.
  intros Hl. unfold ecdsa_is_low_s. cbv zeta.
  rewrite (sig_prologue sig (fun _ s => negb (sc_is_high_var sc s)) false)
    by exact Hl.
  pose proof (sc_n_gt_1 _ Hsc) as Hn.
  assert (Hh : n / 2 < n) by (apply Z.div_lt; lia).
  pose proof (sc_value_range (skipn (sc_size sc) sig)) as Hr.
  destruct (Z.ltb_spec (sc_value sig) n); cbn [andb].
  2:{ reflexivity. }
  destruct (Z.ltb_spec (sc_value (skipn (sc_size sc) sig)) n) as [Hlt|Hge].
  - rewrite sc_is_high_var_spec by lia.
    destruct (Z.ltb_spec (n / 2) (sc_value (skipn (sc_size sc) sig))),
      (Z.leb_spec (sc_value (skipn (sc_size sc) sig)) (n / 2));
      try lia; reflexivity.
  - destruct (Z.leb_spec (sc_value (skipn (sc_size sc) sig)) (n / 2));
      [lia|reflexivity].
Qed.

Lemma ecdsa_sig_normalize_spec (sig : list byte) :
  (2 * sc_size sc <= length sig)%nat ->
  ecdsa_sig_normalize ec sig
  = if (sc_value sig <? n) && (sc_value (skipn (sc_size sc) sig) <? n)
    then Some (sc_export sc (sc_value sig) ++
               sc_export sc
                 (if n / 2 <? sc_value (skipn (sc_size sc) sig)
                  then n - sc_value (skipn (sc_size sc) sig)
                  else sc_value (skipn (sc_size sc) sig)))
    else None.
Proof.
  intros Hl. unfold ecdsa_sig_normalize. cbv zeta.
  rewrite (sig_prologue sig
    (fun r s => Some (sc_export sc r ++
                      sc_export sc (if sc_is_high_var sc s
                                    then sc_neg sc s else s))) None)
    by exact Hl.
  pose proof (sc_n_gt_1 _ Hsc) as Hn.
  pose proof (sc_value_range (skipn (sc_size sc) sig)) as Hr.
  destruct (Z.ltb_spec (sc_value sig) n); cbn [andb]; [|reflexivity].
  destruct (Z.ltb_spec (sc_value (skipn (sc_size sc) sig)) n) as [Hlt|Hge];
    [|reflexivity].
  rewrite sc_is_high_var_spec by lia.
  destruct (Z.ltb_spec (n / 2) (sc_value (skipn (sc_size sc) sig)));
    [|reflexivity].
  rewrite (sc_neg_spec _ Hsc) by lia.
  replace (- sc_value (skipn (sc_size sc) sig))
    with (n - sc_value (skipn (sc_size sc) sig) + (-1) * n) by ring.
  assert (0 <= n / 2) by (apply Z.div_pos; lia).
  rewrite Z.mod_add, Z.mod_small by lia. reflexivity.
Qed.

End PrivateKeys.

(* ================================================================= *)
(** ** Constant-time affine arithmetic *)

Lemma jge_dbl_eq_var (ec : wei_t) (p : jge_t) :
  jge_dbl ec p = jge_dbl_var ec p.
Proof.
  unfold jge_dbl, jge_dbl_var, fe_select, jge_zero. cbv zeta.
  destruct (jge_is_zero p); [destruct (1 <? ec_h ec); reflexivity|].
  cbn [orb]. destruct (1 <? ec_h ec); cbn [andb].
  - destruct (fe_is_zero (jge_y p)); [reflexivity|].
    destruct (jge_dbl_formula ec p); reflexivity.
  - destruct (jge_dbl_formula ec p); reflexivity.
Qed.

Section AffineConstantTime.

Variable ec : wei_t.
Hypothesis Hfe : fe_wf (ec_fe ec) = true.
Hypothesis Hflags : wei_flags_wf ec = true.
Hypothesis Hback : fe_backend_wf (ec_fe ec).

Lemma wge_add_spec (a b : wge_t) :
  on_curve ec (waff a) = true -> on_curve ec (waff b) = true ->
  waff (wge_add ec a b) = padd ec (waff a) (waff b).
Proof.
  intros Ha Hb. unfold wge_add. cbv zeta.
  rewrite (jge_to_wge_spec ec Hfe Hback).
  rewrite (jge_mixed_add_spec ec Hflags)
    by (rewrite ?wge_to_jge_spec; assumption).
  rewrite wge_to_jge_spec. reflexivity.
Qed.

Lemma wge_sub_spec (a b : wge_t) :
  on_curve ec (waff a) = true -> on_curve ec (waff b) = true ->
  waff (wge_sub ec a b) = padd ec (waff a) (pneg (waff b)).
Proof.
  intros Ha Hb. unfold wge_sub. cbv zeta.
  rewrite wge_add_spec, wge_neg_spec;
    rewrite ?wge_neg_spec; try apply pneg_on_curve; auto.
Qed.

Lemma wge_dbl_spec (p : wge_t) :
  cofactor_ok ec ->
  on_curve ec (waff p) = true ->
  waff (wge_dbl ec p) = padd ec (waff p) (waff p).
Proof.
  intros Hcof Hp. unfold wge_dbl. cbv zeta.
  rewrite (jge_to_wge_spec ec Hfe Hback), jge_dbl_eq_var.
  rewrite (jge_dbl_var_spec ec Hflags Hcof)
    by (rewrite wge_to_jge_spec; exact Hp).
  rewrite wge_to_jge_spec. reflexivity.
Qed.

End AffineConstantTime.

(* ================================================================= *)
(** ** Public keys *)

Section PublicKeys.

Variable ec : wei_t.
Hypothesis Hfe : fe_wf (ec_fe ec) = true.
Hypothesis Hflags : wei_flags_wf ec = true.
Hypothesis Hback : fe_backend_wf (ec_fe ec).
Hypothesis Hsqrt : fe_sqrt_complete (ec_fe ec).

(** Importing what [wge_export] wrote. *)
Lemma wge_import_exported (A : wge_t) (compact : bool) (pub : list byte) :
  on_curve ec (waff A) = true ->
  wge_export ec A compact = Some pub ->
  wge_import ec pub (length pub) = Some (Some A).
Proof.
  intros Hoc He.
  assert (Hinf : wge_inf A = false).
  { unfold wge_export in He. destruct (wge_inf A); [discriminate|reflexivity]. }
  destruct (wge_import_export ec Hfe Hback Hsqrt A compact Hinf Hoc)
    as (raw & Hexp & Himp).
  rewrite He in Hexp. injection Hexp as <-. exact Himp.
Qed.

Lemma ecdsa_pubkey_convert_exported (A : wge_t) (c c' : bool)
      (pub : list byte) :
  on_curve ec (waff A) = true ->
  wge_export ec A c = Some pub ->
  ecdsa_pubkey_convert ec pub c' = Some (wge_export ec A c').
Proof.
  intros Hoc He. unfold ecdsa_pubkey_convert.
  rewrite (wge_import_exported A c pub Hoc He). reflexivity.
Qed.

Lemma ecdsa_pubkey_negate_exported (A : wge_t) (c c' : bool)
      (pub : list byte) :
  on_curve ec (waff A) = true ->
  wge_export ec A c = Some pub ->
  ecdsa_pubkey_negate ec pub c' = Some (wge_export ec (wge_neg A) c').
Proof.
  intros Hoc He. unfold ecdsa_pubkey_negate.
  rewrite (wge_import_exported A c pub Hoc He). reflexivity.
Qed.

Lemma wge_export_neg_some (A : wge_t) (c : bool) :
  wge_inf A = false -> exists out, wge_export ec (wge_neg A) c = Some out.
Proof.
  intros Hinf. unfold wge_export, wge_neg. cbn [wge_inf wge_x wge_y].
  rewrite Hinf. destruct c; eexists; reflexivity.
Qed.

Lemma wge_export_finite (A : wge_t) (c : bool) (pub : list byte) :
  wge_export ec A c = Some pub -> wge_inf A = false.
Proof.
  unfold wge_export. destruct (wge_inf A); [discriminate|reflexivity].
Qed.

(** The sum kept by the loop of [ecdsa_pubkey_combine]. *)
Lemma ecdsa_pubkey_combine_loop_spec (pubs : list (list byte))
      (As : list wge_t) (P : jge_t) :
  Forall2 (fun pub A => wge_import ec pub (length pub) = Some (Some A))
          pubs As ->
  on_curve ec (jaff P) = true ->
  exists R,
    ecdsa_pubkey_combine_loop ec pubs P = Some (Some R) /\
    jaff R = fold_left (padd ec) (map waff As) (jaff P) /\
    on_curve ec (jaff R) = true.
Proof.
  intros HF. revert P. induction HF as [|pub A pubs As Hi HF IH]; intros P HP.
  - exists P. cbn [ecdsa_pubkey_combine_loop map fold_left].
    split; [reflexivity|]. split; [reflexivity|exact HP].
  - cbn [ecdsa_pubkey_combine_loop map fold_left]. rewrite Hi.
    destruct (wge_import_on_curve ec Hback _ _ _ Hi) as [_ HA].
    pose proof (jge_mixed_add_spec ec Hflags P A HP HA) as Hadd.
    destruct (IH (jge_mixed_add ec P A)) as (R & HR & HRv & HRc).
    { rewrite Hadd. apply padd_closed; assumption. }
    exists R. split; [exact HR|]. split; [|exact HRc].
    rewrite HRv, Hadd. reflexivity.
Qed.

Lemma ecdsa_pubkey_combine_loop_bad (pubs pubs' : list (list byte))
      (As : list wge_t) (bad : list byte) (P : jge_t) :
  Forall2 (fun pub A => wge_import ec pub (length pub) = Some (Some A))
          pubs As ->
  wge_import ec bad (length bad) = Some None ->
  ecdsa_pubkey_combine_loop ec (pubs ++ bad :: pubs') P = Some None.
Proof.
  intros HF Hb. revert P. induction HF as [|pub A pubs As Hi HF IH]; intros P.
  - cbn. rewrite Hb. reflexivity.
  - cbn [app ecdsa_pubkey_combine_loop]. rewrite Hi. apply IH.
Qed.

End PublicKeys.

(* ================================================================= *)
(** ** Keys and signatures together *)

Section EcdsaKeyFacts.

Variable ec : wei_t.
Hypothesis Hwf : wei_wf ec.

Local Abbreviation sc := (ec_sc ec) (only parsing).
Local Abbreviation n := (sc_n (ec_sc ec)) (only parsing).
Local Abbreviation G := (waff (ec_g ec)) (only parsing).

Lemma wei_wf_scalars :
  sc_wf sc = true /\ sc_raw_wf sc = true /\ sc_endian sc = 1.
Proof.
  destruct Hwf as (Hf & _ & Hraw & Hbe & _).
  destruct (wei_fields_wf_facts ec Hf) as (_ & Hsc & _). auto.
Qed.

Lemma sc_value_be (l : list byte) :
  bytes_value (sc_endian sc) l = be_value l.
Proof.
  destruct wei_wf_scalars as (_ & _ & Hbe).
  unfold bytes_value. rewrite Hbe. reflexivity.
Qed.

(** The layout of a signature: [r] then the minimized [s], both
    reduced, and a two-bit recovery parameter. *)
Lemma ecdsa_signed_shape (a m k : Z) (sig : list byte) (param : Z) :
  ecdsa_signed ec a m k sig param ->
  length sig = (2 * sc_size sc)%nat /\
  0 < be_value (firstn (sc_size sc) sig) < n /\
  0 <= be_value (firstn (sc_size sc) (skipn (sc_size sc) sig)) <= n / 2 /\
  0 <= param < 4.
Proof.
  intros (x & y & HR & Hsig). cbv zeta in Hsig.
  destruct Hsig as (Hr0 & Hsig & Hpar).
  destruct wei_wf_scalars as (Hsc & Hraw & Hbe).
  pose proof (sc_n_gt_1 _ Hsc) as Hn1.
  pose proof (Z.mod_pos_bound (Zmod.to_Z x) n ltac:(lia)) as Hr.
  set (r := Zmod.to_Z x mod n) in *.
  pose proof (Z.mod_pos_bound ((r * a + m) * Z.invmod k n) n ltac:(lia))
    as Hs0.
  set (s0 := (r * a + m) * Z.invmod k n mod n) in *.
  set (hi := n / 2 <? s0) in *.
  set (s1 := if hi then (- s0) mod n else s0) in *.
  pose proof (Z.div_mod n 2 ltac:(lia)) as Hdm.
  pose proof (Z.mod_pos_bound n 2 ltac:(lia)) as Hm2.
  assert (Hs1 : 0 <= s1 <= n / 2).
  { unfold s1, hi. destruct (Z.ltb_spec (n / 2) s0) as [Hhi|Hlo].
    - assert (E : (- s0) mod n = n - s0).
      { symmetry. apply Z.mod_unique with (q := -1); lia. }
      rewrite E. lia.
    - lia. }
  assert (Hrv : be_value (firstn (sc_size sc) sig) = r).
  { rewrite Hsig, <- sc_value_be. apply (sc_export_value _ Hsc). lia. }
  assert (Hsv : be_value (firstn (sc_size sc) (skipn (sc_size sc) sig)) = s1).
  { rewrite Hsig, skipn_app_exact by apply length_sc_export.
    rewrite <- (app_nil_r (sc_export sc s1)), <- sc_value_be.
    apply (sc_export_value _ Hsc). lia. }
  rewrite Hrv, Hsv. split.
  { rewrite Hsig, length_app, !length_sc_export. lia. }
  split; [lia|]. split; [exact Hs1|].
  rewrite Hpar.
  destruct (negb (Zmod.to_Z x <? n)), (xorb (fe_is_odd y) hi);
    cbn; lia.
Qed.

(** A key that [ecdsa_privkey_verify] accepts decodes to a nonzero
    reduced scalar. *)
Lemma privkey_valid_import (priv : list byte) :
  (sc_size sc <= length priv)%nat ->
  ecdsa_privkey_verify ec priv = true ->
  0 < be_value (firstn (sc_size sc) priv) < n /\
  sc_import sc priv = (be_value (firstn (sc_size sc) priv), true).
Proof.
  intros Hl Hv. destruct wei_wf_scalars as (Hsc & Hraw & Hbe).
  rewrite (ecdsa_privkey_verify_spec ec Hsc Hraw) in Hv by exact Hl.
  rewrite sc_value_be in Hv.
  apply andb_true_iff in Hv. destruct Hv as [H0 H1].
  apply Z.ltb_lt in H0, H1. split; [lia|].
  rewrite (sc_import_cases ec Hsc Hraw) by exact Hl.
  rewrite sc_value_be.
  destruct (Z.ltb_spec (be_value (firstn (sc_size sc) priv)) n);
    [reflexivity|lia].
Qed.

(** Signing and key derivation refuse what [ecdsa_privkey_verify]
    refuses. *)
Lemma privkey_invalid_refused (priv : list byte) :
  (sc_size sc <= length priv)%nat ->
  ecdsa_privkey_verify ec priv = false ->
  forall (T : Type) (d : T) (f : Z -> T),
    (let '(a, ok) := sc_import sc priv in
     if negb ok then d else if sc_is_zero sc a then d else f a) = d.
Proof.
  intros Hl Hv T d f. destruct wei_wf_scalars as (Hsc & Hraw & Hbe).
  rewrite (ecdsa_privkey_verify_spec ec Hsc Hraw) in Hv by exact Hl.
  rewrite (sc_import_cases ec Hsc Hraw) by exact Hl.
  pose proof (sc_value_range ec priv) as Hr.
  destruct (Z.ltb_spec (bytes_value (sc_endian sc) (firstn (sc_size sc) priv))
                       n) as [Hlt|Hge]; cbn [negb]; [|reflexivity].
  rewrite (sc_is_zero_small ec Hsc) by lia.
  rewrite andb_true_r in Hv. apply Z.ltb_ge in Hv.
  destruct (Z.eqb_spec (bytes_value (sc_endian sc)
                          (firstn (sc_size sc) priv)) 0);
    [reflexivity|lia].
Qed.

End EcdsaKeyFacts.

(* ================================================================= *)
(** ** Initialisation *)

Lemma max_reduce_bits : MAX_SCALAR_BITS <= GMP_NUMB_BITS * MAX_REDUCE_LIMBS.
Proof.
  unfold MAX_REDUCE_LIMBS, MAX_SCALAR_LIMBS.
  pose proof (Z.div_mod (MAX_SCALAR_BITS + GMP_NUMB_BITS - 1) GMP_NUMB_BITS
                ltac:(lia)) as Hdm.
  pose proof (Z.mod_pos_bound (MAX_SCALAR_BITS + GMP_NUMB_BITS - 1)
                GMP_NUMB_BITS ltac:(lia)) as Hm.
  assert (0 <= (MAX_SCALAR_BITS + GMP_NUMB_BITS - 1) / GMP_NUMB_BITS)
    by (apply Z.div_pos; unfold MAX_SCALAR_BITS; lia).
  nia.
Qed.

Lemma limbs_cover_bits (bits : Z) :
  0 <= bits ->
  bits <= GMP_NUMB_BITS * ((bits + GMP_NUMB_BITS - 1) / GMP_NUMB_BITS).
Proof.
  intros Hb.
  pose proof (Z.div_mod (bits + GMP_NUMB_BITS - 1) GMP_NUMB_BITS ltac:(lia))
    as Hdm.
  pose proof (Z.mod_pos_bound (bits + GMP_NUMB_BITS - 1) GMP_NUMB_BITS
                ltac:(lia)) as Hm.
  lia.
Qed.

Lemma size_covers_bits (bits : Z) :
  0 <= bits -> bits <= 8 * ((bits + 7) / 8) <= bits + 7.
Proof.
  intros Hb.
  pose proof (Z.div_mod (bits + 7) 8 ltac:(lia)) as Hdm.
  pose proof (Z.mod_pos_bound (bits + 7) 8 ltac:(lia)) as Hm. lia.
Qed.

(** [scalar_field_set] on a modulus of exactly [bits] bits. *)
Lemma scalar_field_set_wf (modulus : list byte) (bits endian : Z) :
  1 < bits <= MAX_SCALAR_BITS ->
  endian = 1 \/ endian = -1 ->
  length modulus = Z.to_nat ((bits + 7) / 8) ->
  2 ^ (bits - 1) <= be_value modulus < 2 ^ bits ->
  let sc := scalar_field_set modulus bits endian in
  sc_wf sc = true /\ sc_raw_wf sc = true /\
  sc_n sc = be_value modulus.
Proof.
  intros Hb He Hl Hn. cbv zeta.
  pose proof max_reduce_bits as HM.
  pose proof (limbs_cover_bits bits ltac:(lia)) as HL.
  pose proof (size_covers_bits bits ltac:(lia)) as HS.
  set (n := be_value modulus) in *.
  set (limbs := (bits + GMP_NUMB_BITS - 1) / GMP_NUMB_BITS) in *.
  assert (Hlimbs : 1 <= limbs).
  { unfold limbs. apply Z.div_le_lower_bound; lia. }
  assert (HnM : 0 <= n < limb_base MAX_REDUCE_LIMBS).
  { split; [apply be_value_nonneg|]. unfold limb_base.
    assert (2 ^ bits <= 2 ^ (GMP_NUMB_BITS * MAX_REDUCE_LIMBS))
      by (apply Z.pow_le_mono_r; lia). lia. }
  assert (HnL : n < limb_base limbs).
  { unfold limb_base.
    assert (2 ^ bits <= 2 ^ (GMP_NUMB_BITS * limbs))
      by (apply Z.pow_le_mono_r; lia). lia. }
  assert (Hn0 : 0 < n).
  { assert (0 < 2 ^ (bits - 1)) by (apply Z.pow_pos_nonneg; lia). lia. }
  assert (Himp : mpn_import MAX_REDUCE_LIMBS modulus
                   (Z.to_nat ((bits + 7) / 8)) 1 = n).
  { unfold mpn_import. cbn [Z.eqb Pos.eqb].
    rewrite firstn_all2 by lia. apply Z.mod_small. exact HnM. }
  assert (Hn8 : n < 256 ^ Z.of_nat (Z.to_nat ((bits + 7) / 8))).
  { rewrite Z2Nat.id by (apply Z.div_pos; lia).
    change 256 with (2 ^ 8). rewrite <- Z.pow_mul_r by lia.
    assert (2 ^ bits <= 2 ^ (8 * ((bits + 7) / 8)))
      by (apply Z.pow_le_mono_r; lia). lia. }
  unfold scalar_field_set. cbv zeta. fold limbs. rewrite Himp.
  split; [|split; [|reflexivity]].
  - unfold sc_wf.
    cbn [sc_bits sc_limbs sc_size sc_shift sc_n sc_nh sc_m sc_endian].
    rewrite !andb_true_iff, orb_true_iff.
    rewrite !Z.eqb_eq, !Z.ltb_lt, Z.leb_le.
    repeat split; try lia.
    + unfold mpn_rshift. rewrite mpn_get_small by exact HnM.
      rewrite Z.shiftr_div_pow2 by lia. reflexivity.
    + unfold mpn_tdiv_qr. cbn [fst].
      rewrite (mpn_get_small n limbs) by lia.
      rewrite mpn_get_small; [reflexivity|].
      split; [apply Z.lt_le_incl, limb_base_pos; lia|].
      unfold limb_base. apply Z.pow_lt_mono_r; lia.
  - unfold sc_raw_wf. cbn [sc_raw sc_size sc_endian sc_n].
    apply andb_true_iff. split.
    + apply Nat.eqb_eq. unfold mpn_export.
      destruct (endian =? 1); [apply length_be_bytes|apply length_le_bytes].
    + apply Z.eqb_eq. unfold mpn_export.
      rewrite mpn_get_small by exact HnM.
      pose proof (bytes_value_firstn_export (Z.to_nat ((bits + 7) / 8)) n
                    endian He) as Hv.
      rewrite firstn_all2 in Hv.
      * rewrite Hv. apply Z.mod_small. lia.
      * destruct (endian =? 1);
          [rewrite length_be_bytes|rewrite length_le_bytes]; lia.
Qed.

(** [prime_field_init] on the modulus [fe_p] of exactly [bits] bits. *)
Lemma prime_field_init_wf (def : prime_def_t) (endian : Z) :
  1 < def_bits def <= MAX_SCALAR_BITS ->
  endian = 1 \/ endian = -1 ->
  length (def_p def) = Z.to_nat ((def_bits def + 7) / 8) ->
  be_value (def_p def) = fe_p ->
  2 ^ (def_bits def - 1) <= fe_p < 2 ^ def_bits def ->
  fe_wf (prime_field_init def endian) = true.
Proof.
  intros Hb He Hl Hv Hp.
  pose proof max_reduce_bits as HM.
  pose proof (size_covers_bits (def_bits def) ltac:(lia)) as HS.
  set (bits := def_bits def) in *.
  assert (HpM : 0 <= fe_p < limb_base MAX_REDUCE_LIMBS).
  { split; [lia|]. unfold limb_base.
    assert (2 ^ bits <= 2 ^ (GMP_NUMB_BITS * MAX_REDUCE_LIMBS))
      by (apply Z.pow_le_mono_r; lia). lia. }
  assert (Himp : mpn_import MAX_REDUCE_LIMBS (def_p def)
                   (Z.to_nat ((bits + 7) / 8)) 1 = fe_p).
  { unfold mpn_import. cbn [Z.eqb Pos.eqb].
    rewrite firstn_all2 by lia. rewrite Hv. apply Z.mod_small. exact HpM. }
  assert (Hp8 : fe_p < 256 ^ Z.of_nat (Z.to_nat ((bits + 7) / 8))).
  { rewrite Z2Nat.id by (apply Z.div_pos; lia).
    change 256 with (2 ^ 8). rewrite <- Z.pow_mul_r by lia.
    assert (2 ^ bits <= 2 ^ (8 * ((bits + 7) / 8)))
      by (apply Z.pow_le_mono_r; lia). lia. }
  unfold prime_field_init. cbv zeta. fold bits. rewrite Himp.
  unfold fe_wf.
  cbn [fe_bits fe_limbs fe_size fe_plimbs fe_endian fe_raw fe_mask].
  rewrite !andb_true_iff, orb_true_iff.
  rewrite !Z.eqb_eq, !Z.ltb_lt, Z.leb_le, Nat.eqb_eq.
  repeat split; try lia.
  - unfold mpn_export.
    destruct (endian =? 1); [apply length_be_bytes|apply length_le_bytes].
  - unfold mpn_export. rewrite mpn_get_small by exact HpM.
    pose proof (bytes_value_firstn_export (Z.to_nat ((bits + 7) / 8)) fe_p
                  endian He) as Hx.
    rewrite firstn_all2 in Hx.
    + rewrite Hx. apply Z.mod_small. lia.
    + destruct (endian =? 1);
        [rewrite length_be_bytes|rewrite length_le_bytes]; lia.
  - rewrite Z2Nat.id by (apply Z.div_pos; lia).
    pose proof (Z.div_mod (bits + 7) 8 ltac:(lia)) as Hdm.
    pose proof (Z.mod_pos_bound (bits + 7) 8 ltac:(lia)) as Hm.
    destruct (Z.eqb_spec (Z.land bits 7) 0) as [E|E]; cbn [negb].
    + change 7 with (Z.ones 3) in E. rewrite Z.land_ones in E by lia.
      change (2 ^ 3) with 8 in E.
      replace (bits - 8 * ((bits + 7) / 8 - 1)) with 8; [reflexivity|].
      pose proof (Z.div_mod bits 8 ltac:(lia)) as Hd8.
      rewrite E in Hd8.
      assert ((bits + 7) / 8 = bits / 8).
      { symmetry. apply Z.div_unique with (r := 7); lia. }
      lia.
    + rewrite Z.shiftl_1_l. f_equal. f_equal. lia.
Qed.

(** The table builders read the field, the scalar field, [a] and [h]
    of the context, and nothing else. *)
Section TableContext.

Variables ec1 ec2 : wei_t.
Hypothesis Hfe : ec_fe ec1 = ec_fe ec2.
Hypothesis Hsc : ec_sc ec1 = ec_sc ec2.
Hypothesis Ha : ec_a ec1 = ec_a ec2.
Hypothesis Hh : ec_h ec1 = ec_h ec2.

Lemma wge_dbl_var_ext (p : wge_t) : wge_dbl_var ec1 p = wge_dbl_var ec2 p.
Proof. unfold wge_dbl_var. rewrite Hfe, Ha, Hh. reflexivity. Qed.

Lemma wge_add_var_ext (a b : wge_t) :
  wge_add_var ec1 a b = wge_add_var ec2 a b.
Proof. unfold wge_add_var. rewrite Hfe, wge_dbl_var_ext. reflexivity. Qed.

Lemma wge_chain_var_ext (g prev : wge_t) (n : nat) :
  wge_chain_var ec1 g prev n = wge_chain_var ec2 g prev n.
Proof.
  revert prev. induction n as [|n IH]; intros prev; [reflexivity|].
  cbn [wge_chain_var]. cbv zeta. rewrite wge_add_var_ext, IH. reflexivity.
Qed.

Lemma wge_wnd_steps_var_ext (g : wge_t) (steps : nat) :
  wge_wnd_steps_var ec1 g steps = wge_wnd_steps_var ec2 g steps.
Proof.
  revert g. induction steps as [|steps IH]; intros g; [reflexivity|].
  cbn [wge_wnd_steps_var]. cbv zeta.
  rewrite wge_chain_var_ext, !wge_dbl_var_ext, IH. reflexivity.
Qed.

Lemma wge_wnd_points_var_ext (g : wge_t) :
  wge_wnd_points_var ec1 g = wge_wnd_points_var ec2 g.
Proof.
  unfold wge_wnd_points_var. cbv zeta.
  rewrite Hsc. apply wge_wnd_steps_var_ext.
Qed.

Lemma wge_naf_points_var_ext (g : wge_t) (w : Z) :
  wge_naf_points_var ec1 g w = wge_naf_points_var ec2 g w.
Proof.
  unfold wge_naf_points_var. cbv zeta.
  rewrite wge_dbl_var_ext, wge_chain_var_ext. reflexivity.
Qed.

End TableContext.

(** What [wei_init] leaves in the context, for definition tables that
    give the moduli with their exact bit lengths. *)
Lemma wei_init_spec (def : wei_def_t) (ec : wei_t) :
  1 < def_bits (def_fe def) <= MAX_SCALAR_BITS ->
  length (def_p (def_fe def)) = Z.to_nat ((def_bits (def_fe def) + 7) / 8) ->
  be_value (def_p (def_fe def)) = fe_p ->
  2 ^ (def_bits (def_fe def) - 1) <= fe_p < 2 ^ def_bits (def_fe def) ->
  1 < def_sc_bits (def_sc def) <= MAX_SCALAR_BITS ->
  length (def_n (def_sc def))
  = Z.to_nat ((def_sc_bits (def_sc def) + 7) / 8) ->
  2 ^ (def_sc_bits (def_sc def) - 1) <= be_value (def_n (def_sc def))
  < 2 ^ def_sc_bits (def_sc def) ->
  (def_sc_bits (def_sc def) + 7) / 8 = (def_bits (def_fe def) + 7) / 8 ->
  wei_init def = Some ec ->
  wei_fields_wf ec = true /\ wei_flags_wf ec = true /\
  sc_raw_wf (ec_sc ec) = true /\ sc_endian (ec_sc ec) = 1 /\
  wei_tables_wf ec /\ wge_inf (ec_g ec) = false /\
  wei_blind_wf ec /\
  sc_n (ec_sc ec) = be_value (def_n (def_sc def)) /\
  ec_pmodn ec = fe_p mod sc_n (ec_sc ec) /\
  ec_endo ec = def_endo def /\ ec_h ec = def_h def.
Proof.
  intros Hfb Hfl Hfv Hfp Hsb Hsl Hsn Hsize Hinit.
  destruct (scalar_field_set_wf (def_n (def_sc def))
              (def_sc_bits (def_sc def)) 1 Hsb (or_introl eq_refl) Hsl Hsn)
    as (Hscwf & Hraw & Hn).
  pose proof (prime_field_init_wf (def_fe def) 1 Hfb (or_introl eq_refl)
                Hfl Hfv Hfp) as Hfewf.
  unfold wei_init in Hinit. cbv zeta in Hinit.
  fold (scalar_field_init (def_sc def) 1) in *.
  set (fe := prime_field_init (def_fe def) 1) in *.
  set (sc := scalar_field_init (def_sc def) 1) in *.
  destruct (Z.leb_spec (sc_limbs sc) (fe_limbs fe)) as [Hlim|Hlim];
    cbn [negb] in Hinit; [|discriminate].
  match type of Hinit with
  | context [wge_wnd_points_var ?e _] => set (ec0 := e) in *
  end.
  assert (Hfields :
    ec_fe ec = fe /\ ec_sc ec = sc /\ ec_h ec = def_h def /\
    ec_pmodn ec = sc_reduce sc (fe_plimbs fe) /\
    ec_red_n ec = fst (fe_set_limbs fe (sc_n sc) (sc_limbs sc)) /\
    ec_a ec = ec_a ec0 /\
    ec_zero_a ec = fe_is_zero (ec_a ec) /\
    ec_three_a ec = fe_equal (ec_a ec) (fe_neg fe_three) /\
    wge_inf (ec_g ec) = false /\
    ec_blind ec = 0 /\ ec_unblind ec = wge_zero /\
    ec_windows ec = wge_wnd_points_var ec0 (ec_g ec) /\
    ec_points ec = wge_naf_points_var ec0 (ec_g ec) NAF_WIDTH_PRE /\
    ec_endo ec = def_endo def).
  { apply (f_equal (fun o => match o with Some e => e | None => ec end))
      in Hinit.
    destruct (def_endo def); rewrite <- Hinit;
      repeat split; reflexivity. }
  clear Hinit.
  destruct Hfields as (Efe & Esc & Eh & Epm & Ered & Ea & Eza & Eta & Einf
                       & Ebl & Eun & Ewin & Epts & Eendo).
  assert (Ehc : ec_fe ec0 = fe /\ ec_sc ec0 = sc /\ ec_h ec0 = def_h def)
    by (repeat split; reflexivity).
  destruct Ehc as (Efe0 & Esc0 & Eh0).
  pose proof (sc_n_lt_base sc Hscwf) as HnB.
  pose proof (sc_n_gt_1 sc Hscwf) as Hn1.
  destruct (fe_wf_facts fe Hfewf) as (_ & _ & Hfsz & Hpl & _ & _).
  assert (Hssz : sc_size sc = fe_size fe).
  { unfold sc, fe, scalar_field_init, scalar_field_set, prime_field_init.
    cbn [sc_size fe_size]. rewrite Hsize. reflexivity. }
  assert (Hsend : sc_endian sc = 1) by reflexivity.
  assert (Hfend : fe_endian fe = 1) by reflexivity.
  assert (Hn8 : sc_n sc < 256 ^ Z.of_nat (fe_size fe)).
  { rewrite <- Hssz. apply (sc_n_lt_bytes sc Hscwf). }
  repeat split.
  - (* fields *)
    unfold wei_fields_wf. rewrite Efe, Esc, Ered, Hfewf, Hscwf, Hssz.
    rewrite Nat.eqb_refl, Hsend, Hfend. cbn [andb Z.eqb Pos.eqb].
    destruct (Z.leb_spec (sc_limbs sc) (fe_limbs fe)); [|lia]. cbn [andb].
    apply Z.eqb_eq. unfold fe_set_limbs, fe_import, mpn_export.
    rewrite Hfend. cbn [Z.eqb Pos.eqb fst].
    rewrite Zmod.unsigned_of_Z. f_equal.
    rewrite firstn_all2 by (rewrite length_be_bytes; lia).
    rewrite be_value_be_bytes, mpn_get_small by lia.
    apply Z.mod_small. lia.
  - (* flags *)
    unfold wei_flags_wf. rewrite Eza, Eta.
    rewrite !Bool.eqb_reflx. reflexivity.
  - rewrite Esc. exact Hraw.
  - rewrite Esc. exact Hsend.
  - rewrite Ewin. apply wge_wnd_points_var_ext; congruence.
  - rewrite Epts. apply wge_naf_points_var_ext; congruence.
  - exact Einf.
  - rewrite Ebl. lia.
  - rewrite Ebl, Esc. lia.
  - rewrite Eun, Ebl, waff_zero, pmul_0. reflexivity.
  - rewrite Esc. exact Hn.
  - rewrite Epm, Esc, Hpl. apply (sc_reduce_spec sc Hscwf).
    pose proof (sc_base_lt_shift sc Hscwf) as Hsh.
    pose proof (sc_limbs_pos sc Hscwf) as Hlp.
    pose proof (limb_base_ge_256 (sc_limbs sc) Hlp) as H256.
    assert (Hp8 : fe_p < 256 ^ Z.of_nat (fe_size fe))
      by apply (fe_p_lt_bytes fe Hfewf).
    pose proof (sc_size_bits sc Hscwf) as Hsb8.
    pose proof (sc_bits_le_limbs sc Hscwf) as Hbl.
    rewrite <- Hssz in Hp8.
    change 256 with (2 ^ 8) in Hp8. rewrite <- Z.pow_mul_r in Hp8 by lia.
    assert (Hle : 2 ^ (8 * Z.of_nat (sc_size sc))
                  <= limb_base (sc_limbs sc) * limb_base (sc_limbs sc)).
    { unfold limb_base. rewrite <- Z.pow_add_r by lia.
      apply Z.pow_le_mono_r; lia. }
    lia.
  - exact Eendo.
  - exact Eh.
Qed.

(** The assert of [fe_set_limbs] in [wei_init] holds when the order is
    no longer than the field prime. *)
Lemma wei_init_some (def : wei_def_t) :
  def_sc_bits (def_sc def) <= def_bits (def_fe def) ->
  exists ec, wei_init def = Some ec.
Proof.
  intros Hle. unfold wei_init. cbv zeta.
  match goal with
  | |- context [negb (?a <=? ?b)] =>
      assert (Hlim : a <= b)
  end.
  { unfold scalar_field_init, scalar_field_set, prime_field_init.
    cbn [sc_limbs fe_limbs].
    apply Z.div_le_mono; lia. }
  apply Z.leb_le in Hlim. rewrite Hlim. cbn [negb].
  destruct (def_endo def); eexists; reflexivity.
Qed.

(* ================================================================= *)
(** * Further properties: byte strings and scalars *)

(** X1. On the first [size] bytes of their arguments, read in the
    given byte order, the constant-time comparisons decide what their
    names say: [bytes_zero] whether the value is zero, [bytes_lt]
    whether the first value is below the second, [bytes_lte] whether it
    is at most the second. *)
Theorem bytes_compare_values (a b : list byte) (size : nat) (endian : Z) :
  endian = 1 \/ endian = -1 ->
  (size <= length a)%nat -> (size <= length b)%nat ->
  bytes_zero a size = (bytes_value endian (firstn size a) =? 0) /\
  bytes_lt a b size endian
  = (bytes_value endian (firstn size a) <? bytes_value endian (firstn size b))
  /\
  bytes_lte a b size endian
  = (bytes_value endian (firstn size a) <=? bytes_value endian (firstn size b)).
Proof.
  intros He Ha Hb. split; [|split].
  - apply bytes_zero_spec.
  - apply bytes_lt_spec; assumption.
  - apply bytes_lte_spec; assumption.
Qed.

(** X2. On reduced operands the scalar operations are the arithmetic
    of the integers modulo [n]: [sc_add], [sc_sub], [sc_neg], [sc_mul]
    (Barrett reduction of the double-width product) and [sc_sqr] return
    the canonical residue of the sum, difference, negation, product and
    square. *)
Theorem sc_arithmetic_exact (sc : scalar_field_t) (a b : Z) :
  sc_wf sc = true ->
  0 <= a < sc_n sc -> 0 <= b < sc_n sc ->
  sc_add sc a b = (a + b) mod sc_n sc /\
  sc_sub sc a b = (a - b) mod sc_n sc /\
  sc_neg sc a = (- a) mod sc_n sc /\
  sc_mul sc a b = (a * b) mod sc_n sc /\
  sc_sqr sc a = (a * a) mod sc_n sc.
Proof.
  intros Hwf Ha Hb. repeat split.
  - apply sc_add_spec; assumption.
  - apply sc_sub_spec; assumption.
  - apply sc_neg_spec; assumption.
  - apply sc_mul_spec; assumption.
  - apply sc_sqr_spec; assumption.
Qed.

(** X3. The scalar encoding is a bijection between reduced scalars
    and accepted byte strings.  Decoding what [sc_export] wrote gives
    the scalar back, whatever follows in the buffer; and [sc_import]
    accepts a byte string exactly when the value of its first [size]
    bytes is below the order [n], returns that value, and exporting it
    reproduces those bytes. *)
Theorem sc_codec_round_trip (sc : scalar_field_t) (a : Z)
    (rest raw : list byte) :
  sc_wf sc = true -> sc_raw_wf sc = true ->
  0 <= a < sc_n sc ->
  (sc_size sc <= length raw)%nat ->
  let v := bytes_value (sc_endian sc) (firstn (sc_size sc) raw) in
  length (sc_export sc a) = sc_size sc /\
  sc_import sc (sc_export sc a ++ rest) = (a, true) /\
  snd (sc_import sc raw) = (v <? sc_n sc) /\
  (snd (sc_import sc raw) = true ->
   fst (sc_import sc raw) = v /\
   sc_export sc (fst (sc_import sc raw)) = firstn (sc_size sc) raw).
Proof.
  intros Hwf Hraw Ha Hl v.
  split; [apply length_sc_export|].
  split; [apply sc_import_export; assumption|].
  pose proof (sc_n_lt_base _ Hwf) as HnB.
  rewrite (sc_import_spec _ Hwf Hraw) by exact Hl. cbn [fst snd]. fold v.
  split; [reflexivity|]. intros Hlt. apply Z.ltb_lt in Hlt.
  assert (Hv : 0 <= v).
  { pose proof (import_value_range raw (sc_size sc) (sc_endian sc)) as H.
    unfold v, bytes_value. lia. }
  rewrite Z.mod_small by lia. split; [reflexivity|].
  unfold sc_export, mpn_export. rewrite mpn_get_small by lia.
  assert (Hfl : length (firstn (sc_size sc) raw) = sc_size sc)
    by (rewrite length_firstn; lia).
  unfold v, bytes_value. destruct (sc_endian sc =? 1).
  - rewrite <- Hfl at 1. apply be_bytes_be_value.
  - rewrite <- Hfl at 1. apply le_bytes_le_value.
Qed.

(** X4. For a prime order [n] and a nonzero reduced scalar [a], the
    constant-time inversion [sc_invert] (the power [a^(n-2)]) and the
    variable-time [sc_invert_var] return the same pair: the inverse of
    [a] modulo [n], itself reduced, with the success flag set. *)
Theorem sc_invert_inverse (sc : scalar_field_t) (a : Z) :
  sc_wf sc = true -> Z.prime (sc_n sc) ->
  0 < a < sc_n sc ->
  sc_invert sc a = sc_invert_var sc a /\
  snd (sc_invert sc a) = true /\
  0 < fst (sc_invert sc a) < sc_n sc /\
  (a * fst (sc_invert sc a)) mod sc_n sc = 1.
Proof.
  intros Hwf Hp Ha. pose proof (sc_n_gt_1 _ Hwf) as Hn.
  rewrite (sc_invert_fermat _ Hwf Hp) by exact Ha.
  rewrite (sc_invert_var_spec _ Hwf) by assumption. cbn [fst snd].
  assert (Hinv : (a * Z.invmod a (sc_n sc)) mod sc_n sc = 1).
  { rewrite Z.mul_comm. apply Z.invmod_prime; [exact Hp|].
    rewrite Z.mod_small by lia. lia. }
  pose proof (invmod_range a (sc_n sc) ltac:(lia)) as Hr.
  repeat split; try lia; try exact Hinv.
  destruct (Z.eq_dec (Z.invmod a (sc_n sc)) 0) as [E|E]; [|lia].
  rewrite E, Z.mul_0_r, Z.mod_0_l in Hinv by lia. discriminate.
Qed.

(** X5. [sc_minimize] returns the representative of [a] or [-a] in the
    lower half [[0, n/2]] together with the flag telling whether it
    negated; the flag is the answer of [sc_is_high], which agrees with
    the variable-time [sc_is_high_var]: [a > n/2]. *)
Theorem sc_minimize_lower_half (sc : scalar_field_t) (a : Z) :
  sc_wf sc = true ->
  0 <= a < sc_n sc ->
  let '(r, negated) := sc_minimize sc a in
  0 <= r <= sc_n sc / 2 /\
  a = (if negated then sc_n sc - r else r) /\
  negated = (sc_n sc / 2 <? a) /\
  sc_is_high sc a = negated /\
  sc_is_high_var sc a = negated.
Proof.
  intros Hwf Ha. pose proof (sc_n_gt_1 _ Hwf) as Hn.
  pose proof (sc_n_lt_base _ Hwf) as HnB.
  rewrite (sc_minimize_spec _ Hwf) by exact Ha.
  rewrite (sc_is_high_spec _ Hwf) by exact Ha.
  assert (Hh : 0 <= sc_n sc / 2 < sc_n sc)
    by (split; [apply Z.div_pos; lia | apply Z.div_lt; lia]).
  assert (Hvar : sc_is_high_var sc a = (sc_n sc / 2 <? a)).
  { unfold sc_is_high_var, sc_cmp_var, mpn_cmp.
    rewrite (sc_wf_nh _ Hwf), !mpn_get_small by lia.
    destruct (Z.compare_spec a (sc_n sc / 2)), (Z.ltb_spec (sc_n sc / 2) a);
      try lia; reflexivity. }
  rewrite Hvar.
  pose proof (Z.div_mod (sc_n sc) 2 ltac:(lia)) as Hdm.
  pose proof (Z.mod_pos_bound (sc_n sc) 2 ltac:(lia)) as Hm.
  destruct (Z.ltb_spec (sc_n sc / 2) a) as [Hhi|Hlo].
  - replace (- a) with (sc_n sc - a + (-1) * sc_n sc) by ring.
    rewrite Z.mod_add, Z.mod_small by lia.
    repeat split; try reflexivity; lia.
  - repeat split; try reflexivity; lia.
Qed.


(* ================================================================= *)
(** * Further properties: message reduction and field elements *)

(** X7. [ecdsa_reduce] never stops at an [assert] on a big-endian
    scalar field and computes the usual "bits to integer" conversion:
    the message truncated to the byte size of [n], read big-endian and
    shifted right by the bits in excess of the bit length of [n], then
    reduced modulo [n] (by one subtraction); the flag tells whether the
    integer was already below [n]. *)
Theorem ecdsa_reduce_value (ec : wei_t) (msg : list byte) :
  sc_wf (ec_sc ec) = true -> sc_endian (ec_sc ec) = 1 ->
  let sc := ec_sc ec in
  let len := Nat.min (length msg) (sc_size sc) in
  let z := be_value (firstn len msg)
           / 2 ^ Z.max 0 (8 * Z.of_nat len - sc_bits sc) in
  0 <= z < 2 ^ sc_bits sc /\
  ecdsa_reduce ec msg = Some (z mod sc_n sc, z <? sc_n sc).
Proof.
  intros Hsc Hbe. cbv zeta. set (sc := ec_sc ec) in *.
  set (len := Nat.min (length msg) (sc_size sc)).
  set (z := be_value (firstn len msg)
            / 2 ^ Z.max 0 (8 * Z.of_nat len - sc_bits sc)).
  pose proof (sc_size_bits sc Hsc) as Hsz.
  pose proof (sc_wf_bits sc Hsc) as Hb.
  pose proof (sc_n_gt_1 sc Hsc) as Hn.
  unfold ecdsa_reduce. cbv zeta. fold sc. rewrite Hbe.
  cbn [Z.eqb Pos.eqb negb]. fold len.
  set (tmp := repeat x00 (sc_size sc - len) ++ firstn len msg).
  assert (Hml : (len <= sc_size sc)%nat) by (unfold len; lia).
  assert (Hfl : length (firstn len msg) = len).
  { rewrite length_firstn. unfold len. lia. }
  assert (Htl : length tmp = sc_size sc).
  { unfold tmp. rewrite length_app, repeat_length, Hfl. lia. }
  assert (Htv : be_value tmp = be_value (firstn len msg)).
  { unfold tmp. apply be_value_zeros_app. }
  pose proof (be_value_range (firstn len msg)) as Hr. rewrite Hfl in Hr.
  assert (Hweak : forall t, length t = sc_size sc ->
                    be_value t = z -> z < 2 ^ sc_bits sc ->
                    Some (sc_import_weak sc t)
                    = Some (z mod sc_n sc, z <? sc_n sc)).
  { intros t Ht Hv Hlt.
    pose proof (sc_import_weak_spec sc Hsc t) as Hw.
    unfold bytes_value in Hw. rewrite Hbe in Hw. cbn [Z.eqb Pos.eqb] in Hw.
    rewrite firstn_all2 in Hw by lia. rewrite Hv in Hw.
    rewrite (Hw Hlt). reflexivity. }
  destruct (Z.ltb_spec (sc_bits sc) (Z.of_nat len * 8)) as [Hlt|Hge].
  - assert (Hms : len = sc_size sc) by lia.
    set (shift := Z.of_nat len * 8 - sc_bits sc).
    assert (Hsh : 0 < shift < 8) by (unfold shift; lia).
    assert (Hz : z = be_value (firstn len msg) / 2 ^ shift).
    { unfold z, shift. f_equal. f_equal. lia. }
    assert (Hzr : 0 <= z < 2 ^ sc_bits sc).
    { rewrite Hz. split.
      - apply Z.div_pos; [lia|apply Z.pow_pos_nonneg; lia].
      - apply Z.div_lt_upper_bound; [apply Z.pow_pos_nonneg; lia|].
        rewrite <- Z.pow_add_r by lia.
        replace (shift + sc_bits sc) with (8 * Z.of_nat len)
          by (unfold shift; lia).
        rewrite Z.pow_mul_r by lia. change (2 ^ 8) with 256. lia. }
    split; [exact Hzr|].
    destruct (Z.ltb_spec 0 shift); [|lia].
    destruct (Z.ltb_spec shift 8); [|lia]. cbn [negb].
    destruct (ecdsa_reduce_shift_spec shift tmp Hsh) as (Hv & _ & Hl).
    apply Hweak; [lia| |lia]. rewrite Hv, Htv, Hz. reflexivity.
  - assert (Hz : z = be_value (firstn len msg)).
    { unfold z. rewrite Z.max_l by lia. cbn [Z.pow]. apply Z.div_1_r. }
    assert (Hzr : 0 <= z < 2 ^ sc_bits sc).
    { rewrite Hz.
      assert (256 ^ Z.of_nat len <= 2 ^ sc_bits sc).
      { change 256 with (2 ^ 8). rewrite <- Z.pow_mul_r by lia.
        apply Z.pow_le_mono_r; lia. }
      lia. }
    split; [exact Hzr|].
    apply Hweak; [exact Htl| |lia]. rewrite Htv, Hz. reflexivity.
Qed.

(** X8. [fe_export] writes [size] bytes and [fe_import] reads them
    back as the same field element, reporting success; on any input of
    at least [size] bytes, [fe_import] reports success exactly when the
    encoded value is below [p], and the element it returns is the value
    reduced modulo [p]. *)
Theorem fe_codec_round_trip (fe : prime_field_t) (a : fe_t)
    (rest raw : list byte) :
  fe_wf fe = true ->
  (fe_size fe <= length raw)%nat ->
  length (fe_export fe a) = fe_size fe /\
  fe_import fe (fe_export fe a ++ rest) = (a, true) /\
  snd (fe_import fe raw)
  = (bytes_value (fe_endian fe) (firstn (fe_size fe) raw) <? fe_p) /\
  Zmod.to_Z (fst (fe_import fe raw))
  = bytes_value (fe_endian fe) (firstn (fe_size fe) raw) mod fe_p.
Proof.
  intros Hfe Hl. split; [apply length_fe_export|].
  split; [apply fe_import_export; exact Hfe|].
  rewrite (fe_import_spec fe Hfe) by exact Hl. cbn [fst snd].
  split; [reflexivity|]. apply Zmod.unsigned_of_Z.
Qed.

(** X9. Moving a value between the two fields of a curve: [sc_set_fe]
    reduces a field element modulo [n] and tells whether it was already
    below [n]; [fe_set_sc] maps a reduced scalar into the field and
    tells whether it was below [p]; a scalar below [p] survives the
    round trip. *)
Theorem sc_fe_conversions (ec : wei_t) (x : fe_t) (a : Z) :
  wei_fields_wf ec = true -> sc_raw_wf (ec_sc ec) = true ->
  0 <= a < sc_n (ec_sc ec) ->
  sc_set_fe (ec_fe ec) (ec_sc ec) x
  = (Zmod.to_Z x mod sc_n (ec_sc ec), Zmod.to_Z x <? sc_n (ec_sc ec)) /\
  fe_set_sc (ec_fe ec) (ec_sc ec) a = (Zmod.of_Z fe_p a, a <? fe_p) /\
  (a < fe_p ->
   sc_set_fe (ec_fe ec) (ec_sc ec) (fst (fe_set_sc (ec_fe ec) (ec_sc ec) a))
   = (a, true)).
Proof.
  intros Hec Hraw Ha.
  destruct (wei_fields_wf_facts ec Hec) as (Hfe & Hsc & Hsize & Hend & _).
  pose proof (sc_set_fe_spec ec Hec Hraw) as Hsf.
  pose proof (fe_set_sc_spec (ec_fe ec) Hfe (ec_sc ec) a Hsc Hsize Hend Ha)
    as Hfs.
  split; [apply Hsf|]. split; [exact Hfs|].
  intros Hap. rewrite Hfs, Hsf. cbn [fst].
  rewrite !Zmod.unsigned_of_Z, !(Z.mod_small a fe_p) by lia.
  rewrite Z.mod_small by lia.
  destruct (Z.ltb_spec a (sc_n (ec_sc ec))); [reflexivity|lia].
Qed.

(** X10. Field inversion: the constant-time [fe_invert] (a backend, or
    the power [a^(p-2)] computed by [fe_pow]) and the variable-time
    [fe_invert_var] return the same pair; the flag tells whether [a] is
    nonzero; the value is the inverse of a nonzero [a] and zero at
    zero.  [fe_pow] is exponentiation by the exponent's low [bits(p)]
    bits. *)
Theorem fe_invert_inverse (fe : prime_field_t) (a : fe_t) (e : Z) :
  fe_wf fe = true -> fe_backend_wf fe ->
  fe_invert fe a = fe_invert_var fe a /\
  snd (fe_invert fe a) = negb (fe_is_zero a) /\
  (a <> Zmod.zero -> Zmod.mul a (fst (fe_invert fe a)) = Zmod.one) /\
  (a = Zmod.zero -> fst (fe_invert fe a) = Zmod.zero) /\
  fe_pow fe a e = Zmod.pow a (e mod 2 ^ fe_bits fe).
Proof.
  intros Hfe Hback.
  rewrite (fe_invert_spec fe Hfe a Hback).
  destruct (fe_invert_var_spec fe Hfe a) as [Hv _]. rewrite Hv.
  cbn [fst snd]. repeat split.
  - intros Ha. apply Zmod.mul_inv_same_r_prime; [exact fe_p_prime|exact Ha].
  - intros ->. apply Zmod.inv_0.
  - apply fe_pow_spec. exact Hfe.
Qed.

(** X11. The default square root for [p = 3 (mod 4)]: [fe_sqrt]
    returns [a^((p+1)/4)] and a flag; the flag is set exactly when [a]
    is a square, and then the returned element is a square root of
    [a]. *)
Theorem fe_sqrt_decides_squares (fe : prime_field_t) (a : fe_t) :
  fe_wf fe = true -> fe_sqrt_fn fe = None -> fe_p mod 4 = 3 ->
  exists r ok,
    fe_sqrt fe a = Some (r, ok) /\
    r = Zmod.pow a ((fe_p + 1) / 4) /\
    (ok = true <-> exists z : fe_t, Zmod.mul z z = a) /\
    (ok = true -> Zmod.mul r r = a).
Proof.
  intros Hfe Hf Hp4.
  destruct (fe_wf_facts fe Hfe) as (Hb & _ & _ & Hp & Hpb & _).
  pose proof (fe_sqrt_complete_3mod4 fe Hfe Hf Hp4 a) as Hc.
  assert (Hshape : fe_sqrt fe a
                   = Some (Zmod.pow a ((fe_p + 1) / 4),
                           fe_equal (fe_sqr (Zmod.pow a ((fe_p + 1) / 4))) a)).
  { unfold fe_sqrt. rewrite Hf. cbv zeta.
    rewrite (fe_sqrt_exponent fe Hfe), (fe_pow_spec fe Hfe).
    change 3 with (2 ^ 2 - 1) at 1. rewrite limb0_mod by lia.
    change (2 ^ 2) with 4. rewrite Hp, Hp4. cbn [Z.eqb Pos.eqb].
    pose proof (Z.div_mod (fe_p + 1) 4 ltac:(lia)) as Hdm.
    pose proof (Z.mod_pos_bound (fe_p + 1) 4 ltac:(lia)) as Hm.
    rewrite Z.mod_small by lia. reflexivity. }
  eexists _, _. split; [exact Hshape|]. split; [reflexivity|].
  assert (Hsound : fe_equal (fe_sqr (Zmod.pow a ((fe_p + 1) / 4))) a = true ->
                   Zmod.mul (Zmod.pow a ((fe_p + 1) / 4))
                            (Zmod.pow a ((fe_p + 1) / 4)) = a).
  { intros H. apply fe_equal_iff in H. exact H. }
  split; [split|exact Hsound].
  - intros H. eexists. apply Hsound. exact H.
  - intros Hz. destruct (Hc Hz) as [r Hr]. rewrite Hshape in Hr.
    injection Hr as _ Hr. exact Hr.
Qed.

(* ================================================================= *)
(** * Further properties: curve arithmetic *)

(** X12. The variable-time point operations compute the group law
    on the affine points their operands denote, the point at infinity,
    equal and opposite operands included: for an affine point [a] of
    the curve, [wge_dbl_var], [wge_add_var] and [wge_sub_var] give
    [a + a], [a + b] and [a - b]; for a Jacobian point [p] of the
    curve, [jge_dbl_var], [jge_add_var], [jge_sub_var] and the mixed
    [jge_mixed_add_var], [jge_mixed_sub_var] give [p + p], [p + q],
    [p - q], [p + b] and [p - b]. *)
Theorem point_var_group_law (ec : wei_t) (a b : wge_t) (p q : jge_t) :
  fe_wf (ec_fe ec) = true -> wei_flags_wf ec = true -> cofactor_ok ec ->
  on_curve ec (waff a) = true ->
  on_curve ec (jaff p) = true ->
  waff (wge_dbl_var ec a) = padd ec (waff a) (waff a) /\
  waff (wge_add_var ec a b) = padd ec (waff a) (waff b) /\
  waff (wge_sub_var ec a b) = padd ec (waff a) (pneg (waff b)) /\
  jaff (jge_dbl_var ec p) = padd ec (jaff p) (jaff p) /\
  jaff (jge_add_var ec p q) = padd ec (jaff p) (jaff q) /\
  jaff (jge_sub_var ec p q) = padd ec (jaff p) (pneg (jaff q)) /\
  jaff (jge_mixed_add_var ec p b) = padd ec (jaff p) (waff b) /\
  jaff (jge_mixed_sub_var ec p b) = padd ec (jaff p) (pneg (waff b)).
Proof.
  intros Hfe Hflags Hcof Ha Hp. repeat split.
  - apply wge_dbl_var_spec; assumption.
  - apply wge_add_var_spec; assumption.
  - apply wge_sub_var_spec; assumption.
  - apply jge_dbl_var_spec; assumption.
  - apply jge_add_var_spec; assumption.
  - apply jge_sub_var_spec; assumption.
  - apply jge_mixed_add_var_spec; assumption.
  - apply jge_mixed_sub_var_spec; assumption.
Qed.

(** X13. The constant-time additions (Brier and Joye's unified
    formula followed by constant-time selects) compute the group law
    for every pair of points on the curve: distinct points, equal
    points (a doubling, where they agree with [jge_dbl]), opposite
    points (the result is the point at infinity) and either operand at
    infinity.  This holds for [jge_add] and [jge_sub] on two Jacobian
    points and for [jge_mixed_add] and [jge_mixed_sub] on a Jacobian
    and an affine point; the results are on the curve. *)
Theorem jge_unified_group_law (ec : wei_t) (a q : jge_t) (b : wge_t) :
  wei_flags_wf ec = true -> cofactor_ok ec ->
  on_curve ec (jaff a) = true ->
  on_curve ec (jaff q) = true -> on_curve ec (waff b) = true ->
  jaff (jge_add ec a q) = padd ec (jaff a) (jaff q) /\
  jaff (jge_sub ec a q) = padd ec (jaff a) (pneg (jaff q)) /\
  jaff (jge_mixed_add ec a b) = padd ec (jaff a) (waff b) /\
  jaff (jge_mixed_sub ec a b) = padd ec (jaff a) (pneg (waff b)) /\
  on_curve ec (jaff (jge_add ec a q)) = true /\
  on_curve ec (jaff (jge_mixed_add ec a b)) = true /\
  jaff (jge_add ec a a) = jaff (jge_dbl ec a) /\
  (jaff a = waff b ->
   jaff (jge_mixed_add ec a b) = jaff (jge_dbl ec a)) /\
  jge_is_zero (jge_sub ec a a) = true /\
  (waff b = pneg (jaff a) -> jge_is_zero (jge_mixed_add ec a b) = true).
Proof.
  intros Hflags Hcof Ha Hq Hb.
  pose proof (jge_add_spec ec Hflags a q Ha Hq) as Hadd.
  pose proof (jge_mixed_add_spec ec Hflags a b Ha Hb) as Hmix.
  pose proof (jge_dbl_var_spec ec Hflags Hcof a Ha) as Hdbl.
  assert (Hzero : forall p, jaff p = None -> jge_is_zero p = true).
  { intros p Hp. unfold jge_is_zero.
    destruct (fe_is_zero_spec (jge_z p)) as [Ez|Ez]; [reflexivity|].
    destruct (jaff_finite p Ez) as (x & y & Hxy & _). congruence. }
  split; [exact Hadd|].
  split; [apply jge_sub_spec; assumption|].
  split; [exact Hmix|].
  split; [apply jge_mixed_sub_spec; assumption|].
  split; [rewrite Hadd; apply padd_closed; assumption|].
  split; [rewrite Hmix; apply padd_closed; assumption|].
  split; [rewrite (jge_add_spec ec Hflags a a Ha Ha), jge_dbl_eq_var, Hdbl;
          reflexivity|].
  split.
  { intros Heq. rewrite Hmix, jge_dbl_eq_var, Hdbl, Heq. reflexivity. }
  split.
  { apply Hzero. rewrite (jge_sub_spec ec Hflags a a Ha Ha).
    apply padd_neg_r. }
  intros Hneg. apply Hzero. rewrite Hmix, Hneg. apply padd_neg_r.
Qed.

(** X14. The constant-time affine operations, which go through
    Jacobian coordinates and one field inversion, compute the group
    law on points of the curve: [wge_dbl a] is [a + a], [wge_add a b]
    is [a + b], [wge_sub a b] is [a - b]; and the constant-time
    [jge_dbl] returns what the variable-time [jge_dbl_var] returns. *)
Theorem wge_constant_time_group_law (ec : wei_t) (a b : wge_t) (p : jge_t) :
  fe_wf (ec_fe ec) = true -> wei_flags_wf ec = true ->
  fe_backend_wf (ec_fe ec) -> cofactor_ok ec ->
  on_curve ec (waff a) = true -> on_curve ec (waff b) = true ->
  jge_dbl ec p = jge_dbl_var ec p /\
  waff (wge_dbl ec a) = padd ec (waff a) (waff a) /\
  waff (wge_add ec a b) = padd ec (waff a) (waff b) /\
  waff (wge_sub ec a b) = padd ec (waff a) (pneg (waff b)).
Proof.
  intros Hfe Hflags Hback Hcof Ha Hb. repeat split.
  - apply jge_dbl_eq_var.
  - apply wge_dbl_spec; assumption.
  - apply wge_add_spec; assumption.
  - apply wge_sub_spec; assumption.
Qed.

(** X15. Changing coordinates keeps the point: [wge_to_jge] and the
    two ways back, the constant-time [jge_to_wge] and the variable-time
    [jge_to_wge_var], agree on the affine point a Jacobian triple
    denotes, the point at infinity ([Z = 0]) included. *)
Theorem coordinate_conversions (ec : wei_t) (a : wge_t) (p : jge_t) :
  fe_wf (ec_fe ec) = true -> fe_backend_wf (ec_fe ec) ->
  jaff (wge_to_jge a) = waff a /\
  waff (jge_to_wge ec p) = jaff p /\
  waff (jge_to_wge_var ec p) = jaff p /\
  waff (jge_to_wge ec (wge_to_jge a)) = waff a /\
  wge_inf (jge_to_wge ec p) = jge_is_zero p.
Proof.
  intros Hfe Hback.
  pose proof (jge_to_wge_spec ec Hfe Hback) as Hct.
  repeat split.
  - apply wge_to_jge_spec.
  - apply Hct.
  - apply jge_to_wge_var_spec. exact Hfe.
  - rewrite Hct. apply wge_to_jge_spec.
  - specialize (Hct p). unfold jge_is_zero.
    destruct (fe_is_zero_spec (jge_z p)) as [Ez|Ez].
    + rewrite (jaff_inf p Ez) in Hct. unfold waff in Hct.
      destruct (wge_inf (jge_to_wge ec p)); [reflexivity|discriminate].
    + destruct (jaff_finite p Ez) as (x & y & Hp & _ & _).
      rewrite Hp in Hct. unfold waff in Hct.
      destruct (wge_inf (jge_to_wge ec p)); [discriminate|reflexivity].
Qed.

(** X16. Point decoding and encoding.  Every point that [wge_import]
    returns is finite and satisfies the curve equation, whatever the
    bytes, and a length of zero is refused.  A finite point of the
    curve is exported, compressed or not, to [1 + size] or
    [1 + 2 size] bytes that [wge_import] decodes to the same point;
    the point at infinity has no encoding. *)
Theorem wge_codec_round_trip (ec : wei_t) :
  fe_wf (ec_fe ec) = true -> fe_backend_wf (ec_fe ec) ->
  fe_sqrt_complete (ec_fe ec) ->
  (forall (raw : list byte) (len : nat) (A : wge_t),
      wge_import ec raw len = Some (Some A) ->
      wge_inf A = false /\
      on_curve ec (waff A) = true /\
      wge_validate ec A = true /\
      (0 < len)%nat) /\
  (forall (p : wge_t) (compact : bool),
      on_curve ec (waff p) = true ->
      if wge_inf p then wge_export ec p compact = None
      else exists raw,
          wge_export ec p compact = Some raw /\
          length raw = (if compact then 1 + fe_size (ec_fe ec)
                        else 1 + 2 * fe_size (ec_fe ec))%nat /\
          wge_import ec raw (length raw) = Some (Some p)).
Proof.
  intros Hfe Hback Hsqrt. split.
  - intros raw len A Hi.
    destruct (wge_import_on_curve ec Hback raw len A Hi) as [Hinf Hoc].
    split; [exact Hinf|]. split; [exact Hoc|]. split.
    + rewrite wge_validate_on_curve. exact Hoc.
    + unfold wge_import in Hi. destruct raw as [|f r].
      * destruct len; [discriminate|lia].
      * destruct len; [discriminate|lia].
  - intros p compact Hoc.
    destruct (wge_inf p) eqn:Hinf.
    + unfold wge_export. rewrite Hinf. reflexivity.
    + destruct (wge_import_export ec Hfe Hback Hsqrt p compact Hinf Hoc)
        as (raw & Hexp & Himp).
      exists raw. split; [exact Hexp|]. split; [|exact Himp].
      clear Himp. unfold wge_export in Hexp. rewrite Hinf in Hexp.
      destruct compact; injection Hexp as <-; cbn [length];
        rewrite ?length_app, !length_fe_export; lia.
Qed.

(** X17. Lifting an abscissa: when [x] is the abscissa of a point of
    the curve, [wge_set_x x sign] succeeds for either requested parity
    and returns a point of the curve with that abscissa whose ordinate,
    unless zero, has the requested parity. *)
Theorem wge_set_x_lifts (ec : wei_t) (x y : fe_t) (s : bool) :
  fe_backend_wf (ec_fe ec) -> fe_sqrt_complete (ec_fe ec) ->
  on_curve ec (Some (x, y)) = true ->
  exists R,
    wge_set_x ec x (Some s) = Some (R, true) /\
    wge_inf R = false /\ wge_x R = x /\
    (wge_y R = y \/ wge_y R = fe_neg y) /\
    on_curve ec (waff R) = true /\
    (wge_y R <> Zmod.zero -> fe_is_odd (wge_y R) = s).
Proof.
  intros Hback Hsqrt Hoc.
  assert (Hneg : on_curve ec (Some (x, fe_neg y)) = true).
  { apply (pneg_on_curve ec (Some (x, y))). exact Hoc. }
  destruct (fe_is_zero_spec y) as [Ey|Ey].
  - exists (mk_wge x y false).
    rewrite (wge_set_x_lift ec Hback Hsqrt x y s Hoc) by contradiction.
    cbn [wge_inf wge_x wge_y]. unfold waff. cbn [wge_inf wge_x wge_y].
    repeat split; auto. intros H. contradiction.
  - destruct (Bool.bool_dec (fe_is_odd y) s) as [Es|Es].
    + exists (mk_wge x y false).
      rewrite (wge_set_x_lift ec Hback Hsqrt x y s Hoc) by (intros _; exact Es).
      cbn [wge_inf wge_x wge_y]. unfold waff. cbn [wge_inf wge_x wge_y].
      repeat split; auto.
    + assert (Hodd : fe_is_odd (fe_neg y) = s).
      { rewrite (fe_is_odd_neg y Ey).
        destruct (fe_is_odd y), s; try reflexivity; contradiction. }
      exists (mk_wge x (fe_neg y) false).
      rewrite (wge_set_x_lift ec Hback Hsqrt x (fe_neg y) s Hneg)
        by (intros _; exact Hodd).
      cbn [wge_inf wge_x wge_y]. unfold waff. cbn [wge_inf wge_x wge_y].
      repeat split; auto.
Qed.

(* ================================================================= *)
(** * Further properties: tables and scalar multiplication *)

Section MultiplicationProperties.

Variable ec : wei_t.
Hypothesis Hfe : fe_wf (ec_fe ec) = true.
Hypothesis Hflags : wei_flags_wf ec = true.
Hypothesis Hcof : cofactor_ok ec.
Hypothesis Hassoc : padd_associative ec.


(** X19. Fixed-base multiplication: for a reduced scalar [k],
    [wei_jmul_g] and [wei_mul_g] return [k G], whatever blinding pair
    ([blind], [unblind = -blind G]) the context carries; the affine
    result is infinite only for [k G = O]. *)
Theorem wei_mul_g_multiplies (k : Z) :
  fe_backend_wf (ec_fe ec) ->
  sc_wf (ec_sc ec) = true ->
  GMP_NUMB_BITS mod 4 = 0 ->
  wei_tables_wf ec -> wei_blind_wf ec -> wei_order_wf ec ->
  on_curve ec (waff (ec_g ec)) = true ->
  0 <= k < sc_n (ec_sc ec) ->
  jaff (wei_jmul_g ec k) = pmul ec k (waff (ec_g ec)) /\
  waff (wei_mul_g ec k) = pmul ec k (waff (ec_g ec)) /\
  on_curve ec (waff (wei_mul_g ec k)) = true /\
  (wge_is_zero (wei_mul_g ec k) = true <->
   pmul ec k (waff (ec_g ec)) = None).
Proof.
  intros Hback Hsc Hlimb Htab Hblind Hord Hg Hk.
  pose proof (wei_jmul_g_spec ec Hfe Hflags Hcof Hassoc k Hsc Hlimb Htab
                Hblind Hord Hg Hk) as Hj.
  assert (Ha : waff (wei_mul_g ec k) = pmul ec k (waff (ec_g ec))).
  { unfold wei_mul_g. cbv zeta.
    rewrite (jge_to_wge_spec ec Hfe Hback). exact Hj. }
  split; [exact Hj|]. split; [exact Ha|]. split.
  - rewrite Ha. apply pmul_on_curve; assumption.
  - rewrite <- Ha. unfold wge_is_zero, waff.
    destruct (wge_inf (wei_mul_g ec k)); split; intros H;
      try reflexivity; discriminate.
Qed.

(** X20. Double multiplication (Shamir's trick over interleaved NAFs):
    without the endomorphism, [wei_jmul_double_var] passes its
    [assert]s and returns [k1 G + k2 P] for reduced scalars and a point
    [P] of the curve; [wei_mul_double_var] is its affine form. *)
Theorem wei_mul_double_var_multiplies (k1 k2 : Z) (p2 : wge_t) :
  ec_endo ec = false ->
  sc_wf (ec_sc ec) = true ->
  9 <= GMP_NUMB_BITS ->
  ec_points ec = wge_naf_points_var ec (ec_g ec) NAF_WIDTH_PRE ->
  on_curve ec (waff (ec_g ec)) = true ->
  on_curve ec (waff p2) = true ->
  0 <= k1 < sc_n (ec_sc ec) -> 0 <= k2 < sc_n (ec_sc ec) ->
  exists R,
    wei_jmul_double_var ec k1 p2 k2 = Some R /\
    jaff R = padd ec (pmul ec k1 (waff (ec_g ec))) (pmul ec k2 (waff p2)) /\
    wei_mul_double_var ec k1 p2 k2 = Some (jge_to_wge_var ec R) /\
    waff (jge_to_wge_var ec R)
    = padd ec (pmul ec k1 (waff (ec_g ec))) (pmul ec k2 (waff p2)).
Proof.
  intros Hendo Hsc Hlimb Hpts Hg Hp Hk1 Hk2.
  destruct (wei_jmul_double_normal_var_spec ec Hfe Hflags Hcof Hassoc k1 p2 k2
              Hsc Hlimb Hpts Hg Hp Hk1 Hk2) as (R & HR & Hv).
  exists R. unfold wei_mul_double_var, wei_jmul_double_var.
  rewrite Hendo, HR. split; [reflexivity|]. split; [exact Hv|].
  split; [reflexivity|].
  rewrite (jge_to_wge_var_spec ec Hfe). exact Hv.
Qed.

End MultiplicationProperties.

(* ================================================================= *)
(** * Further properties: ECDSA *)

Section EcdsaProperties.

Variable ec : wei_t.
Hypothesis Hwf : wei_wf ec.
Hypothesis Hendo : wei_endo_wf ec.
Hypothesis Hcof : cofactor_ok ec.
Hypothesis Hassoc : padd_associative ec.
Hypothesis Hprime : Z.prime (sc_n (ec_sc ec)).
Hypothesis Hback : fe_backend_wf (ec_fe ec).
Hypothesis Hsqrt : fe_sqrt_complete (ec_fe ec).
Hypothesis Hlimb9 : 9 <= GMP_NUMB_BITS.
Hypothesis Hlimb4 : GMP_NUMB_BITS mod 4 = 0.
Hypothesis Hblind : wei_blind_wf ec.
Hypothesis Hord : wei_order_wf ec.

Local Abbreviation sc := (ec_sc ec) (only parsing).
Local Abbreviation n := (sc_n (ec_sc ec)) (only parsing).
Local Abbreviation G := (waff (ec_g ec)) (only parsing).

(** X21. [ecdsa_pubkey_create] succeeds exactly on the private keys
    that [ecdsa_privkey_verify] accepts; the key it writes has the
    length of the requested format and decodes, with [wge_import], to
    the point [a G] for the scalar [a] the private key denotes. *)
Theorem ecdsa_pubkey_create_valid (priv : list byte) (compact : bool) :
  (sc_size sc <= length priv)%nat ->
  if ecdsa_privkey_verify ec priv then
    exists pub A,
      ecdsa_pubkey_create ec priv compact = Some pub /\
      length pub = (if compact then 1 + fe_size (ec_fe ec)
                    else 1 + 2 * fe_size (ec_fe ec))%nat /\
      wge_import ec pub (length pub) = Some (Some A) /\
      waff A = pmul ec (be_value (firstn (sc_size sc) priv)) G
  else ecdsa_pubkey_create ec priv compact = None.
Proof.
  intros Hl. destruct (ecdsa_privkey_verify ec priv) eqn:Hv.
  - destruct (privkey_valid_import ec Hwf priv Hl Hv) as [Ha Hi].
    destruct (ecdsa_pubkey_create_spec ec Hwf Hcof Hassoc Hprime Hback Hsqrt
                Hlimb4 Hblind Hord priv compact _ Hi Ha)
      as (pub & Hc & Himp & Hw).
    exists pub, (wei_mul_g ec (be_value (firstn (sc_size sc) priv))).
    split; [exact Hc|]. split; [|split; assumption].
    unfold ecdsa_pubkey_create in Hc. rewrite Hi in Hc. cbn [negb] in Hc.
    destruct (sc_is_zero sc _); [discriminate|]. cbv zeta in Hc.
    unfold wge_export in Hc.
    destruct (wge_inf _); [discriminate|].
    clear Himp. destruct compact; injection Hc as <-; cbn [length];
      rewrite ?length_app, !length_fe_export; lia.
  - unfold ecdsa_pubkey_create. cbv zeta.
    apply (privkey_invalid_refused ec Hwf priv Hl Hv (option (list byte)) None
             (fun a => wge_export ec (wei_mul_g ec a) compact)).
Qed.

Variable drbg_t : Type.
Variable drbg_init : Z -> list byte -> drbg_t.
Variable drbg_generate : drbg_t -> nat -> drbg_t * list byte.

(** X22. Signing against verification.  With a valid private key,
    whatever the message and the bit generator, [ecdsa_sign] neither
    refuses nor stops at an [assert]: it runs out of fuel or returns a
    signature of [2 size] bytes with a low [s] and a two-bit recovery
    parameter.  [ecdsa_verify] accepts that signature under the public
    key of [ecdsa_pubkey_create], unless the [s] written is zero:
    [ecdsa_sign] does not test [s], and [ecdsa_verify] rejects
    [s = 0].  The curve may set [endo] or not. *)
Theorem ecdsa_sign_then_verify (fuel : nat) (msg priv : list byte)
    (compact : bool) :
  (sc_size sc <= length priv)%nat ->
  ecdsa_privkey_verify ec priv = true ->
  exists pub,
    ecdsa_pubkey_create ec priv compact = Some pub /\
    match ecdsa_sign ec drbg_t drbg_init drbg_generate fuel msg priv with
    | Return (Some (sig, param)) =>
        length sig = (2 * sc_size sc)%nat /\
        0 <= param < 4 /\
        ecdsa_is_low_s ec sig = true /\
        ecdsa_verify ec msg sig pub
        = Return (negb (be_value (firstn (sc_size sc)
                                         (skipn (sc_size sc) sig)) =? 0))
    | Return None => False
    | Abort => False
    | OutOfFuel => True
    end.
Proof.
  intros Hl Hv.
  destruct (privkey_valid_import ec Hwf priv Hl Hv) as [Ha Hi].
  destruct (wei_wf_scalars ec Hwf) as (Hsc & Hraw & Hbe).
  set (a := be_value (firstn (sc_size sc) priv)) in *.
  destruct (ecdsa_pubkey_create_spec ec Hwf Hcof Hassoc Hprime Hback Hsqrt
              Hlimb4 Hblind Hord priv compact a Hi Ha)
    as (pub & Hc & Himp & Hw).
  exists pub. split; [exact Hc|].
  pose proof (ecdsa_sign_spec ec Hwf Hcof Hassoc Hprime Hback Hlimb4 Hblind
                Hord drbg_t drbg_init drbg_generate fuel msg priv a Hi Ha)
    as Hs.
  destruct (ecdsa_sign ec drbg_t drbg_init drbg_generate fuel msg priv)
    as [[[sig param]|]| |]; try exact Hs.
  destruct Hs as (m & ok & k & Hred & Hm & Hk & Hsigned).
  destruct (ecdsa_signed_shape ec Hwf a m k sig param Hsigned)
    as (Hlen & Hr & Hslow & Hpar).
  destruct (ecdsa_signed_verdict ec Hwf Hassoc Hprime Hord a m k sig param
              Hk ltac:(lia) Hm Hsigned) as [_ Hverdict].
  split; [exact Hlen|]. split; [exact Hpar|]. split.
  - rewrite (ecdsa_is_low_s_spec ec Hsc Hraw) by lia.
    rewrite !(sc_value_be ec Hwf).
    apply andb_true_iff. split; [apply Z.ltb_lt|apply Z.leb_le]; lia.
  - rewrite (ecdsa_verify_spec ec Hwf Hendo Hcof Hassoc Hprime Hback Hlimb9
               msg sig pub _ m ok Hred Hm ltac:(lia) Himp).
    rewrite Hw, Hverdict. reflexivity.
Qed.

(** X23. Signing against recovery.  Under the same conditions, and on
    a curve with [n <= p < 2 n] whose context caches [p mod n],
    [ecdsa_recover] applied to the message, a signature returned by
    [ecdsa_sign] and its recovery parameter returns the public key of
    the signer, in the requested format, unless the [s] written is
    zero.  The curve may set [endo] or not. *)
Theorem ecdsa_sign_then_recover (fuel : nat) (msg priv : list byte)
    (compact : bool) :
  wei_recover_wf ec ->
  (sc_size sc <= length priv)%nat ->
  ecdsa_privkey_verify ec priv = true ->
  exists pub,
    ecdsa_pubkey_create ec priv compact = Some pub /\
    match ecdsa_sign ec drbg_t drbg_init drbg_generate fuel msg priv with
    | Return (Some (sig, param)) =>
        be_value (firstn (sc_size sc) (skipn (sc_size sc) sig)) <> 0 ->
        ecdsa_recover ec msg sig param compact = Return (Some pub)
    | Return None => False
    | Abort => False
    | OutOfFuel => True
    end.
Proof.
  intros Hrec Hl Hv.
  destruct (privkey_valid_import ec Hwf priv Hl Hv) as [Ha Hi].
  set (a := be_value (firstn (sc_size sc) priv)) in *.
  destruct (ecdsa_pubkey_create_spec ec Hwf Hcof Hassoc Hprime Hback Hsqrt
              Hlimb4 Hblind Hord priv compact a Hi Ha)
    as (pub & Hc & Himp & Hw).
  exists pub. split; [exact Hc|].
  pose proof (ecdsa_sign_spec ec Hwf Hcof Hassoc Hprime Hback Hlimb4 Hblind
                Hord drbg_t drbg_init drbg_generate fuel msg priv a Hi Ha)
    as Hs.
  destruct (ecdsa_sign ec drbg_t drbg_init drbg_generate fuel msg priv)
    as [[[sig param]|]| |]; try exact Hs.
  destruct Hs as (m & ok & k & Hred & Hm & Hk & Hsigned).
  intros Hs0.
  rewrite (ecdsa_recover_signed ec Hwf Hendo Hcof Hassoc Hprime Hback Hsqrt
             Hlimb9 Hord Hrec msg sig param a m k ok compact
             (wei_mul_g ec a) Hred Hm Hk Ha Hsigned Hs0 Hw).
  unfold ecdsa_pubkey_create in Hc. rewrite Hi in Hc. cbn [negb] in Hc.
  destruct (sc_is_zero sc a); [discriminate|]. cbv zeta in Hc.
  rewrite Hc. reflexivity.
Qed.

End EcdsaProperties.

(* ================================================================= *)
(** * Further properties: keys and signature encodings *)

Lemma invmod_involutive (a n : Z) :
  Z.prime n -> 0 < a < n -> Z.invmod (Z.invmod a n) n = a.
Proof.
  intros Hp Ha.
  pose proof (Zmod.inv_inv_prime (Zmod.of_Z n a) Hp) as H.
  apply (f_equal Zmod.to_Z) in H.
  rewrite !Zmod.unsigned_inv, Zmod.unsigned_of_Z_small in H by lia.
  exact H.
Qed.

Section KeyProperties.

Variable ec : wei_t.
Hypothesis Hsc : sc_wf (ec_sc ec) = true.
Hypothesis Hraw : sc_raw_wf (ec_sc ec) = true.

Local Abbreviation sc := (ec_sc ec) (only parsing).
Local Abbreviation n := (sc_n (ec_sc ec)) (only parsing).
Local Abbreviation sc_value raw :=
  (bytes_value (sc_endian (ec_sc ec)) (firstn (sc_size (ec_sc ec)) raw))
  (only parsing).

(** X24. [ecdsa_privkey_verify] accepts exactly the keys that denote a
    scalar [a] with [0 < a < n].  On those, [ecdsa_privkey_negate] and
    [ecdsa_privkey_invert] (for a prime [n]) succeed, return valid
    keys for [n - a] and for the inverse of [a] modulo [n], and applied
    twice give the key back; on all other inputs both refuse. *)
Theorem ecdsa_privkey_negate_invert (priv : list byte) :
  Z.prime n ->
  (sc_size sc <= length priv)%nat ->
  ecdsa_privkey_verify ec priv
  = (0 <? sc_value priv) && (sc_value priv <? n) /\
  if ecdsa_privkey_verify ec priv then
    exists neg inv,
      ecdsa_privkey_negate ec priv = Some neg /\
      ecdsa_privkey_invert ec priv = Some inv /\
      ecdsa_privkey_verify ec neg = true /\
      ecdsa_privkey_verify ec inv = true /\
      sc_value neg = n - sc_value priv /\
      (sc_value priv * sc_value inv) mod n = 1 /\
      ecdsa_privkey_negate ec neg = Some (firstn (sc_size sc) priv) /\
      ecdsa_privkey_invert ec inv = Some (firstn (sc_size sc) priv)
  else
    ecdsa_privkey_negate ec priv = None /\
    ecdsa_privkey_invert ec priv = None.
Proof.
  intros Hp Hl.
  pose proof (ecdsa_privkey_verify_spec ec Hsc Hraw priv Hl) as Hspec.
  split; [exact Hspec|].
  rewrite (ecdsa_privkey_negate_spec ec Hsc Hraw priv Hl).
  rewrite (ecdsa_privkey_invert_spec ec Hsc Hraw priv Hp Hl).
  destruct (ecdsa_privkey_verify ec priv) eqn:Hv; [|split; reflexivity].
  symmetry in Hspec. apply andb_true_iff in Hspec.
  destruct Hspec as [H0 H1]. apply Z.ltb_lt in H0, H1.
  set (a := sc_value priv) in *.
  pose proof (sc_n_gt_1 _ Hsc) as Hn.
  assert (Hinv1 : (a * Z.invmod a n) mod n = 1).
  { rewrite Z.mul_comm. apply Z.invmod_prime; [exact Hp|].
    rewrite Z.mod_small by lia. lia. }
  pose proof (invmod_range a n Hn) as Hir.
  assert (Hi0 : 0 < Z.invmod a n).
  { destruct (Z.eq_dec (Z.invmod a n) 0) as [E|E]; [|lia].
    rewrite E, Z.mul_0_r, Z.mod_0_l in Hinv1 by lia. discriminate. }
  exists (sc_export sc (n - a)), (sc_export sc (Z.invmod a n)).
  split; [reflexivity|]. split; [reflexivity|].
  rewrite !(ecdsa_privkey_verify_export ec Hsc Hraw) by lia.
  rewrite !(sc_value_export ec Hsc) by lia.
  split; [apply Z.ltb_lt; lia|]. split; [apply Z.ltb_lt; lia|].
  split; [reflexivity|]. split; [exact Hinv1|].
  rewrite (ecdsa_privkey_negate_spec ec Hsc Hraw)
    by (rewrite length_sc_export; lia).
  rewrite (ecdsa_privkey_invert_spec ec Hsc Hraw _ Hp)
    by (rewrite length_sc_export; lia).
  rewrite !(ecdsa_privkey_verify_export ec Hsc Hraw) by lia.
  rewrite !(sc_value_export ec Hsc) by lia.
  destruct (Z.ltb_spec 0 (n - a)); [|lia].
  destruct (Z.ltb_spec 0 (Z.invmod a n)); [|lia].
  rewrite (invmod_involutive a n Hp) by lia.
  replace (n - (n - a)) with a by ring.
  unfold a. rewrite (sc_export_import ec Hsc priv Hl) by (fold a; lia).
  split; reflexivity.
Qed.

(** X25. [ecdsa_privkey_tweak_add] and [ecdsa_privkey_tweak_mul]
    return the key of [a + t] and of [a t] modulo [n]; they refuse an
    invalid key, a tweak that is not below [n], and a zero result, and
    nothing else; what they return is a valid key. *)
Theorem ecdsa_privkey_tweak_values (priv tweak : list byte) :
  (sc_size sc <= length priv)%nat ->
  (sc_size sc <= length tweak)%nat ->
  let a := sc_value priv in
  let t := sc_value tweak in
  ecdsa_privkey_tweak_add ec priv tweak
  = (if ecdsa_privkey_verify ec priv && (t <? n)
        && negb ((a + t) mod n =? 0)
     then Some (sc_export sc ((a + t) mod n)) else None) /\
  ecdsa_privkey_tweak_mul ec priv tweak
  = (if ecdsa_privkey_verify ec priv && (t <? n)
        && negb ((a * t) mod n =? 0)
     then Some (sc_export sc ((a * t) mod n)) else None) /\
  (forall out,
     ecdsa_privkey_tweak_add ec priv tweak = Some out ->
     ecdsa_privkey_verify ec out = true /\ sc_value out = (a + t) mod n) /\
  (forall out,
     ecdsa_privkey_tweak_mul ec priv tweak = Some out ->
     ecdsa_privkey_verify ec out = true /\ sc_value out = (a * t) mod n).
Proof.
  intros Hl Ht a t.
  pose proof (ecdsa_privkey_tweak_add_spec ec Hsc Hraw priv tweak Hl Ht)
    as Hadd.
  pose proof (ecdsa_privkey_tweak_mul_spec ec Hsc Hraw priv tweak Hl Ht)
    as Hmul.
  fold a t in Hadd, Hmul.
  pose proof (sc_n_gt_1 _ Hsc) as Hn.
  assert (Hout : forall v out,
            (if ecdsa_privkey_verify ec priv && (t <? n)
                && negb (v mod n =? 0)
             then Some (sc_export sc (v mod n)) else None) = Some out ->
            ecdsa_privkey_verify ec out = true /\ sc_value out = v mod n).
  { intros v out H.
    pose proof (Z.mod_pos_bound v n ltac:(lia)) as Hv.
    destruct (ecdsa_privkey_verify ec priv && (t <? n)
              && negb (v mod n =? 0)) eqn:E; [|discriminate].
    injection H as <-. apply andb_true_iff in E. destruct E as [_ E].
    apply negb_true_iff, Z.eqb_neq in E.
    rewrite (ecdsa_privkey_verify_export ec Hsc Hraw) by lia.
    rewrite (sc_value_export ec Hsc) by lia.
    split; [apply Z.ltb_lt; lia|reflexivity]. }
  split; [exact Hadd|]. split; [exact Hmul|]. split.
  - intros out H. rewrite Hadd in H. apply (Hout _ _ H).
  - intros out H. rewrite Hmul in H. apply (Hout _ _ H).
Qed.

(** X26. [ecdsa_sig_normalize] refuses a signature exactly when [r] or
    [s] is not below [n]: a result means [r < n] and [s < n], a refusal
    means [n <= r] or [n <= s].  On success it keeps [r] and returns
    [s] or [n - s], whichever is at most [n / 2].  Its result passes
    [ecdsa_is_low_s] and is a fixed point of normalization, and a
    signature that already passes [ecdsa_is_low_s] is returned
    unchanged. *)
Theorem ecdsa_sig_normalize_low_s (sig : list byte) :
  (2 * sc_size sc <= length sig)%nat ->
  match ecdsa_sig_normalize ec sig with
  | Some out =>
      sc_value sig < n /\ sc_value (skipn (sc_size sc) sig) < n /\
      length out = (2 * sc_size sc)%nat /\
      sc_value out = sc_value sig /\
      (let s := sc_value (skipn (sc_size sc) sig) in
       sc_value (skipn (sc_size sc) out)
       = if n / 2 <? s then n - s else s) /\
      ecdsa_is_low_s ec out = true /\
      ecdsa_sig_normalize ec out = Some out /\
      (ecdsa_is_low_s ec sig = true -> out = firstn (2 * sc_size sc) sig)
  | None =>
      ecdsa_is_low_s ec sig = false /\
      (n <= sc_value sig \/ n <= sc_value (skipn (sc_size sc) sig))
  end.
Proof.
  intros Hl.
  pose proof (sc_n_gt_1 _ Hsc) as Hn.
  pose proof (Z.div_mod n 2 ltac:(lia)) as Hdm.
  pose proof (Z.mod_pos_bound n 2 ltac:(lia)) as Hm2.
  rewrite (ecdsa_sig_normalize_spec ec Hsc Hraw sig Hl).
  rewrite (ecdsa_is_low_s_spec ec Hsc Hraw sig Hl).
  pose proof (sc_value_range ec sig) as Hr.
  pose proof (sc_value_range ec (skipn (sc_size sc) sig)) as Hs.
  set (r := sc_value sig) in *.
  set (s := sc_value (skipn (sc_size sc) sig)) in *.
  destruct (Z.ltb_spec r n) as [Hrn|Hrn]; cbn [andb].
  2:{ split; [reflexivity|]. left. exact Hrn. }
  destruct (Z.ltb_spec s n) as [Hsn|Hsn].
  2:{ split; [|right; exact Hsn].
      destruct (Z.leb_spec s (n / 2)); [lia|reflexivity]. }
  set (s' := if n / 2 <? s then n - s else s).
  assert (Hs' : 0 <= s' <= n / 2).
  { unfold s'. destruct (Z.ltb_spec (n / 2) s); lia. }
  set (out := sc_export sc r ++ sc_export sc s').
  assert (Hlen : length out = (2 * sc_size sc)%nat).
  { unfold out. rewrite length_app, !length_sc_export. lia. }
  assert (Hro : sc_value out = r).
  { unfold out. apply (sc_export_value _ Hsc). lia. }
  assert (Hso : sc_value (skipn (sc_size sc) out) = s').
  { unfold out. rewrite skipn_app_exact by apply length_sc_export.
    apply (sc_value_export ec Hsc). lia. }
  split; [exact Hrn|]. split; [exact Hsn|].
  split; [exact Hlen|]. split; [exact Hro|]. split; [exact Hso|].
  split; [|split].
  - rewrite (ecdsa_is_low_s_spec ec Hsc Hraw out) by lia.
    rewrite Hro, Hso. apply andb_true_iff.
    split; [apply Z.ltb_lt|apply Z.leb_le]; lia.
  - rewrite (ecdsa_sig_normalize_spec ec Hsc Hraw out) by lia.
    rewrite Hro, Hso.
    destruct (Z.ltb_spec r n); [|lia].
    destruct (Z.ltb_spec s' n); [|lia]. cbn [andb].
    destruct (Z.ltb_spec (n / 2) s'); [lia|]. reflexivity.
  - intros Hlow. apply Z.leb_le in Hlow.
    unfold out, s'. destruct (Z.ltb_spec (n / 2) s); [lia|].
    unfold r, s.
    rewrite (sc_export_import ec Hsc sig) by (try lia; fold r; lia).
    rewrite (sc_export_import ec Hsc (skipn (sc_size sc) sig))
      by (rewrite ?length_skipn; try lia; fold s; lia).
    rewrite firstn_skipn_comm.
    replace (sc_size sc + sc_size sc)%nat with (2 * sc_size sc)%nat by lia.
    transitivity (firstn (sc_size sc) (firstn (2 * sc_size sc) sig)
                  ++ skipn (sc_size sc) (firstn (2 * sc_size sc) sig));
      [|apply firstn_skipn].
    f_equal. rewrite firstn_firstn. f_equal. lia.
Qed.

End KeyProperties.

(* ================================================================= *)
(** * Further properties: public keys *)

Section PublicKeyProperties.

Variable ec : wei_t.
Hypothesis Hfe : fe_wf (ec_fe ec) = true.
Hypothesis Hflags : wei_flags_wf ec = true.
Hypothesis Hback : fe_backend_wf (ec_fe ec).
Hypothesis Hsqrt : fe_sqrt_complete (ec_fe ec).

(** X27. An encoded point of the curve passes [ecdsa_pubkey_verify];
    [ecdsa_pubkey_convert] re-encodes the same point in the requested
    format (and is the identity on the format it was in);
    [ecdsa_pubkey_negate] encodes the opposite point, and applied twice
    returns the key it started from. *)
Theorem ecdsa_pubkey_convert_negate (A : wge_t) (c c' : bool)
    (pub : list byte) :
  on_curve ec (waff A) = true ->
  wge_export ec A c = Some pub ->
  ecdsa_pubkey_verify ec pub = Some true /\
  ecdsa_pubkey_convert ec pub c' = Some (wge_export ec A c') /\
  ecdsa_pubkey_convert ec pub c = Some (Some pub) /\
  exists neg,
    ecdsa_pubkey_negate ec pub c = Some (Some neg) /\
    wge_import ec neg (length neg) = Some (Some (wge_neg A)) /\
    ecdsa_pubkey_negate ec neg c = Some (Some pub).
Proof.
  intros Hoc He.
  pose proof (wge_import_exported ec Hfe Hback Hsqrt A c pub Hoc He) as Hi.
  pose proof (wge_export_finite ec A c pub He) as Hinf.
  split; [unfold ecdsa_pubkey_verify; rewrite Hi; reflexivity|].
  split; [apply (ecdsa_pubkey_convert_exported ec Hfe Hback Hsqrt A c c' pub);
          assumption|].
  split.
  { rewrite (ecdsa_pubkey_convert_exported ec Hfe Hback Hsqrt A c c pub)
      by assumption.
    rewrite He. reflexivity. }
  destruct (wge_export_neg_some ec A c Hinf) as (neg & Hn).
  assert (Hnoc : on_curve ec (waff (wge_neg A)) = true).
  { rewrite wge_neg_spec. apply pneg_on_curve. exact Hoc. }
  exists neg. split; [|split].
  - rewrite (ecdsa_pubkey_negate_exported ec Hfe Hback Hsqrt A c c pub)
      by assumption.
    rewrite Hn. reflexivity.
  - apply (wge_import_exported ec Hfe Hback Hsqrt (wge_neg A) c neg);
      assumption.
  - rewrite (ecdsa_pubkey_negate_exported ec Hfe Hback Hsqrt (wge_neg A)
               c c neg) by assumption.
    rewrite (wge_export_waff ec (wge_neg (wge_neg A)) A c).
    + rewrite He. reflexivity.
    + rewrite !wge_neg_spec. apply pneg_involutive.
Qed.

(** X28. [ecdsa_pubkey_combine] returns the encoding of the sum of the
    points its inputs decode to; it refuses the empty list (the sum is
    the point at infinity, which has no encoding), a list whose sum is
    the point at infinity, and a list with a key that does not
    decode. *)
Theorem ecdsa_pubkey_combine_sums (pubs : list (list byte))
    (As : list wge_t) (W : wge_t) (c : bool) :
  Forall2 (fun pub A => wge_import ec pub (length pub) = Some (Some A))
          pubs As ->
  waff W = fold_left (padd ec) (map waff As) None ->
  ecdsa_pubkey_combine ec pubs c = Some (wge_export ec W c) /\
  (wge_inf W = true -> ecdsa_pubkey_combine ec pubs c = Some None) /\
  ecdsa_pubkey_combine ec [] c = Some None /\
  (forall bad rest,
     wge_import ec bad (length bad) = Some None ->
     ecdsa_pubkey_combine ec (pubs ++ bad :: rest) c = Some None).
Proof.
  intros HF HW.
  assert (Hz : on_curve ec (jaff jge_zero) = true)
    by (rewrite jaff_zero; reflexivity).
  destruct (ecdsa_pubkey_combine_loop_spec ec Hflags Hback pubs As jge_zero
              HF Hz) as (R & HR & HRv & _).
  rewrite jaff_zero in HRv.
  assert (Hmain : ecdsa_pubkey_combine ec pubs c = Some (wge_export ec W c)).
  { unfold ecdsa_pubkey_combine. rewrite HR. cbv zeta. f_equal.
    apply wge_export_waff.
    rewrite (jge_to_wge_spec ec Hfe Hback), HRv, HW. reflexivity. }
  split; [exact Hmain|]. split; [|split].
  - intros Hinf. rewrite Hmain. unfold wge_export. rewrite Hinf.
    reflexivity.
  - unfold ecdsa_pubkey_combine. cbn [ecdsa_pubkey_combine_loop]. cbv zeta.
    unfold wge_export.
    replace (wge_inf (jge_to_wge ec jge_zero)) with true; [reflexivity|].
    pose proof (jge_to_wge_spec ec Hfe Hback jge_zero) as H.
    rewrite jaff_zero in H. unfold waff in H.
    destruct (wge_inf (jge_to_wge ec jge_zero)); [reflexivity|discriminate].
  - intros bad rest Hb. unfold ecdsa_pubkey_combine.
    rewrite (ecdsa_pubkey_combine_loop_bad ec pubs rest As bad jge_zero HF Hb).
    reflexivity.
Qed.

End PublicKeyProperties.

Section TweakProperties.

Variable ec : wei_t.
Hypothesis Hwf : wei_wf ec.
Hypothesis Hcof : cofactor_ok ec.
Hypothesis Hassoc : padd_associative ec.
Hypothesis Hprime : Z.prime (sc_n (ec_sc ec)).
Hypothesis Hback : fe_backend_wf (ec_fe ec).
Hypothesis Hsqrt : fe_sqrt_complete (ec_fe ec).
Hypothesis Hlimb4 : GMP_NUMB_BITS mod 4 = 0.
Hypothesis Hblind : wei_blind_wf ec.
Hypothesis Hord : wei_order_wf ec.

Local Abbreviation sc := (ec_sc ec) (only parsing).
Local Abbreviation n := (sc_n (ec_sc ec)) (only parsing).
Local Abbreviation G := (waff (ec_g ec)) (only parsing).

(** X29. Tweaking commutes with key derivation: when
    [ecdsa_privkey_tweak_add] turns the private key [priv] into [out],
    [ecdsa_pubkey_tweak_add] turns the public key of [priv] into the
    public key of [out], whatever the formats. *)
Theorem ecdsa_tweak_add_commutes (priv tweak out : list byte) (c c' : bool) :
  (sc_size sc <= length priv)%nat ->
  (sc_size sc <= length tweak)%nat ->
  ecdsa_privkey_tweak_add ec priv tweak = Some out ->
  exists pub pub',
    ecdsa_pubkey_create ec priv c = Some pub /\
    ecdsa_pubkey_create ec out c' = Some pub' /\
    ecdsa_pubkey_tweak_add ec pub tweak c' = Some (Some pub').
Proof.
  intros Hl Ht Hadd.
  destruct (wei_wf_scalars ec Hwf) as (Hsc & Hraw & Hbe).
  destruct Hwf as (Hf & Hflags & _ & _ & Htab & Hginf & Hg).
  destruct (wei_fields_wf_facts ec Hf) as (Hfe & _).
  pose proof (sc_n_gt_1 _ Hsc) as Hn.
  rewrite (ecdsa_privkey_tweak_add_spec ec Hsc Hraw priv tweak Hl Ht) in Hadd.
  rewrite !(sc_value_be ec Hwf) in Hadd.
  set (a := be_value (firstn (sc_size sc) priv)) in *.
  set (t := be_value (firstn (sc_size sc) tweak)) in *.
  destruct (ecdsa_privkey_verify ec priv) eqn:Hv; [|discriminate].
  cbn [andb] in Hadd.
  destruct (Z.ltb_spec t n) as [Htn|]; [|discriminate]. cbn [andb] in Hadd.
  destruct (Z.eqb_spec ((a + t) mod n) 0) as [|Hs0]; [discriminate|].
  cbn [negb] in Hadd. injection Hadd as <-.
  pose proof (Z.mod_pos_bound (a + t) n ltac:(lia)) as Hs.
  set (s := (a + t) mod n) in *.
  assert (Ht0 : 0 <= t) by (unfold t; apply be_value_nonneg).
  destruct (privkey_valid_import ec Hwf priv Hl Hv) as [Ha Hi]. fold a in Ha, Hi.
  destruct (ecdsa_pubkey_create_spec ec Hwf Hcof Hassoc Hprime Hback Hsqrt
              Hlimb4 Hblind Hord priv c a Hi Ha) as (pub & Hc & Himp & Hw).
  assert (His : sc_import sc (sc_export sc s) = (s, true)).
  { rewrite <- (app_nil_r (sc_export sc s)).
    apply (sc_import_export _ Hsc Hraw). lia. }
  destruct (ecdsa_pubkey_create_spec ec Hwf Hcof Hassoc Hprime Hback Hsqrt
              Hlimb4 Hblind Hord (sc_export sc s) c' s His ltac:(lia))
    as (pub' & Hc' & _ & Hw').
  exists pub, pub'. split; [exact Hc|]. split; [exact Hc'|].
  unfold ecdsa_pubkey_tweak_add. rewrite Himp. cbv zeta.
  rewrite (sc_import_cases ec Hsc Hraw tweak Ht), (sc_value_be ec Hwf).
  fold t. destruct (Z.ltb_spec t n); [|lia]. cbn [negb].
  f_equal.
  unfold ecdsa_pubkey_create in Hc'. rewrite His in Hc'. cbn [negb] in Hc'.
  destruct (sc_is_zero sc s); [discriminate|]. cbv zeta in Hc'.
  rewrite <- Hc'. apply wge_export_waff.
  pose proof (wei_mul_g_spec ec Hwf Hcof Hassoc Hback Hlimb4 Hblind Hord t
                ltac:(lia)) as Hwt.
  rewrite (wge_add_spec ec Hfe Hflags Hback).
  - rewrite Hw, Hwt, Hw', <- pmul_add by assumption.
    unfold s. symmetry. apply (pmul_mod ec Hassoc); [assumption|lia|exact Hord].
  - rewrite Hw. apply pmul_on_curve; assumption.
  - rewrite Hwt. apply pmul_on_curve; assumption.
Qed.

End TweakProperties.

(* ================================================================= *)
(** * Properties of the curve initialisation *)

(** X30. [wei_init] establishes what the curve operations rely on.
    For a definition whose prime [p] and order [n] are given with their
    exact bit lengths, [n] no longer than [p] and of the same byte
    size, [wei_init] passes its assert and returns a context whose
    fields, flags, order bytes and precomputed tables are well formed:
    the order is the one defined, [pmodn] is [p mod n], the cofactor
    and the endomorphism flag are the defined ones, the blinding pair
    is the neutral one ([blind = 0], [unblind] at infinity), and the
    context is a well-formed curve as soon as the defined generator
    satisfies the curve equation. *)
Theorem wei_init_establishes (def : wei_def_t) :
  1 < def_bits (def_fe def) <= MAX_SCALAR_BITS ->
  length (def_p (def_fe def)) = Z.to_nat ((def_bits (def_fe def) + 7) / 8) ->
  be_value (def_p (def_fe def)) = fe_p ->
  2 ^ (def_bits (def_fe def) - 1) <= fe_p < 2 ^ def_bits (def_fe def) ->
  1 < def_sc_bits (def_sc def) <= def_bits (def_fe def) ->
  length (def_n (def_sc def))
  = Z.to_nat ((def_sc_bits (def_sc def) + 7) / 8) ->
  2 ^ (def_sc_bits (def_sc def) - 1) <= be_value (def_n (def_sc def))
  < 2 ^ def_sc_bits (def_sc def) ->
  (def_sc_bits (def_sc def) + 7) / 8 = (def_bits (def_fe def) + 7) / 8 ->
  exists ec,
    wei_init def = Some ec /\
    wei_fields_wf ec = true /\ wei_flags_wf ec = true /\
    sc_raw_wf (ec_sc ec) = true /\ wei_tables_wf ec /\
    sc_n (ec_sc ec) = be_value (def_n (def_sc def)) /\
    ec_pmodn ec = fe_p mod sc_n (ec_sc ec) /\
    ec_h ec = def_h def /\ ec_endo ec = def_endo def /\
    ec_blind ec = 0 /\ wge_inf (ec_unblind ec) = true /\
    wei_blind_wf ec /\
    (on_curve ec (waff (ec_g ec)) = true -> wei_wf ec).
Proof.
  intros Hfb Hfl Hfv Hfp Hsb Hsl Hsn Hsize.
  destruct (wei_init_some def) as [ec Hinit]; [lia|].
  exists ec. split; [exact Hinit|].
  assert (Hb0 : ec_blind ec = 0 /\ wge_inf (ec_unblind ec) = true).
  { unfold wei_init in Hinit. cbv zeta in Hinit.
    destruct (negb _) in Hinit; [discriminate|].
    apply (f_equal (fun o => match o with Some e => e | None => ec end))
      in Hinit.
    destruct (def_endo def); rewrite <- Hinit; split; reflexivity. }
  destruct (wei_init_spec def ec) as
    (Hf & Hfl' & Hraw & Hend & Htab & Hinf & Hbl & Hn & Hpm & Hendo & Hh);
    try assumption; [lia|].
  destruct Hb0 as [Hb0 Hu0].
  repeat match goal with |- _ /\ _ => split end; try assumption.
  intros Hg. unfold wei_wf. repeat split; try assumption; apply Htab.
Qed.

End Torsion.

Arguments Return {A} a.
Arguments Abort {A}.
Arguments OutOfFuel {A}.

(* ================================================================= *)
(** * Concrete instances *)

(** Trial division: a decision procedure for small primes. *)
Lemma trial_division_prime (p : Z) :
  1 < p ->
  forallb (fun n => negb (p mod n =? 0))
          (map Z.of_nat (seq 2 (Z.to_nat p - 2))) = true ->
  Z.prime p.
Proof.
  intros Hp Hall. split; [exact Hp|].
  intros n Hn Hdiv.
  rewrite forallb_forall in Hall.
  specialize (Hall n).
  assert (Hin : In n (map Z.of_nat (seq 2 (Z.to_nat p - 2)))).
  { apply in_map_iff. exists (Z.to_nat n). split; [lia|].
    apply in_seq. lia. }
  apply Hall in Hin. apply negb_true_iff, Z.eqb_neq in Hin.
  apply Hin. apply Z.mod_divide in Hdiv; [exact Hdiv | lia].
Qed.

(** A curve of secp256k1's shape, small enough to enumerate:
    [y^2 = x^3 + 7] over the field of 43 elements has prime order 31;
    [(2, 12)] generates it. *)
Definition toy_p : Z := 43.

Definition toy_def : wei_def_t toy_p :=
  mk_wei_def toy_p 0
    (mk_prime_def toy_p 6 [x2b] None None None false)
    (mk_scalar_def 5 [x1f])
    [x00] [x07] 1 [x02] [x0c]
    false [x00] [x00] [x00] [x00] [x00] [x00].

Definition toy_ec : wei_t toy_p :=
  ltac:(let r := eval vm_compute in (wei_init 64 toy_p toy_def) in
        match r with Some ?e => exact e end).

Lemma toy_p_prime : Z.prime toy_p.
Proof. apply trial_division_prime; [reflexivity | vm_compute; reflexivity]. Qed.

Lemma toy_ec_init : wei_init 64 toy_p toy_def = Some toy_ec.
Proof. vm_compute. reflexivity. Qed.

(** The same curve with its endomorphism, as [curve_secp256k1] is
    defined: [beta = 6] is a cube root of unity modulo 43 and acts as
    the multiplication by 5, a cube root of unity modulo 31; the
    definition stores [-lambda = 26] and [-b1 = 25], [-b2 = 1] of the
    lattice basis [(1, 6)], [(5, -1)].  The rounding constants [g1],
    [g2] of an order of five bits would need 21 bits; with one-byte
    scalars [wei_endo_split] leaves [k1 = k] and [k2 = 0]. *)
Definition glv_def : wei_def_t toy_p :=
  mk_wei_def toy_p 0
    (mk_prime_def toy_p 6 [x2b] None None None false)
    (mk_scalar_def 5 [x1f])
    [x00] [x07] 1 [x02] [x0c]
    true [x06] [x1a] [x19] [x01] [x04] [x19].

Definition glv_ec : wei_t toy_p :=
  ltac:(let r := eval vm_compute in (wei_init 64 toy_p glv_def) in
        match r with Some ?e => exact e end).

Lemma glv_ec_init : wei_init 64 toy_p glv_def = Some glv_ec.
Proof. vm_compute. reflexivity. Qed.

Lemma jge_add_unified_witness :
  let p := wge_to_jge toy_p (ec_g toy_p toy_ec) in
  jge_equal toy_p (jge_add toy_p toy_ec p p) (jge_dbl toy_p toy_ec p) = true /\
  jge_is_zero toy_p (jge_add toy_p toy_ec p (jge_neg toy_p p)) = true /\
  jge_add toy_p toy_ec (jge_zero toy_p) p = p /\
  jge_add toy_p toy_ec p (jge_zero toy_p) = p.
Proof.
  intros p.
  assert (Hflags : wei_flags_wf toy_p toy_ec = true) by (vm_compute; reflexivity).
  assert (Hodd : 2 < toy_p) by (unfold toy_p; lia).
  assert (Hfin : jge_is_zero toy_p p = false) by (vm_compute; reflexivity).
  pose proof (jge_add_unified toy_p toy_p_prime Hodd toy_ec Hflags p) as H.
  destruct H as (H1 & H2 & _ & H3 & H4).
  split; [exact H1 | split; [exact H2 | split; [exact (H3 Hfin) | exact H4]]].
Defined.

(** The point [(32, 3)] of the toy curve in Jacobian coordinates with
    [z = 5]; its affine x-coordinate 32 is the lift [1 + n] of 1. *)
Definition toy_lifted : jge_t toy_p :=
  mk_jge toy_p (Zmod.of_Z toy_p 26) (Zmod.of_Z toy_p 31) (Zmod.of_Z toy_p 5).

Lemma jge_equal_r_decides_witness :
  jge_equal_r 64 toy_p toy_ec 2 toy_lifted 1 = Return true /\
  jge_equal_r 64 toy_p toy_ec 2 toy_lifted 2 = Return false.
Proof.
  assert (Hwf : wei_fields_wf 64 toy_p toy_ec = true)
    by (vm_compute; reflexivity).
  assert (Hodd : 2 < toy_p) by (unfold toy_p; lia).
  assert (Hfin : jge_is_zero toy_p toy_lifted = false)
    by (vm_compute; reflexivity).
  assert (Hx1 : 0 <= 1 < sc_n (ec_sc toy_p toy_ec))
    by (split; [lia | vm_compute; reflexivity]).
  assert (Hx2 : 0 <= 2 < sc_n (ec_sc toy_p toy_ec))
    by (split; [lia | vm_compute; reflexivity]).
  assert (Hfuel : toy_p <= Z.of_nat 2 * sc_n (ec_sc toy_p toy_ec))
    by (vm_compute; discriminate).
  assert (Hp1 : 1 < toy_p) by (unfold toy_p; lia).
  assert (Hp2 : 2 < toy_p) by (unfold toy_p; lia).
  pose proof (jge_equal_r_decides 64 toy_p ltac:(lia) toy_p_prime Hodd toy_ec
                Hwf toy_lifted 1 2 Hfin Hx1 Hfuel) as (_ & _ & H1).
  pose proof (jge_equal_r_decides 64 toy_p ltac:(lia) toy_p_prime Hodd toy_ec
                Hwf toy_lifted 2 2 Hfin Hx2 Hfuel) as (_ & _ & H2).
  split; [rewrite (H1 Hp1) | rewrite (H2 Hp2)]; vm_compute; reflexivity.
Defined.

(** A curve whose order exceeds the field size: [y^2 = x^3 - 3 x + 12]
    over the field of 43 elements has prime order 47, so [p / n = 0]. *)
Definition big_order_def : wei_def_t toy_p :=
  mk_wei_def toy_p 0
    (mk_prime_def toy_p 6 [x2b] None None None false)
    (mk_scalar_def 6 [x2f])
    [x28] [x0c] 1 [x01] [x0f]
    false [x00] [x00] [x00] [x00] [x00] [x00].

Definition big_order_ec : wei_t toy_p :=
  ltac:(let r := eval vm_compute in (wei_init 64 toy_p big_order_def) in
        match r with Some ?e => exact e end).

(** On that curve the scalar 45 is below [n = 47] but not below
    [p = 43]: [jge_equal_r] stops at [assert(fe_set_sc(...))] for the
    finite point [G]. *)
Example jge_equal_r_aborts_above_p :
  wei_init 64 toy_p big_order_def = Some big_order_ec /\
  wei_fields_wf 64 toy_p big_order_ec = true /\
  wge_validate toy_p big_order_ec (ec_g toy_p big_order_ec) = true /\
  jge_is_zero toy_p (wge_to_jge toy_p (ec_g toy_p big_order_ec)) = false /\
  0 <= 45 < sc_n (ec_sc toy_p big_order_ec) /\
  toy_p / sc_n (ec_sc toy_p big_order_ec) <= 1 /\
  jge_equal_r 64 toy_p big_order_ec 100
    (wge_to_jge toy_p (ec_g toy_p big_order_ec)) 45 = Abort.
Proof.
  repeat split; try (vm_compute; reflexivity); vm_compute; discriminate.
Qed.

(** A toy Montgomery curve: [y^2 = x^3 + 6 x^2 + x] over the field of
    43 elements has 44 = 4 * 11 points.  Its clamp keeps the scalar a
    multiple of the cofactor with bit 5 set. *)
Definition toy_clamp (raw : list byte) : list byte :=
  match raw with
  | b :: rest => z2b (Z.lor (Z.land (b2z b) 60) 32) :: rest
  | [] => []
  end.

Definition toy_mont_def : mont_def_t toy_p :=
  mk_mont_def toy_p
    (mk_prime_def toy_p 6 [x2b] None None None false)
    (mk_scalar_def 4 [x0b])
    [x06] [x01] 4 false [x01] [x03] [x10] toy_clamp.

Definition toy_mont : mont_t toy_p := mont_init 64 toy_p toy_mont_def.

Lemma mont_mul_ladder_witness :
  let g := mge_to_pge toy_p (mont_g toy_p toy_mont) in
  mont_mul 64 toy_p toy_mont g 229
  = Some (mont_ladder toy_p toy_mont g
            [true; false; false; true; false; true]) /\
  mont_mul 64 toy_p toy_mont g 37 = mont_mul 64 toy_p toy_mont g 229.
Proof.
  intros g.
  assert (Ha : fe_bits toy_p (mont_fe toy_p toy_mont)
               <= sc_limbs (mont_sc toy_p toy_mont) * 64)
    by (vm_compute; discriminate).
  pose proof (mont_mul_ladder 64 toy_p ltac:(lia) toy_mont g 229 Ha)
    as (H1 & _ & H2).
  split; [exact H1 | exact H2].
Defined.

(** The peer key [u = 0] (a point of order two) sends every scalar to
    the identity: the only way [ecdh_derive] fails.  The key [0x83]
    is read as [u = 3]: bits 6 and 7 are masked away. *)
Lemma ecdh_derive_fails_iff_witness :
  pge_import toy_p toy_mont [x83]
  = mk_pge toy_p (Zmod.of_Z toy_p 3) (fe_one toy_p) /\
  (exists secret, ecdh_derive 64 toy_p toy_mont [x83] [x05] = Some (secret, true)) /\
  (exists secret, ecdh_derive 64 toy_p toy_mont [x00] [x05] = Some (secret, false)).
Proof.
  assert (Hwf : mont_wf 64 toy_p toy_mont = true) by (vm_compute; reflexivity).
  assert (Hlen : (fe_size toy_p (mont_fe toy_p toy_mont) <= 1)%nat)
    by (vm_compute; lia).
  pose proof (ecdh_derive_fails_iff 64 toy_p ltac:(lia) toy_mont
                [x83] [x05] Hwf Hlen) as (H1 & P1 & s1 & Hm1 & Hd1 & _).
  pose proof (ecdh_derive_fails_iff 64 toy_p ltac:(lia) toy_mont
                [x00] [x05] Hwf Hlen) as (_ & P2 & s2 & Hm2 & Hd2 & _).
  split; [rewrite H1; vm_compute; reflexivity|].
  split.
  - exists s1. rewrite Hd1. vm_compute in Hm1. injection Hm1 as <-.
    vm_compute. reflexivity.
  - exists s2. rewrite Hd2. vm_compute in Hm2. injection Hm2 as <-.
    vm_compute. reflexivity.
Defined.

(** A toy Edwards curve: [x^2 + y^2 = 1 + 2 x^2 y^2] over the field of
    43 elements has 44 points; [(5, 2)] and [(0, 1)] are on it. *)
Definition toy_ed_def : edwards_def_t toy_p :=
  mk_edwards_def toy_p 0 0
    (mk_prime_def toy_p 6 [x2b] None None None false)
    (mk_scalar_def 4 [x0b])
    [x01] [x02] 4 [x02] [x05] toy_clamp.

Definition toy_ed : edwards_t toy_p := edwards_init 64 toy_p toy_ed_def.

(** [0x82] encodes [y = 2] with sign 1 and decodes to [(5, 2)];
    [0x81] claims [y = 1], hence [x = 0], with sign 1. *)
Lemma xge_import_sign_rule_witness :
  let r := mk_xge toy_p (Zmod.of_Z toy_p 5) (Zmod.of_Z toy_p 2)
                  (Zmod.of_Z toy_p 1) (Zmod.of_Z toy_p 10) in
  xge_import 64 toy_p toy_ed [x82] = Some (Some r) /\
  fe_is_odd toy_p (xge_x toy_p r) = xge_encoded_sign toy_p (ed_fe toy_p toy_ed) [x82] /\
  xge_import 64 toy_p toy_ed [x81] = Some None.
Proof.
  intros r.
  assert (Hwf : edwards_wf 64 toy_p toy_ed = true) by (vm_compute; reflexivity).
  assert (Hodd : 2 < toy_p) by (unfold toy_p; lia).
  assert (Hlen : (xge_encoded_size toy_p (ed_fe toy_p toy_ed) <= 1)%nat)
    by (vm_compute; lia).
  assert (Himp : xge_import 64 toy_p toy_ed [x82] = Some (Some r))
    by (vm_compute; reflexivity).
  pose proof (xge_import_sign_rule 64 toy_p toy_p_prime Hodd toy_ed
                Hwf [x82] Hlen) as (H1 & _).
  pose proof (xge_import_sign_rule 64 toy_p toy_p_prime Hodd toy_ed
                Hwf [x81] Hlen) as (_ & H2).
  destruct (H1 r Himp) as (_ & _ & _ & Hpar & _).
  split; [exact Himp|]. split; [exact Hpar|].
  apply (H2 (Zmod.of_Z toy_p 0) true);
    [vm_compute; reflexivity | reflexivity | vm_compute; reflexivity].
Defined.

(** The order of secp256k1 ([field_q256k1]), 64-bit limbs. *)
Definition q256k1_raw : list byte :=
  [xff; xff; xff; xff; xff; xff; xff; xff;
   xff; xff; xff; xff; xff; xff; xff; xfe;
   xba; xae; xdc; xe6; xaf; x48; xa0; x3b;
   xbf; xd2; x5e; x8c; xd0; x36; x41; x41].

Definition sc_q256k1 : scalar_field_t := scalar_field_set 64 q256k1_raw 256 1.

Lemma sc_q256k1_wf : sc_wf 64 sc_q256k1 = true.
Proof. vm_compute. reflexivity. Qed.

Lemma sc_ops_preserve_reduction_witness :
  sc_wf 64 sc_q256k1 = true /\
  sc_reduced sc_q256k1 5 /\ sc_reduced sc_q256k1 (2 ^ 255) /\
  sc_reduced sc_q256k1 (sc_mul 64 sc_q256k1 5 (2 ^ 255)) /\
  sc_neg 64 sc_q256k1 0 = 0.
Proof.
  assert (H1 : sc_wf 64 sc_q256k1 = true) by (vm_compute; reflexivity).
  assert (H2 : sc_reduced sc_q256k1 5)
    by (split; [lia | vm_compute; reflexivity]).
  assert (H3 : sc_reduced sc_q256k1 (2 ^ 255))
    by (split; [lia | vm_compute; reflexivity]).
  pose proof (sc_ops_preserve_reduction 64 ltac:(lia) sc_q256k1 5 (2 ^ 255)
                q256k1_raw H1 H2 H3) as H.
  repeat split; try apply H1; try apply H2; try apply H3; apply H.
Defined.

Lemma sc_mulshift_rounds_witness :
  sc_mulshift 64 sc_q256k1 5 (2 ^ 255) 272
  = Some (round_shift (5 * 2 ^ 255) 272) /\
  sc_mulshift 64 sc_q256k1 5 (2 ^ 255) 576 = None.
Proof.
  assert (H1 : sc_wf 64 sc_q256k1 = true) by (vm_compute; reflexivity).
  assert (H2 : sc_reduced sc_q256k1 5)
    by (split; [lia | vm_compute; reflexivity]).
  assert (H3 : sc_reduced sc_q256k1 (2 ^ 255))
    by (split; [lia | vm_compute; reflexivity]).
  pose proof (sc_mulshift_rounds 64 ltac:(lia) sc_q256k1 5 (2 ^ 255) 272
                H1 H2 H3) as Ha.
  pose proof (sc_mulshift_rounds 64 ltac:(lia) sc_q256k1 5 (2 ^ 255) 576
                H1 H2 H3) as Hb.
  change (272 <? 2 * sc_limbs sc_q256k1 * 64) with true in Ha.
  change (576 <? 2 * sc_limbs sc_q256k1 * 64) with false in Hb.
  cbv iota in Ha, Hb.
  split.
  - apply Ha. vm_compute. split; [reflexivity | discriminate].
  - apply Hb. vm_compute. split; [reflexivity | discriminate].
Defined.

(** C7 as stated fails: the shift [2 * limbs * GMP_NUMB_BITS = 512] exceeds
    [bits(n) = 256], yet [sc_mulshift] stops at [assert(rn > 0)]. *)
Lemma sc_mulshift_large_shift_aborts :
  sc_wf 64 sc_q256k1 = true /\
  sc_reduced sc_q256k1 1 /\
  sc_bits sc_q256k1 < 512 /\
  sc_mulshift 64 sc_q256k1 1 1 512 = None /\
  sc_mulshift 64 sc_q256k1 1 1 512 <> Some (round_shift (1 * 1) 512).
Proof.
  repeat split; try (vm_compute; reflexivity); try lia.
  vm_compute. discriminate.
Qed.

(* ================================================================= *)
(** * ECDSA on the toy curve *)

Lemma toy_p_odd : 2 < toy_p.
Proof. unfold toy_p. lia. Qed.

(** The 31 points of the toy curve form a group under the
    chord-and-tangent law. *)
Lemma toy_associative : padd_associative toy_p toy_ec.
Proof.
  apply (padd_associative_checked toy_p toy_p_prime toy_p_odd).
  vm_compute. reflexivity.
Qed.

Lemma toy_cofactor : cofactor_ok toy_p toy_ec.
Proof. apply (cofactor_checked toy_p toy_p_odd). vm_compute. reflexivity. Qed.

Lemma toy_wei_wf : wei_wf 64 toy_p toy_ec.
Proof. repeat split; vm_compute; reflexivity. Qed.

Lemma toy_n_prime : Z.prime (sc_n (ec_sc toy_p toy_ec)).
Proof. apply trial_division_prime; vm_compute; reflexivity. Qed.

Lemma toy_backend : fe_backend_wf toy_p (ec_fe toy_p toy_ec).
Proof. split; intros f H; vm_compute in H; discriminate. Qed.

(** The toy curve does not set [endo]: nothing is asked of its
    endomorphism constants. *)
Lemma toy_endo_wf : wei_endo_wf 64 toy_p toy_ec.
Proof. intros H. vm_compute in H. discriminate. Qed.

(** The same facts for the curve with the endomorphism. *)
Lemma glv_associative : padd_associative toy_p glv_ec.
Proof.
  apply (padd_associative_checked toy_p toy_p_prime toy_p_odd).
  vm_compute. reflexivity.
Qed.

Lemma glv_cofactor : cofactor_ok toy_p glv_ec.
Proof. apply (cofactor_checked toy_p toy_p_odd). vm_compute. reflexivity. Qed.

Lemma glv_wei_wf : wei_wf 64 toy_p glv_ec.
Proof. repeat split; vm_compute; reflexivity. Qed.

Lemma glv_n_prime : Z.prime (sc_n (ec_sc toy_p glv_ec)).
Proof. apply trial_division_prime; vm_compute; reflexivity. Qed.

Lemma glv_backend : fe_backend_wf toy_p (ec_fe toy_p glv_ec).
Proof. split; intros f H; vm_compute in H; discriminate. Qed.

(** [beta = 6] acts on the 31 points as the multiplication by
    [n - lambda = 5]. *)
Lemma glv_endo_wf : wei_endo_wf 64 toy_p glv_ec.
Proof.
  intros _. cbv zeta.
  split; [vm_compute; reflexivity|].
  split; [vm_compute; split; [discriminate|reflexivity]|].
  split; [vm_compute; split; [discriminate|reflexivity]|].
  split; [vm_compute; split; [discriminate|reflexivity]|].
  split; [vm_compute; split; [discriminate|reflexivity]|].
  split; [vm_compute; split; [discriminate|reflexivity]|].
  split; [vm_compute; reflexivity|].
  apply (endo_action_checked toy_p toy_p_prime toy_p_odd).
  vm_compute. reflexivity.
Qed.

(** The public key [3 G = (35, 21)]. *)
Definition toy_pub : wge_t toy_p :=
  mk_wge toy_p (Zmod.of_Z toy_p 35) (Zmod.of_Z toy_p 21) false.

(** [(r, s) = (2, 7)] signs the message scalar 1 under the key 3 with
    the nonce 1; [(2, 8)] does not.  The curve is the one with the
    endomorphism, so that [ecdsa_verify] multiplies through
    [wei_jmul_double_endo_var]. *)
Lemma ecdsa_verify_decides_witness :
  ec_endo toy_p glv_ec = true /\
  ecdsa_verify 64 toy_p glv_ec [x08] [x02; x07] [x04; x23; x15]
  = Return true /\
  ecdsa_verify_trick 64 toy_p glv_ec 2 [x08] [x02; x07] [x04; x23; x15]
  = Return true /\
  ecdsa_verify 64 toy_p glv_ec [x08] [x02; x08] [x04; x23; x15]
  = Return false.
Proof.
  assert (Hl8 : 8 <= 64) by lia.
  assert (Hl9 : 9 <= 64) by lia.
  assert (Himp : wge_import 64 toy_p glv_ec [x04; x23; x15]
                   (length [x04; x23; x15]) = Some (Some toy_pub))
    by (vm_compute; reflexivity).
  assert (Hfuel : toy_p <= Z.of_nat 2 * sc_n (ec_sc toy_p glv_ec))
    by (vm_compute; discriminate).
  assert (Hnp : sc_n (ec_sc toy_p glv_ec) <= toy_p)
    by (vm_compute; discriminate).
  assert (Hlen1 : (2 * sc_size (ec_sc toy_p glv_ec) <= length [x02; x07])%nat)
    by (vm_compute; lia).
  assert (Hlen2 : (2 * sc_size (ec_sc toy_p glv_ec) <= length [x02; x08])%nat)
    by (vm_compute; lia).
  pose proof (ecdsa_verify_decides 64 toy_p Hl8 toy_p_prime toy_p_odd glv_ec
                glv_wei_wf glv_endo_wf glv_cofactor glv_associative
                glv_n_prime glv_backend Hl9 [x08] [x02; x07] [x04; x23; x15]
                toy_pub 2%nat Hlen1 Himp Hfuel) as (m & ok & Hm & _ & Hv & Ht).
  pose proof (ecdsa_verify_decides 64 toy_p Hl8 toy_p_prime toy_p_odd glv_ec
                glv_wei_wf glv_endo_wf glv_cofactor glv_associative
                glv_n_prime glv_backend Hl9 [x08] [x02; x08] [x04; x23; x15]
                toy_pub 2%nat Hlen2 Himp Hfuel) as (m' & ok' & Hm' & _ & Hv' & _).
  vm_compute in Hm. injection Hm as <- <-.
  vm_compute in Hm'. injection Hm' as <- <-.
  split; [reflexivity|].
  split; [rewrite Hv | split; [rewrite (Ht Hnp) | rewrite Hv']];
    vm_compute; reflexivity.
Defined.

(* ================================================================= *)
(** * The further properties on the toy curve

    [y^2 = x^3 + 7] over the integers modulo 43: 31 points, generator
    [G = (2, 12)], one-byte scalars and field elements, 64-bit limbs. *)

Definition toy_fe : prime_field_t toy_p := ec_fe toy_p toy_ec.
Definition toy_sc : scalar_field_t := ec_sc toy_p toy_ec.
Definition toy_g : wge_t toy_p := ec_g toy_p toy_ec.

(** A bit generator for the examples: a counter as state, each output
    the counter times eight in every byte (so that the first nonce of
    [ecdsa_sign] is 1). *)
Definition toy_drbg_init (hash : Z) (seed : list byte) : Z := 1.
Definition toy_drbg_generate (st : Z) (n : nat) : Z * list byte :=
  (st + 1, repeat (z2b (8 * st)) n).

Lemma toy_limb_8 : 8 <= 64.
Proof. lia. Qed.

Lemma toy_limb_9 : 9 <= 64.
Proof. lia. Qed.

Lemma toy_limb_4 : 64 mod 4 = 0.
Proof. reflexivity. Qed.

Lemma toy_fe_wf : fe_wf 64 toy_p toy_fe = true.
Proof. vm_compute. reflexivity. Qed.

Lemma toy_sc_wf : sc_wf 64 toy_sc = true.
Proof. vm_compute. reflexivity. Qed.

Lemma toy_sc_raw_wf : sc_raw_wf toy_sc = true.
Proof. vm_compute. reflexivity. Qed.

Lemma toy_fields_wf : wei_fields_wf 64 toy_p toy_ec = true.
Proof. vm_compute. reflexivity. Qed.

Lemma toy_flags_wf : wei_flags_wf toy_p toy_ec = true.
Proof. vm_compute. reflexivity. Qed.

Lemma toy_tables_wf : wei_tables_wf 64 toy_p toy_ec.
Proof. split; vm_compute; reflexivity. Qed.

Lemma toy_g_on_curve : on_curve toy_p toy_ec (waff toy_p toy_g) = true.
Proof. vm_compute. reflexivity. Qed.

Lemma toy_pub_on_curve : on_curve toy_p toy_ec (waff toy_p toy_pub) = true.
Proof. vm_compute. reflexivity. Qed.

Lemma toy_endo : ec_endo toy_p toy_ec = false.
Proof. reflexivity. Qed.

Lemma toy_sqrt_complete : fe_sqrt_complete 64 toy_p toy_fe.
Proof.
  apply (fe_sqrt_complete_3mod4 64 toy_p toy_limb_8 toy_p_prime toy_p_odd
           toy_fe toy_fe_wf); reflexivity.
Qed.

Lemma toy_blind : wei_blind_wf toy_p toy_ec.
Proof. split; [vm_compute; split; [discriminate|reflexivity]|]. vm_compute. reflexivity. Qed.

Lemma toy_order : wei_order_wf toy_p toy_ec.
Proof. vm_compute. reflexivity. Qed.

Lemma toy_recover : wei_recover_wf toy_p toy_ec.
Proof. split; [vm_compute; reflexivity|]. vm_compute. split; [discriminate|reflexivity]. Qed.

(** The same facts for the curve with the endomorphism. *)
Lemma glv_sqrt_complete : fe_sqrt_complete 64 toy_p (ec_fe toy_p glv_ec).
Proof.
  apply (fe_sqrt_complete_3mod4 64 toy_p toy_limb_8 toy_p_prime toy_p_odd
           (ec_fe toy_p glv_ec)); vm_compute; reflexivity.
Qed.

Lemma glv_blind : wei_blind_wf toy_p glv_ec.
Proof. split; [vm_compute; split; [discriminate|reflexivity]|]. vm_compute. reflexivity. Qed.

Lemma glv_order : wei_order_wf toy_p glv_ec.
Proof. vm_compute. reflexivity. Qed.

Lemma glv_recover : wei_recover_wf toy_p glv_ec.
Proof. split; [vm_compute; reflexivity|]. vm_compute. split; [discriminate|reflexivity]. Qed.

Lemma toy_scalar_range (a : Z) :
  (0 <=? a) && (a <? 31) = true -> 0 <= a < sc_n toy_sc.
Proof.
  intros H. apply andb_true_iff in H. destruct H as [H0 H1].
  apply Z.leb_le in H0. apply Z.ltb_lt in H1.
  change (sc_n toy_sc) with 31. lia.
Qed.

(* ----------------------------------------------------------------- *)
(** ** Byte strings and scalars *)

Lemma bytes_compare_values_witness :
  bytes_zero [x01; x02] 2 = false /\
  bytes_lt [x01; x02] [x01; x03] 2 1 = true /\
  bytes_lte [x01; x02] [x01; x03] 2 1 = true.
Proof.
  destruct (bytes_compare_values [x01; x02] [x01; x03] 2 1) as (Hz & Hlt & Hle).
  - left. reflexivity.
  - simpl. lia.
  - simpl. lia.
  - rewrite Hz, Hlt, Hle. repeat split; reflexivity.
Defined.

Lemma sc_arithmetic_exact_witness :
  sc_add 64 sc_q256k1 5 (2 ^ 255) = (5 + 2 ^ 255) mod sc_n sc_q256k1 /\
  sc_mul 64 sc_q256k1 5 (2 ^ 255) = (5 * 2 ^ 255) mod sc_n sc_q256k1.
Proof.
  destruct (sc_arithmetic_exact 64 toy_limb_8 sc_q256k1 5 (2 ^ 255))
    as (Hadd & _ & _ & Hmul & _).
  - vm_compute. reflexivity.
  - split; [lia | vm_compute; reflexivity].
  - split; [lia | vm_compute; reflexivity].
  - split; assumption.
Defined.

Lemma sc_codec_round_trip_witness :
  sc_import 64 toy_sc (sc_export 64 toy_sc 7 ++ [x09]) = (7, true) /\
  snd (sc_import 64 toy_sc [x1f; x09]) = false /\
  sc_export 64 toy_sc (fst (sc_import 64 toy_sc [x07; x09])) = [x07].
Proof.
  destruct (sc_codec_round_trip 64 toy_limb_8 toy_sc 7 [x09] [x1f; x09]
              toy_sc_wf toy_sc_raw_wf)
    as (_ & Hrt & Hbad & _).
  { apply toy_scalar_range. reflexivity. }
  { simpl. lia. }
  destruct (sc_codec_round_trip 64 toy_limb_8 toy_sc 7 [x09] [x07; x09]
              toy_sc_wf toy_sc_raw_wf)
    as (_ & _ & Hok & Hcanon).
  { apply toy_scalar_range. reflexivity. }
  { simpl. lia. }
  split; [exact Hrt|]. split; [rewrite Hbad; reflexivity|].
  apply Hcanon. rewrite Hok. reflexivity.
Defined.

Lemma sc_invert_inverse_witness :
  sc_invert 64 toy_sc 3 = sc_invert_var 64 toy_sc 3 /\
  (3 * fst (sc_invert 64 toy_sc 3)) mod sc_n toy_sc = 1.
Proof.
  destruct (sc_invert_inverse 64 toy_limb_8 toy_sc 3 toy_sc_wf toy_n_prime)
    as (Heq & _ & _ & Hinv).
  - vm_compute. split; reflexivity.
  - split; assumption.
Defined.

Lemma sc_minimize_lower_half_witness :
  let '(r, negated) := sc_minimize 64 toy_sc 20 in
  0 <= r <= sc_n toy_sc / 2 /\
  20 = (if negated then sc_n toy_sc - r else r) /\
  negated = (sc_n toy_sc / 2 <? 20) /\
  sc_is_high 64 toy_sc 20 = negated /\
  sc_is_high_var 64 toy_sc 20 = negated.
Proof.
  apply (sc_minimize_lower_half 64 toy_limb_8 toy_sc 20 toy_sc_wf).
  apply toy_scalar_range. reflexivity.
Defined.


(* ----------------------------------------------------------------- *)
(** ** Message reduction and field elements *)

(** The message byte [0x0b] is [1] after dropping its three low bits;
    [0xff] is [31 = n], reduced to zero with the flag cleared. *)
Lemma ecdsa_reduce_value_witness :
  ecdsa_reduce 64 toy_p toy_ec [x0b] = Some (1, true) /\
  ecdsa_reduce 64 toy_p toy_ec [xff; x00] = Some (0, false).
Proof.
  destruct (ecdsa_reduce_value 64 toy_p toy_limb_8 toy_ec [x0b] toy_sc_wf
              eq_refl) as [_ H1].
  destruct (ecdsa_reduce_value 64 toy_p toy_limb_8 toy_ec [xff; x00] toy_sc_wf
              eq_refl) as [_ H2].
  rewrite H1, H2. split; vm_compute; reflexivity.
Defined.

Lemma fe_codec_round_trip_witness :
  fe_import toy_p toy_fe (fe_export toy_p toy_fe (Zmod.of_Z toy_p 35) ++ [x00])
  = (Zmod.of_Z toy_p 35, true) /\
  snd (fe_import toy_p toy_fe [x2b]) = false.
Proof.
  destruct (fe_codec_round_trip 64 toy_p toy_p_odd toy_fe (Zmod.of_Z toy_p 35)
              [x00] [x2b] toy_fe_wf) as (_ & Hrt & Hbad & _).
  - simpl. lia.
  - split; [exact Hrt|]. rewrite Hbad. reflexivity.
Defined.

Lemma sc_fe_conversions_witness :
  sc_set_fe 64 toy_p toy_fe toy_sc (Zmod.of_Z toy_p 35) = (4, false) /\
  sc_set_fe 64 toy_p toy_fe toy_sc (fst (fe_set_sc 64 toy_p toy_fe toy_sc 7))
  = (7, true).
Proof.
  destruct (sc_fe_conversions 64 toy_p toy_limb_8 toy_p_odd toy_ec
              (Zmod.of_Z toy_p 35) 7 toy_fields_wf toy_sc_raw_wf)
    as (Hs & _ & Hrt).
  - apply toy_scalar_range. reflexivity.
  - split; [|apply Hrt; unfold toy_p; lia].
    unfold toy_fe, toy_sc. rewrite Hs. vm_compute. reflexivity.
Defined.

Lemma fe_invert_inverse_witness :
  fe_invert 64 toy_p toy_fe (Zmod.of_Z toy_p 5)
  = fe_invert_var 64 toy_p toy_fe (Zmod.of_Z toy_p 5) /\
  Zmod.mul (Zmod.of_Z toy_p 5)
           (fst (fe_invert 64 toy_p toy_fe (Zmod.of_Z toy_p 5)))
  = Zmod.one.
Proof.
  destruct (fe_invert_inverse 64 toy_p toy_limb_8 toy_p_prime toy_p_odd toy_fe
              (Zmod.of_Z toy_p 5) 2 toy_fe_wf toy_backend)
    as (Heq & _ & Hinv & _).
  split; [exact Heq|]. apply Hinv. vm_compute. discriminate.
Defined.

(** [4] is a square modulo 43 and [3] is not. *)
Lemma fe_sqrt_decides_squares_witness :
  (exists r, fe_sqrt 64 toy_p toy_fe (Zmod.of_Z toy_p 4) = Some (r, true) /\
             Zmod.mul r r = Zmod.of_Z toy_p 4) /\
  ~ (exists z : Zmod toy_p, Zmod.mul z z = Zmod.of_Z toy_p 3).
Proof.
  split.
  - destruct (fe_sqrt_decides_squares 64 toy_p toy_limb_8 toy_p_prime
                toy_p_odd toy_fe (Zmod.of_Z toy_p 4) toy_fe_wf eq_refl eq_refl)
      as (r & ok & Hs & _ & _ & Hr).
    assert (Hok : ok = true).
    { vm_compute in Hs. injection Hs as _ <-. reflexivity. }
    subst ok. exists r. split; [exact Hs|]. apply Hr. reflexivity.
  - destruct (fe_sqrt_decides_squares 64 toy_p toy_limb_8 toy_p_prime
                toy_p_odd toy_fe (Zmod.of_Z toy_p 3) toy_fe_wf eq_refl eq_refl)
      as (r & ok & Hs & _ & Hiff & _).
    intros Hz. apply Hiff in Hz. subst ok.
    vm_compute in Hs. discriminate.
Defined.

(* ----------------------------------------------------------------- *)
(** ** Curve arithmetic *)

Lemma point_var_group_law_witness :
  waff toy_p (wge_add_var 64 toy_p toy_ec toy_g toy_pub)
  = padd toy_p toy_ec (waff toy_p toy_g) (waff toy_p toy_pub) /\
  jaff toy_p (jge_dbl_var toy_p toy_ec toy_lifted)
  = padd toy_p toy_ec (jaff toy_p toy_lifted) (jaff toy_p toy_lifted) /\
  jaff toy_p (jge_mixed_sub_var toy_p toy_ec toy_lifted toy_pub)
  = padd toy_p toy_ec (jaff toy_p toy_lifted) (pneg toy_p (waff toy_p toy_pub)).
Proof.
  destruct (point_var_group_law 64 toy_p toy_limb_8 toy_p_prime toy_p_odd
              toy_ec toy_g toy_pub toy_lifted toy_lifted toy_fe_wf
              toy_flags_wf toy_cofactor toy_g_on_curve)
    as (_ & Ha & _ & Hd & _ & _ & _ & Hs).
  - vm_compute. reflexivity.
  - repeat split; assumption.
Defined.

(** Adding [G] to [3 G] given in Jacobian coordinates, to itself, and
    to its opposite. *)
Lemma jge_unified_group_law_witness :
  jaff toy_p (jge_add toy_p toy_ec (wge_to_jge toy_p toy_g) toy_lifted)
  = padd toy_p toy_ec (waff toy_p toy_g) (jaff toy_p toy_lifted) /\
  jaff toy_p (jge_mixed_add toy_p toy_ec (wge_to_jge toy_p toy_g) toy_g)
  = jaff toy_p (jge_dbl toy_p toy_ec (wge_to_jge toy_p toy_g)) /\
  jge_is_zero toy_p
    (jge_mixed_add toy_p toy_ec (wge_to_jge toy_p toy_g) (wge_neg toy_p toy_g))
  = true.
Proof.
  destruct (jge_unified_group_law toy_p toy_p_prime toy_p_odd toy_ec
              (wge_to_jge toy_p toy_g) toy_lifted toy_g toy_flags_wf
              toy_cofactor)
    as (Hadd & _ & _ & _ & _ & _ & _ & Hdbl & _); [vm_compute; reflexivity ..|].
  destruct (jge_unified_group_law toy_p toy_p_prime toy_p_odd toy_ec
              (wge_to_jge toy_p toy_g) toy_lifted (wge_neg toy_p toy_g)
              toy_flags_wf toy_cofactor)
    as (_ & _ & _ & _ & _ & _ & _ & _ & _ & Hneg);
    [vm_compute; reflexivity ..|].
  split; [exact Hadd|].
  split; [apply Hdbl | apply Hneg]; vm_compute; reflexivity.
Defined.

Lemma wge_constant_time_group_law_witness :
  waff toy_p (wge_add 64 toy_p toy_ec toy_pub toy_g)
  = padd toy_p toy_ec (waff toy_p toy_pub) (waff toy_p toy_g) /\
  waff toy_p (wge_dbl 64 toy_p toy_ec toy_pub)
  = padd toy_p toy_ec (waff toy_p toy_pub) (waff toy_p toy_pub) /\
  waff toy_p (wge_sub 64 toy_p toy_ec toy_pub toy_pub) = None.
Proof.
  destruct (wge_constant_time_group_law 64 toy_p toy_limb_8 toy_p_prime
              toy_p_odd toy_ec toy_pub toy_g toy_lifted toy_fe_wf toy_flags_wf
              toy_backend toy_cofactor toy_pub_on_curve toy_g_on_curve)
    as (_ & Hd & Ha & _).
  destruct (wge_constant_time_group_law 64 toy_p toy_limb_8 toy_p_prime
              toy_p_odd toy_ec toy_pub toy_pub toy_lifted toy_fe_wf
              toy_flags_wf toy_backend toy_cofactor toy_pub_on_curve
              toy_pub_on_curve)
    as (_ & _ & _ & Hs).
  split; [exact Ha|]. split; [exact Hd|].
  rewrite Hs. vm_compute. reflexivity.
Defined.

Lemma coordinate_conversions_witness :
  waff toy_p (jge_to_wge 64 toy_p toy_ec toy_lifted) = jaff toy_p toy_lifted /\
  waff toy_p (jge_to_wge_var 64 toy_p toy_ec toy_lifted)
  = jaff toy_p toy_lifted /\
  wge_inf toy_p (jge_to_wge 64 toy_p toy_ec (jge_zero toy_p)) = true.
Proof.
  destruct (coordinate_conversions 64 toy_p toy_limb_8 toy_p_prime toy_p_odd
              toy_ec toy_g toy_lifted toy_fe_wf toy_backend)
    as (_ & Hc & Hv & _).
  destruct (coordinate_conversions 64 toy_p toy_limb_8 toy_p_prime toy_p_odd
              toy_ec toy_g (jge_zero toy_p) toy_fe_wf toy_backend)
    as (_ & _ & _ & _ & Hz).
  split; [exact Hc|]. split; [exact Hv|]. rewrite Hz. vm_compute. reflexivity.
Defined.

Lemma wge_codec_round_trip_witness :
  (wge_import 64 toy_p toy_ec [x04; x23; x15] 3 = Some (Some toy_pub) /\
   on_curve toy_p toy_ec (waff toy_p toy_pub) = true /\
   wge_validate toy_p toy_ec toy_pub = true) /\
  exists raw,
    wge_export toy_p toy_ec toy_pub true = Some raw /\
    length raw = 2%nat /\
    wge_import 64 toy_p toy_ec raw (length raw) = Some (Some toy_pub).
Proof.
  assert (Hi : wge_import 64 toy_p toy_ec [x04; x23; x15] 3
               = Some (Some toy_pub)) by (vm_compute; reflexivity).
  destruct (wge_codec_round_trip 64 toy_p toy_p_prime toy_p_odd toy_ec
              toy_fe_wf toy_backend toy_sqrt_complete) as [Hs Hr].
  split.
  - destruct (Hs [x04; x23; x15] 3%nat toy_pub Hi) as (_ & Hoc & Hv & _).
    split; [exact Hi|]. split; assumption.
  - apply (Hr toy_pub true toy_pub_on_curve).
Defined.

(** Lifting the abscissa 35 with an even ordinate gives [(35, 22)],
    the opposite of [toy_pub = (35, 21)]. *)
Lemma wge_set_x_lifts_witness :
  exists R,
    wge_set_x 64 toy_p toy_ec (Zmod.of_Z toy_p 35) (Some false)
    = Some (R, true) /\
    wge_x toy_p R = Zmod.of_Z toy_p 35 /\
    fe_is_odd toy_p (wge_y toy_p R) = false /\
    on_curve toy_p toy_ec (waff toy_p R) = true.
Proof.
  destruct (wge_set_x_lifts 64 toy_p toy_p_prime toy_p_odd toy_ec
              (Zmod.of_Z toy_p 35) (Zmod.of_Z toy_p 21) false toy_backend
              toy_sqrt_complete toy_pub_on_curve)
    as (R & Hs & _ & Hx & Hy & Hoc & Hodd).
  exists R. split; [exact Hs|]. split; [exact Hx|]. split; [|exact Hoc].
  apply Hodd. destruct Hy as [Hy|Hy]; rewrite Hy; vm_compute; discriminate.
Defined.

(* ----------------------------------------------------------------- *)
(** ** Tables and scalar multiplication *)


Lemma wei_mul_g_multiplies_witness :
  waff toy_p (wei_mul_g 64 toy_p toy_ec 7)
  = pmul toy_p toy_ec 7 (waff toy_p toy_g) /\
  jaff toy_p (wei_jmul_g 64 toy_p toy_ec 0) = None.
Proof.
  destruct (wei_mul_g_multiplies 64 toy_p toy_limb_8 toy_p_prime toy_p_odd
              toy_ec toy_fe_wf toy_flags_wf toy_cofactor toy_associative 7
              toy_backend toy_sc_wf toy_limb_4 toy_tables_wf toy_blind
              toy_order toy_g_on_curve)
    as (_ & H7 & _).
  { apply toy_scalar_range. reflexivity. }
  destruct (wei_mul_g_multiplies 64 toy_p toy_limb_8 toy_p_prime toy_p_odd
              toy_ec toy_fe_wf toy_flags_wf toy_cofactor toy_associative 0
              toy_backend toy_sc_wf toy_limb_4 toy_tables_wf toy_blind
              toy_order toy_g_on_curve)
    as (H0 & _).
  { apply toy_scalar_range. reflexivity. }
  split; [exact H7|]. rewrite H0. reflexivity.
Defined.

(** [3 G + 5 (3 G) = 18 G]. *)
Lemma wei_mul_double_var_multiplies_witness :
  exists R,
    wei_jmul_double_var 64 toy_p toy_ec 3 toy_pub 5 = Some R /\
    jaff toy_p R = pmul toy_p toy_ec 18 (waff toy_p toy_g).
Proof.
  destruct (wei_mul_double_var_multiplies 64 toy_p toy_limb_8 toy_p_prime
              toy_p_odd toy_ec toy_fe_wf toy_flags_wf toy_cofactor
              toy_associative 3 5 toy_pub toy_endo toy_sc_wf toy_limb_9)
    as (R & HR & Hv & _).
  - vm_compute. reflexivity.
  - exact toy_g_on_curve.
  - exact toy_pub_on_curve.
  - apply toy_scalar_range. reflexivity.
  - apply toy_scalar_range. reflexivity.
  - exists R. split; [exact HR|]. rewrite Hv. vm_compute. reflexivity.
Defined.

(* ----------------------------------------------------------------- *)
(** ** ECDSA *)

(** The key 3 has the public key [3 G = (35, 21)]; the key 31 = n is
    refused. *)
Lemma ecdsa_pubkey_create_valid_witness :
  (exists pub A,
     ecdsa_pubkey_create 64 toy_p toy_ec [x03] true = Some pub /\
     length pub = 2%nat /\
     wge_import 64 toy_p toy_ec pub (length pub) = Some (Some A) /\
     waff toy_p A = pmul toy_p toy_ec 3 (waff toy_p toy_g)) /\
  ecdsa_pubkey_create 64 toy_p toy_ec [x1f] true = None.
Proof.
  split.
  - apply (ecdsa_pubkey_create_valid 64 toy_p toy_limb_8 toy_p_prime toy_p_odd
             toy_ec toy_wei_wf toy_cofactor toy_associative toy_n_prime
             toy_backend toy_sqrt_complete toy_limb_4 toy_blind toy_order
             [x03] true).
    simpl. lia.
  - apply (ecdsa_pubkey_create_valid 64 toy_p toy_limb_8 toy_p_prime toy_p_odd
             toy_ec toy_wei_wf toy_cofactor toy_associative toy_n_prime
             toy_backend toy_sqrt_complete toy_limb_4 toy_blind toy_order
             [x1f] true).
    simpl. lia.
Defined.

(** Signing the message [0x08] with the key 3 gives [(r, s) = (2, 7)],
    which verifies; signing it with the key 1 gives [s = 0], which
    does not.  The curve is the one with the endomorphism. *)
Lemma ecdsa_sign_then_verify_witness :
  ec_endo toy_p glv_ec = true /\
  ecdsa_sign 64 toy_p glv_ec Z toy_drbg_init toy_drbg_generate 5 [x08] [x03]
  = Return (Some ([x02; x07], 0)) /\
  ecdsa_verify 64 toy_p glv_ec [x08] [x02; x07] [x04; x23; x15]
  = Return true /\
  ecdsa_sign 64 toy_p glv_ec Z toy_drbg_init toy_drbg_generate 5 [xe8] [x01]
  = Return (Some ([x02; x00], 0)) /\
  ecdsa_verify 64 toy_p glv_ec [xe8] [x02; x00] [x04; x02; x0c]
  = Return false.
Proof.
  destruct (ecdsa_sign_then_verify 64 toy_p toy_limb_8 toy_p_prime toy_p_odd
              glv_ec glv_wei_wf glv_endo_wf glv_cofactor glv_associative
              glv_n_prime glv_backend glv_sqrt_complete toy_limb_9 toy_limb_4
              glv_blind glv_order Z toy_drbg_init toy_drbg_generate 5%nat
              [x08] [x03] false)
    as (pub & Hpub & Hs).
  { simpl. lia. }
  { vm_compute. reflexivity. }
  destruct (ecdsa_sign_then_verify 64 toy_p toy_limb_8 toy_p_prime toy_p_odd
              glv_ec glv_wei_wf glv_endo_wf glv_cofactor glv_associative
              glv_n_prime glv_backend glv_sqrt_complete toy_limb_9 toy_limb_4
              glv_blind glv_order Z toy_drbg_init toy_drbg_generate 5%nat
              [xe8] [x01] false)
    as (pub' & Hpub' & Hs').
  { simpl. lia. }
  { vm_compute. reflexivity. }
  assert (E : ecdsa_sign 64 toy_p glv_ec Z toy_drbg_init toy_drbg_generate 5
                [x08] [x03] = Return (Some ([x02; x07], 0)))
    by (vm_compute; reflexivity).
  assert (E' : ecdsa_sign 64 toy_p glv_ec Z toy_drbg_init toy_drbg_generate 5
                 [xe8] [x01] = Return (Some ([x02; x00], 0)))
    by (vm_compute; reflexivity).
  rewrite E in Hs. rewrite E' in Hs'.
  vm_compute in Hpub. injection Hpub as <-.
  vm_compute in Hpub'. injection Hpub' as <-.
  destruct Hs as (_ & _ & _ & Hv). destruct Hs' as (_ & _ & _ & Hv').
  split; [reflexivity|].
  split; [exact E|]. split; [rewrite Hv; reflexivity|].
  split; [exact E'|]. rewrite Hv'. reflexivity.
Defined.

Lemma ecdsa_sign_then_recover_witness :
  ec_endo toy_p glv_ec = true /\
  ecdsa_sign 64 toy_p glv_ec Z toy_drbg_init toy_drbg_generate 5 [x08] [x03]
  = Return (Some ([x02; x07], 0)) /\
  ecdsa_recover 64 toy_p glv_ec [x08] [x02; x07] 0 true
  = Return (Some [x03; x23]) /\
  ecdsa_pubkey_create 64 toy_p glv_ec [x03] true = Some [x03; x23].
Proof.
  destruct (ecdsa_sign_then_recover 64 toy_p toy_limb_8 toy_p_prime toy_p_odd
              glv_ec glv_wei_wf glv_endo_wf glv_cofactor glv_associative
              glv_n_prime glv_backend glv_sqrt_complete toy_limb_9 toy_limb_4
              glv_blind glv_order Z toy_drbg_init toy_drbg_generate 5%nat
              [x08] [x03] true glv_recover)
    as (pub & Hpub & Hs).
  { simpl. lia. }
  { vm_compute. reflexivity. }
  assert (E : ecdsa_sign 64 toy_p glv_ec Z toy_drbg_init toy_drbg_generate 5
                [x08] [x03] = Return (Some ([x02; x07], 0)))
    by (vm_compute; reflexivity).
  rewrite E in Hs.
  assert (Hp : pub = [x03; x23]).
  { vm_compute in Hpub. injection Hpub as <-. reflexivity. }
  subst pub.
  split; [reflexivity|].
  split; [exact E|]. split; [|exact Hpub].
  apply Hs. vm_compute. discriminate.
Defined.

(* ----------------------------------------------------------------- *)
(** ** Keys and signature encodings *)

(** The key 3: its opposite is 28, its inverse 21; zero is refused. *)
Lemma ecdsa_privkey_negate_invert_witness :
  ecdsa_privkey_verify toy_p toy_ec [x03] = true /\
  (exists neg inv,
     ecdsa_privkey_negate 64 toy_p toy_ec [x03] = Some neg /\
     ecdsa_privkey_invert 64 toy_p toy_ec [x03] = Some inv /\
     ecdsa_privkey_negate 64 toy_p toy_ec neg = Some [x03] /\
     ecdsa_privkey_invert 64 toy_p toy_ec inv = Some [x03]) /\
  ecdsa_privkey_negate 64 toy_p toy_ec [x00] = None.
Proof.
  destruct (ecdsa_privkey_negate_invert 64 toy_p toy_limb_8 toy_ec toy_sc_wf
              toy_sc_raw_wf [x03] toy_n_prime) as [Hv H].
  { simpl. lia. }
  destruct (ecdsa_privkey_negate_invert 64 toy_p toy_limb_8 toy_ec toy_sc_wf
              toy_sc_raw_wf [x00] toy_n_prime) as [Hv0 H0].
  { simpl. lia. }
  assert (E : ecdsa_privkey_verify toy_p toy_ec [x03] = true)
    by (rewrite Hv; vm_compute; reflexivity).
  assert (E0 : ecdsa_privkey_verify toy_p toy_ec [x00] = false)
    by (rewrite Hv0; vm_compute; reflexivity).
  rewrite E in H. rewrite E0 in H0.
  destruct H as (neg & inv & Hn & Hi & _ & _ & _ & _ & Hnn & Hii).
  split; [exact E|]. split; [|apply H0].
  exists neg, inv. repeat split; assumption.
Defined.

Lemma ecdsa_privkey_tweak_values_witness :
  ecdsa_privkey_tweak_add 64 toy_p toy_ec [x03] [x05] = Some [x08] /\
  ecdsa_privkey_tweak_mul 64 toy_p toy_ec [x03] [x05] = Some [x0f] /\
  ecdsa_privkey_tweak_add 64 toy_p toy_ec [x03] [x1c] = None.
Proof.
  destruct (ecdsa_privkey_tweak_values 64 toy_p toy_limb_8 toy_ec toy_sc_wf
              toy_sc_raw_wf [x03] [x05]) as (Ha & Hm & _).
  { simpl. lia. }
  { simpl. lia. }
  destruct (ecdsa_privkey_tweak_values 64 toy_p toy_limb_8 toy_ec toy_sc_wf
              toy_sc_raw_wf [x03] [x1c]) as (Hz & _).
  { simpl. lia. }
  { simpl. lia. }
  rewrite Ha, Hm, Hz. repeat split; vm_compute; reflexivity.
Defined.

(** [(2, 29)] is normalized to [(2, 2)]. *)
Lemma ecdsa_sig_normalize_low_s_witness :
  ecdsa_sig_normalize 64 toy_p toy_ec [x02; x1d] = Some [x02; x02] /\
  ecdsa_is_low_s 64 toy_p toy_ec [x02; x02] = true /\
  ecdsa_sig_normalize 64 toy_p toy_ec [x02; x02] = Some [x02; x02].
Proof.
  pose proof (ecdsa_sig_normalize_low_s 64 toy_p toy_limb_8 toy_ec toy_sc_wf
                toy_sc_raw_wf [x02; x1d]) as H.
  assert (E : ecdsa_sig_normalize 64 toy_p toy_ec [x02; x1d]
              = Some [x02; x02]) by (vm_compute; reflexivity).
  rewrite E in H.
  destruct H as (_ & _ & _ & _ & _ & Hlow & Hfix & _).
  { simpl. lia. }
  split; [exact E|]. split; assumption.
Defined.

(* ----------------------------------------------------------------- *)
(** ** Public keys *)

Lemma ecdsa_pubkey_convert_negate_witness :
  ecdsa_pubkey_verify 64 toy_p toy_ec [x03; x23] = Some true /\
  ecdsa_pubkey_convert 64 toy_p toy_ec [x03; x23] false
  = Some (Some [x04; x23; x15]) /\
  exists neg,
    ecdsa_pubkey_negate 64 toy_p toy_ec [x03; x23] true = Some (Some neg) /\
    ecdsa_pubkey_negate 64 toy_p toy_ec neg true = Some (Some [x03; x23]).
Proof.
  destruct (ecdsa_pubkey_convert_negate 64 toy_p toy_p_prime toy_p_odd toy_ec
              toy_fe_wf toy_backend toy_sqrt_complete toy_pub true false
              [x03; x23] toy_pub_on_curve)
    as (Hv & Hc & _ & neg & Hn & _ & Hnn).
  { vm_compute. reflexivity. }
  split; [exact Hv|]. split; [rewrite Hc; vm_compute; reflexivity|].
  exists neg. split; assumption.
Defined.

(** [3 G + G = 4 G = (21, 18)]; the empty list and a list with a
    malformed key are refused. *)
Lemma ecdsa_pubkey_combine_sums_witness :
  ecdsa_pubkey_combine 64 toy_p toy_ec [[x03; x23]; [x04; x02; x0c]] false
  = Some (Some [x04; x15; x12]) /\
  ecdsa_pubkey_combine 64 toy_p toy_ec [] false = Some None /\
  ecdsa_pubkey_combine 64 toy_p toy_ec
    [[x03; x23]; [x04; x02; x0c]; [x05]; [x03; x23]] false = Some None.
Proof.
  destruct (ecdsa_pubkey_combine_sums 64 toy_p toy_limb_8 toy_p_prime
              toy_p_odd toy_ec toy_fe_wf toy_flags_wf toy_backend
              [[x03; x23]; [x04; x02; x0c]] [toy_pub; toy_g]
              (wge_add 64 toy_p toy_ec toy_pub toy_g) false)
    as (Hsum & _ & Hnil & Hbad).
  { repeat constructor; vm_compute; reflexivity. }
  { vm_compute. reflexivity. }
  split; [rewrite Hsum; vm_compute; reflexivity|].
  split; [exact Hnil|].
  apply (Hbad [x05] [[x03; x23]]). vm_compute. reflexivity.
Defined.

(** The key 3 tweaked by 5 is the key 8, and [3 G] tweaked by 5 is
    [8 G]. *)
Lemma ecdsa_tweak_add_commutes_witness :
  ecdsa_privkey_tweak_add 64 toy_p toy_ec [x03] [x05] = Some [x08] /\
  ecdsa_pubkey_tweak_add 64 toy_p toy_ec [x03; x23] [x05] false
  = Some (ecdsa_pubkey_create 64 toy_p toy_ec [x08] false).
Proof.
  assert (E : ecdsa_privkey_tweak_add 64 toy_p toy_ec [x03] [x05]
              = Some [x08]) by (vm_compute; reflexivity).
  destruct (ecdsa_tweak_add_commutes 64 toy_p toy_limb_8 toy_p_prime toy_p_odd
              toy_ec toy_wei_wf toy_cofactor toy_associative toy_n_prime
              toy_backend toy_sqrt_complete toy_limb_4 toy_blind toy_order
              [x03] [x05] [x08] true false)
    as (pub & pub' & Hp & Hp' & Ht).
  { simpl. lia. }
  { simpl. lia. }
  { exact E. }
  assert (Hpub : pub = [x03; x23]).
  { vm_compute in Hp. injection Hp as <-. reflexivity. }
  subst pub. split; [exact E|]. rewrite Ht, Hp'. reflexivity.
Defined.

(** The toy curve is initialised from [toy_def]: a prime of 6 bits and
    an order of 5 bits, one byte each. *)
Lemma wei_init_establishes_witness :
  exists ec,
    wei_init 64 toy_p toy_def = Some ec /\
    wei_fields_wf 64 toy_p ec = true /\
    wei_tables_wf 64 toy_p ec /\
    sc_n (ec_sc toy_p ec) = 31 /\
    ec_pmodn toy_p ec = toy_p mod sc_n (ec_sc toy_p ec).
Proof.
  destruct (wei_init_establishes 64 toy_p toy_limb_8 toy_p_odd toy_def)
    as (ec & Hinit & Hf & _ & _ & Htab & Hn & Hpm & _).
  { simpl. unfold MAX_SCALAR_BITS. lia. }
  { reflexivity. }
  { reflexivity. }
  { simpl. unfold toy_p. lia. }
  { simpl. lia. }
  { reflexivity. }
  { vm_compute. split; [discriminate|reflexivity]. }
  { reflexivity. }
  exists ec. split; [exact Hinit|]. split; [exact Hf|].
  split; [exact Htab|]. split; [exact Hn|exact Hpm].
Defined.
